(** * MDFormatting: the Markdown-to-HTML compiler [renderMarkdown]

    A shallow embedding of the module of the [MDFormatting] component
    (the function [renderMarkdown] and its helpers) and the properties
    the specification states about it.

    Conventions of the embedding.
    - A JavaScript string is the list of its UTF-16 code units ([list N]);
      the placeholder keys use U+E000 and U+E001, which no 8-bit character
      type can hold.
    - Regular expressions are values of [regex], run by a backtracking
      matcher that follows the ECMAScript matching rules (priority order
      of alternatives, greedy and lazy quantifiers, captures, back
      references, the empty-iteration check of quantifiers).  Each regex
      is written next to its source text.
    - The closure variables of [renderMarkdown] ([placeholderMap],
      [placeholderId], [headings]) are one record threaded through a
      state-and-exception monad; a [TypeError] raised by the run time is
      the outcome [TypeError].
    - A loop over the index [i] of [lines] is a recursion on the lines
      from [i] on; where the body moves [i] by more than one line, the
      lines it has passed are counted in [skip] and stepped over.
    - Recursion that is not on the lines (quotes in quotes, lists in
      lists, colored spans in colored spans, the bodies of footnotes) has
      no depth cap in the source: the run time bounds it by its call
      stack and raises [RangeError] where the stack is used up.  The
      model counts the nested calls of [parseBlocks], [parseListAt] and
      [renderInline] that the stack still holds in [fuel], and a call
      made where no call is left is the outcome [RangeError].
      [renderMarkdownWith fuel] is the compile on a stack that holds
      [fuel] nested calls.  [renderMarkdown] is the compile on a stack
      that holds the nesting of the text: no text asks for more than
      [fuelFor] nested calls ([renderMarkdown_total]), and a deeper stack
      changes nothing ([renderMarkdownWith_stable]).  The properties of
      [renderMarkdown] are those of the program on such a stack.
    - Plain objects used as dictionaries ([Record<string, T>]) keep their
      own properties in insertion order and inherit from
      [Object.prototype], as the run time does. *)

From Stdlib Require Import List NArith Arith String Ascii Bool Lia.
Import ListNotations.
Local Open Scope N_scope.
Local Open Scope list_scope.

(** ** JavaScript strings *)

Module Js.

Definition jsstring := list N.

Definition ch (a : ascii) : N := N_of_ascii a.

(** [str] reads a literal verbatim. *)
Definition str (s : string) : jsstring := map N_of_ascii (list_ascii_of_string s).

(** [quo] reads a literal in which the apostrophe stands for the double
    quote U+0022 (none of the literals of the source holds an apostrophe). *)
Definition quo (s : string) : jsstring :=
  map (fun c => if c =? 39 then 34 else c) (str s).

Definition inr (lo hi c : N) : bool := (lo <=? c) && (c <=? hi).

(** WhiteSpace and LineTerminator of ECMAScript: the class [\s] and the
    characters removed by [trim]. *)
Definition isWs (c : N) : bool :=
  inr 9 13 c || (c =? 32) || (c =? 160) || (c =? 5760) || inr 8192 8202 c
  || (c =? 8232) || (c =? 8233) || (c =? 8239) || (c =? 8287)
  || (c =? 12288) || (c =? 65279).

Definition isDigit (c : N) : bool := inr 48 57 c.
Definition isLower (c : N) : bool := inr 97 122 c.
Definition isUpper (c : N) : bool := inr 65 90 c.
Definition isAlpha (c : N) : bool := isLower c || isUpper c.
Definition isAlnum (c : N) : bool := isAlpha c || isDigit c.
(** [\w] *)
Definition isWordCh (c : N) : bool := isAlnum c || (c =? 95).
(** Line terminators, which [.] does not match. *)
Definition isLineTerm (c : N) : bool :=
  (c =? 10) || (c =? 13) || (c =? 8232) || (c =? 8233).

Definition oneOf (s : string) (c : N) : bool := existsb (N.eqb c) (str s).

Definition lowerCh (c : N) : N := if isUpper c then c + 32 else c.

(** [String.prototype.toLowerCase], on texts of Basic Latin (code units
    below 128), where it lowers the letters A to Z and nothing else.  The
    case tables of the run time, which lower the other cased letters too,
    are not part of the repository: on a code unit from 128 on the model
    does nothing, and the run time may.  The properties that read a
    lowered text (an anchor, the key of a link definition) are stated
    for texts of Basic Latin ([basicLatin]). *)
Definition toLowerCase (s : jsstring) : jsstring := map lowerCh s.

Fixpoint trimStart (s : jsstring) : jsstring :=
  match s with
  | c :: t => if isWs c then trimStart t else s
  | [] => []
  end.

Definition trimEnd (s : jsstring) : jsstring := rev (trimStart (rev s)).

(** [String.prototype.trim] *)
Definition trim (s : jsstring) : jsstring := trimEnd (trimStart s).

Fixpoint eqs (a b : jsstring) : bool :=
  match a, b with
  | [], [] => true
  | x :: a', y :: b' => (x =? y) && eqs a' b'
  | _, _ => false
  end.

(** [String.prototype.startsWith] *)
Fixpoint startsWith (s p : jsstring) : bool :=
  match p, s with
  | [], _ => true
  | x :: p', y :: s' => (x =? y) && startsWith s' p'
  | _ :: _, [] => false
  end.

(** [String.prototype.endsWith] *)
Definition endsWith (s p : jsstring) : bool := startsWith (rev s) (rev p).

(** [String.prototype.includes] *)
Fixpoint includes (s p : jsstring) : bool :=
  startsWith s p ||
  match s with
  | [] => false
  | _ :: t => includes t p
  end.

(** [s.split(sep)] for a non-empty separator: the pieces between the
    successive, non-overlapping occurrences of [sep], found left to right.
    [skip] counts the code units of an occurrence still to be dropped and
    [cur] holds the current piece, reversed. *)
Fixpoint splitGo (sep : jsstring) (s : jsstring) (skip : nat) (cur : jsstring)
  : list jsstring :=
  match s with
  | [] => [rev cur]
  | c :: t =>
      match skip with
      | S n => splitGo sep t n cur
      | O =>
          if startsWith s sep
          then rev cur :: splitGo sep t (pred (List.length sep)) []
          else splitGo sep t O (c :: cur)
      end
  end.

Definition split (s sep : jsstring) : list jsstring := splitGo sep s O [].

(** [Array.prototype.join] *)
Fixpoint join (sep : jsstring) (l : list jsstring) : jsstring :=
  match l with
  | [] => []
  | [x] => x
  | x :: t => x ++ sep ++ join sep t
  end.

(** [s.replace(/c/g, rep)] for a one-character pattern. *)
Definition replaceCh (c : N) (rep : jsstring) (s : jsstring) : jsstring :=
  flat_map (fun x => if x =? c then rep else [x]) s.

(** Decimal image of a number, as template literals print it. *)
Fixpoint digitsGo (fuel : nat) (n : N) (acc : jsstring) : jsstring :=
  match fuel with
  | O => acc
  | S f =>
      let acc' := (48 + n mod 10) :: acc in
      if n <? 10 then acc' else digitsGo f (n / 10) acc'
  end.

Definition numToString (n : N) : jsstring := digitsGo (S (N.to_nat (N.log2 n))) n [].

End Js.
Import Js.

(** ** Regular expressions *)

Module Re.

Inductive regex : Type :=
| Eps
| Chr (p : N -> bool)                       (* a class, a literal, [.] *)
| Seq (a b : regex)
| Alt (a b : regex)
| Rep (mn : nat) (mx : option nat) (greedy : bool) (a : regex)
| Grp (i : nat) (a : regex)                 (* capturing group number i *)
| Bref (i : nat)                            (* \i *)
| Bol                                       (* ^ (no m flag) *)
| Eol                                       (* $ (no m flag) *)
| Wordb.                                    (* \b *)

(** The captures defined so far. *)
Definition caps := list (nat * jsstring).

Fixpoint cap (i : nat) (c : caps) : option jsstring :=
  match c with
  | [] => None
  | (j, w) :: t => if Nat.eqb i j then Some w else cap i t
  end.

Definition setcap (i : nat) (w : jsstring) (c : caps) : caps :=
  (i, w) :: filter (fun e => negb (Nat.eqb (fst e) i)) c.

Definition clearcaps (gs : list nat) (c : caps) : caps :=
  filter (fun e => negb (existsb (Nat.eqb (fst e)) gs)) c.

Fixpoint groupsOf (r : regex) : list nat :=
  match r with
  | Seq a b | Alt a b => groupsOf a ++ groupsOf b
  | Rep _ _ _ a => groupsOf a
  | Grp i a => i :: groupsOf a
  | _ => []
  end.

(** A position of the matcher: the code unit before it (none at index 0),
    the rest of the input, the captures. *)
Definition res := (jsstring * caps)%type.
Definition cont := option N -> jsstring -> caps -> option res.
Definition matcher := option N -> jsstring -> caps -> cont -> option res.

Definition orElse (a : option res) (b : unit -> option res) : option res :=
  match a with
  | Some x => Some x
  | None => b tt
  end.

Definition isWordOpt (o : option N) : bool :=
  match o with
  | Some c => isWordCh c
  | None => false
  end.

(** RepeatMatcher.  Every iteration either counts down [mn] or consumes a
    code unit (an empty iteration is refused once [mn] is 0), so
    [mn + length s] iterations are all there can be: [fuel] starts there,
    and where it is used up, [mn] is 0 and [s] is empty. *)
Fixpoint repLoop (body : matcher) (inner : list nat) (fuel : nat)
    (mn : nat) (mx : option nat) (greedy : bool)
    (prev : option N) (s : jsstring) (c : caps) (k : cont) : option res :=
  match mx with
  | Some O => k prev s c
  | _ =>
      match fuel with
      | O => if Nat.eqb mn 0 then k prev s c else None
      | S fuel' =>
          let iter := fun _ : unit =>
            body prev s (clearcaps inner c) (fun p' s' c' =>
              if Nat.eqb mn 0 && Nat.eqb (List.length s') (List.length s)
              then None
              else repLoop body inner fuel' (pred mn) (option_map pred mx)
                           greedy p' s' c' k) in
          if Nat.ltb 0 mn then iter tt
          else if greedy then orElse (iter tt) (fun _ => k prev s c)
          else orElse (k prev s c) iter
      end
  end.

Fixpoint rmatch (r : regex) : matcher :=
  fun prev s c k =>
  match r with
  | Eps => k prev s c
  | Chr p =>
      match s with
      | x :: t => if p x then k (Some x) t c else None
      | [] => None
      end
  | Seq a b => rmatch a prev s c (fun p' s' c' => rmatch b p' s' c' k)
  | Alt a b => orElse (rmatch a prev s c k) (fun _ => rmatch b prev s c k)
  | Rep mn mx g a =>
      repLoop (rmatch a) (groupsOf a) (mn + List.length s) mn mx g prev s c k
  | Grp i a =>
      rmatch a prev s c (fun p' s' c' =>
        k p' s' (setcap i (firstn (List.length s - List.length s') s) c'))
  | Bref i =>
      match cap i c with
      | None => k prev s c
      | Some w =>
          if startsWith s w
          then k (last (map Some w) prev) (skipn (List.length w) s) c
          else None
      end
  | Bol => match prev with None => k prev s c | Some _ => None end
  | Eol => match s with [] => k prev s c | _ :: _ => None end
  | Wordb =>
      if xorb (isWordOpt prev) (isWordOpt (hd_error s)) then k prev s c else None
  end.

(** One match: the matched text, the captures, what follows. *)
Record found := { m0 : jsstring; mcaps : caps; mrest : jsstring }.

(** A match starting exactly at the current position. *)
Definition execAt (r : regex) (prev : option N) (s : jsstring) : option found :=
  match rmatch r prev s [] (fun _ s' c' => Some (s', c')) with
  | Some (s', c') =>
      Some {| m0 := firstn (List.length s - List.length s') s;
              mcaps := c'; mrest := s' |}
  | None => None
  end.

(** The leftmost match ([RegExp.prototype.exec] from index 0), with the
    text before it. *)
Fixpoint searchFrom (r : regex) (prev : option N) (s : jsstring) (pre : jsstring)
  : option (jsstring * found) :=
  match execAt r prev s with
  | Some f => Some (rev pre, f)
  | None =>
      match s with
      | [] => None
      | x :: t => searchFrom r (Some x) t (x :: pre)
      end
  end.

Definition search (r : regex) (s : jsstring) : option (jsstring * found) :=
  searchFrom r None s [].

(** [s.match(r)] for a regex without the g flag. *)
Definition rmatch1 (r : regex) (s : jsstring) : option found :=
  option_map snd (search r s).

(** [r.test(s)] *)
Definition test (r : regex) (s : jsstring) : bool :=
  match search r s with Some _ => true | None => false end.

(** [m[i]] of a match, [undefined] read as the empty string where the
    source takes it under [||] or [?:]. *)
Definition grp (i : nat) (f : found) : jsstring :=
  match cap i (mcaps f) with Some w => w | None => [] end.

(** [s.replace(r, rep)] for a regex without the g flag and a replacement
    without [$] patterns. *)
Definition replaceFirst (r : regex) (rep : jsstring) (s : jsstring) : jsstring :=
  match search r s with
  | Some (pre, f) => pre ++ rep ++ mrest f
  | None => s
  end.

(** All the matches of a regex with the g flag, left to right. *)
Fixpoint matchAllGo (r : regex) (prev : option N) (s : jsstring) (skip : nat)
  : list found :=
  match s with
  | [] =>
      match skip with
      | O => match execAt r prev [] with Some f => [f] | None => [] end
      | S _ => []
      end
  | x :: t =>
      match skip with
      | S n => matchAllGo r (Some x) t n
      | O =>
          match execAt r prev s with
          | Some f => f :: matchAllGo r (Some x) t (pred (List.length (m0 f)))
          | None => matchAllGo r (Some x) t O
          end
      end
  end.

Definition matchAll (r : regex) (s : jsstring) : list found := matchAllGo r None s O.

(** Constructors for the notation of the source.  [re] pairs a regex with
    its source text, where [\x22] stands for the double quote. *)
Definition re (source : string) (r : regex) : regex := r.
Definition c1 (a : ascii) : regex := Chr (N.eqb (ch a)).
Definition set (cs : string) : regex := Chr (oneOf cs).
Definition nset (cs : string) : regex := Chr (fun c => negb (oneOf cs c)).
Fixpoint lits (s : jsstring) : regex :=
  match s with
  | [] => Eps
  | [x] => Chr (N.eqb x)
  | x :: t => Seq (Chr (N.eqb x)) (lits t)
  end.
Definition lit (s : string) : regex := lits (str s).
Fixpoint seq (l : list regex) : regex :=
  match l with
  | [] => Eps
  | [r] => r
  | r :: t => Seq r (seq t)
  end.
Definition star (r : regex) : regex := Rep 0 None true r.
Definition plus (r : regex) : regex := Rep 1 None true r.
Definition opt (r : regex) : regex := Rep 0 (Some 1%nat) true r.
Definition starL (r : regex) : regex := Rep 0 None false r.
Definition plusL (r : regex) : regex := Rep 1 None false r.
Definition atLeast (n : nat) (r : regex) : regex := Rep n None true r.
Definition between (n m : nat) (r : regex) : regex := Rep n (Some m) true r.
Definition exactly (n : nat) (r : regex) : regex := Rep n (Some n) true r.
Definition ws : regex := Chr isWs.                            (* \s *)
Definition nws : regex := Chr (fun c => negb (isWs c)).       (* \S *)
Definition digit : regex := Chr isDigit.                      (* \d *)
Definition dot : regex := Chr (fun c => negb (isLineTerm c)). (* . *)
Definition any : regex := Chr (fun _ => true).                (* [^] [\s\S] *)
(** A literal under the i flag (Basic Latin pattern). *)
Definition liti (s : string) : regex :=
  seq (map (fun x => Chr (fun c => lowerCh c =? lowerCh x)) (str s)).

End Re.
Import Re.

(** ** Global replacement

    [s.replace(r, f)] with the g flag: the input is cut into the matches,
    found left to right, and the code units between them; the callback is
    run on each match in that order. *)

Module Subst.

Inductive seg : Type :=
| Lit (c : N)
| Hit (f : found).

Fixpoint segmentsGo (r : regex) (prev : option N) (s : jsstring) (skip : nat)
  : list seg :=
  match s with
  | [] =>
      match skip with
      | O => match execAt r prev [] with Some f => [Hit f] | None => [] end
      | S _ => []
      end
  | x :: t =>
      match skip with
      | S n => segmentsGo r (Some x) t n
      | O =>
          match execAt r prev s with
          | Some f =>
              match m0 f with
              | [] => Hit f :: Lit x :: segmentsGo r (Some x) t O
              | _ :: w => Hit f :: segmentsGo r (Some x) t (List.length w)
              end
          | None => Lit x :: segmentsGo r (Some x) t O
          end
      end
  end.

Definition segments (r : regex) (s : jsstring) : list seg := segmentsGo r None s O.

(** A callback without effects. *)
Definition replaceAll (r : regex) (cb : found -> jsstring) (s : jsstring) : jsstring :=
  flat_map (fun g => match g with Lit c => [c] | Hit f => cb f end) (segments r s).

(** [s.split(r)[0]] for a regex that matches no empty string: the text
    before the first match, or all of [s]. *)
Definition splitHead (r : regex) (s : jsstring) : jsstring :=
  match search r s with
  | Some (pre, _) => pre
  | None => s
  end.

End Subst.
Import Subst.

(** ** Plain objects used as dictionaries *)

Module Obj.

Definition assoc {V : Type} (k : jsstring) (l : list (jsstring * V)) : option V :=
  option_map snd (find (fun e => eqs (fst e) k) l).

(** Assignment to an own property: an existing key keeps its place. *)
Fixpoint put {V : Type} (k : jsstring) (v : V) (l : list (jsstring * V))
  : list (jsstring * V) :=
  match l with
  | [] => [(k, v)]
  | (k', v') :: t => if eqs k' k then (k, v) :: t else (k', v') :: put k v t
  end.

(** An own-property dictionary created by [{}]; [proto] is the object a
    write to [__proto__] has installed as prototype, if any. *)
Record dict (V : Type) : Type := { own : list (jsstring * V); proto : option V }.
Arguments own {V} _.
Arguments proto {V} _.

Definition empty {V : Type} : dict V := {| own := []; proto := None |}.

Definition protoName : jsstring := str "__proto__".

(** The properties of [Object.prototype]. *)
Definition objectPrototypeNames : list jsstring :=
  map str ["constructor"; "__defineGetter__"; "__defineSetter__";
           "hasOwnProperty"; "__lookupGetter__"; "__lookupSetter__";
           "isPrototypeOf"; "propertyIsEnumerable"; "toString"; "valueOf";
           "__proto__"; "toLocaleString"]%string.

Definition inherited (k : jsstring) : bool := existsb (eqs k) objectPrototypeNames.

(** [o[k] = v] for a primitive [v]: the setter of [__proto__] ignores it. *)
Definition setPrim {V : Type} (k : jsstring) (v : V) (o : dict V) : dict V :=
  if eqs k protoName then o else {| own := put k v (own o); proto := proto o |}.

(** [o[k] = v] for an object [v]: [__proto__] installs it as prototype. *)
Definition setObj {V : Type} (k : jsstring) (v : V) (o : dict V) : dict V :=
  if eqs k protoName then {| own := own o; proto := Some v |}
  else {| own := put k v (own o); proto := proto o |}.

(** An array index: the canonical decimal image of an integer below
    2^32 - 1.  [Object.keys] lists these first, in ascending order. *)
Definition parseDec (k : jsstring) : N := fold_left (fun a c => 10 * a + (c - 48)) k 0.

Definition arrayIndex (k : jsstring) : option N :=
  match k with
  | [] => None
  | _ :: _ =>
      if forallb isDigit k && (Nat.leb (List.length k) 10)
      then let n := parseDec k in
           if eqs (numToString n) k && (n <? 4294967295) then Some n else None
      else None
  end.

Fixpoint insertIdx (e : N * jsstring) (l : list (N * jsstring)) : list (N * jsstring) :=
  match l with
  | [] => [e]
  | e' :: t => if fst e <=? fst e' then e :: l else e' :: insertIdx e t
  end.

(** [Object.keys(o)] *)
Definition keys {V : Type} (o : dict V) : list jsstring :=
  let ks := map fst (own o) in
  let idx := fold_right (fun k acc =>
               match arrayIndex k with Some n => insertIdx (n, k) acc | None => acc end)
               [] ks in
  map snd idx ++ filter (fun k => match arrayIndex k with Some _ => false | None => true end) ks.

(** [o[k]] for a key that [Object.keys(o)] returned. *)
Definition getOwn {V : Type} (k : jsstring) (o : dict V) : option V := assoc k (own o).

End Obj.
Import Obj.

(** ** The helpers of the module *)

Definition dq : N := 34.

(** [const EMOJI_MAP] *)
Definition EMOJI_MAP : list (jsstring * jsstring) :=
  [ (str "smile", [55357; 56836]);
    (str "grin", [55357; 56833]);
    (str "joy", [55357; 56834]);
    (str "wink", [55357; 56841]);
    (str "thumbsup", [55357; 56397]);
    (str "thumbsdown", [55357; 56398]);
    (str "heart", [10084; 65039]);
    (str "fire", [55357; 56613]);
    (str "tada", [55356; 57225]);
    (str "rocket", [55357; 56960]);
    (str "warning", [9888; 65039]);
    (str "question", [10067]);
    (str "check", [9989]) ].

(** [const TOC_PLACEHOLDER = "§§__MD_TOC__§§"] *)
Definition TOC_PLACEHOLDER : jsstring := [167; 167] ++ str "__MD_TOC__" ++ [167; 167].

Definition escapeHtml (s : jsstring) : jsstring :=
  replaceCh (ch ">") (str "&gt;")
    (replaceCh (ch "<") (str "&lt;") (replaceCh (ch "&") (str "&amp;") s)).

Definition escapeHtmlAttr (s : jsstring) : jsstring :=
  replaceCh dq (str "&quot;") (escapeHtml s).

Definition R_mdUrl : regex :=
  re "/\\([()])/g"
    (Seq (c1 "\") (Grp 1 (set "()"))).

Definition unescapeMdUrl (s : jsstring) : jsstring :=
  replaceAll R_mdUrl (fun f => grp 1 f) s.

Definition R_slugTag : regex :=
  re "/<[\/!]*?[^<>]*?>/g"
    (seq [c1 "<"; starL (set "/!"); starL (nset "<>"); c1 ">"]).
Definition slugDrop (c : N) : bool :=
  negb (isLower c || isDigit c || isWs c || (c =? ch "-")).
Definition R_slugDrop : regex :=
  re "/[^a-z0-9\s-]/g"
    (Chr slugDrop).
Definition R_spaces : regex :=
  re "/\s+/g"
    (plus ws).
Definition R_hyphens : regex :=
  re "/-+/g"
    (plus (c1 "-")).

Definition slugify (s : jsstring) : jsstring :=
  replaceAll R_hyphens (fun _ => str "-")
    (replaceAll R_spaces (fun _ => str "-")
      (replaceAll R_slugDrop (fun _ => [])
        (replaceAll R_slugTag (fun _ => [])
          (trim (toLowerCase s))))).

Definition R_regexSyntax : regex :=
  re "/[.*+?^${}()|[\]\\]/g"
    (set "\.*+?^${}()|[]").

(** [str.replace(R, "\\$&")] *)
Definition escapeRegex (s : jsstring) : jsstring :=
  replaceAll R_regexSyntax (fun f => ch "\" :: m0 f) s.

(** ** extractDefinitions *)

Record LinkDef : Type := { url : jsstring; title : option jsstring }.

Record DefsResult : Type := {
  cleaned : jsstring;
  linkDefs : dict LinkDef;
  footnoteDefs : dict jsstring;
  abbrDefs : dict jsstring
}.

Definition R_newline : regex :=
  re "/\r\n?/g"
    (Seq (Chr (N.eqb 13)) (opt (Chr (N.eqb 10)))).
Definition nl : jsstring := [10].

(** [src.replace(/\r\n?/g, "\n")] *)
Definition normalizeNewlines (s : jsstring) : jsstring :=
  replaceAll R_newline (fun _ => nl) s.

Definition R_footnoteDef : regex :=
  re "/^\[\^([^\]]+)\]:\s*(.*)$/"
    (seq [Bol; lit "[^"; Grp 1 (plus (nset "]")); lit "]:"; star ws; Grp 2 (star dot); Eol]).
Definition R_indented : regex :=
  re "/^( {4,}|\t)/"
    (seq [Bol; Grp 1 (Alt (atLeast 4 (c1 " ")) (Chr (N.eqb 9)))]).
Definition R_indent4 : regex :=
  re "/^( {4}|\t)/"
    (seq [Bol; Grp 1 (Alt (exactly 4 (c1 " ")) (Chr (N.eqb 9)))]).
Definition R_blank : regex :=
  re "/^\s*$/"
    (seq [Bol; star ws; Eol]).
Definition R_abbrDef : regex :=
  re "/^\*\[([^\]]+)\]:\s+(.+)$/"
    (seq [Bol; lit "*["; Grp 1 (plus (nset "]")); lit "]:"; plus ws; Grp 2 (plus dot); Eol]).
Definition R_linkDef : regex :=
  re "/^\[([^\]]+)\]:\s*(\S+)(?:\s+\x22(.+?)\x22)?\s*$/"
    (seq [Bol; c1 "["; Grp 1 (plus (nset "]")); lit "]:"; star ws; Grp 2 (plus nws);
       opt (seq [plus ws; Chr (N.eqb dq); Grp 3 (plusL dot); Chr (N.eqb dq)]);
       star ws; Eol]).

(** The inner loop of a footnote definition: the indented and blank lines
    that follow it.  Returns the text and the number of lines taken. *)
Fixpoint footnoteLines (ls : list jsstring) (text : jsstring) : jsstring * nat :=
  match ls with
  | [] => (text, O)
  | l :: t =>
      if test R_indented l then
        let (text', n) := footnoteLines t (text ++ nl ++ replaceFirst R_indent4 [] l) in
        (text', S n)
      else if test R_blank l then
        let (text', n) := footnoteLines t (text ++ nl) in
        (text', S n)
      else (text, O)
  end.

Record defsAcc : Type := {
  a_remaining : list jsstring;
  a_linkDefs : dict LinkDef;
  a_footnoteDefs : dict jsstring;
  a_abbrDefs : dict jsstring
}.

(** The outer loop, on the lines from index [i] on; [skip] is the number
    of them the inner loop has already taken ([i] has moved past them). *)
Fixpoint extractLoop (ls : list jsstring) (skip : nat) (a : defsAcc) : defsAcc :=
  match ls with
  | [] => a
  | line :: t =>
      match skip with
      | S n => extractLoop t n a
      | O =>
          match rmatch1 R_footnoteDef line with
          | Some m =>
              let (text, n) := footnoteLines t (grp 2 m) in
              extractLoop t n
                {| a_remaining := a_remaining a;
                   a_linkDefs := a_linkDefs a;
                   a_footnoteDefs := setPrim (grp 1 m) text (a_footnoteDefs a);
                   a_abbrDefs := a_abbrDefs a |}
          | None =>
          match rmatch1 R_abbrDef line with
          | Some m =>
              extractLoop t O
                {| a_remaining := a_remaining a;
                   a_linkDefs := a_linkDefs a;
                   a_footnoteDefs := a_footnoteDefs a;
                   a_abbrDefs := setPrim (grp 1 m) (grp 2 m) (a_abbrDefs a) |}
          | None =>
          match rmatch1 R_linkDef line with
          | Some m =>
              extractLoop t O
                {| a_remaining := a_remaining a;
                   a_linkDefs :=
                     setObj (toLowerCase (grp 1 m))
                       {| url := grp 2 m; title := cap 3 (mcaps m) |}
                       (a_linkDefs a);
                   a_footnoteDefs := a_footnoteDefs a;
                   a_abbrDefs := a_abbrDefs a |}
          | None =>
              extractLoop t O
                {| a_remaining := a_remaining a ++ [line];
                   a_linkDefs := a_linkDefs a;
                   a_footnoteDefs := a_footnoteDefs a;
                   a_abbrDefs := a_abbrDefs a |}
          end end end
      end
  end.

Definition extractDefinitions (src : jsstring) : DefsResult :=
  let lines := split (normalizeNewlines src) nl in
  let a := extractLoop lines O
             {| a_remaining := []; a_linkDefs := empty;
                a_footnoteDefs := empty; a_abbrDefs := empty |} in
  {| cleaned := join nl (a_remaining a);
     linkDefs := a_linkDefs a;
     footnoteDefs := a_footnoteDefs a;
     abbrDefs := a_abbrDefs a |}.

(** ** The closure state of [renderMarkdown] and its monad *)

Record heading : Type := { level : nat; text : jsstring; id : jsstring }.

Record rstate : Type := {
  placeholderMap : list (jsstring * jsstring);   (* a Map, in insertion order *)
  placeholderId : N;
  headings : list heading
}.

Inductive outcome (A : Type) : Type :=
| Ok (a : A)
| TypeError          (* the exception the run time raises *)
| RangeError.        (* the exception of a call stack that is used up *)
Arguments Ok {A} a.
Arguments TypeError {A}.
Arguments RangeError {A}.

Definition M (A : Type) : Type := rstate -> outcome (A * rstate).

Definition ret {A : Type} (a : A) : M A := fun st => Ok (a, st).

Definition bind {A B : Type} (m : M A) (f : A -> M B) : M B :=
  fun st =>
    match m st with
    | Ok (a, st') => f a st'
    | TypeError => TypeError
    | RangeError => RangeError
    end.

Definition throw {A : Type} : M A := fun _ => TypeError.
Definition rangeError {A : Type} : M A := fun _ => RangeError.

Declare Scope monad_scope.
Delimit Scope monad_scope with monad.
Notation "x <- c ;; k" := (bind c (fun x => k))
  (at level 61, c at next level, right associativity) : monad_scope.
Local Open Scope monad_scope.

(** [s.replace(r, f)] with the g flag and a callback with effects. *)
Fixpoint replaceSegs (cb : found -> M jsstring) (l : list seg) : M jsstring :=
  match l with
  | [] => ret []
  | Lit c :: t => r <- replaceSegs cb t ;; ret (c :: r)
  | Hit f :: t => h <- cb f ;; r <- replaceSegs cb t ;; ret (h ++ r)
  end.

Definition replaceAllM (r : regex) (cb : found -> M jsstring) (s : jsstring)
  : M jsstring :=
  replaceSegs cb (segments r s).

(** [Array.prototype.map] with a callback with effects. *)
Fixpoint mapM {A B : Type} (f : A -> M B) (l : list A) : M (list B) :=
  match l with
  | [] => ret []
  | x :: t => y <- f x ;; r <- mapM f t ;; ret (y :: r)
  end.

(** ** The placeholder vault *)

Definition keyOpen : N := 57344.    (* U+E000 *)
Definition keyClose : N := 57345.   (* U+E001 *)

Definition placeholderKey (n : N) : jsstring := keyOpen :: numToString n ++ [keyClose].

Definition makePlaceholder (html : jsstring) : M jsstring :=
  fun st =>
    let key := placeholderKey (placeholderId st) in
    Ok (key, {| placeholderMap := put key html (placeholderMap st);
                placeholderId := placeholderId st + 1;
                headings := headings st |}).

(** [result.split(key).join(html)] for every entry, in insertion order. *)
Definition restoreWith (m : list (jsstring * jsstring)) (s : jsstring) : jsstring :=
  fold_left (fun result e => join (snd e) (split result (fst e))) m s.

Definition restorePlaceholders (s : jsstring) : M jsstring :=
  fun st => Ok (restoreWith (placeholderMap st) s, st).

(** ** renderInline: the regexes *)

Definition R_lf : regex :=
  re "/\n/g"
    (Chr (N.eqb 10)).
Definition R_escape : regex :=
  re "/\\([\\`*_{}\[\]()#+\-.!|>~:=])/g"
    (Seq (c1 "\") (Grp 1 (set "\`*_{}[]()#+-.!|>~:="))).
Definition R_codeSpan : regex :=
  re "/`([^`]+)`/g"
    (seq [c1 "`"; Grp 1 (plus (nset "`")); c1 "`"]).
Definition R_scheme : regex :=
  re "(?:https?|ftp)"
    (Alt (Seq (lit "http") (opt (c1 "s"))) (lit "ftp")).
Definition R_angleUrl : regex :=
  re "/<((?:https?|ftp):\/\/[^>]+)>/g"
    (seq [c1 "<"; Grp 1 (seq [R_scheme; lit "://"; plus (nset ">")]); c1 ">"]).
Definition emailUser (c : N) : bool := isAlnum c || oneOf "._%+-" c.
Definition emailHost (c : N) : bool := isAlnum c || oneOf ".-" c.
Definition R_emailBody : regex :=
  re "[A-Za-z0-9._%+-]+@[A-Za-z0-9.-]+\.[A-Za-z]{2,}"
    (seq [plus (Chr emailUser); c1 "@"; plus (Chr emailHost); c1 ".";
          atLeast 2 (Chr isAlpha)]).
Definition R_angleEmail : regex :=
  re "/<([A-Za-z0-9._%+-]+@[A-Za-z0-9.-]+\.[A-Za-z]{2,})>/g"
    (seq [c1 "<"; Grp 1 R_emailBody; c1 ">"]).
Definition R_comment : regex :=
  re "/<!--[\s\S]*?-->/g"
    (seq [lit "<!--"; starL any; lit "-->"]).
Definition R_tag : regex :=
  re "/<\/?[A-Za-z][^>]*>/g"
    (seq [c1 "<"; opt (c1 "/"); Chr isAlpha; star (nset ">"); c1 ">"]).
Definition R_titlePart : regex :=
  re "(?:\s+\x22(.+?)\x22)?"
    (opt (seq [plus ws; Chr (N.eqb dq); Grp 3 (plusL dot); Chr (N.eqb dq)])).
Definition R_refImage : regex :=
  re "/!\[([^\]]*)\]\[([^\]]*)\]/g"
    (seq [lit "!["; Grp 1 (star (nset "]")); lit "]["; Grp 2 (star (nset "]")); c1 "]"]).
Definition R_inlineImage : regex :=
  re "/!\[([^\]]*)\]\((\S+?)(?:\s+\x22(.+?)\x22)?\)/g"
    (seq [lit "!["; Grp 1 (star (nset "]")); lit "]("; Grp 2 (plusL nws);
          R_titlePart; c1 ")"]).
Definition R_refLink : regex :=
  re "/\[([^\]]+)\]\[([^\]]*)\]/g"
    (seq [c1 "["; Grp 1 (plus (nset "]")); lit "]["; Grp 2 (star (nset "]")); c1 "]"]).
Definition R_inlineLink : regex :=
  re "/\[([^\]]+)\]\((\S+?)(?:\s+\x22(.+?)\x22)?\)/g"
    (seq [c1 "["; Grp 1 (plus (nset "]")); lit "]("; Grp 2 (plusL nws);
          R_titlePart; c1 ")"]).
Definition R_footnoteRef : regex :=
  re "/\[\^([^\]]+)\]/g"
    (seq [lit "[^"; Grp 1 (plus (nset "]")); c1 "]"]).
Definition R_highlight : regex :=
  re "/==([^=]+)==/g"
    (seq [lit "=="; Grp 1 (plus (nset "=")); lit "=="]).
Definition R_boldItalic : regex :=
  re "/(\*\*\*|___)([^]+?)\1/g"
    (seq [Grp 1 (Alt (lit "***") (lit "___")); Grp 2 (plusL any); Bref 1]).
Definition R_bold : regex :=
  re "/(\*\*|__)([^]+?)\1/g"
    (seq [Grp 1 (Alt (lit "**") (lit "__")); Grp 2 (plusL any); Bref 1]).
Definition R_italic : regex :=
  re "/(\*|_)([^]+?)\1/g"
    (seq [Grp 1 (Alt (c1 "*") (c1 "_")); Grp 2 (plusL any); Bref 1]).
Definition R_strike : regex :=
  re "/~~([^~]+)~~/g"
    (seq [lit "~~"; Grp 1 (plus (nset "~")); lit "~~"]).
Definition colorName (c : N) : bool := (c =? ch "#") || isAlnum c.
Definition R_color : regex :=
  re "/\[color=([#a-zA-Z0-9]+)\]([\s\S]+?)\[\/color\]/g"
    (seq [lit "[color="; Grp 1 (plus (Chr colorName)); c1 "]"; Grp 2 (plusL any);
          lit "[/color]"]).
Definition isHex (c : N) : bool := isDigit c || inr 97 102 c || inr 65 70 c.
Definition R_hexColor : regex :=
  re "/^#?([0-9a-f]{3}|[0-9a-f]{6})$/i"
    (seq [Bol; opt (c1 "#");
          Grp 1 (Alt (exactly 3 (Chr isHex)) (exactly 6 (Chr isHex))); Eol]).
Definition emojiCode (c : N) : bool := isAlnum c || oneOf "_+-" c.
Definition R_emoji : regex :=
  re "/:([a-z0-9_+-]+):/gi"
    (seq [c1 ":"; Grp 1 (plus (Chr emojiCode)); c1 ":"]).
Definition R_pre : regex :=
  re "(^|[\s(])"
    (Grp 1 (Alt Bol (Chr (fun c => isWs c || (c =? ch "("))))).
Definition urlBody (c : N) : bool := negb (isWs c || (c =? ch "<")).
Definition urlLast (c : N) : bool :=
  negb (isWs c || oneOf "<.,:;')]}!" c || (c =? dq)).
Definition R_bareUrl : regex :=
  re "/(^|[\s(])((?:https?|ftp):\/\/[^\s<]+[^\s<\.,:;\x22')\]\}!])/gi"
    (seq [R_pre;
          Grp 2 (seq [Alt (Seq (liti "http") (opt (liti "s"))) (liti "ftp");
                      lit "://"; plus (Chr urlBody); Chr urlLast])]).
Definition R_bareEmail : regex :=
  re "/(^|[\s(])([A-Za-z0-9._%+-]+@[A-Za-z0-9.-]+\.[A-Za-z]{2,})/g"
    (seq [R_pre; Grp 2 R_emailBody]).
Definition R_issue : regex :=
  re "/(^|[\s(])#(\d+)\b/g"
    (seq [R_pre; c1 "#"; Grp 2 (plus digit); Wordb]).
Definition R_mention : regex :=
  re "/(^|[\s(])@([a-zA-Z0-9_][a-zA-Z0-9_-]*)/g"
    (seq [R_pre; c1 "@";
          Grp 2 (Seq (Chr isWordCh) (star (Chr (fun c => isWordCh c || (c =? ch "-")))))]).
Definition R_commit : regex :=
  re "/(^|[\s(])([0-9a-f]{7,40})\b/gi"
    (seq [R_pre; Grp 2 (between 7 40 (Chr isHex)); Wordb]).
(** [new RegExp(`\\b${escapeRegex(abbr)}\\b`, "g")]: [escapeRegex] puts a
    backslash before each of [.*+?^${}()|[\]\], so that the pattern between
    the two [\b] is the text of [abbr], taken literally. *)
Definition R_abbr (abbr : jsstring) : regex := seq [Wordb; lits abbr; Wordb].

(** ** Reading the dictionaries *)

(** What [o[k]] evaluates to, as far as the callers look at it: a value of
    the dictionary's type, another truthy value (a member inherited from
    the prototype chain), or a falsy one. *)
Inductive looked (V : Type) : Type :=
| Is (v : V)
| Alien
| Falsy.
Arguments Is {V} v.
Arguments Alien {V}.
Arguments Falsy {V}.

Definition truthy (s : jsstring) : bool :=
  match s with [] => false | _ :: _ => true end.

(** [linkDefs[key]]: an own property; else the chain, which is the
    installed prototype (a [LinkDef], whose members are [url] and
    [title]) if there is one, then [Object.prototype]. *)
Definition linkDefsGet (o : dict LinkDef) (k : jsstring) : looked LinkDef :=
  match assoc k (own o) with
  | Some d => Is d
  | None =>
      if eqs k protoName then
        match proto o with Some d => Is d | None => Alien end
      else
        match proto o with
        | Some d =>
            if eqs k (str "url") then (if truthy (url d) then Alien else Falsy)
            else if eqs k (str "title") then
              match title d with
              | Some t => if truthy t then Alien else Falsy
              | None => Falsy
              end
            else if inherited k then Alien else Falsy
        | None => if inherited k then Alien else Falsy
        end
  end.

(** [`${EMOJI_MAP[code]}`]: the glyph, or the text a template literal
    prints for an inherited member (the run times print a built-in
    function [f] as below), or nothing for [undefined]. *)
Definition emojiGet (k : jsstring) : option jsstring :=
  match assoc k EMOJI_MAP with
  | Some g => Some g
  | None =>
      if eqs k protoName then Some (str "[object Object]")
      else if eqs k (str "constructor") then Some (str "function Object() { [native code] }")
      else if inherited k then Some (str "function " ++ k ++ str "() { [native code] }")
      else None
  end.

(** ** renderInline *)

Definition aClass : jsstring :=
  quo " target='_blank' rel='noreferrer' class='text-primary underline-offset-2 hover:underline'>".

Definition titleAttr (t : option jsstring) : jsstring :=
  match t with
  | Some t => if truthy t then quo " title='" ++ escapeHtmlAttr t ++ quo "'" else []
  | None => []
  end.

Definition imgHtml (src alt : jsstring) (t : option jsstring) : jsstring :=
  quo "<img src='" ++ src ++ quo "' alt='" ++ escapeHtmlAttr alt ++ quo "'"
  ++ titleAttr t ++ quo " class='inline-block max-w-full align-middle rounded-md' />".

Definition linkHtml (href : jsstring) (t : option jsstring) (inner : jsstring) : jsstring :=
  quo "<a href='" ++ href ++ quo "'" ++ titleAttr t ++ aClass ++ inner ++ str "</a>".

Definition namedColors : list jsstring :=
  map str ["red"; "blue"; "green"; "yellow"; "pink"; "purple"; "orange"]%string.

(** [a || b] on strings *)
Definition orStr (a b : jsstring) : jsstring := if truthy a then a else b.

Section Closure.

(** The tables of [extractDefinitions], which the closures of
    [renderMarkdown] read. *)
Variable defs : DefsResult.

Definition refImageCb (m : found) : M jsstring :=
  let alt := grp 1 m in
  let key := toLowerCase (orStr (grp 2 m) alt) in
  match linkDefsGet (linkDefs defs) key with
  | Falsy => ret (m0 m)
  | Alien => throw
  | Is def => makePlaceholder (imgHtml (escapeHtmlAttr (url def)) alt (title def))
  end.

Definition refLinkCb (m : found) : M jsstring :=
  let label := grp 1 m in
  let key := toLowerCase (orStr (grp 2 m) label) in
  match linkDefsGet (linkDefs defs) key with
  | Falsy => ret (m0 m)
  | Alien => throw
  | Is def =>
      makePlaceholder (linkHtml (escapeHtmlAttr (url def)) (title def) (escapeHtml label))
  end.

Definition footnoteRefCb (m : found) : M jsstring :=
  let fid := escapeHtmlAttr (grp 1 m) in
  makePlaceholder
    (quo "<sup id='fnref-" ++ fid ++ quo "' class='text-[0.7em] align-super'><a href='#fn-"
     ++ fid ++ quo "' class='text-primary underline-offset-2 hover:underline'>["
     ++ escapeHtml fid ++ str "]</a></sup>").

Definition emojiCb (m : found) : M jsstring :=
  let code := grp 1 m in
  match emojiGet (toLowerCase code) with
  | None => ret (m0 m)
  | Some emoji =>
      makePlaceholder
        (quo "<span class='md-emoji inline-block align-[-0.15em]' role='img' aria-label='"
         ++ escapeHtmlAttr code ++ quo "'>" ++ emoji ++ str "</span>")
  end.

Definition abbrStep (abbr : jsstring) (s : jsstring) : M jsstring :=
  match getOwn abbr (abbrDefs defs) with
  | None => throw
  | Some title =>
      replaceAllM (R_abbr abbr) (fun _ =>
        makePlaceholder
          (quo "<abbr title='" ++ escapeHtmlAttr title
           ++ quo "' class='cursor-help underline decoration-dotted'>"
           ++ escapeHtml abbr ++ str "</abbr>")) s
  end.

Fixpoint forEachM (f : jsstring -> jsstring -> M jsstring) (ks : list jsstring)
    (s : jsstring) : M jsstring :=
  match ks with
  | [] => ret s
  | k :: t => s' <- f k s ;; forEachM f t s'
  end.

(** [fuel] bounds the nesting of colored spans: it is the number of
    nested calls the stack still holds.  The call on the empty text
    returns at once. *)
Fixpoint renderInline (fuel : nat) (text : jsstring) : M jsstring :=
  match text with
  | [] => ret []
  | _ :: _ =>
  match fuel with
  | O => rangeError
  | S fuel' =>
    let s := normalizeNewlines text in
    s <- replaceAllM R_lf (fun _ => makePlaceholder (quo "<br class='block' />")) s ;;
    s <- replaceAllM R_escape (fun m => makePlaceholder (escapeHtml (grp 1 m))) s ;;
    s <- replaceAllM R_codeSpan (fun m =>
           makePlaceholder
             (quo "<code class='rounded bg-muted px-1 py-0.5 text-[0.8em] font-mono'>"
              ++ escapeHtml (grp 1 m) ++ str "</code>")) s ;;
    s <- replaceAllM R_angleUrl (fun m =>
           makePlaceholder
             (quo "<a href='" ++ escapeHtmlAttr (grp 1 m) ++ quo "'" ++ aClass
              ++ escapeHtml (grp 1 m) ++ str "</a>")) s ;;
    s <- replaceAllM R_angleEmail (fun m =>
           makePlaceholder
             (quo "<a href='mailto:" ++ escapeHtmlAttr (grp 1 m)
              ++ quo "' class='text-primary underline-offset-2 hover:underline'>"
              ++ escapeHtml (grp 1 m) ++ str "</a>")) s ;;
    s <- replaceAllM R_comment (fun m => makePlaceholder (m0 m)) s ;;
    s <- replaceAllM R_tag (fun m => makePlaceholder (m0 m)) s ;;
    s <- replaceAllM R_refImage refImageCb s ;;
    s <- replaceAllM R_inlineImage (fun m =>
           makePlaceholder
             (imgHtml (escapeHtmlAttr (unescapeMdUrl (grp 2 m))) (grp 1 m)
                      (cap 3 (mcaps m)))) s ;;
    s <- replaceAllM R_refLink refLinkCb s ;;
    s <- replaceAllM R_inlineLink (fun m =>
           makePlaceholder
             (linkHtml (escapeHtmlAttr (unescapeMdUrl (grp 2 m))) (cap 3 (mcaps m))
                       (escapeHtml (grp 1 m)))) s ;;
    s <- replaceAllM R_footnoteRef footnoteRefCb s ;;
    s <- replaceAllM R_highlight (fun m =>
           makePlaceholder
             (quo "<mark class='rounded bg-yellow-200/70 px-0.5 dark:bg-yellow-500/40'>"
              ++ escapeHtml (grp 1 m) ++ str "</mark>")) s ;;
    s <- replaceAllM R_boldItalic (fun m =>
           makePlaceholder
             (quo "<strong class='font-semibold'><em class='italic'>"
              ++ escapeHtml (grp 2 m) ++ str "</em></strong>")) s ;;
    s <- replaceAllM R_bold (fun m =>
           makePlaceholder
             (quo "<strong class='font-semibold'>" ++ escapeHtml (grp 2 m)
              ++ str "</strong>")) s ;;
    s <- replaceAllM R_italic (fun m =>
           makePlaceholder
             (quo "<em class='italic'>" ++ escapeHtml (grp 2 m) ++ str "</em>")) s ;;
    s <- replaceAllM R_strike (fun m =>
           makePlaceholder
             (quo "<del class='opacity-70'>" ++ escapeHtml (grp 1 m) ++ str "</del>")) s ;;
    s <- replaceAllM R_color (fun m =>
           let lower := toLowerCase (grp 1 m) in
           let content := grp 2 m in
           if existsb (eqs lower) namedColors then
             inner <- renderInline fuel' content ;;
             makePlaceholder
               (quo "<span class='" ++ escapeHtmlAttr (str "text-" ++ lower ++ str "-500")
                ++ quo "'>" ++ inner ++ str "</span>")
           else
             match rmatch1 R_hexColor lower with
             | Some hexMatch =>
                 inner <- renderInline fuel' content ;;
                 makePlaceholder
                   (quo "<span style='color:" ++ escapeHtmlAttr (str "#" ++ grp 1 hexMatch)
                    ++ quo "'>" ++ inner ++ str "</span>")
             | None => ret (m0 m)
             end) s ;;
    s <- replaceAllM R_emoji emojiCb s ;;
    s <- replaceAllM R_bareUrl (fun m =>
           p <- makePlaceholder
                  (quo "<a href='" ++ escapeHtmlAttr (grp 2 m)
                   ++ quo "' target='_blank' rel='noreferrer' class='text-primary underline-offset-2 hover:underline break-all'>"
                   ++ escapeHtml (grp 2 m) ++ str "</a>") ;;
           ret (grp 1 m ++ p)) s ;;
    s <- replaceAllM R_bareEmail (fun m =>
           p <- makePlaceholder
                  (quo "<a href='mailto:" ++ escapeHtmlAttr (grp 2 m)
                   ++ quo "' class='text-primary underline-offset-2 hover:underline'>"
                   ++ escapeHtml (grp 2 m) ++ str "</a>") ;;
           ret (grp 1 m ++ p)) s ;;
    s <- replaceAllM R_issue (fun m =>
           p <- makePlaceholder
                  (quo "<a href='#" ++ escapeHtmlAttr (grp 2 m)
                   ++ quo "' class='md-issue text-blue-600 underline-offset-2 hover:underline dark:text-blue-400'>#"
                   ++ escapeHtml (grp 2 m) ++ str "</a>") ;;
           ret (grp 1 m ++ p)) s ;;
    s <- replaceAllM R_mention (fun m =>
           p <- makePlaceholder
                  (quo "<span class='md-mention inline-flex items-center rounded bg-primary/10 px-1 text-[0.75rem] font-medium text-primary'>@"
                   ++ escapeHtml (grp 2 m) ++ str "</span>") ;;
           ret (grp 1 m ++ p)) s ;;
    s <- replaceAllM R_commit (fun m =>
           p <- makePlaceholder
                  (quo "<code class='md-commit rounded bg-muted px-1 py-0.5 text-[0.75em] font-mono'>"
                   ++ escapeHtml (grp 2 m) ++ str "</code>") ;;
           ret (grp 1 m ++ p)) s ;;
    forEachM abbrStep (keys (abbrDefs defs)) s
  end
  end.

End Closure.

(** ** The block level: the regexes *)

Definition R_pipe : regex :=
  re "/\|/g"
    (c1 "|").
Definition R_leadPipe : regex :=
  re "/^\|/"
    (Seq Bol (c1 "|")).
Definition R_trailPipe : regex :=
  re "/\|$/"
    (Seq (c1 "|") Eol).
Definition R_dividerCell : regex :=
  re "/^:?-{3,}:?$/"
    (seq [Bol; opt (c1 ":"); atLeast 3 (c1 "-"); opt (c1 ":"); Eol]).
Definition R_marker : regex :=
  re "([*+-]|\d+\.)"
    (Grp 2 (Alt (set "*+-") (Seq (plus digit) (c1 ".")))).
Definition R_item : regex :=
  re "/^(\s*)([*+-]|\d+\.)\s+(.*)$/"
    (seq [Bol; Grp 1 (star ws); R_marker; plus ws; Grp 3 (star dot); Eol]).
Definition R_listStart : regex :=
  re "/^\s*([*+-]|\d+\.)\s+/"
    (seq [Bol; star ws; Grp 1 (Alt (set "*+-") (Seq (plus digit) (c1 "."))); plus ws]).
Definition R_ordered : regex :=
  re "/\d+\./"
    (Seq (plus digit) (c1 ".")).
Definition R_itemIndent (n : nat) : regex :=
  re "new RegExp(`^\\s{0,${baseIndent + 2}}`)"
    (Seq Bol (between 0 n ws)).
Definition R_task : regex :=
  re "/^\[( |x|X)\]\s+(.*)$/"
    (seq [Bol; c1 "["; Grp 1 (Alt (c1 " ") (Alt (c1 "x") (c1 "X"))); c1 "]"; plus ws;
          Grp 2 (star dot); Eol]).
Definition R_fence : regex :=
  re "/^(\s*)(`{3,}|~{3,})(.*)$/"
    (seq [Bol; Grp 1 (star ws);
          Grp 2 (Alt (atLeast 3 (c1 "`")) (atLeast 3 (c1 "~")));
          Grp 3 (star dot); Eol]).
Definition R_headingStart : regex :=
  re "/^(\s{0,3})(#{1,6})\s+/"
    (seq [Bol; Grp 1 (between 0 3 ws); Grp 2 (between 1 6 (c1 "#")); plus ws]).
Definition R_heading : regex :=
  re "/^(\s{0,3})(#{1,6})\s+(.*)$/"
    (seq [R_headingStart; Grp 3 (star dot); Eol]).
Definition R_trailingHashes : regex :=
  re "/\s+#+\s*$/"
    (seq [plus ws; plus (c1 "#"); star ws; Eol]).
Definition R_hr : regex :=
  re "/^(\s{0,3})([-*_])(?:\s*\2){2,}\s*$/"
    (seq [Bol; Grp 1 (between 0 3 ws); Grp 2 (set "-*_");
          atLeast 2 (Seq (star ws) (Bref 2)); star ws; Eol]).
Definition R_quote : regex :=
  re "/^\s*>/"
    (seq [Bol; star ws; c1 ">"]).
Definition R_quoteStrip : regex :=
  re "/^\s*> ?/"
    (seq [Bol; star ws; c1 ">"; opt (c1 " ")]).
Definition R_toc : regex :=
  re "/^\s*\[(toc|TOC)\]\s*$/"
    (seq [Bol; star ws; c1 "["; Grp 1 (Alt (lit "toc") (lit "TOC")); c1 "]"; star ws; Eol]).
Definition R_commentStart : regex :=
  re "/^\s*<!--/"
    (seq [Bol; star ws; lit "<!--"]).
Definition R_htmlStart : regex :=
  re "/^\s*</"
    (seq [Bol; star ws; c1 "<"]).
Definition R_defList : regex :=
  re "/^(.+?)\s*:\s+(.+)$/"
    (seq [Bol; Grp 1 (plusL dot); star ws; c1 ":"; plus ws; Grp 2 (plus dot); Eol]).

(** [!l.trim()] *)
Definition blank (l : jsstring) : bool := negb (truthy (trim l)).

(** The lines a loop [while (i < lines.length && p(lines[i])) i++] passes. *)
Fixpoint takeWhile (p : jsstring -> bool) (ls : list jsstring) : list jsstring :=
  match ls with
  | l :: t => if p l then l :: takeWhile p t else []
  | [] => []
  end.

(** ** Tables *)

Definition splitRow (line : jsstring) : list jsstring :=
  map trim (split (replaceFirst R_trailPipe [] (replaceFirst R_leadPipe [] (trim line)))
                  (str "|")).

Definition alignOf (c : jsstring) : jsstring :=
  let left := startsWith c (str ":") in
  let right := endsWith c (str ":") in
  if left && right then str "center"
  else if right then str "right"
  else if left then str "left"
  else [].

Definition isTableDivider (line : jsstring) : bool :=
  let trimmed := trim line in
  if negb (truthy trimmed) then false
  else if Nat.ltb (List.length (matchAll R_pipe trimmed)) 1 then false
  else
    let cells := splitRow line in
    match cells with
    | [] => false
    | _ :: _ => forallb (test R_dividerCell) cells
    end.

(** [array.map((x, idx) => f(x, idx))] with a callback with effects. *)
Fixpoint mapiM {A B : Type} (f : A -> nat -> M B) (l : list A) (idx : nat) : M (list B) :=
  match l with
  | [] => ret []
  | x :: t => y <- f x idx ;; r <- mapiM f t (S idx) ;; ret (y :: r)
  end.

Definition styleAttr (aligns : list jsstring) (idx : nat) : jsstring :=
  let align := nth idx aligns [] in
  if truthy align then quo " style='text-align:" ++ align ++ quo "'" else [].

Section Blocks.

Variable defs : DefsResult.

(** The cells of one body row, rendered. *)
Definition renderRow (fuel : nat) (aligns : list jsstring) (row : list jsstring)
  : M (list jsstring) :=
  mapiM (fun cell idx =>
           inner <- renderInline defs fuel cell ;;
           ret (str "<td" ++ styleAttr aligns idx
                ++ quo " class='border-b border-border/40 px-2 py-1 align-top'>"
                ++ inner ++ str "</td>")) row O.

(** [parseTableAt(lines, start)] on the lines from [start] on; returns the
    markup and [next - start]. *)
Definition parseTableAt (fuel : nat) (ls : list jsstring) : M (jsstring * nat) :=
  match ls with
  | headerLine :: dividerLine :: rest =>
      let headers := splitRow headerLine in
      let alignCells := splitRow dividerLine in
      let aligns := map alignOf alignCells in
      let rowLines := takeWhile (fun l => negb (blank l || negb (includes l (str "|")))) rest in
      let rows := map splitRow rowLines in
      ths <- mapiM (fun h idx =>
               inner <- renderInline defs fuel h ;;
               ret (str "<th" ++ styleAttr aligns idx
                    ++ quo " class='border-b border-border/60 px-2 py-1 text-left text-[0.75rem] font-medium text-muted-foreground'>"
                    ++ inner ++ str "</th>")) headers O ;;
      let thead := quo "<thead class='bg-muted/40'><tr>" ++ join [] ths ++ str "</tr></thead>" in
      trs <- mapM (fun row =>
               tds <- renderRow fuel aligns row ;;
               ret (str "<tr>" ++ join [] tds ++ str "</tr>")) rows ;;
      let tbody := str "<tbody>" ++ join [] trs ++ str "</tbody>" in
      ret (quo "<table class='my-3 w-full border-collapse overflow-hidden rounded-md border border-border/60 text-xs'>"
           ++ thead ++ tbody ++ str "</table>",
           (2 + List.length rowLines)%nat)
  | _ => throw
  end.

(** ** Lists *)

(** The continuation lines of an item: the lines kept and how many lines
    the loop went past (a blank line ends the item and is passed). *)
Fixpoint itemContinuation (baseIndent : nat) (ls : list jsstring)
  : list jsstring * nat :=
  match ls with
  | [] => ([], O)
  | l :: t =>
      if blank l then ([], 1%nat)
      else if test R_item l then ([], O)
      else
        let (more, n) := itemContinuation baseIndent t in
        (replaceFirst (R_itemIndent (baseIndent + 2)) [] l :: more, S n)
  end.

Definition renderItem (fuel : nat) (itemLines : list jsstring) : M jsstring :=
  let first := hd [] itemLines in
  let '(prefix, bodyText) :=
    match rmatch1 R_task first with
    | Some taskMatch =>
        let checked := eqs (toLowerCase (grp 1 taskMatch)) (str "x") in
        (quo "<input type='checkbox' disabled"
         ++ (if checked then str " checked" else [])
         ++ quo " class='mr-1 h-3 w-3 rounded border border-border align-middle accent-primary' /> ",
         join nl (grp 2 taskMatch :: tl itemLines))
    | None => ([], join nl itemLines)
    end in
  inner <- renderInline defs fuel (trim bodyText) ;;
  ret (quo "<li class='ml-1'>" ++ prefix ++ inner ++ str "</li>").

(** [items[items.length - 1] += html], when there is an item. *)
Fixpoint appendToLast (items : list jsstring) (html : jsstring) : list jsstring :=
  match items with
  | [] => []
  | [x] => [x ++ html]
  | x :: t => x :: appendToLast t html
  end.

(** The loop of [parseListAt], on the lines from index [i] on.  [skip]
    is the number of them already passed by the inner loop or by a nested
    list, [cnt] is [i - start], and [nested] is [parseListAt] itself, for
    the lines of deeper indentation. *)
Fixpoint listLoop (nested : list jsstring -> M (jsstring * nat)) (fuel : nat)
    (baseIndent : nat) (ls : list jsstring) (skip : nat) (items : list jsstring)
    (cnt : nat) : M (list jsstring * nat) :=
  match ls with
  | [] => ret (items, cnt)
  | line :: t =>
      match skip with
      | S n => listLoop nested fuel baseIndent t n items (S cnt)
      | O =>
          if blank line then ret (items, cnt) else
          match rmatch1 R_item line with
          | None => ret (items, cnt)
          | Some m =>
              let indent := List.length (grp 1 m) in
              if Nat.ltb indent baseIndent then ret (items, cnt)
              else if Nat.ltb baseIndent indent then
                r <- nested ls ;;
                listLoop nested fuel baseIndent t (pred (snd r))
                  (appendToLast items (fst r)) (S cnt)
              else
                let (more, n) := itemContinuation baseIndent t in
                li <- renderItem fuel (grp 3 m :: more) ;;
                listLoop nested fuel baseIndent t n (items ++ [li]) (S cnt)
          end
      end
  end.

(** [parseListAt(lines, start)] on the lines from [start] on; returns the
    markup and [next - start].  [fuel] bounds the nesting of lists. *)
Fixpoint parseListAt (fuel : nat) (ls : list jsstring) : M (jsstring * nat) :=
  match fuel with
  | O => rangeError
  | S fuel' =>
  match ls with
  | [] => throw
  | first :: _ =>
  match rmatch1 R_item first with
  | None => ret ([], 1%nat)
  | Some m =>
      let baseIndent := List.length (grp 1 m) in
      let ordered := test R_ordered (grp 2 m) in
      let tag := if ordered then str "ol" else str "ul" in
      r <- listLoop (parseListAt fuel') fuel' baseIndent ls O [] O ;;
      let listClass :=
        if ordered then str "list-decimal list-inside ml-4 my-2 space-y-1"
        else str "list-disc list-inside ml-4 my-2 space-y-1" in
      ret (str "<" ++ tag ++ quo " class='" ++ listClass ++ quo "'>" ++ join [] (fst r)
           ++ str "</" ++ tag ++ str ">", snd r)
  end
  end
  end.

End Blocks.

(** ** parseBlocks *)

Definition headingClass (level : nat) : jsstring :=
  match level with
  | 1%nat => str "mt-6 mb-3 scroll-m-20 text-4xl font-extrabold tracking-tight lg:text-5xl"
  | 2%nat => str "mt-6 mb-3 scroll-m-20 border-b pb-2 text-3xl font-semibold tracking-tight first:mt-0"
  | 3%nat => str "mt-4 mb-2 scroll-m-20 text-2xl font-semibold tracking-tight"
  | 4%nat => str "mt-4 mb-2 scroll-m-20 text-xl font-semibold tracking-tight"
  | 5%nat => str "mt-3 mb-2 scroll-m-20 text-lg font-semibold tracking-tight"
  | _ => str "mt-3 mb-2 scroll-m-20 text-base font-semibold tracking-tight text-muted-foreground"
  end.

(** [headings.push(h)] *)
Definition pushHeading (h : heading) : M unit :=
  fun st => Ok (tt, {| placeholderMap := placeholderMap st;
                       placeholderId := placeholderId st;
                       headings := headings st ++ [h] |}).

Definition getHeadings : M (list heading) := fun st => Ok (headings st, st).

Definition preOpen : jsstring :=
  quo "<pre class='my-2 overflow-x-auto rounded-md bg-muted/60 p-2 text-xs font-mono'>".

(** [l.includes("|") && i + 1 < lines.length && isTableDivider(lines[i + 1])],
    with [t] the lines after [l]. *)
Definition tableAhead (l : jsstring) (t : list jsstring) : bool :=
  includes l (str "|") &&
  match t with
  | next :: _ => isTableDivider next
  | [] => false
  end.

(** The loop of an HTML comment block: the lines up to and including the
    first one that holds the closing mark. *)
Fixpoint commentLines (ls : list jsstring) : list jsstring :=
  match ls with
  | [] => []
  | l :: t => if includes l (str "-->") then [l] else l :: commentLines t
  end.

(** The lines a paragraph takes after its first one. *)
Fixpoint paragraphLines (ls : list jsstring) : list jsstring :=
  match ls with
  | [] => []
  | l :: t =>
      if blank l then []
      else if test R_headingStart l
              || test R_hr l
              || test R_quote l
              || test R_listStart l
              || tableAhead l t
              || test R_fence l
              || test R_indented l
              || test R_htmlStart l
              || test R_defList l
              || test R_toc l
      then []
      else l :: paragraphLines t
  end.

Section Document.

Variable defs : DefsResult.

Definition headingBlock (fuel : nat) (m : found) : M jsstring :=
  let level := List.length (grp 2 m) in
  let textContent := replaceFirst R_trailingHashes [] (trim (grp 3 m)) in
  let id := slugify textContent in
  inner <- renderInline defs fuel textContent ;;
  _ <- pushHeading {| level := level; text := textContent; id := id |} ;;
  let h := str "h" ++ numToString (N.of_nat level) in
  ret (str "<" ++ h ++ quo " id='" ++ id ++ quo "' class='" ++ headingClass level
       ++ quo "'>" ++ inner ++ str "</" ++ h ++ str ">").

Definition defListItem (fuel : nat) (l : jsstring) : M jsstring :=
  match rmatch1 R_defList l with
  | None => ret []
  | Some d =>
      dt <- renderInline defs fuel (trim (grp 1 d)) ;;
      dd <- renderInline defs fuel (trim (grp 2 d)) ;;
      ret (quo "<dt class='font-medium text-xs text-muted-foreground uppercase tracking-wide'>"
           ++ dt ++ quo "</dt><dd class='ml-3 text-sm'>" ++ dd ++ str "</dd>")
  end.

(** The loop of [parseBlocks], on the lines from index [i] on.  [skip] is
    the number of lines the current block has taken beyond its first one,
    and [quoted] is [parseBlocks] itself, for the text of a quote. *)
Fixpoint blocksLoop (quoted : jsstring -> M jsstring) (fuel : nat)
    (ls : list jsstring) (skip : nat) (out : list jsstring) : M (list jsstring) :=
  match ls with
  | [] => ret out
  | line :: t =>
  match skip with
  | S n => blocksLoop quoted fuel t n out
  | O =>
  if blank line then blocksLoop quoted fuel t O out else
  (* Fenced code blocks *)
  match rmatch1 R_fence line with
  | Some m =>
      let fence := grp 2 m in
      let info := trim (grp 3 m) in
      let lang := splitHead R_spaces info in
      let codeLines := takeWhile (fun l => negb (startsWith (trim l) fence)) t in
      let closing := if Nat.ltb (List.length codeLines) (List.length t) then 1%nat else O in
      let code := escapeHtml (join nl codeLines) in
      let langClass := if truthy lang then str "language-" ++ escapeHtmlAttr lang else [] in
      blocksLoop quoted fuel t (List.length codeLines + closing)%nat
        (out ++ [preOpen ++ quo "<code class='" ++ langClass ++ quo "'>" ++ code
                 ++ str "</code></pre>"])
  | None =>
  (* Indented code block *)
  if test R_indented line then
    let codeLines := map (replaceFirst R_indent4 []) (takeWhile (test R_indented) ls) in
    let code := escapeHtml (join nl codeLines) in
    blocksLoop quoted fuel t (pred (List.length codeLines))
      (out ++ [preOpen ++ str "<code>" ++ code ++ str "</code></pre>"])
  else
  (* Headings *)
  match rmatch1 R_heading line with
  | Some m =>
      h <- headingBlock fuel m ;;
      blocksLoop quoted fuel t O (out ++ [h])
  | None =>
  (* Horizontal rule *)
  if test R_hr line then
    blocksLoop quoted fuel t O (out ++ [quo "<hr class='my-3 border-border/60' />"])
  else
  (* Blockquote *)
  if test R_quote line then
    let quoteLines := map (replaceFirst R_quoteStrip []) (takeWhile (test R_quote) ls) in
    inner <- quoted (join nl quoteLines) ;;
    blocksLoop quoted fuel t (pred (List.length quoteLines))
      (out ++ [quo "<blockquote class='my-2 border-l-2 border-muted-foreground/30 pl-3 text-[0.85rem] text-muted-foreground space-y-1'>"
               ++ inner ++ str "</blockquote>"])
  else
  (* TOC directive *)
  if test R_toc line then blocksLoop quoted fuel t O (out ++ [TOC_PLACEHOLDER])
  else
  (* Table *)
  if tableAhead line t then
    r <- parseTableAt defs fuel ls ;;
    blocksLoop quoted fuel t (pred (snd r)) (out ++ [fst r])
  else
  (* List *)
  if test R_listStart line then
    r <- parseListAt defs fuel ls ;;
    blocksLoop quoted fuel t (pred (snd r)) (out ++ [fst r])
  else
  (* HTML comment block *)
  if test R_commentStart line then
    let lines' := commentLines ls in
    blocksLoop quoted fuel t (pred (List.length lines')) (out ++ [join nl lines'])
  else
  (* Block HTML *)
  if test R_htmlStart line then
    let htmlLines := takeWhile (fun l => truthy (trim l)) ls in
    blocksLoop quoted fuel t (pred (List.length htmlLines)) (out ++ [join nl htmlLines])
  else
  (* Definition list *)
  if test R_defList line then
    let dl := takeWhile (test R_defList) ls in
    items <- mapM (defListItem fuel) dl ;;
    blocksLoop quoted fuel t (pred (List.length dl))
      (out ++ [quo "<dl class='my-2 space-y-1'>" ++ join [] items ++ str "</dl>"])
  else
  (* Paragraph *)
  let paraLines := line :: paragraphLines t in
  let paraText := trim (join nl paraLines) in
  if truthy paraText then
    inner <- renderInline defs fuel paraText ;;
    blocksLoop quoted fuel t (pred (List.length paraLines))
      (out ++ [quo "<p class='my-1 text-sm leading-relaxed'>" ++ inner ++ str "</p>"])
  else blocksLoop quoted fuel t (pred (List.length paraLines)) out
  end end
  end
  end.

(** [parseBlocks(src)].  [fuel] bounds the nesting of quotes, of lists and
    of colored spans. *)
Fixpoint parseBlocks (fuel : nat) (src : jsstring) : M jsstring :=
  match fuel with
  | O => rangeError
  | S fuel' =>
      let lines := split (normalizeNewlines src) nl in
      out <- blocksLoop (parseBlocks fuel') fuel' lines O [] ;;
      ret (join nl out)
  end.

(** ** renderMarkdown *)

Definition tocItem (h : heading) : jsstring :=
  quo "<div style='margin-left:" ++ numToString (N.of_nat ((level h - 1) * 12))
  ++ quo "px'><a href='#" ++ escapeHtmlAttr (id h)
  ++ quo "' class='block text-xs text-muted-foreground hover:text-foreground'>"
  ++ escapeHtml (text h) ++ str "</a></div>".

Definition tocHtml (hs : list heading) : jsstring :=
  quo "<nav class='md-toc mb-3 rounded-md border bg-muted/40 p-2 text-xs space-y-1'>"
  ++ join [] (map tocItem hs) ++ str "</nav>".

(** The table of contents: the placeholder, when the markup holds it, is
    replaced with the navigation block built from [headings]. *)
Definition resolveToc (html : jsstring) : M jsstring :=
  if includes html TOC_PLACEHOLDER then
    hs <- getHeadings ;;
    ret (join (tocHtml hs) (split html TOC_PLACEHOLDER))
  else ret html.

Definition backref : jsstring := [8617; 65038].   (* U+21A9 U+FE0E *)

Definition footnoteItem (fuel : nat) (id : jsstring) : M jsstring :=
  let fid := escapeHtmlAttr id in
  match getOwn id (footnoteDefs defs) with
  | None => throw
  | Some text =>
      body <- parseBlocks fuel text ;;
      ret (quo "<li id='fn-" ++ fid ++ quo "' class='ml-1'>" ++ body
           ++ quo " <a href='#fnref-" ++ fid
           ++ quo "' class='footnote-backref text-primary underline-offset-2 hover:underline'>"
           ++ backref ++ str "</a></li>")
  end.

Definition footnotesHtml (fuel : nat) : M jsstring :=
  items <- mapM (footnoteItem fuel) (keys (footnoteDefs defs)) ;;
  ret (quo "<section class='footnotes mt-4 space-y-1 text-xs text-muted-foreground'><hr class='my-2 border-border/60' /><ol class='list-decimal list-inside ml-4 space-y-1'>"
       ++ join [] items ++ str "</ol></section>").

(** The footnotes section: appended when [Object.keys(footnoteDefs)] is
    not empty. *)
Definition appendFootnotes (fuel : nat) (html : jsstring) : M jsstring :=
  match keys (footnoteDefs defs) with
  | [] => ret html
  | _ :: _ =>
      section <- footnotesHtml fuel ;;
      ret (html ++ nl ++ section)
  end.

Definition renderBody (fuel : nat) : M jsstring :=
  html <- parseBlocks fuel (cleaned defs) ;;
  html <- resolveToc html ;;
  html <- appendFootnotes fuel html ;;
  restorePlaceholders html.

End Document.

Definition initial : rstate :=
  {| placeholderMap := []; placeholderId := 0; headings := [] |}.

Definition result {A : Type} (o : outcome (A * rstate)) : outcome A :=
  match o with
  | Ok (a, _) => Ok a
  | TypeError => TypeError
  | RangeError => RangeError
  end.

Definition renderMarkdownWith (fuel : nat) (src : jsstring) : outcome jsstring :=
  result (renderBody (extractDefinitions src) fuel initial).

(** Every level of nesting (a quote inside a quote, a list inside a list,
    a colored span inside a colored span) takes code units of the text it
    nests in, so no nesting is deeper than the text is long: a stack
    that holds this many nested calls is never used up
    ([renderMarkdown_total]).  On a stack that holds fewer calls than the
    text asks for, the compile is [renderMarkdownWith] and its outcome is
    [RangeError]. *)
Definition fuelFor (src : jsstring) : nat :=
  (2 * List.length (normalizeNewlines src) + 4)%nat.

Definition renderMarkdown (src : jsstring) : outcome jsstring :=
  renderMarkdownWith (fuelFor src) src.

(** * The vocabulary of the properties *)

(** Opening tags of the markup, as the source writes them. *)
Definition pOpen : jsstring := quo "<p class='my-1 text-sm leading-relaxed'>".

Definition codeOpen : jsstring :=
  quo "<code class='rounded bg-muted px-1 py-0.5 text-[0.8em] font-mono'>".

Definition thClass : jsstring :=
  quo " class='border-b border-border/60 px-2 py-1 text-left text-[0.75rem] font-medium text-muted-foreground'>".

Definition tableOpen : jsstring :=
  quo "<table class='my-3 w-full border-collapse overflow-hidden rounded-md border border-border/60 text-xs'>".

Definition tdClass : jsstring :=
  quo " class='border-b border-border/40 px-2 py-1 align-top'>".

Definition sectionOpen : jsstring :=
  quo "<section class='footnotes mt-4 space-y-1 text-xs text-muted-foreground'><hr class='my-2 border-border/60' /><ol class='list-decimal list-inside ml-4 space-y-1'>".

Definition sectionClose : jsstring := str "</ol></section>".

(** The ids referenced in the body by [[^id]], and the ids defined. *)
Definition referencedIds (src : jsstring) : list jsstring :=
  map (grp 1) (matchAll R_footnoteRef (cleaned (extractDefinitions src))).

Definition definedIds (src : jsstring) : list jsstring :=
  keys (footnoteDefs (extractDefinitions src)).

(** The claim as the specification states it: the output holds the
    footnote section exactly when some id is referenced and defined. *)
Definition C2_as_stated (src : jsstring) : Prop :=
  forall out, renderMarkdown src = Ok out ->
    (includes out sectionOpen = true <->
     exists id, In id (referencedIds src) /\ In id (definedIds src)).

(** The keys the vault holds at the end of the compile of [src]. *)
Definition vaultKeys (src : jsstring) : list jsstring :=
  match renderBody (extractDefinitions src) (fuelFor src) initial with
  | Ok (_, st) => map fst (placeholderMap st)
  | _ => []
  end.

(** The claim as the specification states it: no key of the vault occurs
    in the input. *)
Definition C3_as_stated (src : jsstring) : Prop :=
  forall key, In key (vaultKeys src) -> includes src key = false.

(** The replacement the claim speaks of, written out: every CR LF and
    every other CR becomes LF. *)
Fixpoint toLF (s : jsstring) : jsstring :=
  match s with
  | [] => []
  | c :: t =>
      if c =? 13 then
        10 :: match t with
              | [] => []
              | d :: t' => if d =? 10 then toLF t' else toLF t
              end
      else c :: toLF t
  end.

(** What [normalizeNewlines] puts in the place of a segment. *)
Definition newlineOut (g : seg) : jsstring :=
  match g with Lit c => [c] | Hit _ => nl end.

(** Every recorded heading has the slug of its text as id. *)
Definition slugged (st : rstate) : Prop :=
  forall h, In h (headings st) -> id h = slugify (text h).

(** An entry of the table of contents that links to [#anchor]. *)
Definition tocEntry (lvl : nat) (anchor text : jsstring) : jsstring :=
  quo "<div style='margin-left:" ++ numToString (N.of_nat ((lvl - 1) * 12))
  ++ quo "px'><a href='#" ++ anchor
  ++ quo "' class='block text-xs text-muted-foreground hover:text-foreground'>"
  ++ escapeHtml text ++ str "</a></div>".

(** Every key of the vault was made by [makePlaceholder]. *)
Definition keyed (st : rstate) : Prop :=
  forall k html, In (k, html) (placeholderMap st) -> exists n, k = placeholderKey n.

(** The lines the loop of a footnote definition takes. *)
Definition swallowed (l : jsstring) : bool := test R_indented l || test R_blank l.

(** A line that defines a footnote the table can record ([__proto__] is
    the one id that an assignment to a plain object does not record). *)
Definition recordedFootnote (l : jsstring) : bool :=
  match rmatch1 R_footnoteDef l with
  | Some m => negb (eqs (grp 1 m) protoName)
  | None => false
  end.

(** The document holds a footnote definition. *)
Definition hasFootnoteDefinition (src : jsstring) : bool :=
  existsb recordedFootnote (split (normalizeNewlines src) nl).

(** The markup of the document body: the blocks, the table of contents
    resolved. *)
Definition bodyMarkup (defs : DefsResult) (fuel : nat) : M jsstring :=
  html <- parseBlocks defs fuel (cleaned defs) ;;
  resolveToc html.

(** The empty match. *)
Definition noMatch : found := {| m0 := []; mcaps := []; mrest := [] |}.

(** The match of the definition line [[label]: http://x.com "T"]. *)
Definition demoDefinition : found :=
  Eval vm_compute in
    match rmatch1 R_linkDef (quo "[label]: http://x.com 'T'") with
    | Some m => m
    | None => noMatch
    end.

(** [m2] ends as [m1] does wherever [m1] does not run out of fuel. *)
Definition below {A : Type} (m1 m2 : M A) : Prop :=
  forall st, m1 st <> RangeError -> m2 st = m1 st.

(** A stage keeps a property of the closure state. *)
Definition preserves (Inv : rstate -> Prop) {A : Type} (m : M A) : Prop :=
  forall st a st', Inv st -> m st = Ok (a, st') -> Inv st'.

(** Reading the table of link definitions under [key] gives [def]. *)
Definition holdsDef (key : jsstring) (def : LinkDef) (a : defsAcc) : Prop :=
  linkDefsGet (a_linkDefs a) key = Is def.

(** [__proto__] is no own property of the table. *)
Definition plain (a : defsAcc) : Prop := assoc protoName (own (a_linkDefs a)) = None.

(** No line of [ls] defines [key]. *)
Definition undefinedFor (key : jsstring) (ls : list jsstring) : Prop :=
  forall l m, In l ls -> rmatch1 R_linkDef l = Some m -> toLowerCase (grp 1 m) <> key.

(** [t] is the end of [s]; [w] stands somewhere in [s]. *)
Definition suffix (t s : jsstring) : Prop := exists pre, s = pre ++ t.

Definition infix (w s : jsstring) : Prop := exists a b, s = a ++ w ++ b.

(** The bounds of a quantifier [{mn,mx}] are in order. *)
Definition withinMax (mn : nat) (mx : option nat) : bool :=
  match mx with
  | Some m => Nat.leb mn m
  | None => true
  end.

(** A regex that takes at least one code unit wherever it matches. *)
Fixpoint consumes (r : regex) : bool :=
  match r with
  | Chr _ => true
  | Seq a b => consumes a || consumes b
  | Alt a b => consumes a && consumes b
  | Rep mn mx _ a => Nat.ltb 0 mn && withinMax mn mx && consumes a
  | Grp _ a => consumes a
  | _ => false
  end.

(** The captures are parts of the input [s0]. *)
Definition capsIn (s0 : jsstring) (c : caps) : Prop :=
  forall i w, cap i c = Some w -> infix w s0.

(** A matcher goes forward in the input [s0], by at least one code unit
    when [strict], and captures parts of it: when it succeeds, it has
    called its continuation, with success, at such a position. *)
Definition forward (s0 : jsstring) (m : matcher) (strict : bool) : Prop :=
  forall prev s c k res,
    suffix s s0 -> capsIn s0 c -> m prev s c k = Some res ->
    exists p1 s1 c1,
      suffix s1 s /\ capsIn s0 c1
      /\ (strict = true -> (List.length s1 < List.length s)%nat)
      /\ k p1 s1 c1 = Some res.

(** The number of opening brackets of a text: no colored span nests
    deeper, since each level takes its own [[color=]. *)
Fixpoint brackets (s : jsstring) : nat :=
  match s with
  | [] => O
  | c :: t => if c =? 91 then S (brackets t) else brackets t
  end.

(** The text a segment stands for. *)
Definition srcOf (g : seg) : jsstring :=
  match g with Lit c => [c] | Hit f => m0 f end.

(** A stage does not run out of fuel, and what it returns has [Q]. *)
Definition post {A : Type} (m : M A) (Q : A -> Prop) : Prop :=
  forall st,
    match m st with
    | Ok (a, _) => Q a
    | TypeError => True
    | RangeError => False
    end.

(** A stage does not run out of fuel. *)
Definition safe {A : Type} (m : M A) : Prop := post m (fun _ => True).

(** The code units of the lines [ls] and of the line feeds that end them. *)
Fixpoint weight (ls : list jsstring) : nat :=
  match ls with
  | [] => O
  | l :: t => S (List.length l + weight t)
  end.

(** The indentation of the list item the lines [ls] begin with. *)
Definition indentOf (ls : list jsstring) : nat :=
  match ls with
  | first :: _ =>
      match rmatch1 R_item first with
      | Some m => List.length (grp 1 m)
      | None => O
      end
  | [] => O
  end.

(** [k2] succeeds wherever [k1] does; a matcher that succeeds with [k1]
    succeeds with every such [k2]. *)
Definition passes (k1 k2 : cont) : Prop :=
  forall p s c, k1 p s c <> None -> k2 p s c <> None.

Definition monotone (m : matcher) : Prop :=
  forall prev s c k1 k2, passes k1 k2 -> m prev s c k1 <> None -> m prev s c k2 <> None.

(** Every footnote text of the table is shorter than [K]. *)
Definition notesWithin (K : nat) (d : dict jsstring) : Prop :=
  forall k v, In (k, v) (own d) -> (List.length v < K)%nat.

(** ** The vocabulary of the further properties *)

Definition entity (c : N) : jsstring :=
  if c =? ch "&" then str "&amp;"
  else if c =? ch "<" then str "&lt;"
  else if c =? ch ">" then str "&gt;"
  else [c].

Definition entityAttr (c : N) : jsstring :=
  if c =? dq then str "&quot;" else entity c.

Definition regexSyntax (c : N) : bool := oneOf "\.*+?^${}()|[]" c.

Fixpoint literalOf (s : jsstring) : jsstring :=
  match s with
  | [] => []
  | c :: t =>
      if c =? ch "\" then
        match t with
        | d :: t' => d :: literalOf t'
        | [] => []
        end
      else c :: literalOf t
  end.

Definition isParen (c : N) : bool := oneOf "()" c.

Definition escapeParens (s : jsstring) : jsstring :=
  flat_map (fun c => if isParen c then [ch "\"; c] else [c]) s.

Fixpoint unescapeParens (s : jsstring) : jsstring :=
  match s with
  | [] => []
  | c :: t =>
      if c =? ch "\" then
        match t with
        | d :: t' => if isParen d then d :: unescapeParens t' else c :: unescapeParens t
        | [] => [c]
        end
      else c :: unescapeParens t
  end.

(** The code units of [s] that satisfy [p]. *)
Definition countP (p : N -> bool) (s : jsstring) : nat := List.length (filter p s).

(** [Takes p r n]: every match of [r] takes at least [n] code units that
    satisfy [p]. *)
Inductive Takes (p : N -> bool) : regex -> nat -> Prop :=
| Takes_none r : Takes p r 0
| Takes_chr q : (forall x, q x = true -> p x = true) -> Takes p (Chr q) 1
| Takes_seq a b i j : Takes p a i -> Takes p b j -> Takes p (Seq a b) (i + j)
| Takes_alt a b n : Takes p a n -> Takes p b n -> Takes p (Alt a b) n
| Takes_rep mn mx g a i :
    withinMax mn mx = true -> Takes p a i -> Takes p (Rep mn mx g a) (mn * i)
| Takes_grp k a n : Takes p a n -> Takes p (Grp k a) n
| Takes_le r n m : (m <= n)%nat -> Takes p r n -> Takes p r m.

(** A matcher that succeeds has called its continuation, with success,
    after a part [w] of the input that holds [n] code units of [p]. *)
Definition taking (p : N -> bool) (m : matcher) (n : nat) : Prop :=
  forall prev s c k res,
    m prev s c k = Some res ->
    exists p1 w s1 c1,
      s = w ++ s1 /\ k p1 s1 c1 = Some res /\ (n <= countP p w)%nat.

(** The code units that open a construct of the notation: [\], the
    backquote, [<], [[], [=], [*], [_], [~], [:], [@], [#], [-], [+]
    and [>]. *)
Definition isMarkup (c : N) : bool := oneOf "\`<[=*_~:@#-+>" c.

(** A code unit of plain text: no markup, no digit, and no white space
    but the space. *)
Definition plainCh (c : N) : bool :=
  negb (isMarkup c) && negb (isDigit c) && (negb (isWs c) || (c =? 32)).

Definition notPlain (c : N) : bool := negb (plainCh c).

Definition definition (l : jsstring) : bool :=
  match rmatch1 R_footnoteDef l, rmatch1 R_abbrDef l, rmatch1 R_linkDef l with
  | None, None, None => false
  | _, _, _ => true
  end.

Definition isBracket (c : N) : bool := c =? ch "[".

Definition notWs (c : N) : bool := negb (isWs c).

(** A text of Basic Latin: every code unit is below 128.  On such a
    text [toLowerCase] is the function of the run time. *)
Definition basicLatin (s : jsstring) : bool := forallb (fun c => c <? 128) s.

(** The keys of the counter values below [n], in order. *)
Definition keysUpTo (n : nat) : list jsstring :=
  map (fun i => placeholderKey (N.of_nat i)) (List.seq 0 n).

(** The vault holds one fragment for each value the counter has taken,
    under the key of that value, in the order of the values. *)
Definition counted (st : rstate) : Prop :=
  exists n, placeholderId st = N.of_nat n /\ map fst (placeholderMap st) = keysUpTo n.

(** [makePlaceholder(html)], then [restorePlaceholders] on the text
    [around key], a function of the key. *)
Definition vaulted (html : jsstring) (around : jsstring -> jsstring) : M jsstring :=
  key <- makePlaceholder html ;; restorePlaceholders (around key).

(** Three backquotes: the fence of a code block. *)
Definition fence3 : jsstring := str "```".

(** The section sign, which the placeholder of the table of contents
    begins with. *)
Definition sectionSign : N := 167.

(** The first code unit of [s], if any, does not satisfy [q]. *)
Definition stopsAt (q : N -> bool) (s : jsstring) : Prop :=
  match s with
  | [] => True
  | y :: _ => q y = false
  end.

(** A number of repetitions the bound [mx] allows. *)
Definition allows (mx : option nat) (n : nat) : Prop :=
  match mx with
  | Some m => (n <= m)%nat
  | None => True
  end.

(** [lvl] number signs. *)
Definition hashes (lvl : nat) : jsstring := repeat (ch "#") lvl.

(** The heading element of level [lvl] with the anchor [anchor]. *)
Definition headingElement (lvl : nat) (anchor inner : jsstring) : jsstring :=
  str "<h" ++ numToString (N.of_nat lvl) ++ quo " id='" ++ anchor ++ quo "' class='"
  ++ headingClass lvl ++ quo "'>" ++ inner ++ str "</h" ++ numToString (N.of_nat lvl)
  ++ str ">".

(** A code unit of an anchor: a small letter, a digit or the hyphen. *)
Definition slugCh (c : N) : bool := isLower c || isDigit c || (c =? ch "-").

(** The code units of a fence. *)
Definition isFenceCh (c : N) : bool := oneOf "`~" c.

(** [r], tried where the text begins with [x], finds nothing. *)
Definition refuses (r : regex) (x : N) : Prop :=
  forall prev t c (k : cont), rmatch r prev (x :: t) c k = None.

(** [r], tried where the text begins with [x], takes nothing: it finds
    nothing where what follows it finds nothing there. *)
Definition idle (r : regex) (x : N) : Prop :=
  forall prev t c (k : cont),
    (forall p c', k p (x :: t) c' = None) -> rmatch r prev (x :: t) c k = None.

(** [r] begins with [^]: it finds nothing after a code unit. *)
Definition anchored (r : regex) : Prop :=
  forall x s c (k : cont), rmatch r (Some x) s c k = None.

Definition quoteOpen : jsstring :=
  quo "<blockquote class='my-2 border-l-2 border-muted-foreground/30 pl-3 text-[0.85rem] text-muted-foreground space-y-1'>".

(** A line of text, quoted. *)
Definition quoteLine (l : jsstring) : jsstring := str "> " ++ l.

(** A text of one line. *)
Definition oneLine (l : jsstring) : Prop := ~ In 10 l /\ ~ In 13 l.

(** The marks of an unordered list. *)
Definition isBullet (mk : N) : bool := oneOf "*+-" mk.

(** An item of a list after the mark [mk]. *)
Definition bulletLine (mk : N) (item : jsstring) : jsstring := mk :: 32 :: item.

Definition ulOpen : jsstring := quo "<ul class='list-disc list-inside ml-4 my-2 space-y-1'>".

Definition liOf (item : jsstring) : jsstring := quo "<li class='ml-1'>" ++ item ++ str "</li>".

(** An item without markup: a sentence no rule reads, without a bar. *)
Definition plainItem (item : jsstring) : Prop :=
  forallb plainCh item = true /\ trim item = item /\ item <> []
  /\ (countP isHex item < 7)%nat /\ ~ In (ch "|") item.

(** A sentence without markup: a text no rule reads, of one line, that
    neither begins nor ends with white space. *)
Definition plainSentence (s : jsstring) : Prop :=
  forallb plainCh s = true /\ trim s = s /\ s <> [] /\ (countP isHex s < 7)%nat.

(** The lines of paragraphs that blank lines separate. *)
Fixpoint spaced (ss : list jsstring) : list jsstring :=
  match ss with
  | [] => []
  | [s] => [s]
  | s :: t => s :: [] :: spaced t
  end.

Definition paragraphOf (s : jsstring) : jsstring := pOpen ++ s ++ str "</p>".

(** A line of code behind four spaces. *)
Definition indentLine (code : jsstring) : jsstring := str "    " ++ code.

(** A line of a block of markup: not blank, of one line, without [[] and
    without the section sign. *)
Definition markupLine (l : jsstring) : Prop :=
  blank l = false /\ oneLine l /\ ~ In (ch "[") l /\ ~ In sectionSign l.

(** The marks of a horizontal rule. *)
Definition isRuleMark (mk : N) : bool := oneOf "-*_" mk.

Definition hrElement : jsstring := quo "<hr class='my-3 border-border/60' />".

(** The letter [a] behind [d] quote marks: a quote in a quote, [d]
    deep. *)
Definition nestedQuote (d : nat) : jsstring := Nat.iter d quoteLine (str "a").

(** No line of [ls] is a footnote definition of [id]; no line of [ls] is
    an abbreviation definition of [key]. *)
Definition noFootnoteOf (id : jsstring) (ls : list jsstring) : Prop :=
  forall l m, In l ls -> rmatch1 R_footnoteDef l = Some m -> grp 1 m <> id.

Definition noAbbrOf (key : jsstring) (ls : list jsstring) : Prop :=
  forall l m, In l ls -> rmatch1 R_abbrDef l = Some m -> grp 1 m <> key.

(** A code unit of the text or of the label of a reference: plain text
    but the closing bracket and the exclamation mark. *)
Definition refCh (c : N) : bool :=
  plainCh c && negb (c =? ch "]") && negb (c =? ch "!").

(** The code units that a reference [[text][label]] does not hold. *)
Definition offRef (c : N) : bool :=
  negb (refCh c) && negb (c =? ch "[") && negb (c =? ch "]").

(** The reference [[text][label]]: one line. *)
Definition refLine (text label : jsstring) : jsstring :=
  ch "[" :: text ++ str "][" ++ label ++ str "]".

(** The document of a reference, a blank line and a definition line. *)
Definition refDoc (text label defLine : jsstring) : jsstring :=
  refLine text label ++ nl ++ nl ++ defLine.

(** A code unit of a placeholder key: U+E000, a digit or U+E001. *)
Definition keyCh (c : N) : bool := (c =? keyOpen) || isDigit c || (c =? keyClose).

(** A text that no key can reach into or begin in: it begins with a code
    unit that no key holds, and holds no U+E000. *)
Definition wall (w : jsstring) : Prop :=
  match w with
  | [] => False
  | x :: _ => keyCh x = false /\ ~ In keyOpen w
  end.

(** The cell of a body row, in column [idx]. *)
Definition tdOf (aligns : list jsstring) (idx : nat) (inner : jsstring) : jsstring :=
  str "<td" ++ styleAttr aligns idx ++ tdClass ++ inner ++ str "</td>".

Definition theadOpen : jsstring := quo "<thead class='bg-muted/40'><tr>".

(** The lines of the body rows of a table: the lines after the divider,
    up to the first one that is blank or holds no bar. *)
Definition bodyRows (rest : list jsstring) : list jsstring :=
  takeWhile (fun l => negb (blank l || negb (includes l (str "|")))) rest.

(** The number of [td] elements of a markup. *)
Definition cellCount (html : jsstring) : nat :=
  pred (List.length (split html (str "<td"))).

(** The claim as the specification states it: in the table parsed from a
    header, a divider and one body row with fewer cells than the header,
    the row is emitted with as many cells as the header. *)
Definition C4_as_stated (header divider row : jsstring) : Prop :=
  (List.length (splitRow row) < List.length (splitRow header))%nat ->
  forall defs fuel st html n st',
    parseTableAt defs fuel [header; divider; row] st = Ok ((html, n), st') ->
    cellCount html = List.length (splitRow header).

(** The opening tag of the heading element of level [lvl] with the anchor
    [anchor]. *)
Definition headingOpen (lvl : nat) (anchor : jsstring) : jsstring :=
  str "<h" ++ numToString (N.of_nat lvl) ++ quo " id='" ++ anchor ++ quo "' class='"
  ++ headingClass lvl ++ quo "'>".

(** The opening of the table of contents, and the link of an entry to
    [#anchor]. *)
Definition tocOpen : jsstring :=
  quo "<nav class='md-toc mb-3 rounded-md border bg-muted/40 p-2 text-xs space-y-1'>".

Definition tocLink (anchor : jsstring) : jsstring :=
  quo "<a href='#" ++ anchor
  ++ quo "' class='block text-xs text-muted-foreground hover:text-foreground'>".

(** The opening tag of every heading of [hs] occurs in [html]. *)
Definition tracks (hs : list heading) (html : jsstring) : Prop :=
  forall h, In h hs -> infix (headingOpen (level h) (id h)) html.

(** The claim as the specification states it: when the compile of [src]
    builds a table of contents, every heading parsed from the document
    has an entry in it that links to the anchor of the heading. *)
Definition C9_as_stated (src : jsstring) : Prop :=
  forall out st,
    renderBody (extractDefinitions src) (fuelFor src) initial = Ok (out, st) ->
    includes out tocOpen = true ->
    forall h, In h (headings st) -> includes out (tocLink (id h)) = true.

(** The document [[toc]], [# A] and the footnote definition [[^1]: # B]. *)
Definition footnoteHeading : jsstring :=
  str "[toc]" ++ nl ++ nl ++ str "# A" ++ nl ++ nl ++ str "[^1]: # B".

(** The document [[toc]], blank line, [# Hello World], and its compile. *)
Definition tocDemo : jsstring := str "[toc]" ++ nl ++ nl ++ str "# Hello World".

Definition tocDemoRun : jsstring * rstate :=
  Eval vm_compute in
    match renderBody (extractDefinitions tocDemo) 3 initial with
    | Ok r => r
    | _ => ([], initial)
    end.

(** A stage that records no heading. *)
Definition quiet {A : Type} (m : M A) : Prop :=
  forall st a st', m st = Ok (a, st') -> headings st' = headings st.

(** The pieces of markup hold the opening tag of each heading. *)
Definition emitted (hs : list heading) (out : list jsstring) : Prop :=
  forall h, In h hs -> exists o, In o out /\ infix (headingOpen (level h) (id h)) o.

(** A run of [parseBlocks], or of its loop, adds headings to the ones
    recorded before, and the markup it returns holds the element of each
    heading it adds. *)
Definition tracking (m : M jsstring) : Prop :=
  forall st html st', m st = Ok (html, st') ->
    exists hs, headings st' = headings st ++ hs /\ tracks hs html.

(** Markup of Basic Latin that begins with [<]. *)
Definition tag (w : jsstring) : Prop :=
  basicLatin w = true /\ exists t, w = ch "<" :: t.

(** * Properties *)

(** ** Rule ordering: code spans before emphasis *)

(** C7.  The input made of the code span around [**bold**] renders as a
    paragraph holding one code fragment with the literal text [**bold**];
    no [strong] or [em] element is emitted.  A second run shows the text
    of a code span HTML-escaped, its emphasis markers still literal. *)
Theorem C7_code_span_before_emphasis :
  let out := pOpen ++ codeOpen ++ str "**bold**</code></p>" in
  renderMarkdown (str "`**bold**`") = Ok out
  /\ includes out (str "<strong") = false
  /\ includes out (str "<em") = false
  /\ renderMarkdown (str "`a<b **c**`")
       = Ok (pOpen ++ codeOpen ++ str "a&lt;b **c**</code></p>").
Proof.
  repeat split; vm_compute; reflexivity.
Qed.

(** ** Table alignment *)

Lemma startsWith_In (s p : jsstring) c :
  startsWith s (c :: p) = true -> In c s.
Proof.
  destruct s as [|x t]; simpl; [discriminate|].
  intros H. apply andb_prop in H as [H _]. apply N.eqb_eq in H. now left.
Qed.

Lemma alignOf_no_colon (c : jsstring) : ~ In (ch ":") c -> alignOf c = [].
Proof.
  intros H. unfold alignOf.
  destruct (startsWith c (str ":")) eqn:L.
  - exfalso. apply H. exact (startsWith_In _ _ _ L).
  - destruct (endsWith c (str ":")) eqn:R; [|reflexivity].
    exfalso. apply H. unfold endsWith in R.
    apply in_rev. exact (startsWith_In _ _ _ R).
Qed.

Lemma startsWith_nil (s : jsstring) : startsWith s [] = true.
Proof. now destruct s. Qed.

Lemma endsWith_app_colon (c : jsstring) : endsWith (c ++ str ":") (str ":") = true.
Proof.
  unfold endsWith. rewrite rev_app_distr. change (str ":") with [58].
  cbn [rev app startsWith]. now rewrite N.eqb_refl, startsWith_nil.
Qed.

(** The four forms of a divider cell, with any run [d] that holds no
    colon (the dashes) between the colons. *)
Lemma alignOf_forms (d : jsstring) :
  ~ In (ch ":") d -> d <> [] ->
  alignOf (str ":" ++ d) = str "left"
  /\ alignOf (str ":" ++ d ++ str ":") = str "center"
  /\ alignOf (d ++ str ":") = str "right"
  /\ alignOf d = [].
Proof.
  intros H Hd.
  assert (L : forall t, startsWith (str ":" ++ t) (str ":") = true).
  { intros t. change (str ":") with [58]. cbn [app startsWith].
    now rewrite N.eqb_refl, startsWith_nil. }
  assert (E : endsWith (str ":" ++ d) (str ":") = false).
  { unfold endsWith. change (str ":") with [58]. cbn [app rev].
    destruct (rev d) as [|x r] eqn:R.
    - apply (f_equal (@rev N)) in R. rewrite rev_involutive in R. contradiction.
    - cbn [app startsWith]. destruct (58 =? x) eqn:X; [|reflexivity].
      apply N.eqb_eq in X. exfalso. apply H. apply in_rev. rewrite R. now left. }
  assert (S : startsWith (d ++ str ":") (str ":") = false).
  { destruct d as [|x t]; [contradiction|]. change (str ":") with [58].
    cbn [app startsWith]. destruct (58 =? x) eqn:X; [|reflexivity].
    apply N.eqb_eq in X. exfalso. apply H. now left. }
  repeat split.
  - unfold alignOf. now rewrite L, E.
  - unfold alignOf. rewrite L.
    replace (str ":" ++ d ++ str ":") with ((str ":" ++ d) ++ str ":")
      by now rewrite <- app_assoc.
    now rewrite endsWith_app_colon.
  - unfold alignOf. now rewrite endsWith_app_colon, S.
  - now apply alignOf_no_colon.
Qed.

(** C6.  The divider [| :--- | :---: | ---: |] is a table divider and its
    cells give the alignments left, center, right in that order; so do
    the cells of these forms with any number of dashes, and a cell
    without a colon (as [---]) gives none; the header cells of the
    rendered table carry these alignments. *)
Theorem C6_table_alignments :
  isTableDivider (str "| :--- | :---: | ---: |") = true
  /\ map alignOf (splitRow (str "| :--- | :---: | ---: |"))
       = [str "left"; str "center"; str "right"]
  /\ (forall d, ~ In (ch ":") d -> d <> [] ->
        alignOf (str ":" ++ d) = str "left"
        /\ alignOf (str ":" ++ d ++ str ":") = str "center"
        /\ alignOf (d ++ str ":") = str "right"
        /\ alignOf d = [])
  /\ renderMarkdown (str "| A | B | C |" ++ nl ++ str "| :--- | :---: | ---: |")
       = Ok (tableOpen ++ quo "<thead class='bg-muted/40'><tr>"
             ++ quo "<th style='text-align:left'" ++ thClass ++ str "A</th>"
             ++ quo "<th style='text-align:center'" ++ thClass ++ str "B</th>"
             ++ quo "<th style='text-align:right'" ++ thClass ++ str "C</th>"
             ++ str "</tr></thead><tbody></tbody></table>").
Proof.
  split; [vm_compute; reflexivity|].
  split; [vm_compute; reflexivity|].
  split; [exact alignOf_forms|].
  vm_compute; reflexivity.
Qed.

Lemma C6_table_alignments_witness :
  ~ In (ch ":") (str "----") /\ str "----" <> []
  /\ alignOf (str ":" ++ str "----" ++ str ":") = str "center".
Proof.
  assert (H : ~ In (ch ":") (str "----")).
  { simpl. intros [H|[H|[H|[H|[]]]]]; discriminate H. }
  assert (N : str "----" <> []) by discriminate.
  split; [exact H|]. split; [exact N|].
  exact (proj1 (proj2 (proj1 (proj2 (proj2 C6_table_alignments)) (str "----") H N))).
Defined.

(** ** Escaping of plain text *)

(** C1.  The text of a paragraph that no inline rule takes is emitted as
    it was typed: [&], [<] and [>] reach the output unescaped.  The text
    between emphasis markers goes through [escapeHtml]. *)
Theorem C1_plain_text_not_escaped :
  renderMarkdown (str "a & b") = Ok (pOpen ++ str "a & b</p>")
  /\ renderMarkdown (str "a < b > c") = Ok (pOpen ++ str "a < b > c</p>")
  /\ renderMarkdown (str "**a & b**")
       = Ok (pOpen ++ quo "<strong class='font-semibold'>a &amp; b</strong></p>").
Proof.
  repeat split; vm_compute; reflexivity.
Qed.

(** ** Dangling references *)

(** The guard of the reference rules: a key that reads as [undefined]
    leaves the match as it is and the vault untouched. *)
Lemma refLinkCb_falsy defs m st :
  linkDefsGet (linkDefs defs) (toLowerCase (orStr (grp 2 m) (grp 1 m))) = Falsy ->
  refLinkCb defs m st = Ok (m0 m, st).
Proof. unfold refLinkCb. intros ->. reflexivity. Qed.

Lemma refImageCb_falsy defs m st :
  linkDefsGet (linkDefs defs) (toLowerCase (orStr (grp 2 m) (grp 1 m))) = Falsy ->
  refImageCb defs m st = Ok (m0 m, st).
Proof. unfold refImageCb. intros ->. reflexivity. Qed.

(** A key that is neither an own property nor a member of the prototype
    chain reads as [undefined]. *)
Lemma linkDefsGet_absent (o : dict LinkDef) k :
  assoc k (own o) = None -> proto o = None -> inherited k = false ->
  linkDefsGet o k = Falsy.
Proof.
  unfold linkDefsGet. intros -> -> Hi.
  destruct (eqs k protoName) eqn:E; [|now rewrite Hi].
  exfalso. unfold inherited in Hi.
  assert (existsb (eqs k) objectPrototypeNames = true); [|congruence].
  apply existsb_exists. exists protoName. split; [|exact E].
  unfold objectPrototypeNames, protoName. simpl. tauto.
Qed.

(** C8.  [[text][missing]] without a definition of [missing] renders as
    the literal text.  With the label [constructor], which has no
    definition either, [linkDefs[key]] is the member inherited from
    [Object.prototype]: the guard [if (!def)] lets it through and
    [escapeHtmlAttr(def.url)] raises a [TypeError], for links and for
    images. *)
Theorem C8_dangling_reference :
  renderMarkdown (str "[text][missing]") = Ok (pOpen ++ str "[text][missing]</p>")
  /\ getOwn (str "constructor")
       (linkDefs (extractDefinitions (str "[text][constructor]"))) = None
  /\ renderMarkdown (str "[text][constructor]") = TypeError
  /\ renderMarkdown (str "![text][constructor]") = TypeError.
Proof.
  repeat split; vm_compute; reflexivity.
Qed.

(** ** Maps with effects *)

Lemma mapiM_length {A B : Type} (f : A -> nat -> M B) (l : list A) :
  forall idx st r st', mapiM f l idx st = Ok (r, st') -> List.length r = List.length l.
Proof.
  induction l as [|x t IH]; intros idx st r st'; simpl.
  - intros [= <- _]. reflexivity.
  - unfold bind at 1. destruct (f x idx st) as [[y st1]| |]; try discriminate.
    unfold bind at 1. destruct (mapiM f t (S idx) st1) as [[r1 st2]| |] eqn:E;
      try discriminate.
    intros [= <- _]. simpl. f_equal. exact (IH _ _ _ _ E).
Qed.

Lemma mapiM_Ok {A B : Type} (f : A -> nat -> M B) (l : list A) :
  (forall x i st, In x l -> exists r, f x i st = Ok r) ->
  forall idx st, exists r, mapiM f l idx st = Ok r.
Proof.
  induction l as [|x t IH]; intros Hf idx st; cbn [mapiM].
  - eexists. reflexivity.
  - unfold bind at 1. destruct (Hf x idx st (or_introl eq_refl)) as [[y st1] ->].
    unfold bind at 1.
    destruct (IH (fun x' i s H => Hf x' i s (or_intror H)) (S idx) st1) as [[r st2] ->].
    eexists. reflexivity.
Qed.

(** ** The footnote section *)

(** Against C2 as stated: a document made of one footnote definition,
    referenced nowhere, gets the footnote section. *)
Lemma C2_counterexample :
  ~ C2_as_stated (str "[^1]: Note.")
  /\ referencedIds (str "[^1]: Note.") = []
  /\ renderMarkdown (str "[^1]: Note.")
       = Ok (nl ++ sectionOpen ++ quo "<li id='fn-1' class='ml-1'>" ++ pOpen
             ++ quo "Note.</p> <a href='#fnref-1' class='footnote-backref text-primary underline-offset-2 hover:underline'>"
             ++ backref ++ str "</a></li>" ++ sectionClose).
Proof.
  assert (R : referencedIds (str "[^1]: Note.") = []) by (vm_compute; reflexivity).
  split; [|split; [exact R|vm_compute; reflexivity]].
  intros H.
  destruct (renderMarkdown (str "[^1]: Note.")) as [out| |] eqn:E;
    [|vm_compute in E; discriminate E|vm_compute in E; discriminate E].
  specialize (H out E).
  assert (I : includes out sectionOpen = true).
  { vm_compute in E. injection E as <-. vm_compute. reflexivity. }
  apply H in I as (id & Hin & _). rewrite R in Hin. exact Hin.
Qed.

(** ** The placeholder keys *)

(** Against C3 as stated: the input that holds U+E000, [0], U+E001 before
    a code span.  The key of the code span is that very text, and the
    final pass puts the markup of the code span in its place too. *)
Lemma C3_counterexample :
  ~ C3_as_stated (placeholderKey 0 ++ str " `x`")
  /\ renderMarkdown (placeholderKey 0 ++ str " `x`")
       = Ok (pOpen ++ codeOpen ++ str "x</code> " ++ codeOpen ++ str "x</code></p>").
Proof.
  split; [|vm_compute; reflexivity].
  intros H. specialize (H (placeholderKey 0)).
  assert (I : In (placeholderKey 0) (vaultKeys (placeholderKey 0 ++ str " `x`")))
    by (vm_compute; now left).
  apply H in I. vm_compute in I. discriminate I.
Qed.

(** ** Line endings *)

Lemma firstn_all_but {A : Type} (pre s : list A) :
  firstn (List.length (pre ++ s) - List.length s) (pre ++ s) = pre.
Proof.
  rewrite length_app, Nat.add_sub. induction pre as [|x p IH]; simpl.
  - reflexivity.
  - now rewrite IH.
Qed.

Lemma length_neq_S (n : nat) : Nat.eqb n (S n) = false.
Proof. apply Nat.eqb_neq. lia. Qed.

Lemma repLoop_max0 body inner fuel mn g prev s c k :
  repLoop body inner fuel mn (Some O) g prev s c k = k prev s c.
Proof. destruct fuel; reflexivity. Qed.

Lemma execAt_newline prev c t :
  execAt R_newline prev (c :: t) =
  if c =? 13 then
    match t with
    | [] => Some {| m0 := [c]; mcaps := []; mrest := [] |}
    | d :: t' =>
        if d =? 10 then Some {| m0 := [c; d]; mcaps := []; mrest := t' |}
        else Some {| m0 := [c]; mcaps := []; mrest := t |}
    end
  else None.
Proof.
  unfold execAt, R_newline, re, opt. cbn [rmatch].
  rewrite (N.eqb_sym 13 c). destruct (c =? 13); [|reflexivity].
  destruct t as [|d t'].
  - reflexivity.
  - cbn [List.length Nat.add repLoop clearcaps filter].
    rewrite (N.eqb_sym 10 d). destruct (d =? 10).
    + cbn [Nat.eqb andb option_map pred]. rewrite length_neq_S, repLoop_max0.
      change (Nat.ltb 0 0) with false. cbn [orElse].
      pose proof (firstn_all_but [c; d] t') as F. cbn [app List.length] in F.
      now rewrite F.
    + change (Nat.ltb 0 0) with false. cbn [orElse].
      do 2 f_equal. cbn [List.length].
      replace (S (S (List.length t')) - S (List.length t'))%nat with 1%nat by lia.
      reflexivity.
Qed.

Lemma normalizeNewlines_segments s :
  normalizeNewlines s = flat_map newlineOut (segments R_newline s).
Proof. reflexivity. Qed.

Lemma segments_newline_toLF n :
  forall s prev, (List.length s <= n)%nat ->
    flat_map newlineOut (segmentsGo R_newline prev s O) = toLF s.
Proof.
  induction n as [|n IH]; intros s prev Hn.
  - destruct s; [reflexivity|simpl in Hn; lia].
  - destruct s as [|c t]; [reflexivity|].
    simpl in Hn. cbn [segmentsGo toLF]. rewrite execAt_newline.
    destruct (c =? 13).
    + destruct t as [|d t'].
      * reflexivity.
      * destruct (d =? 10).
        -- cbn [m0 List.length segmentsGo flat_map newlineOut app].
           unfold nl. cbn [app]. f_equal. apply IH. simpl in Hn. lia.
        -- cbn [m0 List.length flat_map newlineOut app].
           unfold nl. cbn [app]. f_equal. apply IH. lia.
    + cbn [flat_map newlineOut app]. f_equal. apply IH. lia.
Qed.

(** The code's [src.replace(/\r\n?/g, "\n")] is that replacement. *)
Lemma normalizeNewlines_toLF s : normalizeNewlines s = toLF s.
Proof.
  rewrite normalizeNewlines_segments.
  exact (segments_newline_toLF (List.length s) s None (Nat.le_refl _)).
Qed.

Lemma toLF_no_CR n :
  forall s, (List.length s <= n)%nat -> forallb (fun c => negb (c =? 13)) (toLF s) = true.
Proof.
  induction n as [|n IH]; intros s Hn.
  - destruct s; [reflexivity|simpl in Hn; lia].
  - destruct s as [|c t]; [reflexivity|].
    simpl in Hn. cbn [toLF]. destruct (c =? 13) eqn:E.
    + cbn [forallb]. change (negb (10 =? 13)) with true. cbn [andb].
      destruct t as [|d t']; [reflexivity|].
      destruct (d =? 10); apply IH; simpl in *; lia.
    + cbn [forallb]. rewrite E. cbn [negb andb]. apply IH. lia.
Qed.

Lemma toLF_fixed s : forallb (fun c => negb (c =? 13)) s = true -> toLF s = s.
Proof.
  induction s as [|c t IH]; [reflexivity|].
  cbn [forallb toLF]. intros H. apply andb_prop in H as [H1 H2].
  destruct (c =? 13); [discriminate|]. now rewrite IH.
Qed.

Lemma toLF_idempotent s : toLF (toLF s) = toLF s.
Proof. apply toLF_fixed. exact (toLF_no_CR (List.length s) s (Nat.le_refl _)). Qed.

Lemma extractDefinitions_toLF src :
  extractDefinitions (toLF src) = extractDefinitions src.
Proof.
  unfold extractDefinitions. now rewrite !normalizeNewlines_toLF, toLF_idempotent.
Qed.

(** C10.  Line-ending invariance: the input in which every CR LF and
    every lone CR has been replaced with LF compiles to the same outcome
    as the input itself. *)
Theorem C10_line_ending_invariance (src : jsstring) :
  renderMarkdown (toLF src) = renderMarkdown src.
Proof.
  unfold renderMarkdown, renderMarkdownWith, fuelFor.
  now rewrite extractDefinitions_toLF, !normalizeNewlines_toLF, toLF_idempotent.
Qed.

(** ** Invariants of the closure state

    A property of the state that [makePlaceholder] keeps, and that
    [pushHeading] keeps for a heading whose id is the slug of its text,
    is kept by every stage of the compile. *)

Section Invariant.

Variable Inv : rstate -> Prop.

Local Abbreviation keeps := (preserves Inv).

Hypothesis Inv_makePlaceholder : forall html, keeps (makePlaceholder html).
Hypothesis Inv_pushHeading :
  forall h, id h = slugify (text h) -> keeps (pushHeading h).

Lemma keeps_ret {A : Type} (a : A) : keeps (ret a).
Proof. intros st a' st' H [= _ <-]. exact H. Qed.

Lemma keeps_throw {A : Type} : keeps (@throw A).
Proof. intros st a st' _ H. discriminate H. Qed.

Lemma keeps_rangeError {A : Type} : keeps (@rangeError A).
Proof. intros st a st' _ H. discriminate H. Qed.

Lemma keeps_bind {A B : Type} (m : M A) (f : A -> M B) :
  keeps m -> (forall a, keeps (f a)) -> keeps (bind m f).
Proof.
  intros Hm Hf st b st' HI. unfold bind.
  destruct (m st) as [[a st1]| |] eqn:E; try discriminate.
  intros H. exact (Hf a st1 b st' (Hm st a st1 HI E) H).
Qed.

Lemma keeps_replaceSegs cb l : (forall f, keeps (cb f)) -> keeps (replaceSegs cb l).
Proof.
  intros Hcb. induction l as [|[c|f] t IH]; cbn [replaceSegs].
  - apply keeps_ret.
  - apply keeps_bind; [exact IH|intro; apply keeps_ret].
  - apply keeps_bind; [apply Hcb|intro].
    apply keeps_bind; [exact IH|intro; apply keeps_ret].
Qed.

Lemma keeps_replaceAllM r cb s : (forall f, keeps (cb f)) -> keeps (replaceAllM r cb s).
Proof. intros H. apply keeps_replaceSegs, H. Qed.

Lemma keeps_mapM {A B : Type} (f : A -> M B) l : (forall x, keeps (f x)) -> keeps (mapM f l).
Proof.
  intros Hf. induction l as [|x t IH]; cbn [mapM].
  - apply keeps_ret.
  - apply keeps_bind; [apply Hf|intro].
    apply keeps_bind; [exact IH|intro; apply keeps_ret].
Qed.

Lemma keeps_mapiM {A B : Type} (f : A -> nat -> M B) l :
  (forall x i, keeps (f x i)) -> forall idx, keeps (mapiM f l idx).
Proof.
  intros Hf. induction l as [|x t IH]; intros idx; cbn [mapiM].
  - apply keeps_ret.
  - apply keeps_bind; [apply Hf|intro].
    apply keeps_bind; [apply IH|intro; apply keeps_ret].
Qed.

Lemma keeps_forEachM f ks : (forall k s, keeps (f k s)) -> forall s, keeps (forEachM f ks s).
Proof.
  intros Hf. induction ks as [|k t IH]; intros s; cbn [forEachM].
  - apply keeps_ret.
  - apply keeps_bind; [apply Hf|intro; apply IH].
Qed.

Lemma keeps_getHeadings : keeps getHeadings.
Proof. intros st a st' H [= _ <-]. exact H. Qed.

Lemma keeps_restorePlaceholders s : keeps (restorePlaceholders s).
Proof. intros st a st' H [= _ <-]. exact H. Qed.

(** One step of a proof that a stage keeps the invariant. *)
Ltac keeps_step :=
  match goal with
  | |- keeps (ret _) => apply keeps_ret
  | |- keeps throw => apply keeps_throw
  | |- keeps rangeError => apply keeps_rangeError
  | |- keeps (makePlaceholder _) => apply Inv_makePlaceholder
  | |- keeps getHeadings => apply keeps_getHeadings
  | |- keeps (restorePlaceholders _) => apply keeps_restorePlaceholders
  | |- keeps (bind _ _) => apply keeps_bind; [|intro]
  | |- keeps (replaceAllM _ _ _) => apply keeps_replaceAllM; intro
  | |- keeps (mapM _ _) => apply keeps_mapM; intro
  | |- keeps (mapiM _ _ _) => apply keeps_mapiM; intros
  | |- keeps (forEachM _ _ _) => apply keeps_forEachM; intros
  | |- keeps (match ?x with _ => _ end) => destruct x
  | |- keeps (let (_, _) := ?x in _) => destruct x
  | H : _ |- _ => apply H
  end.

Variable defs : DefsResult.

Lemma keeps_refImageCb m : keeps (refImageCb defs m).
Proof. unfold refImageCb. repeat keeps_step. Qed.

Lemma keeps_refLinkCb m : keeps (refLinkCb defs m).
Proof. unfold refLinkCb. repeat keeps_step. Qed.

Lemma keeps_footnoteRefCb m : keeps (footnoteRefCb m).
Proof. unfold footnoteRefCb. repeat keeps_step. Qed.

Lemma keeps_emojiCb m : keeps (emojiCb m).
Proof. unfold emojiCb. repeat keeps_step. Qed.

Lemma keeps_abbrStep abbr s : keeps (abbrStep defs abbr s).
Proof. unfold abbrStep. repeat keeps_step. Qed.

Lemma keeps_renderInline fuel : forall text, keeps (renderInline defs fuel text).
Proof.
  induction fuel as [|fuel IH]; intros [|c t]; cbn [renderInline];
    try apply keeps_ret; try apply keeps_rangeError.
  repeat first
    [ apply keeps_refImageCb | apply keeps_refLinkCb | apply keeps_footnoteRefCb
    | apply keeps_emojiCb | apply keeps_abbrStep | apply IH | keeps_step ].
Qed.

Lemma keeps_renderRow fuel aligns row : keeps (renderRow defs fuel aligns row).
Proof.
  unfold renderRow. repeat first [apply keeps_renderInline | keeps_step].
Qed.

Lemma keeps_parseTableAt fuel ls : keeps (parseTableAt defs fuel ls).
Proof.
  unfold parseTableAt.
  repeat first [apply keeps_renderInline | apply keeps_renderRow | keeps_step].
Qed.

Lemma keeps_renderItem fuel ls : keeps (renderItem defs fuel ls).
Proof.
  unfold renderItem. repeat first [apply keeps_renderInline | keeps_step].
Qed.

Lemma keeps_listLoop nested fuel base :
  (forall ls, keeps (nested ls)) ->
  forall ls skip items cnt, keeps (listLoop defs nested fuel base ls skip items cnt).
Proof.
  intros Hn. induction ls as [|line t IH]; intros skip items cnt; cbn [listLoop].
  - apply keeps_ret.
  - repeat first [apply IH | apply Hn | apply keeps_renderItem | keeps_step].
Qed.

Lemma keeps_parseListAt fuel : forall ls, keeps (parseListAt defs fuel ls).
Proof.
  induction fuel as [|fuel IH]; intros ls; cbn [parseListAt].
  - apply keeps_rangeError.
  - repeat first [apply keeps_listLoop; exact IH | keeps_step].
Qed.

Lemma keeps_headingBlock fuel m : keeps (headingBlock defs fuel m).
Proof.
  unfold headingBlock.
  repeat first [apply keeps_renderInline | apply Inv_pushHeading; reflexivity | keeps_step].
Qed.

Lemma keeps_defListItem fuel l : keeps (defListItem defs fuel l).
Proof.
  unfold defListItem. repeat first [apply keeps_renderInline | keeps_step].
Qed.

Lemma keeps_blocksLoop quoted fuel :
  (forall s, keeps (quoted s)) ->
  forall ls skip out, keeps (blocksLoop defs quoted fuel ls skip out).
Proof.
  intros Hq. induction ls as [|line t IH]; intros skip out; cbn [blocksLoop].
  - apply keeps_ret.
  - repeat first
      [ apply IH | apply Hq | apply keeps_headingBlock | apply keeps_parseTableAt
      | apply keeps_parseListAt | apply keeps_defListItem | apply keeps_renderInline
      | keeps_step ].
Qed.

Lemma keeps_parseBlocks fuel : forall src, keeps (parseBlocks defs fuel src).
Proof.
  induction fuel as [|fuel IH]; intros src; cbn [parseBlocks].
  - apply keeps_rangeError.
  - repeat first [apply keeps_blocksLoop; exact IH | keeps_step].
Qed.

Lemma keeps_renderBody fuel : keeps (renderBody defs fuel).
Proof.
  unfold renderBody, resolveToc, appendFootnotes, footnotesHtml, footnoteItem.
  repeat first [apply keeps_parseBlocks | keeps_step].
Qed.

End Invariant.

(** ** What a global replacement can put in its result *)

Lemma segmentsGo_Lit_In r c :
  forall s prev skip, In (Lit c) (segmentsGo r prev s skip) -> In c s.
Proof.
  induction s as [|x t IH]; intros prev skip; cbn [segmentsGo].
  - destruct skip; [destruct (execAt r prev [])|]; simpl; intros H;
      try contradiction; destruct H as [H|[]]; discriminate H.
  - destruct skip as [|n].
    + destruct (execAt r prev (x :: t)) as [f|].
      * destruct (m0 f) as [|y w]; simpl; intros [H|H]; try discriminate H.
        -- destruct H as [[= ->]|H]; [now left|right; exact (IH _ _ H)].
        -- right. exact (IH _ _ H).
      * simpl. intros [[= ->]|H]; [now left|right; exact (IH _ _ H)].
    + intros H. right. exact (IH _ _ H).
Qed.

(** A code unit of the result was in the input or comes from a callback. *)
Lemma replaceAll_In r cb s c :
  In c (replaceAll r cb s) -> In c s \/ exists f, In c (cb f).
Proof.
  unfold replaceAll, segments. intros H. apply in_flat_map in H as ([x|f] & Hin & Hc).
  - left. destruct Hc as [<-|[]]. exact (segmentsGo_Lit_In _ _ _ _ _ Hin).
  - right. now exists f.
Qed.

Lemma execAt_Chr p prev x t :
  execAt (Chr p) prev (x :: t) =
  if p x then Some {| m0 := [x]; mcaps := []; mrest := t |} else None.
Proof.
  unfold execAt. cbn [rmatch]. destruct (p x); [|reflexivity].
  cbn [List.length]. replace (S (List.length t) - List.length t)%nat with 1%nat by lia.
  reflexivity.
Qed.

(** Removing a class removes every code unit of the class. *)
Lemma segmentsGo_Chr_Lit p c :
  forall s prev, In (Lit c) (segmentsGo (Chr p) prev s O) -> p c = false.
Proof.
  induction s as [|x t IH]; intros prev; cbn [segmentsGo].
  - unfold execAt. cbn [rmatch]. intros [].
  - rewrite execAt_Chr. destruct (p x) eqn:E.
    + cbn [m0 List.length]. intros [H|H]; [discriminate H|exact (IH _ H)].
    + intros [[= <-]|H]; [exact E|exact (IH _ H)].
Qed.

Lemma remove_class_In p s c :
  In c (replaceAll (Chr p) (fun _ => []) s) -> p c = false.
Proof.
  unfold replaceAll, segments. intros H. apply in_flat_map in H as ([x|f] & Hin & Hc).
  - destruct Hc as [<-|[]]. exact (segmentsGo_Chr_Lit _ _ _ _ Hin).
  - destruct Hc.
Qed.

(** ** Anchor ids *)

(** A slug is made of code units outside the class that [slugify]
    removes, and of hyphens. *)
Lemma slugify_In s c : In c (slugify s) -> slugDrop c = false \/ c = ch "-".
Proof.
  unfold slugify. intros H.
  apply replaceAll_In in H as [H|[f [<-|[]]]]; [|now right].
  apply replaceAll_In in H as [H|[f [<-|[]]]]; [|now right].
  left. exact (remove_class_In _ _ _ H).
Qed.

Lemma replaceCh_absent c rep s : ~ In c s -> replaceCh c rep s = s.
Proof.
  unfold replaceCh. induction s as [|x t IH]; [reflexivity|].
  intros H. cbn [flat_map].
  destruct (x =? c) eqn:E.
  - apply N.eqb_eq in E. subst. exfalso. apply H. now left.
  - rewrite IH; [reflexivity|]. intros Hin. apply H. now right.
Qed.

Lemma slugify_clean s c : In c (slugify s) -> c <> ch "&" /\ c <> ch "<" /\ c <> ch ">" /\ c <> dq.
Proof.
  intros H. apply slugify_In in H as [H| ->].
  - repeat split; intros ->; vm_compute in H; discriminate H.
  - repeat split; intros E; vm_compute in E; discriminate E.
Qed.

(** A slug needs no escaping. *)
Lemma escapeHtmlAttr_slugify s : escapeHtmlAttr (slugify s) = slugify s.
Proof.
  unfold escapeHtmlAttr, escapeHtml.
  assert (A : ~ In (ch "&") (slugify s)) by (intros H; now apply slugify_clean in H).
  assert (B : ~ In (ch "<") (slugify s)) by (intros H; now apply slugify_clean in H).
  assert (C : ~ In (ch ">") (slugify s)) by (intros H; now apply slugify_clean in H).
  assert (D : ~ In dq (slugify s)) by (intros H; now apply slugify_clean in H).
  now rewrite (replaceCh_absent _ _ _ A), (replaceCh_absent _ _ _ B),
    (replaceCh_absent _ _ _ C), (replaceCh_absent _ _ _ D).
Qed.

Lemma slugged_makePlaceholder html : preserves slugged (makePlaceholder html).
Proof. intros st a st' H [= _ <-]. exact H. Qed.

Lemma slugged_pushHeading h : id h = slugify (text h) -> preserves slugged (pushHeading h).
Proof.
  intros Hh st a st' H [= _ <-] h' Hin. cbn [headings] in Hin.
  apply in_app_or in Hin as [Hin|[<-|[]]]; [exact (H _ Hin)|exact Hh].
Qed.

Lemma slugged_initial : slugged initial.
Proof. intros h []. Qed.

(** The heading element carries the id that is recorded for it. *)
Lemma headingBlock_anchor defs fuel m st out st' :
  headingBlock defs fuel m st = Ok (out, st') ->
  exists h inner,
    headings st' = headings st ++ [h]
    /\ id h = slugify (text h)
    /\ out = str "<h" ++ numToString (N.of_nat (level h)) ++ quo " id='" ++ id h
             ++ quo "' class='" ++ headingClass (level h) ++ quo "'>" ++ inner
             ++ str "</h" ++ numToString (N.of_nat (level h)) ++ str ">".
Proof.
  unfold headingBlock, bind.
  destruct (renderInline defs fuel _ st) as [[inner st1]| |] eqn:E; try discriminate.
  assert (Hh : headings st1 = headings st).
  { refine (keeps_renderInline (fun s => headings s = headings st) _
              defs fuel _ st inner st1 eq_refl E).
    intros html s a s' H [= _ <-]. exact H. }
  cbn [pushHeading ret]. intros [= <- <-].
  eexists. exists inner. cbn [headings].
  rewrite Hh. split; [reflexivity|]. split; reflexivity.
Qed.

(** ** Keys and the text of the author *)

Lemma put_In {V : Type} k (v : V) l k' v' :
  In (k', v') (put k v l) -> (k', v') = (k, v) \/ In (k', v') l.
Proof.
  induction l as [|[k0 v0] t IH]; cbn [put].
  - intros [H|[]]. now left.
  - destruct (eqs k0 k).
    + intros [H|H]; [now left|right; now right].
    + intros [H|H]; [right; now left|].
      destruct (IH H) as [E|E]; [now left|right; now right].
Qed.

Lemma keyed_makePlaceholder html : preserves keyed (makePlaceholder html).
Proof.
  intros st a st' H [= _ <-] k h Hin. cbn [placeholderMap] in Hin.
  apply put_In in Hin as [[= -> _]|Hin]; [now eexists|exact (H _ _ Hin)].
Qed.

Lemma keyed_pushHeading h : id h = slugify (text h) -> preserves keyed (pushHeading h).
Proof. intros _ st a st' H [= _ <-]. exact H. Qed.

Lemma keyed_initial : keyed initial.
Proof. intros k h []. Qed.

Lemma startsWith_head_absent c p s : ~ In c s -> startsWith s (c :: p) = false.
Proof.
  destruct s as [|x t]; [reflexivity|]. intros H. cbn [startsWith].
  destruct (c =? x) eqn:E; [|reflexivity].
  apply N.eqb_eq in E. subst. exfalso. apply H. now left.
Qed.

(** A text without the first code unit of [p] does not hold [p]. *)
Lemma includes_head_absent c p s : ~ In c s -> includes s (c :: p) = false.
Proof.
  induction s as [|x t IH]; intros H.
  - reflexivity.
  - cbn [includes]. rewrite (startsWith_head_absent _ _ _ H), IH; [reflexivity|].
    intros Hin. apply H. now right.
Qed.

Lemma splitGo_head_absent c p s :
  forall cur, ~ In c s -> splitGo (c :: p) s O cur = [rev cur ++ s].
Proof.
  induction s as [|x t IH]; intros cur H; cbn [splitGo].
  - now rewrite app_nil_r.
  - rewrite (startsWith_head_absent _ _ _ H), IH.
    + cbn [rev]. now rewrite <- app_assoc.
    + intros Hin. apply H. now right.
Qed.

(** ... and [split] and [join] on [p] give it back. *)
Lemma split_join_head_absent c p v s : ~ In c s -> join v (split s (c :: p)) = s.
Proof.
  intros H. unfold split. now rewrite (splitGo_head_absent _ _ _ _ H).
Qed.

Lemma restoreWith_fixed m s :
  (forall k html, In (k, html) m -> exists n, k = placeholderKey n) ->
  ~ In keyOpen s -> restoreWith m s = s.
Proof.
  unfold restoreWith. induction m as [|[k v] t IH]; intros Hm Hs; [reflexivity|].
  cbn [fold_left fst snd].
  destruct (Hm k v (or_introl eq_refl)) as [n ->].
  unfold placeholderKey. rewrite (split_join_head_absent _ _ _ _ Hs).
  apply IH; [|exact Hs]. intros k' h' Hin. apply (Hm k' h'). now right.
Qed.

(** C3, amended.  For an input without the code unit U+E000, no key of
    the vault occurs in the input, and the final substitution pass
    leaves every text without U+E000 as it is: it takes nothing the
    author typed for a key. *)
Theorem C3_keys_absent_from_input (src : jsstring) :
  ~ In keyOpen src ->
  C3_as_stated src
  /\ forall out st t,
       renderBody (extractDefinitions src) (fuelFor src) initial = Ok (out, st) ->
       ~ In keyOpen t ->
       restoreWith (placeholderMap st) t = t.
Proof.
  intros Hsrc.
  assert (K : forall out st,
             renderBody (extractDefinitions src) (fuelFor src) initial = Ok (out, st) ->
             keyed st).
  { intros out st R.
    exact (keeps_renderBody keyed keyed_makePlaceholder keyed_pushHeading
             _ _ initial out st keyed_initial R). }
  split.
  - intros key Hin. unfold vaultKeys in Hin.
    destruct (renderBody (extractDefinitions src) (fuelFor src) initial)
      as [[out st]| |] eqn:R; try contradiction.
    apply in_map_iff in Hin as ([k v] & <- & Hin). cbn [fst].
    destruct (K _ _ eq_refl _ _ Hin) as [n ->].
    exact (includes_head_absent _ _ _ Hsrc).
  - intros out st t R Ht. exact (restoreWith_fixed _ _ (K _ _ R) Ht).
Qed.

Lemma C3_keys_absent_from_input_witness :
  ~ In keyOpen (str "`x`") /\ C3_as_stated (str "`x`").
Proof.
  assert (H : ~ In keyOpen (str "`x`")).
  { simpl. intros [H|[H|[H|[]]]]; discriminate H. }
  split; [exact H|].
  exact (proj1 (C3_keys_absent_from_input (str "`x`") H)).
Defined.

(** ** The definition pass *)

(** A regex that begins with [^] matches at index 0 or nowhere. *)
Lemma searchFrom_anchored r :
  forall s x pre, searchFrom (Seq Bol r) (Some x) s pre = None.
Proof.
  induction s as [|y t IH]; intros x pre; cbn [searchFrom]; unfold execAt;
    cbn [rmatch]; [reflexivity|apply IH].
Qed.

Lemma rmatch1_anchored r s :
  rmatch1 (Seq Bol r) s = execAt (Seq Bol r) None s.
Proof.
  unfold rmatch1, search. destruct s as [|x t]; cbn [searchFrom].
  - now destruct (execAt (Seq Bol r) None []).
  - destruct (execAt (Seq Bol r) None (x :: t)); [reflexivity|].
    now rewrite searchFrom_anchored.
Qed.

Lemma test_anchored r s :
  test (Seq Bol r) s = match execAt (Seq Bol r) None s with Some _ => true | None => false end.
Proof.
  pose proof (rmatch1_anchored r s) as H. unfold rmatch1 in H. unfold test.
  destruct (search (Seq Bol r) s) as [[pre f]|]; cbn [option_map] in H; now rewrite <- H.
Qed.

Lemma bracket_not_swallowed t : swallowed (ch "[" :: t) = false.
Proof.
  unfold swallowed, R_indented, R_blank, re. cbn [seq].
  rewrite !test_anchored. reflexivity.
Qed.

Lemma footnoteDef_bracket l m :
  rmatch1 R_footnoteDef l = Some m -> exists t, l = ch "[" :: t.
Proof.
  unfold R_footnoteDef, re. cbn [seq]. rewrite rmatch1_anchored.
  destruct l as [|x t]; [discriminate|].
  unfold execAt, lit. cbn [str list_ascii_of_string map lits rmatch].
  destruct (N_of_ascii "[" =? x) eqn:E; [|discriminate].
  apply N.eqb_eq in E. subst. intros _. now exists t.
Qed.

Lemma linkDef_bracket l m :
  rmatch1 R_linkDef l = Some m -> exists t, l = ch "[" :: t.
Proof.
  unfold R_linkDef, re. cbn [seq]. rewrite rmatch1_anchored.
  destruct l as [|x t]; [discriminate|].
  unfold execAt, c1. cbn [rmatch].
  destruct (ch "[" =? x) eqn:E; [|discriminate].
  apply N.eqb_eq in E. subst. intros _. now exists t.
Qed.

Lemma bracket_not_abbrDef t : rmatch1 R_abbrDef (ch "[" :: t) = None.
Proof.
  unfold R_abbrDef, re. cbn [seq]. rewrite rmatch1_anchored. reflexivity.
Qed.

Lemma footnoteLines_swallowed :
  forall ls text text' n,
    footnoteLines ls text = (text', n) -> Forall (fun l => swallowed l = true) (firstn n ls).
Proof.
  induction ls as [|l t IH]; intros text text' n; cbn [footnoteLines].
  - intros [= _ <-]. constructor.
  - destruct (test R_indented l) eqn:A.
    + destruct (footnoteLines t _) as [x k] eqn:E. intros [= _ <-].
      cbn [firstn]. constructor; [unfold swallowed; now rewrite A|exact (IH _ _ _ E)].
    + destruct (test R_blank l) eqn:B.
      * destruct (footnoteLines t _) as [x k] eqn:E. intros [= _ <-].
        cbn [firstn]. constructor;
          [unfold swallowed; rewrite B; apply orb_true_r|exact (IH _ _ _ E)].
      * intros [= _ <-]. constructor.
Qed.

Lemma eqs_eq (a b : jsstring) : eqs a b = true <-> a = b.
Proof.
  revert b. induction a as [|x a IH]; intros [|y b]; cbn [eqs]; split;
    try discriminate; try reflexivity.
  - intros H. apply andb_prop in H as [H1 H2]. apply N.eqb_eq in H1.
    apply IH in H2. now subst.
  - intros [= -> ->]. rewrite N.eqb_refl. now apply IH.
Qed.

Lemma eqs_refl (a : jsstring) : eqs a a = true.
Proof. now apply eqs_eq. Qed.

Lemma eqs_neq (a b : jsstring) : a <> b -> eqs a b = false.
Proof.
  intros H. destruct (eqs a b) eqn:E; [|reflexivity]. apply eqs_eq in E. contradiction.
Qed.

Lemma assoc_put_same {V : Type} k (v : V) l : assoc k (put k v l) = Some v.
Proof.
  unfold assoc. induction l as [|[k0 v0] t IH]; cbn [put find fst].
  - now rewrite eqs_refl.
  - destruct (eqs k0 k) eqn:E; cbn [find fst].
    + now rewrite eqs_refl.
    + now rewrite E.
Qed.

Lemma assoc_put_other {V : Type} k k' (v : V) l :
  k' <> k -> assoc k (put k' v l) = assoc k l.
Proof.
  intros N. unfold assoc. induction l as [|[k0 v0] t IH]; cbn [put find fst].
  - now rewrite (eqs_neq _ _ N).
  - destruct (eqs k0 k') eqn:E; cbn [find fst].
    + apply eqs_eq in E. subst. now rewrite (eqs_neq _ _ N).
    + destruct (eqs k0 k); [reflexivity|exact IH].
Qed.

(** ** Forward references *)

Section ForwardReference.

Variable key : jsstring.
Variable def : LinkDef.

Local Abbreviation holds := (holdsDef key def).
Local Abbreviation undefinedIn := (undefinedFor key).

Lemma linkDefsGet_setObj_other k d (o : dict LinkDef) :
  k <> key -> linkDefsGet o key = Is def -> linkDefsGet (setObj k d o) key = Is def.
Proof.
  intros N H. unfold setObj. destruct (eqs k protoName) eqn:E.
  - apply eqs_eq in E. subst k. unfold linkDefsGet in *. cbn [own proto].
    destruct (assoc key (own o)); [exact H|].
    destruct (eqs key protoName) eqn:E2;
      [apply eqs_eq in E2; now subst|].
    destruct (proto o) as [d0|].
    + destruct (eqs key (str "url")); [destruct (truthy (url d0)); discriminate H|].
      destruct (eqs key (str "title"));
        [destruct (title d0) as [t|]; [destruct (truthy t)|]; discriminate H|].
      destruct (inherited key); discriminate H.
    + destruct (inherited key); discriminate H.
  - unfold linkDefsGet in *. cbn [own proto]. now rewrite assoc_put_other.
Qed.

Lemma linkDefsGet_setObj_same (o : dict LinkDef) :
  assoc protoName (own o) = None -> linkDefsGet (setObj key def o) key = Is def.
Proof.
  intros P. unfold setObj. destruct (eqs key protoName) eqn:E.
  - apply eqs_eq in E. unfold linkDefsGet. cbn [own proto].
    rewrite E, P, eqs_refl. reflexivity.
  - unfold linkDefsGet. cbn [own]. now rewrite assoc_put_same.
Qed.

Lemma plain_setObj k d (o : dict LinkDef) :
  assoc protoName (own o) = None -> assoc protoName (own (setObj k d o)) = None.
Proof.
  intros P. unfold setObj. destruct (eqs k protoName) eqn:E; cbn [own]; [exact P|].
  rewrite assoc_put_other; [exact P|]. intros ->. now rewrite eqs_refl in E.
Qed.

(** Once the table holds the definition, the rest of the pass keeps it,
    unless a later line defines the key again. *)
Lemma extractLoop_holds :
  forall ls skip a, undefinedIn ls -> holds a -> holds (extractLoop ls skip a).
Proof.
  induction ls as [|line t IH]; intros skip a U H; cbn [extractLoop]; [exact H|].
  assert (U' : undefinedIn t) by (intros l m Hin; apply U; now right).
  destruct skip as [|n]; [|now apply IH].
  destruct (rmatch1 R_footnoteDef line) as [m|].
  { destruct (footnoteLines t (grp 2 m)) as [text n]. now apply IH. }
  destruct (rmatch1 R_abbrDef line) as [m|]; [now apply IH|].
  destruct (rmatch1 R_linkDef line) as [m|] eqn:E; [|now apply IH].
  apply IH; [exact U'|]. unfold holds. cbn [a_linkDefs].
  apply linkDefsGet_setObj_other; [|exact H]. exact (U line m (or_introl eq_refl) E).
Qed.

Variable line : jsstring.
Variable m : found.
Hypothesis line_linkDef : rmatch1 R_linkDef line = Some m.
Hypothesis line_not_footnote : rmatch1 R_footnoteDef line = None.
Hypothesis key_label : key = toLowerCase (grp 1 m).
Hypothesis def_line : def = {| url := grp 2 m; title := cap 3 (mcaps m) |}.

Lemma line_not_swallowed : swallowed line = false.
Proof.
  destruct (linkDef_bracket _ _ line_linkDef) as [t ->]. apply bracket_not_swallowed.
Qed.

(** Wherever the definition line stands, the pass reaches it and records
    it. *)
Lemma extractLoop_reaches (post : list jsstring) :
  undefinedIn post ->
  forall pre skip a,
    plain a ->
    Forall (fun l => swallowed l = true) (firstn skip (pre ++ line :: post)) ->
    holds (extractLoop (pre ++ line :: post) skip a).
Proof.
  intros U. induction pre as [|p pre IH]; intros skip a P F.
  - cbn [app] in *. destruct skip as [|n].
    + cbn [extractLoop]. rewrite line_not_footnote.
      destruct (linkDef_bracket _ _ line_linkDef) as [t E].
      rewrite E at 1. rewrite bracket_not_abbrDef. rewrite line_linkDef.
      apply extractLoop_holds; [exact U|]. unfold holds. cbn [a_linkDefs].
      rewrite <- key_label, <- def_line. now apply linkDefsGet_setObj_same.
    + cbn [firstn] in F. inversion F as [|? ? S _]; subst.
      rewrite line_not_swallowed in S. discriminate S.
  - cbn [app extractLoop]. destruct skip as [|n].
    + destruct (rmatch1 R_footnoteDef p) as [fm|].
      { destruct (footnoteLines (pre ++ line :: post) (grp 2 fm)) as [text n] eqn:E.
        apply IH; [exact P|]. exact (footnoteLines_swallowed _ _ _ _ E). }
      destruct (rmatch1 R_abbrDef p) as [am|]; [apply IH; [exact P|constructor]|].
      destruct (rmatch1 R_linkDef p) as [lm|]; (apply IH; [|constructor]);
        [|exact P].
      unfold plain. cbn [a_linkDefs]. now apply plain_setObj.
    + apply IH; [exact P|]. cbn [app firstn] in F. now inversion F.
Qed.

End ForwardReference.

(** ** The nesting bound

    The outcome of a stage does not depend on [fuel] once [fuel] is
    enough: a run that does not end on [RangeError] ends the same way
    under every larger bound. *)

Lemma below_refl {A : Type} (m : M A) : below m m.
Proof. intros st _. reflexivity. Qed.

Lemma below_rangeError {A : Type} (m : M A) : below rangeError m.
Proof. intros st H. now contradiction H. Qed.

Lemma below_bind {A B : Type} (m1 m2 : M A) (f1 f2 : A -> M B) :
  below m1 m2 -> (forall a, below (f1 a) (f2 a)) -> below (bind m1 f1) (bind m2 f2).
Proof.
  intros Hm Hf st. unfold bind. intros H.
  assert (D : m1 st <> RangeError) by (intros E; rewrite E in H; now apply H).
  rewrite (Hm st D). destruct (m1 st) as [[a st1]| |]; try reflexivity.
  now apply Hf.
Qed.

Lemma below_replaceSegs cb1 cb2 l :
  (forall f, below (cb1 f) (cb2 f)) -> below (replaceSegs cb1 l) (replaceSegs cb2 l).
Proof.
  intros H. induction l as [|[c|f] t IH]; cbn [replaceSegs].
  - apply below_refl.
  - apply below_bind; [exact IH|intro; apply below_refl].
  - apply below_bind; [apply H|intro].
    apply below_bind; [exact IH|intro; apply below_refl].
Qed.

Lemma below_replaceAllM r cb1 cb2 s :
  (forall f, below (cb1 f) (cb2 f)) -> below (replaceAllM r cb1 s) (replaceAllM r cb2 s).
Proof. intros H. now apply below_replaceSegs. Qed.

Lemma below_mapM {A B : Type} (f1 f2 : A -> M B) l :
  (forall x, below (f1 x) (f2 x)) -> below (mapM f1 l) (mapM f2 l).
Proof.
  intros H. induction l as [|x t IH]; cbn [mapM].
  - apply below_refl.
  - apply below_bind; [apply H|intro].
    apply below_bind; [exact IH|intro; apply below_refl].
Qed.

Lemma below_mapiM {A B : Type} (f1 f2 : A -> nat -> M B) l :
  (forall x i, below (f1 x i) (f2 x i)) -> forall idx, below (mapiM f1 l idx) (mapiM f2 l idx).
Proof.
  intros H. induction l as [|x t IH]; intros idx; cbn [mapiM].
  - apply below_refl.
  - apply below_bind; [apply H|intro].
    apply below_bind; [apply IH|intro; apply below_refl].
Qed.

(** One step of a proof that a larger bound changes nothing. *)
Ltac below_step :=
  match goal with
  | |- below ?m ?m => apply below_refl
  | |- below rangeError _ => apply below_rangeError
  | |- below (bind _ _) (bind _ _) => apply below_bind; [|intro]
  | |- below (replaceAllM _ _ _) (replaceAllM _ _ _) => apply below_replaceAllM; intro
  | |- below (mapM _ _) (mapM _ _) => apply below_mapM; intro
  | |- below (mapiM _ _ _) (mapiM _ _ _) => apply below_mapiM; intros
  | |- below (match ?x with _ => _ end) _ => destruct x
  | |- below (let (_, _) := ?x in _) _ => destruct x
  | H : _ |- _ => apply H
  end.

Section Bound.

Variable defs : DefsResult.

Lemma renderInline_below fuel :
  forall text, below (renderInline defs fuel text) (renderInline defs (S fuel) text).
Proof.
  induction fuel as [|fuel IH]; intros [|c t].
  - apply below_refl.
  - apply below_rangeError.
  - apply below_refl.
  - cbn [renderInline]. repeat below_step.
Qed.

Lemma renderRow_below fuel aligns row :
  below (renderRow defs fuel aligns row) (renderRow defs (S fuel) aligns row).
Proof. unfold renderRow. repeat first [apply renderInline_below | below_step]. Qed.

Lemma parseTableAt_below fuel ls :
  below (parseTableAt defs fuel ls) (parseTableAt defs (S fuel) ls).
Proof.
  unfold parseTableAt.
  repeat first [apply renderInline_below | apply renderRow_below | below_step].
Qed.

Lemma renderItem_below fuel ls :
  below (renderItem defs fuel ls) (renderItem defs (S fuel) ls).
Proof. unfold renderItem. repeat first [apply renderInline_below | below_step]. Qed.

Lemma listLoop_below nested1 nested2 fuel base :
  (forall ls, below (nested1 ls) (nested2 ls)) ->
  forall ls skip items cnt,
    below (listLoop defs nested1 fuel base ls skip items cnt)
          (listLoop defs nested2 (S fuel) base ls skip items cnt).
Proof.
  intros Hn. induction ls as [|line t IH]; intros skip items cnt; cbn [listLoop].
  - apply below_refl.
  - repeat first [apply IH | apply Hn | apply renderItem_below | below_step].
Qed.

Lemma parseListAt_below fuel :
  forall ls, below (parseListAt defs fuel ls) (parseListAt defs (S fuel) ls).
Proof.
  induction fuel as [|fuel IH]; intros ls.
  - apply below_rangeError.
  - cbn [parseListAt]. repeat first [apply listLoop_below; exact IH | below_step].
Qed.

Lemma headingBlock_below fuel m :
  below (headingBlock defs fuel m) (headingBlock defs (S fuel) m).
Proof. unfold headingBlock. repeat first [apply renderInline_below | below_step]. Qed.

Lemma defListItem_below fuel l :
  below (defListItem defs fuel l) (defListItem defs (S fuel) l).
Proof. unfold defListItem. repeat first [apply renderInline_below | below_step]. Qed.

Lemma blocksLoop_below quoted1 quoted2 fuel :
  (forall s, below (quoted1 s) (quoted2 s)) ->
  forall ls skip out,
    below (blocksLoop defs quoted1 fuel ls skip out)
          (blocksLoop defs quoted2 (S fuel) ls skip out).
Proof.
  intros Hq. induction ls as [|line t IH]; intros skip out; cbn [blocksLoop].
  - apply below_refl.
  - repeat first
      [ apply IH | apply Hq | apply headingBlock_below | apply parseTableAt_below
      | apply parseListAt_below | apply defListItem_below | apply renderInline_below
      | below_step ].
Qed.

Lemma parseBlocks_below fuel :
  forall src, below (parseBlocks defs fuel src) (parseBlocks defs (S fuel) src).
Proof.
  induction fuel as [|fuel IH]; intros src.
  - apply below_rangeError.
  - cbn [parseBlocks]. repeat first [apply blocksLoop_below; exact IH | below_step].
Qed.

Lemma renderBody_below fuel : below (renderBody defs fuel) (renderBody defs (S fuel)).
Proof.
  unfold renderBody, appendFootnotes, footnotesHtml, footnoteItem.
  repeat first [apply parseBlocks_below | below_step].
Qed.

End Bound.

(** A compile that does not end on [RangeError] ends the same way under
    every larger bound. *)
Lemma renderMarkdownWith_stable (src : jsstring) (fuel more : nat) :
  renderMarkdownWith fuel src <> RangeError ->
  renderMarkdownWith (more + fuel) src = renderMarkdownWith fuel src.
Proof.
  intros H. induction more as [|n IH]; [reflexivity|].
  cbn [Nat.add]. rewrite <- IH. unfold renderMarkdownWith in *.
  rewrite (renderBody_below (extractDefinitions src) (n + fuel) initial); [reflexivity|].
  intros E. apply H. rewrite <- IH. unfold renderMarkdownWith. now rewrite E.
Qed.

(** ** The matcher goes forward *)

Lemma suffix_refl (s : jsstring) : suffix s s.
Proof. now exists []. Qed.

Lemma suffix_trans (a b c : jsstring) : suffix a b -> suffix b c -> suffix a c.
Proof. intros [p ->] [q ->]. exists (q ++ p). now rewrite app_assoc. Qed.

Lemma suffix_cons x (t : jsstring) : suffix t (x :: t).
Proof. now exists [x]. Qed.

Lemma suffix_length (a b : jsstring) : suffix a b -> (List.length a <= List.length b)%nat.
Proof. intros [p ->]. rewrite length_app. lia. Qed.

Lemma suffix_skipn n (s : jsstring) : suffix (skipn n s) s.
Proof. exists (firstn n s). now rewrite firstn_skipn. Qed.

(** The text between a position and a later one. *)
Lemma firstn_suffix (t s : jsstring) :
  suffix t s -> s = firstn (List.length s - List.length t) s ++ t.
Proof.
  intros [p ->]. rewrite length_app, Nat.add_sub.
  rewrite firstn_app, Nat.sub_diag, firstn_all. cbn [firstn]. now rewrite app_nil_r.
Qed.

Lemma infix_between (t s s0 : jsstring) :
  suffix t s -> suffix s s0 -> infix (firstn (List.length s - List.length t) s) s0.
Proof.
  intros H [q ->]. exists q, t. f_equal. now apply firstn_suffix.
Qed.

Lemma cap_filter (q : nat -> bool) i (c : caps) :
  cap i (filter (fun e => q (fst e)) c) = if q i then cap i c else None.
Proof.
  induction c as [|[j w] t IH]; cbn [filter cap fst].
  - now destruct (q i).
  - destruct (q j) eqn:Q; cbn [cap]; destruct (Nat.eqb i j) eqn:E.
    + apply Nat.eqb_eq in E. subst. now rewrite Q.
    + exact IH.
    + apply Nat.eqb_eq in E. subst. now rewrite IH, Q.
    + exact IH.
Qed.

Lemma capsIn_clearcaps s0 gs c : capsIn s0 c -> capsIn s0 (clearcaps gs c).
Proof.
  intros H i w. unfold clearcaps.
  rewrite (cap_filter (fun j => negb (existsb (Nat.eqb j) gs))).
  destruct (negb _); [apply H|discriminate].
Qed.

Lemma capsIn_setcap s0 i w c : infix w s0 -> capsIn s0 c -> capsIn s0 (setcap i w c).
Proof.
  intros Hw H j v. unfold setcap. cbn [cap].
  destruct (Nat.eqb j i) eqn:E.
  - intros [= <-]. exact Hw.
  - rewrite (cap_filter (fun k => negb (Nat.eqb k i))).
    destruct (negb _); [apply H|discriminate].
Qed.

Lemma capsIn_nil s0 : capsIn s0 [].
Proof. intros i w H. discriminate H. Qed.

Section Forward.

Variable s0 : jsstring.

Lemma repLoop_forward body inner b :
  forward s0 body b ->
  forall fuel mn mx g prev s c k res,
    suffix s s0 -> capsIn s0 c ->
    repLoop body inner fuel mn mx g prev s c k = Some res ->
    exists p1 s1 c1,
      suffix s1 s /\ capsIn s0 c1
      /\ (b = true -> (0 < mn)%nat -> withinMax mn mx = true ->
          (List.length s1 < List.length s)%nat)
      /\ k p1 s1 c1 = Some res.
Proof.
  intros Hb.
  assert (Stop : forall mn mx (prev : option N) s c (k : cont) res,
            capsIn s0 c -> (mn = O \/ mx = Some O) -> k prev s c = Some res ->
            exists p1 s1 c1,
              suffix s1 s /\ capsIn s0 c1
              /\ (b = true -> (0 < mn)%nat -> withinMax mn mx = true ->
                  (List.length s1 < List.length s)%nat)
              /\ k p1 s1 c1 = Some res).
  { intros mn mx prev s c k res Hc Hm Hk. exists prev, s, c.
    repeat split; auto using suffix_refl. intros _ L W. exfalso.
    destruct Hm as [->| ->]; [lia|]. cbn [withinMax] in W.
    apply Nat.leb_le in W. lia. }
  induction fuel as [|fuel IH]; intros mn mx g prev s c k res Hs Hc.
  - cbn [repLoop]. destruct mx as [[|n]|].
    + intros Hk. apply (Stop mn (Some O) prev s c k res); auto.
    + destruct (Nat.eqb mn 0) eqn:E; [|discriminate].
      apply Nat.eqb_eq in E. intros Hk. apply (Stop mn (Some (S n)) prev s c k res); auto.
    + destruct (Nat.eqb mn 0) eqn:E; [|discriminate].
      apply Nat.eqb_eq in E. intros Hk. apply (Stop mn None prev s c k res); auto.
  - assert (Iter : forall mx',
              body prev s (clearcaps inner c)
                (fun p' s' c' =>
                   if Nat.eqb mn 0 && Nat.eqb (List.length s') (List.length s)
                   then None
                   else repLoop body inner fuel (pred mn) mx' g p' s' c' k) = Some res ->
              exists p1 s1 c1,
                suffix s1 s /\ capsIn s0 c1
                /\ (b = true -> (0 < mn)%nat -> withinMax mn mx = true ->
                    (List.length s1 < List.length s)%nat)
                /\ k p1 s1 c1 = Some res).
    { intros mx' H.
      apply Hb in H as (p' & s' & c' & S' & C' & L' & K'); auto using capsIn_clearcaps.
      destruct (Nat.eqb mn 0 && Nat.eqb (List.length s') (List.length s)); [discriminate|].
      apply IH in K' as (p1 & s1 & c1 & S1 & C1 & _ & K1);
        [|exact (suffix_trans _ _ _ S' Hs)|exact C'].
      exists p1, s1, c1. repeat split; auto.
      - exact (suffix_trans _ _ _ S1 S').
      - intros B _ _. specialize (L' B). apply suffix_length in S1. lia. }
    assert (Go : forall mx',
              (if Nat.ltb 0 mn
               then body prev s (clearcaps inner c)
                      (fun p' s' c' =>
                         if Nat.eqb mn 0 && Nat.eqb (List.length s') (List.length s)
                         then None
                         else repLoop body inner fuel (pred mn) mx' g p' s' c' k)
               else if g
                    then orElse
                           (body prev s (clearcaps inner c)
                              (fun p' s' c' =>
                                 if Nat.eqb mn 0
                                    && Nat.eqb (List.length s') (List.length s)
                                 then None
                                 else repLoop body inner fuel (pred mn) mx' g p' s' c' k))
                           (fun _ => k prev s c)
                    else orElse (k prev s c)
                           (fun _ =>
                              body prev s (clearcaps inner c)
                                (fun p' s' c' =>
                                   if Nat.eqb mn 0
                                      && Nat.eqb (List.length s') (List.length s)
                                   then None
                                   else repLoop body inner fuel (pred mn) mx' g p' s' c' k)))
              = Some res ->
              exists p1 s1 c1,
                suffix s1 s /\ capsIn s0 c1
                /\ (b = true -> (0 < mn)%nat -> withinMax mn mx = true ->
                    (List.length s1 < List.length s)%nat)
                /\ k p1 s1 c1 = Some res).
    { intros mx'. destruct (Nat.ltb 0 mn) eqn:P; [apply Iter|].
      apply Nat.ltb_ge in P.
      destruct g; unfold orElse.
      - destruct (body prev s (clearcaps inner c) _) as [r|] eqn:E.
        + intros [= <-]. now apply (Iter mx').
        + intros Hk. apply (Stop mn mx prev s c k res); auto. left. lia.
      - destruct (k prev s c) as [r|] eqn:E.
        + intros [= <-]. apply (Stop mn mx prev s c k r); auto. left. lia.
        + apply Iter. }
    cbn [repLoop]. destruct mx as [[|n]|].
    + intros Hk. apply (Stop mn (Some O) prev s c k res); auto.
    + apply Go.
    + apply Go.
Qed.

Lemma rmatch_forward r : forward s0 (rmatch r) (consumes r).
Proof.
  induction r as [|p|a IHa b IHb|a IHa b IHb|mn mx g a IHa|i a IHa|i| | |];
    intros prev s c k res Hs Hc; cbn [rmatch consumes].
  - intros H. exists prev, s, c. repeat split; auto using suffix_refl. discriminate.
  - destruct s as [|x t]; [discriminate|]. destruct (p x); [|discriminate].
    intros H. exists (Some x), t, c. repeat split; auto using suffix_cons.
  - intros H. apply IHa in H as (p1 & s1 & c1 & S1 & C1 & L1 & H); auto.
    apply IHb in H as (p2 & s2 & c2 & S2 & C2 & L2 & H);
      [|exact (suffix_trans _ _ _ S1 Hs)|exact C1].
    exists p2, s2, c2. repeat split; auto.
    + exact (suffix_trans _ _ _ S2 S1).
    + intros B. apply suffix_length in S1, S2. apply orb_prop in B as [B|B].
      * specialize (L1 B). lia.
      * specialize (L2 B). lia.
  - unfold orElse. destruct (rmatch a prev s c k) as [r|] eqn:E.
    + intros [= <-]. apply IHa in E as (p1 & s1 & c1 & S1 & C1 & L1 & H); auto.
      exists p1, s1, c1. repeat split; auto.
      intros B. apply andb_prop in B as [B _]. auto.
    + intros H. apply IHb in H as (p1 & s1 & c1 & S1 & C1 & L1 & H); auto.
      exists p1, s1, c1. repeat split; auto.
      intros B. apply andb_prop in B as [_ B]. auto.
  - intros H.
    apply (repLoop_forward _ _ _ IHa) in H as (p1 & s1 & c1 & S1 & C1 & L1 & H); auto.
    exists p1, s1, c1. repeat split; auto.
    intros B. apply andb_prop in B as [B B3]. apply andb_prop in B as [B1 B2].
    apply Nat.ltb_lt in B1. auto.
  - intros H. apply IHa in H as (p1 & s1 & c1 & S1 & C1 & L1 & H); auto.
    exists p1, s1, (setcap i (firstn (List.length s - List.length s1) s) c1).
    repeat split; auto.
    apply capsIn_setcap; [|exact C1]. now apply infix_between.
  - destruct (cap i c) as [w|].
    + destruct (startsWith s w); [|discriminate]. intros H.
      exists (last (map Some w) prev), (skipn (List.length w) s), c.
      repeat split; auto using suffix_skipn. discriminate.
    + intros H. exists prev, s, c. repeat split; auto using suffix_refl. discriminate.
  - destruct prev; [discriminate|]. intros H.
    exists None, s, c. repeat split; auto using suffix_refl. discriminate.
  - destruct s; [|discriminate]. intros H.
    exists prev, [], c. repeat split; auto using suffix_refl. discriminate.
  - destruct (xorb _ _); [|discriminate]. intros H.
    exists prev, s, c. repeat split; auto using suffix_refl. discriminate.
Qed.

End Forward.

(** A match is the beginning of the text it was looked for in, up to what
    follows it; its captures are parts of that text; it is not empty if
    the regex takes a code unit. *)
Lemma execAt_forward r prev s f :
  execAt r prev s = Some f ->
  s = m0 f ++ mrest f
  /\ capsIn s (mcaps f)
  /\ (consumes r = true -> m0 f <> []).
Proof.
  unfold execAt.
  destruct (rmatch r prev s [] _) as [[s' c']|] eqn:E; [|discriminate].
  intros [= <-]. cbn [m0 mcaps mrest].
  apply (rmatch_forward s) in E as (p1 & s1 & c1 & S1 & C1 & L1 & [= <- <-]);
    auto using suffix_refl, capsIn_nil.
  split; [now apply firstn_suffix|]. split; [exact C1|].
  intros B E. specialize (L1 B). apply (f_equal (@List.length N)) in E.
  rewrite length_firstn in E. cbn [List.length] in E. lia.
Qed.

Lemma searchFrom_forward r :
  forall s prev acc pre f,
    searchFrom r prev s acc = Some (pre, f) ->
    exists q, pre = rev acc ++ q
              /\ s = q ++ m0 f ++ mrest f
              /\ capsIn (m0 f ++ mrest f) (mcaps f)
              /\ (consumes r = true -> m0 f <> []).
Proof.
  induction s as [|x t IH]; intros prev acc pre f; cbn [searchFrom].
  - destruct (execAt r prev []) as [f'|] eqn:E; [|discriminate].
    intros [= <- <-]. apply execAt_forward in E as (E1 & E2 & E3).
    exists []. rewrite app_nil_r. rewrite <- E1. repeat split; auto.
  - destruct (execAt r prev (x :: t)) as [f'|] eqn:E.
    + intros [= <- <-]. apply execAt_forward in E as (E1 & E2 & E3).
      exists []. rewrite app_nil_r. rewrite <- E1. repeat split; auto.
    + intros H. apply IH in H as (q & -> & -> & C & D).
      exists (x :: q). cbn [rev]. rewrite <- app_assoc. repeat split; auto.
Qed.

(** The leftmost match cuts the text in three. *)
Lemma search_forward r s pre f :
  search r s = Some (pre, f) ->
  s = pre ++ m0 f ++ mrest f
  /\ capsIn (m0 f ++ mrest f) (mcaps f)
  /\ (consumes r = true -> m0 f <> []).
Proof.
  unfold search. intros H. apply searchFrom_forward in H as (q & -> & -> & C & D).
  repeat split; auto.
Qed.

Lemma infix_nil (s : jsstring) : infix [] s.
Proof. now exists [], s. Qed.

Lemma infix_length (w s : jsstring) : infix w s -> (List.length w <= List.length s)%nat.
Proof. intros (a & b & ->). rewrite !length_app. lia. Qed.

Lemma infix_app_r (w a s : jsstring) : infix w s -> infix w (a ++ s).
Proof. intros (x & y & ->). exists (a ++ x), y. now rewrite app_assoc. Qed.

Lemma infix_app_l (w s b : jsstring) : infix w s -> infix w (s ++ b).
Proof. intros (x & y & ->). exists x, (y ++ b). now rewrite <- !app_assoc. Qed.

Lemma infix_trans (a b c : jsstring) : infix a b -> infix b c -> infix a c.
Proof.
  intros (x & y & ->) (u & v & ->). exists (u ++ x), (y ++ v).
  now rewrite <- !app_assoc.
Qed.

Lemma suffix_infix (t s : jsstring) : suffix t s -> infix t s.
Proof. intros [p ->]. exists p, []. now rewrite app_nil_r. Qed.

(** A capture of the leftmost match is a part of the text. *)
Lemma rmatch1_grp_infix r s f i : rmatch1 r s = Some f -> infix (grp i f) s.
Proof.
  unfold rmatch1. destruct (search r s) as [[pre f']|] eqn:E; [|discriminate].
  intros [= <-]. apply search_forward in E as (-> & C & _).
  unfold grp. destruct (cap i (mcaps f')) as [w|] eqn:W; [|apply infix_nil].
  apply infix_app_r. exact (C _ _ W).
Qed.

(** Taking out the leftmost match leaves no more than there was. *)
Lemma replaceFirst_length r s :
  (List.length (replaceFirst r [] s) <= List.length s)%nat.
Proof.
  unfold replaceFirst. destruct (search r s) as [[pre f]|] eqn:E; [|lia].
  apply search_forward in E as (E & _). apply (f_equal (@List.length N)) in E.
  cbn [app]. rewrite !length_app in *. lia.
Qed.

Lemma brackets_app a b : brackets (a ++ b) = (brackets a + brackets b)%nat.
Proof.
  induction a as [|x t IH]; cbn [app brackets]; [reflexivity|].
  rewrite IH. now destruct (x =? 91).
Qed.

Lemma infix_brackets w s : infix w s -> (brackets w <= brackets s)%nat.
Proof. intros (a & b & ->). rewrite !brackets_app. lia. Qed.

Lemma brackets_length s : (brackets s <= List.length s)%nat.
Proof.
  induction s as [|c t IH]; cbn [brackets List.length]; [lia|].
  destruct (c =? 91); lia.
Qed.

(** The segments of a text, put back together, are the text. *)
Lemma segmentsGo_source r :
  forall s prev skip, flat_map srcOf (segmentsGo r prev s skip) = skipn skip s.
Proof.
  induction s as [|x t IH]; intros prev skip; cbn [segmentsGo].
  - destruct skip; [|reflexivity].
    destruct (execAt r prev []) as [f|] eqn:E; [|reflexivity].
    apply execAt_forward in E as (E & _). cbn [flat_map srcOf skipn].
    symmetry in E. apply app_eq_nil in E as [-> _]. reflexivity.
  - destruct skip as [|n]; [|cbn [skipn]; apply IH].
    destruct (execAt r prev (x :: t)) as [f|] eqn:E.
    + apply execAt_forward in E as (E & _).
      destruct (m0 f) as [|y w] eqn:M; cbn [flat_map srcOf].
      * rewrite M, IH. reflexivity.
      * rewrite M, IH. cbn [app] in E. injection E as -> ->.
        cbn [skipn app]. f_equal.
        rewrite skipn_app, Nat.sub_diag, skipn_all. reflexivity.
    + cbn [flat_map srcOf]. rewrite IH. reflexivity.
Qed.

Lemma segments_source r s : flat_map srcOf (segments r s) = s.
Proof. unfold segments. now rewrite segmentsGo_source. Qed.

(** Every match among the segments was found at some place of the text. *)
Lemma segmentsGo_Hit r f :
  forall s prev skip,
    In (Hit f) (segmentsGo r prev s skip) ->
    exists prev' sp, suffix sp s /\ execAt r prev' sp = Some f.
Proof.
  induction s as [|x t IH]; intros prev skip; cbn [segmentsGo].
  - destruct skip; [|intros []].
    destruct (execAt r prev []) as [f'|] eqn:E; [|intros []].
    intros [[= ->]|[]]. exists prev, []. split; [apply suffix_refl|exact E].
  - assert (Up : forall p k,
              In (Hit f) (segmentsGo r p t k) ->
              exists prev' sp, suffix sp (x :: t) /\ execAt r prev' sp = Some f).
    { intros p k H. apply IH in H as (p' & sp & S & E). exists p', sp.
      split; [exact (suffix_trans _ _ _ S (suffix_cons x t))|exact E]. }
    destruct skip as [|n]; [|apply Up].
    destruct (execAt r prev (x :: t)) as [f'|] eqn:E.
    + destruct (m0 f') as [|y w].
      * intros [[= ->]|[H|H]]; [|discriminate H|exact (Up _ _ H)].
        exists prev, (x :: t). split; [apply suffix_refl|exact E].
      * intros [[= ->]|H]; [|exact (Up _ _ H)].
        exists prev, (x :: t). split; [apply suffix_refl|exact E].
    + intros [H|H]; [discriminate H|exact (Up _ _ H)].
Qed.

(** ** Colored spans do not nest deeper than the text has brackets *)

Lemma post_ret {A : Type} (a : A) (Q : A -> Prop) : Q a -> post (ret a) Q.
Proof. intros H st. exact H. Qed.

Lemma post_throw {A : Type} (Q : A -> Prop) : post throw Q.
Proof. intros st. exact I. Qed.

Lemma post_bind {A B : Type} (m : M A) (f : A -> M B) (P : A -> Prop) (Q : B -> Prop) :
  post m P -> (forall a, P a -> post (f a) Q) -> post (bind m f) Q.
Proof.
  intros Hm Hf st. unfold bind. specialize (Hm st).
  destruct (m st) as [[a st1]| |]; [|exact I|exact Hm].
  exact (Hf a Hm st1).
Qed.

Lemma post_weaken {A : Type} (m : M A) (P Q : A -> Prop) :
  post m P -> (forall a, P a -> Q a) -> post m Q.
Proof.
  intros Hm H st. specialize (Hm st). destruct (m st) as [[a st1]| |]; auto.
Qed.

Lemma safe_bind {A B : Type} (m : M A) (f : A -> M B) :
  safe m -> (forall a, safe (f a)) -> safe (bind m f).
Proof.
  intros Hm Hf. exact (post_bind m f (fun _ => True) (fun _ => True) Hm (fun a _ => Hf a)).
Qed.

Lemma post_safe {A : Type} (m : M A) (P : A -> Prop) : post m P -> safe m.
Proof. intros H. apply (post_weaken m P); auto. Qed.

Lemma post_makePlaceholder html (Q : jsstring -> Prop) :
  (forall n, Q (placeholderKey n)) -> post (makePlaceholder html) Q.
Proof. intros H st. apply H. Qed.

Lemma digitsGo_brackets fuel :
  forall n acc, brackets acc = O -> brackets (digitsGo fuel n acc) = O.
Proof.
  induction fuel as [|fuel IH]; intros n acc H; cbn [digitsGo]; [exact H|].
  assert (D : brackets ((48 + n mod 10) :: acc) = O).
  { cbn [brackets]. destruct (48 + n mod 10 =? 91) eqn:E; [|exact H].
    apply N.eqb_eq in E. pose proof (N.mod_upper_bound n 10). lia. }
  destruct (n <? 10); [exact D|apply IH, D].
Qed.

(** A key holds no bracket. *)
Lemma brackets_key n : brackets (placeholderKey n) = O.
Proof.
  unfold placeholderKey, numToString. cbn [brackets].
  change (keyOpen =? 91) with false. cbv iota.
  rewrite brackets_app, digitsGo_brackets; reflexivity.
Qed.

Lemma post_key html (b : nat) :
  post (makePlaceholder html) (fun h => (brackets h <= b)%nat).
Proof. apply post_makePlaceholder. intros n. rewrite brackets_key. lia. Qed.

Lemma post_replaceSegs cb l :
  (forall f, In (Hit f) l ->
     post (cb f) (fun h => (brackets h <= brackets (m0 f))%nat)) ->
  post (replaceSegs cb l) (fun out => (brackets out <= brackets (flat_map srcOf l))%nat).
Proof.
  induction l as [|[c|f] t IH]; intros H; cbn [replaceSegs flat_map srcOf].
  - apply post_ret. cbn [brackets]. lia.
  - eapply post_bind; [apply IH; intros f Hin; apply H; now right|].
    intros r Hr. apply post_ret. cbv beta in *. cbn [app brackets].
    destruct (c =? 91); lia.
  - eapply post_bind; [apply (H f); now left|]. intros h Hh.
    eapply post_bind; [apply IH; intros f' Hin; apply H; now right|].
    intros r Hr. apply post_ret. cbv beta in *. rewrite !brackets_app. lia.
Qed.

(** A replacement whose callback returns a key, or the match itself, adds
    no bracket. *)
Lemma post_replaceAllM r cb s :
  (forall f, post (cb f) (fun h => (brackets h <= brackets (m0 f))%nat)) ->
  post (replaceAllM r cb s) (fun out => (brackets out <= brackets s)%nat).
Proof.
  intros H. unfold replaceAllM.
  pose proof (post_replaceSegs cb (segments r s) (fun f _ => H f)) as P.
  now rewrite segments_source in P.
Qed.

Lemma safe_replaceSegs cb l :
  (forall f, In (Hit f) l -> safe (cb f)) -> safe (replaceSegs cb l).
Proof.
  induction l as [|[c|f] t IH]; intros H; cbn [replaceSegs].
  - now apply post_ret.
  - apply safe_bind; [apply IH; intros f Hin; apply H; now right|].
    intros r. now apply post_ret.
  - apply safe_bind; [apply (H f); now left|]. intros h.
    apply safe_bind; [apply IH; intros f' Hin; apply H; now right|].
    intros r. now apply post_ret.
Qed.

Lemma safe_replaceAllM r cb s :
  (forall f, In (Hit f) (segments r s) -> safe (cb f)) -> safe (replaceAllM r cb s).
Proof. apply safe_replaceSegs. Qed.

Lemma safe_makePlaceholder html : safe (makePlaceholder html).
Proof. now apply post_makePlaceholder. Qed.

Lemma safe_forEachM f ks : (forall k s, safe (f k s)) -> forall s, safe (forEachM f ks s).
Proof.
  intros Hf. induction ks as [|k t IH]; intros s; cbn [forEachM].
  - now apply post_ret.
  - apply safe_bind; [apply Hf|intro; apply IH].
Qed.

Lemma brackets_replaceAll r cb s :
  (forall f, (brackets (cb f) <= brackets (m0 f))%nat) ->
  (brackets (replaceAll r cb s) <= brackets s)%nat.
Proof.
  intros H. unfold replaceAll. rewrite <- (segments_source r s) at 2.
  induction (segments r s) as [|[c|f] t IH]; cbn [flat_map srcOf]; [lia| |].
  - cbn [app brackets]. destruct (c =? 91); lia.
  - rewrite !brackets_app. specialize (H f). lia.
Qed.

Lemma brackets_normalizeNewlines s : (brackets (normalizeNewlines s) <= brackets s)%nat.
Proof. apply brackets_replaceAll. intros f. cbn. lia. Qed.

(** A match of a regex that begins with a literal code unit [x]: the
    captures are parts of what comes after [x]. *)
Lemma execAt_after_first p a b prev s f :
  execAt (Seq (Seq (Chr p) a) b) prev s = Some f ->
  exists x t, s = x :: t /\ p x = true /\ capsIn t (mcaps f).
Proof.
  unfold execAt. cbn [rmatch]. destruct s as [|x t]; [discriminate|].
  destruct (p x) eqn:P; [|discriminate].
  change (rmatch a (Some x) t []
            (fun p' s' c' => rmatch b p' s' c' (fun _ s'0 c'0 => Some (s'0, c'0))))
    with (rmatch (Seq a b) (Some x) t [] (fun _ s' c' => Some (s', c'))).
  destruct (rmatch (Seq a b) (Some x) t [] _) as [[s' c']|] eqn:E; [|discriminate].
  intros [= <-]. cbn [mcaps].
  apply (rmatch_forward t) in E as (p1 & s1 & c1 & S1 & C1 & L1 & [= <- <-]);
    auto using suffix_refl, capsIn_nil.
  now exists x, t.
Qed.

Lemma R_color_shape : exists a b, R_color = Seq (Seq (Chr (N.eqb 91)) a) b.
Proof. unfold R_color, re, lit. cbn. eexists. eexists. reflexivity. Qed.

Lemma suffix_brackets t s : suffix t s -> (brackets t <= brackets s)%nat.
Proof. intros H. now apply infix_brackets, suffix_infix. Qed.

(** The content of a colored span has fewer brackets than the text the
    span stands in. *)
Lemma color_content s f :
  In (Hit f) (segments R_color s) -> (brackets (grp 2 f) < brackets s)%nat.
Proof.
  intros H. apply segmentsGo_Hit in H as (prev & sp & S & E).
  destruct R_color_shape as (a & b & R). rewrite R in E.
  apply execAt_after_first in E as (x & t & -> & X & C).
  apply N.eqb_eq in X. subst x.
  apply suffix_brackets in S. cbn [brackets] in S. change (91 =? 91) with true in S.
  cbv iota in S.
  assert (G : (brackets (grp 2 f) <= brackets t)%nat).
  { unfold grp. destruct (cap 2 (mcaps f)) as [w|] eqn:W; [|cbn; lia].
    exact (infix_brackets _ _ (C _ _ W)). }
  lia.
Qed.

Lemma post_replaceAllM_le r cb s (b : nat) :
  (forall f, post (cb f) (fun h => (brackets h <= brackets (m0 f))%nat)) ->
  (brackets s <= b)%nat ->
  post (replaceAllM r cb s) (fun out => (brackets out <= b)%nat).
Proof.
  intros H L. apply (post_weaken _ _ _ (post_replaceAllM r cb s H)).
  intros a Ha. cbv beta in *. lia.
Qed.

Ltac key_or_self :=
  first [ apply post_key
        | apply post_ret; apply Nat.le_refl
        | apply post_throw ].

Lemma safe_ret {A : Type} (a : A) : safe (ret a).
Proof. now apply post_ret. Qed.

Lemma safe_throw {A : Type} : safe (@throw A).
Proof. apply post_throw. Qed.

Lemma safe_keyed html (k : jsstring -> jsstring) :
  safe (bind (makePlaceholder html) (fun p => ret (k p))).
Proof. apply safe_bind; [apply safe_makePlaceholder|intro; apply safe_ret]. Qed.

Lemma safe_abbrStep defs abbr s : safe (abbrStep defs abbr s).
Proof.
  unfold abbrStep. destruct (getOwn abbr (abbrDefs defs)); [|apply safe_throw].
  apply safe_replaceAllM. intros f _. apply safe_makePlaceholder.
Qed.

Lemma renderInline_safe defs :
  forall fuel text, (brackets text < fuel)%nat -> safe (renderInline defs fuel text).
Proof.
  induction fuel as [|fuel IH]; intros text Hb; [lia|].
  destruct text as [|x t]; [apply safe_ret|].
  cbn [renderInline].
  assert (Hs : (brackets (normalizeNewlines (x :: t)) <= fuel)%nat)
    by (pose proof (brackets_normalizeNewlines (x :: t)); lia).
  revert Hs. generalize (normalizeNewlines (x :: t)). clear Hb. intros s Hs.
  unfold safe.
  do 7 (eapply post_bind;
        [apply post_replaceAllM_le; [intros f; key_or_self|exact Hs]|];
        clear s Hs; intros s Hs; cbv beta in Hs).
  eapply post_bind;
    [apply post_replaceAllM_le;
       [intros f; unfold refImageCb; destruct (linkDefsGet _ _); key_or_self|exact Hs]|].
  clear s Hs; intros s Hs; cbv beta in Hs.
  eapply post_bind;
        [apply post_replaceAllM_le; [intros f; key_or_self|exact Hs]|];
        clear s Hs; intros s Hs; cbv beta in Hs.
  eapply post_bind;
    [apply post_replaceAllM_le;
       [intros f; unfold refLinkCb; destruct (linkDefsGet _ _); key_or_self|exact Hs]|].
  clear s Hs; intros s Hs; cbv beta in Hs.
  do 7 (eapply post_bind;
        [apply post_replaceAllM_le; [intros f; first [apply post_key|unfold footnoteRefCb; apply post_key]|exact Hs]|];
        clear s Hs; intros s Hs; cbv beta in Hs).
  apply safe_bind.
  { apply safe_replaceAllM. intros f Hf. apply color_content in Hf.
    assert (G : safe (renderInline defs fuel (grp 2 f))) by (apply IH; lia).
    destruct (existsb _ _).
    - apply safe_bind; [exact G|intro; apply safe_makePlaceholder].
    - destruct (rmatch1 R_hexColor _); [|apply safe_ret].
      apply safe_bind; [exact G|intro; apply safe_makePlaceholder]. }
  clear s Hs. intros s.
  apply safe_bind.
  { apply safe_replaceAllM. intros f _. unfold emojiCb.
    destruct (emojiGet _); [apply safe_makePlaceholder|apply safe_ret]. }
  clear s. intros s.
  do 5 (apply safe_bind; [apply safe_replaceAllM; intros f _; apply safe_keyed|];
        clear s; intros s).
  apply safe_forEachM. apply safe_abbrStep.
Qed.

(** ** The weight of the lines *)

Lemma join_weight ls : List.length (join nl ls) = pred (weight ls).
Proof.
  induction ls as [|x t IH]; [reflexivity|].
  destruct t as [|y t'].
  - cbn. lia.
  - change (join nl (x :: y :: t')) with (x ++ nl ++ join nl (y :: t')).
    rewrite !length_app, IH. cbn [weight List.length nl pred]. lia.
Qed.

Lemma splitGo_nl_weight s :
  forall cur, weight (splitGo nl s O cur) = S (List.length s + List.length cur).
Proof.
  induction s as [|c t IH]; intros cur; cbn [splitGo].
  - cbn [weight List.length]. rewrite length_rev. lia.
  - unfold nl at 1. cbn [startsWith]. rewrite startsWith_nil.
    destruct (10 =? c); cbn [andb weight].
    + change (pred (List.length nl)) with O. rewrite IH, length_rev.
      cbn [List.length]. lia.
    + rewrite IH. cbn [List.length]. lia.
Qed.

Lemma split_nl_weight s : weight (split s nl) = S (List.length s).
Proof. unfold split. rewrite splitGo_nl_weight. cbn [List.length]. lia. Qed.

Lemma splitGo_length sep :
  forall s skip cur x,
    In x (splitGo sep s skip cur) ->
    (List.length x <= List.length s + List.length cur)%nat.
Proof.
  induction s as [|c t IH]; intros skip cur x; cbn [splitGo].
  - intros [<-|[]]. rewrite length_rev. lia.
  - destruct skip as [|n].
    + destruct (startsWith (c :: t) sep).
      * intros [<-|H]; [rewrite length_rev; cbn [List.length]; lia|].
        apply IH in H. cbn [List.length] in *. lia.
      * intros H. apply IH in H. cbn [List.length] in *. lia.
    + intros H. apply IH in H. cbn [List.length]. lia.
Qed.

Lemma split_length s sep x : In x (split s sep) -> (List.length x <= List.length s)%nat.
Proof. intros H. apply splitGo_length in H. cbn [List.length] in H. lia. Qed.

Lemma trimStart_length s : (List.length (trimStart s) <= List.length s)%nat.
Proof.
  induction s as [|c t IH]; cbn [trimStart]; [lia|].
  destruct (isWs c); cbn [List.length]; lia.
Qed.

Lemma trim_length s : (List.length (trim s) <= List.length s)%nat.
Proof.
  unfold trim, trimEnd. rewrite length_rev.
  etransitivity; [apply trimStart_length|]. rewrite length_rev. apply trimStart_length.
Qed.

Lemma length_replaceAll r cb s :
  (forall f, In (Hit f) (segments r s) ->
     (List.length (cb f) <= List.length (m0 f))%nat) ->
  (List.length (replaceAll r cb s) <= List.length s)%nat.
Proof.
  unfold replaceAll. intros H.
  assert (G : forall l,
            (forall f, In (Hit f) l -> (List.length (cb f) <= List.length (m0 f))%nat) ->
            (List.length (flat_map (fun g => match g with Lit c => [c] | Hit f => cb f end) l)
             <= List.length (flat_map srcOf l))%nat).
  { induction l as [|[c|f] t IH]; intros Hl; cbn [flat_map srcOf]; [lia| |].
    - cbn [app List.length]. apply le_n_S, IH. intros f Hin. apply Hl. now right.
    - rewrite !length_app. pose proof (Hl f (or_introl eq_refl)) as Hf.
      assert (T : forall f', In (Hit f') t ->
                (List.length (cb f') <= List.length (m0 f'))%nat)
        by (intros f' Hin; apply Hl; now right).
      specialize (IH T). lia. }
  specialize (G _ H). now rewrite segments_source in G.
Qed.

Lemma normalizeNewlines_length s :
  (List.length (normalizeNewlines s) <= List.length s)%nat.
Proof.
  apply length_replaceAll. intros f H.
  apply segmentsGo_Hit in H as (prev & sp & _ & E).
  apply execAt_forward in E as (_ & _ & E). specialize (E eq_refl).
  destruct (m0 f); [now contradiction E|]. cbn [List.length nl]. lia.
Qed.

Lemma takeWhile_weight p ls : (weight (takeWhile p ls) <= weight ls)%nat.
Proof.
  induction ls as [|l t IH]; cbn [takeWhile weight]; [lia|].
  destruct (p l); cbn [weight]; lia.
Qed.

Lemma takeWhile_In p ls l : In l (takeWhile p ls) -> In l ls.
Proof.
  induction ls as [|x t IH]; cbn [takeWhile]; [intros []|].
  destruct (p x); [|intros []]. intros [H|H]; [now left|right; auto].
Qed.

Lemma weight_In l ls : In l ls -> (List.length l < weight ls)%nat.
Proof.
  induction ls as [|x t IH]; [intros []|]. cbn [weight].
  intros [->|H]; [lia|]. specialize (IH H). lia.
Qed.

Lemma weight_map f ls :
  (forall l, (List.length (f l) <= List.length l)%nat) ->
  (weight (map f ls) <= weight ls)%nat.
Proof.
  intros H. induction ls as [|x t IH]; cbn [map weight]; [lia|].
  specialize (H x). lia.
Qed.

Lemma grp_length r s f i : rmatch1 r s = Some f -> (List.length (grp i f) <= List.length s)%nat.
Proof. intros H. apply infix_length. exact (rmatch1_grp_infix r s f i H). Qed.

Lemma splitRow_length line c : In c (splitRow line) -> (List.length c <= List.length line)%nat.
Proof.
  unfold splitRow. intros H. apply in_map_iff in H as (x & <- & H).
  apply split_length in H. pose proof (trim_length x).
  pose proof (replaceFirst_length R_trailPipe (replaceFirst R_leadPipe [] (trim line))).
  pose proof (replaceFirst_length R_leadPipe (trim line)).
  pose proof (trim_length line). lia.
Qed.

(** ** Tables, lists and headings within the bound *)

Lemma safe_mapM {A B : Type} (f : A -> M B) l :
  (forall x, In x l -> safe (f x)) -> safe (mapM f l).
Proof.
  induction l as [|x t IH]; intros H; cbn [mapM]; [apply safe_ret|].
  apply safe_bind; [apply H; now left|intro].
  apply safe_bind; [apply IH; intros y Hy; apply H; now right|intro; apply safe_ret].
Qed.

Lemma safe_mapiM {A B : Type} (f : A -> nat -> M B) l :
  (forall x i, In x l -> safe (f x i)) -> forall idx, safe (mapiM f l idx).
Proof.
  induction l as [|x t IH]; intros H idx; cbn [mapiM]; [apply safe_ret|].
  apply safe_bind; [apply H; now left|intro].
  apply safe_bind; [apply IH; intros y i Hy; apply H; now right|intro; apply safe_ret].
Qed.

Section Safe.

Variable defs : DefsResult.

Lemma inline_safe fuel text :
  (List.length text < fuel)%nat -> safe (renderInline defs fuel text).
Proof. intros H. apply renderInline_safe. pose proof (brackets_length text). lia. Qed.

Lemma renderRow_safe fuel aligns row :
  (forall c, In c row -> (List.length c < fuel)%nat) ->
  safe (renderRow defs fuel aligns row).
Proof.
  intros H. unfold renderRow. apply safe_mapiM. intros c i Hc.
  apply safe_bind; [apply inline_safe, H, Hc|intro; apply safe_ret].
Qed.

Lemma parseTableAt_safe fuel ls :
  (weight ls <= fuel)%nat -> safe (parseTableAt defs fuel ls).
Proof.
  intros Hw. unfold parseTableAt.
  destruct ls as [|headerLine [|dividerLine rest]]; try apply safe_throw.
  cbn [weight] in Hw.
  apply safe_bind.
  { apply safe_mapiM. intros h i Hh. apply splitRow_length in Hh.
    apply safe_bind; [apply inline_safe; lia|intro; apply safe_ret]. }
  intros ths. apply safe_bind; [|intro; apply safe_ret].
  apply safe_mapM. intros row Hrow. apply in_map_iff in Hrow as (l & <- & Hl).
  apply takeWhile_In, weight_In in Hl.
  apply safe_bind; [|intro; apply safe_ret].
  apply renderRow_safe. intros c Hc. apply splitRow_length in Hc. lia.
Qed.

Lemma itemContinuation_weight b ls :
  (weight (fst (itemContinuation b ls)) <= weight ls)%nat.
Proof.
  induction ls as [|l t IH]; cbn [itemContinuation]; [cbn; lia|].
  destruct (blank l); [cbn; lia|]. destruct (test R_item l); [cbn; lia|].
  destruct (itemContinuation b t) as [more n]. cbn [fst weight] in *.
  pose proof (replaceFirst_length (R_itemIndent (b + 2)) l). lia.
Qed.

Lemma renderItem_safe fuel x more :
  (weight (x :: more) <= fuel)%nat -> safe (renderItem defs fuel (x :: more)).
Proof.
  intros Hw. unfold renderItem. cbn [hd tl].
  destruct (rmatch1 R_task x) as [taskMatch|] eqn:E.
  - apply safe_bind; [|intro; apply safe_ret]. apply inline_safe.
    pose proof (trim_length (join nl (grp 2 taskMatch :: more))).
    rewrite join_weight in H. cbn [weight pred] in *.
    pose proof (grp_length _ _ _ 2 E). lia.
  - apply safe_bind; [|intro; apply safe_ret]. apply inline_safe.
    pose proof (trim_length (join nl (x :: more))).
    rewrite join_weight in H. cbn [weight pred] in *. lia.
Qed.

Lemma listLoop_safe nested fuel b K :
  (forall ls, (weight ls <= K)%nat -> (b < indentOf ls)%nat -> safe (nested ls)) ->
  (K <= fuel)%nat ->
  forall ls skip items cnt,
    (weight ls <= K)%nat -> safe (listLoop defs nested fuel b ls skip items cnt).
Proof.
  intros Hn Hf. induction ls as [|line t IH]; intros skip items cnt Hw; cbn [listLoop].
  - apply safe_ret.
  - assert (Ht : (weight t <= K)%nat) by (cbn [weight] in Hw; lia).
    destruct skip as [|n]; [|apply IH, Ht].
    destruct (blank line); [apply safe_ret|].
    destruct (rmatch1 R_item line) as [m|] eqn:E; [|apply safe_ret].
    destruct (Nat.ltb (List.length (grp 1 m)) b); [apply safe_ret|].
    destruct (Nat.ltb b (List.length (grp 1 m))) eqn:D.
    + apply safe_bind; [|intro; apply IH, Ht].
      apply Hn; [exact Hw|]. cbn [indentOf]. rewrite E. now apply Nat.ltb_lt.
    + pose proof (itemContinuation_weight b t) as C.
      destruct (itemContinuation b t) as [more n]. cbn [fst] in C.
      apply safe_bind; [|intro; apply IH, Ht].
      apply renderItem_safe. pose proof (grp_length _ _ _ 3 E).
      cbn [weight] in *. lia.
Qed.

Lemma indentOf_weight ls : (indentOf ls <= weight ls)%nat.
Proof.
  destruct ls as [|first rest]; cbn [indentOf weight]; [lia|].
  destruct (rmatch1 R_item first) as [m|] eqn:E; [|lia].
  pose proof (grp_length _ _ _ 1 E). lia.
Qed.

Lemma parseListAt_safe K :
  forall fuel ls,
    (weight ls <= K)%nat -> ((K - indentOf ls) + K + 1 <= fuel)%nat ->
    safe (parseListAt defs fuel ls).
Proof.
  induction fuel as [|fuel IH]; intros ls Hw Hf; [lia|].
  cbn [parseListAt]. destruct ls as [|first rest]; [apply safe_throw|].
  destruct (rmatch1 R_item first) as [m|] eqn:E; [|apply safe_ret].
  assert (B : indentOf (first :: rest) = List.length (grp 1 m))
    by (cbn [indentOf]; now rewrite E).
  rewrite B in Hf.
  apply safe_bind; [|intro; apply safe_ret].
  apply (listLoop_safe _ _ _ K); [|lia|exact Hw].
  intros ls' Hw' Hi. apply IH; [exact Hw'|].
  pose proof (indentOf_weight ls'). lia.
Qed.

Lemma headingBlock_safe fuel line m :
  rmatch1 R_heading line = Some m -> (List.length line < fuel)%nat ->
  safe (headingBlock defs fuel m).
Proof.
  intros E H. unfold headingBlock.
  apply safe_bind; [|intro; apply safe_bind; [|intro; apply safe_ret]].
  - apply inline_safe.
    pose proof (replaceFirst_length R_trailingHashes (trim (grp 3 m))).
    pose proof (trim_length (grp 3 m)). pose proof (grp_length _ _ _ 3 E). lia.
  - intros st. exact I.
Qed.

Lemma defListItem_safe fuel l :
  (List.length l < fuel)%nat -> safe (defListItem defs fuel l).
Proof.
  intros H. unfold defListItem.
  destruct (rmatch1 R_defList l) as [d|] eqn:E; [|apply safe_ret].
  pose proof (trim_length (grp 1 d)). pose proof (grp_length _ _ _ 1 E).
  pose proof (trim_length (grp 2 d)). pose proof (grp_length _ _ _ 2 E).
  apply safe_bind; [apply inline_safe; lia|intro].
  apply safe_bind; [apply inline_safe; lia|intro; apply safe_ret].
Qed.

End Safe.

(** ** A quote is shorter than the lines it is taken from *)

Lemma orElse_passes (a1 a2 : option res) (b1 b2 : unit -> option res) :
  (a1 <> None -> a2 <> None) -> (b1 tt <> None -> b2 tt <> None) ->
  orElse a1 b1 <> None -> orElse a2 b2 <> None.
Proof.
  intros Ha Hb. unfold orElse. destruct a1 as [x|].
  - intros _. destruct a2; [discriminate|].
    exfalso. apply Ha; [discriminate|reflexivity].
  - intros H. destruct a2; [discriminate|]. now apply Hb.
Qed.

Lemma repLoop_monotone body inner :
  monotone body ->
  forall fuel mn mx g, monotone (fun prev s c k => repLoop body inner fuel mn mx g prev s c k).
Proof.
  intros Hb. induction fuel as [|fuel IH]; intros mn mx g prev s c k1 k2 Hk; cbn [repLoop].
  - destruct mx as [[|n]|]; [apply Hk| |]; (destruct (Nat.eqb mn 0); [apply Hk|auto]).
  - assert (Iter : forall mx',
              body prev s (clearcaps inner c)
                (fun p' s' c' =>
                   if Nat.eqb mn 0 && Nat.eqb (List.length s') (List.length s)
                   then None
                   else repLoop body inner fuel (pred mn) mx' g p' s' c' k1) <> None ->
              body prev s (clearcaps inner c)
                (fun p' s' c' =>
                   if Nat.eqb mn 0 && Nat.eqb (List.length s') (List.length s)
                   then None
                   else repLoop body inner fuel (pred mn) mx' g p' s' c' k2) <> None).
    { intros mx'. apply Hb. intros p' s' c'.
      destruct (Nat.eqb mn 0 && Nat.eqb (List.length s') (List.length s)); [auto|].
      now apply IH. }
    destruct mx as [[|n]|]; [apply Hk| |].
    + destruct (Nat.ltb 0 mn); [apply Iter|].
      destruct g; apply orElse_passes; auto.
    + destruct (Nat.ltb 0 mn); [apply Iter|].
      destruct g; apply orElse_passes; auto.
Qed.

Lemma rmatch_monotone r : monotone (rmatch r).
Proof.
  induction r as [|p|a IHa b IHb|a IHa b IHb|mn mx g a IHa|i a IHa|i| | |];
    intros prev s c k1 k2 Hk; cbn [rmatch].
  - apply Hk.
  - destruct s as [|x t]; [auto|]. destruct (p x); [apply Hk|auto].
  - apply IHa. intros p' s' c'. now apply IHb.
  - apply orElse_passes; [now apply IHa|now apply IHb].
  - now apply (repLoop_monotone _ _ IHa).
  - apply IHa. intros p' s' c'. apply Hk.
  - destruct (cap i c); [|apply Hk]. destruct (startsWith s j); [apply Hk|auto].
  - destruct prev; [auto|apply Hk].
  - destruct s; [apply Hk|auto].
  - destruct (xorb _ _); [apply Hk|auto].
Qed.

Lemma searchFrom_passes r1 r2 :
  (forall prev s, execAt r1 prev s <> None -> execAt r2 prev s <> None) ->
  forall s prev acc, searchFrom r1 prev s acc <> None -> searchFrom r2 prev s acc <> None.
Proof.
  intros H. induction s as [|x t IH]; intros prev acc; cbn [searchFrom].
  - specialize (H prev []). destruct (execAt r1 prev []); [|auto].
    intros _. destruct (execAt r2 prev []); [discriminate|].
    exfalso. apply H; [discriminate|reflexivity].
  - specialize (H prev (x :: t)). destruct (execAt r1 prev (x :: t)).
    + intros _. destruct (execAt r2 prev (x :: t)); [discriminate|].
      exfalso. apply H; [discriminate|reflexivity].
    + intros G. destruct (execAt r2 prev (x :: t)); [discriminate|]. now apply IH.
Qed.

Lemma opt_succeeds a p s c : rmatch (opt a) p s c (fun _ s' c' => Some (s', c')) <> None.
Proof.
  unfold opt. cbn [rmatch]. destruct s as [|x t]; cbn [List.length Nat.add repLoop].
  - discriminate.
  - change (Nat.ltb 0 0) with false. cbv iota. unfold orElse.
    destruct (rmatch a p (x :: t) _ _); discriminate.
Qed.

Lemma execAt_quoteStrip prev s :
  execAt R_quote prev s <> None -> execAt R_quoteStrip prev s <> None.
Proof.
  unfold execAt.
  change (rmatch R_quoteStrip prev s [] (fun _ s' c' => Some (s', c')))
    with (rmatch R_quote prev s []
            (fun p s' c' => rmatch (opt (c1 " ")) p s' c' (fun _ s'' c'' => Some (s'', c'')))).
  intros H.
  assert (G : rmatch R_quote prev s []
                (fun p s' c' => rmatch (opt (c1 " ")) p s' c' (fun _ s'' c'' => Some (s'', c'')))
              <> None).
  { apply (rmatch_monotone R_quote prev s [] (fun _ s' c' => Some (s', c'))).
    - intros p s' c' _. apply opt_succeeds.
    - intros E. rewrite E in H. now apply H. }
  clear H.
  destruct (rmatch R_quote prev s [] _) as [[s' c']|]; [discriminate|now contradiction G].
Qed.

(** A line that opens a quote loses at least its mark. *)
Lemma quoteStrip_length l :
  test R_quote l = true ->
  (List.length (replaceFirst R_quoteStrip [] l) < List.length l)%nat.
Proof.
  unfold test, replaceFirst, search. intros H.
  assert (G : searchFrom R_quoteStrip None l [] <> None).
  { apply (searchFrom_passes R_quote); [apply execAt_quoteStrip|].
    destruct (searchFrom R_quote None l []); [discriminate|discriminate H]. }
  destruct (searchFrom R_quoteStrip None l []) as [[pre f]|] eqn:E; [|now contradiction G].
  apply (search_forward R_quoteStrip) in E as (E & _ & C). specialize (C eq_refl).
  apply (f_equal (@List.length N)) in E. rewrite !length_app in *.
  destruct (m0 f); [now contradiction C|]. cbn [List.length] in *. lia.
Qed.

(** ** parseBlocks within the bound *)

Lemma paragraphLines_weight ls : (weight (paragraphLines ls) <= weight ls)%nat.
Proof.
  induction ls as [|l t IH]; cbn [paragraphLines weight]; [lia|].
  destruct (blank l); [cbn; lia|].
  destruct (_ || _); cbn [weight]; lia.
Qed.

Section SafeBlocks.

Variable defs : DefsResult.

Lemma blocksLoop_safe quoted fuel K :
  (forall q, (S (List.length q) < K)%nat -> safe (quoted q)) ->
  (2 * K + 1 <= fuel)%nat ->
  forall ls skip out,
    (weight ls <= K)%nat -> safe (blocksLoop defs quoted fuel ls skip out).
Proof.
  intros Hq Hf. induction ls as [|line t IH]; intros skip out Hw; cbn [blocksLoop].
  - apply safe_ret.
  - assert (Ht : (weight t <= K)%nat) by (cbn [weight] in Hw; lia).
    assert (Hl : (List.length line < fuel)%nat) by (cbn [weight] in Hw; lia).
    destruct skip as [|n]; [|apply IH, Ht].
    destruct (blank line); [apply IH, Ht|].
    destruct (rmatch1 R_fence line) as [m|]; [apply IH, Ht|].
    destruct (test R_indented line); [apply IH, Ht|].
    destruct (rmatch1 R_heading line) as [m|] eqn:E.
    { apply safe_bind; [|intro; apply IH, Ht]. now apply (headingBlock_safe defs fuel line). }
    destruct (test R_hr line); [apply IH, Ht|].
    destruct (test R_quote line) eqn:Q.
    { apply safe_bind; [|intro; apply IH, Ht]. apply Hq.
      rewrite join_weight. cbn [takeWhile]. rewrite Q. cbn [map weight pred].
      pose proof (quoteStrip_length line Q).
      pose proof (weight_map (replaceFirst R_quoteStrip [])
                    (takeWhile (test R_quote) t) (replaceFirst_length R_quoteStrip)).
      pose proof (takeWhile_weight (test R_quote) t). cbn [weight] in Hw.
      match goal with
      | |- (S (?a + ?w) < K)%nat =>
          assert (A : (a < List.length line)%nat) by exact H;
          assert (W : (w <= weight t)%nat) by (etransitivity; [exact H0|exact H1])
      end.
      lia. }
    destruct (test R_toc line); [apply IH, Ht|].
    destruct (tableAhead line t).
    { apply safe_bind; [|intro; apply IH, Ht]. apply parseTableAt_safe. lia. }
    destruct (test R_listStart line).
    { apply safe_bind; [|intro; apply IH, Ht]. apply (parseListAt_safe defs K); [exact Hw|lia]. }
    destruct (test R_commentStart line); [apply IH, Ht|].
    destruct (test R_htmlStart line); [apply IH, Ht|].
    destruct (test R_defList line).
    { apply safe_bind; [|intro; apply IH, Ht]. apply safe_mapM. intros l Hin.
      apply defListItem_safe. apply takeWhile_In, weight_In in Hin. lia. }
    destruct (truthy _); [|apply IH, Ht].
    apply safe_bind; [|intro; apply IH, Ht]. apply inline_safe.
    pose proof (trim_length (join nl (line :: paragraphLines t))) as T.
    rewrite join_weight in T. pose proof (paragraphLines_weight t).
    cbn [weight pred] in *. lia.
Qed.

Lemma parseBlocks_safe :
  forall fuel src, (2 * List.length src + 4 <= fuel)%nat -> safe (parseBlocks defs fuel src).
Proof.
  induction fuel as [|fuel IH]; intros src Hf; [lia|].
  cbn [parseBlocks]. apply safe_bind; [|intro; apply safe_ret].
  pose proof (normalizeNewlines_length src) as L.
  apply (blocksLoop_safe _ _ (S (List.length src))).
  - intros q Hq. apply IH. lia.
  - lia.
  - rewrite split_nl_weight. lia.
Qed.

End SafeBlocks.

(** ** The definition pass adds no code unit *)

Lemma weight_app a b : weight (a ++ b) = (weight a + weight b)%nat.
Proof. induction a as [|x t IH]; cbn [app weight]; [reflexivity|]. rewrite IH. lia. Qed.

Lemma footnoteLines_length :
  forall ls text,
    (List.length (fst (footnoteLines ls text)) <= List.length text + weight ls)%nat.
Proof.
  induction ls as [|l t IH]; intros text; cbn [footnoteLines weight]; [cbn; lia|].
  destruct (test R_indented l).
  - specialize (IH (text ++ nl ++ replaceFirst R_indent4 [] l)).
    destruct (footnoteLines t _) as [text' n]. cbn [fst] in *.
    rewrite !length_app in IH. pose proof (replaceFirst_length R_indent4 l).
    cbn [List.length nl] in IH. lia.
  - destruct (test R_blank l); [|cbn; lia].
    specialize (IH (text ++ nl)).
    destruct (footnoteLines t _) as [text' n]. cbn [fst] in *.
    rewrite !length_app in IH. cbn [List.length nl] in IH. lia.
Qed.

Lemma extractLoop_remaining :
  forall ls skip a,
    (weight (a_remaining (extractLoop ls skip a)) <= weight (a_remaining a) + weight ls)%nat.
Proof.
  induction ls as [|line t IH]; intros skip a; cbn [extractLoop weight]; [lia|].
  destruct skip as [|n]; [|specialize (IH n a); lia].
  destruct (rmatch1 R_footnoteDef line) as [m|].
  { destruct (footnoteLines t (grp 2 m)) as [text n].
    etransitivity; [apply IH|]. cbn [a_remaining]. lia. }
  destruct (rmatch1 R_abbrDef line) as [m|].
  { etransitivity; [apply IH|]. cbn [a_remaining]. lia. }
  destruct (rmatch1 R_linkDef line) as [m|].
  { etransitivity; [apply IH|]. cbn [a_remaining]. lia. }
  etransitivity; [apply IH|]. cbn [a_remaining]. rewrite weight_app. cbn [weight]. lia.
Qed.

Lemma extractLoop_notes K :
  forall ls skip a,
    (weight ls <= K)%nat -> notesWithin K (a_footnoteDefs a) ->
    notesWithin K (a_footnoteDefs (extractLoop ls skip a)).
Proof.
  induction ls as [|line t IH]; intros skip a Hw Ha; cbn [extractLoop]; [exact Ha|].
  assert (Ht : (weight t <= K)%nat) by (cbn [weight] in Hw; lia).
  destruct skip as [|n]; [|now apply IH].
  destruct (rmatch1 R_footnoteDef line) as [m|] eqn:E.
  { pose proof (footnoteLines_length t (grp 2 m)) as L.
    destruct (footnoteLines t (grp 2 m)) as [text n]. cbn [fst] in L.
    apply IH; [exact Ht|]. cbn [a_footnoteDefs]. unfold setPrim.
    destruct (eqs (grp 1 m) protoName); [exact Ha|].
    intros k v Hin. cbn [own] in Hin. apply put_In in Hin as [[= -> ->]|Hin]; [|eauto].
    pose proof (grp_length _ _ _ 2 E). cbn [weight] in Hw. lia. }
  destruct (rmatch1 R_abbrDef line) as [m|]; [now apply IH|].
  destruct (rmatch1 R_linkDef line) as [m|]; now apply IH.
Qed.

Lemma getOwn_In {V : Type} k (d : dict V) v : getOwn k d = Some v -> exists k', In (k', v) (own d).
Proof.
  unfold getOwn, assoc. destruct (find _ (own d)) as [[k' v']|] eqn:E; [|discriminate].
  intros [= <-]. apply find_some in E as [E _]. now exists k'.
Qed.

Lemma cleaned_length src :
  (List.length (cleaned (extractDefinitions src)) <= List.length (normalizeNewlines src))%nat.
Proof.
  unfold extractDefinitions. cbn [cleaned]. rewrite join_weight.
  match goal with
  | |- (pred (weight (a_remaining (extractLoop ?ls ?k ?a))) <= _)%nat =>
      pose proof (extractLoop_remaining ls k a) as R
  end.
  cbn [a_remaining weight] in R. rewrite split_nl_weight in R. lia.
Qed.

Lemma footnote_length src k text :
  getOwn k (footnoteDefs (extractDefinitions src)) = Some text ->
  (List.length text <= List.length (normalizeNewlines src))%nat.
Proof.
  intros H. apply getOwn_In in H as [k' H]. unfold extractDefinitions in H.
  cbn [footnoteDefs] in H.
  apply (extractLoop_notes (S (List.length (normalizeNewlines src)))) in H.
  - lia.
  - rewrite split_nl_weight. lia.
  - intros k0 v0 []. 
Qed.

Section SafeBody.

Variable defs : DefsResult.
Variable n : nat.
Hypothesis cleaned_within : (List.length (cleaned defs) <= n)%nat.
Hypothesis notes_within :
  forall k text, getOwn k (footnoteDefs defs) = Some text -> (List.length text <= n)%nat.

Lemma renderBody_safe fuel : (2 * n + 4 <= fuel)%nat -> safe (renderBody defs fuel).
Proof.
  intros Hf. unfold renderBody.
  apply safe_bind; [apply parseBlocks_safe; lia|intros html].
  apply safe_bind.
  { unfold resolveToc. destruct (includes html TOC_PLACEHOLDER); [|apply safe_ret].
    apply safe_bind; [intros st; exact I|intro; apply safe_ret]. }
  intros html'. apply safe_bind; [|intros h st; exact I].
  unfold appendFootnotes. destruct (keys (footnoteDefs defs)) as [|k ks]; [apply safe_ret|].
  apply safe_bind; [|intro; apply safe_ret].
  unfold footnotesHtml. apply safe_bind; [|intro; apply safe_ret].
  apply safe_mapM. intros id _. unfold footnoteItem.
  destruct (getOwn id (footnoteDefs defs)) as [text|] eqn:E; [|apply safe_throw].
  apply safe_bind; [|intro; apply safe_ret].
  apply parseBlocks_safe. specialize (notes_within _ _ E). lia.
Qed.

End SafeBody.

(** ** A stack that is deep enough *)

Lemma renderMarkdownWith_total src fuel :
  (fuelFor src <= fuel)%nat -> renderMarkdownWith fuel src <> RangeError.
Proof.
  unfold fuelFor. intros Hf. unfold renderMarkdownWith.
  pose proof (renderBody_safe (extractDefinitions src) (List.length (normalizeNewlines src))
                (cleaned_length src) (fun k text => footnote_length src k text)
                fuel Hf initial) as S.
  destruct (renderBody (extractDefinitions src) fuel initial) as [[a st]| |];
    cbn [result]; [discriminate|discriminate|contradiction S].
Qed.

(** On a stack that holds [fuelFor] nested calls, the compile of no text
    ends on [RangeError]. *)
Lemma renderMarkdown_total src : renderMarkdown src <> RangeError.
Proof. apply renderMarkdownWith_total, Nat.le_refl. Qed.

(** What a stack gives, when it is not used up, [renderMarkdown] gives. *)
Lemma renderMarkdownWith_agrees src fuel :
  renderMarkdownWith fuel src <> RangeError ->
  renderMarkdownWith fuel src = renderMarkdown src.
Proof.
  intros H. unfold renderMarkdown.
  rewrite <- (renderMarkdownWith_stable src fuel (fuelFor src) H).
  rewrite Nat.add_comm.
  apply (renderMarkdownWith_stable src (fuelFor src) fuel), renderMarkdown_total.
Qed.

(** ** When the footnote section is appended *)

Lemma insertIdx_not_nil e l : insertIdx e l <> [].
Proof. destruct l as [|e' t]; cbn [insertIdx]; [|destruct (fst e <=? fst e')]; discriminate. Qed.

Lemma keys_nil {V : Type} (o : dict V) : keys o = [] <-> own o = [].
Proof.
  unfold keys. split.
  - destruct (own o) as [|[k v] t]; [reflexivity|].
    cbn [map fst fold_right filter]. intros H. apply app_eq_nil in H as [H1 H2].
    destruct (arrayIndex k).
    + apply map_eq_nil in H1. now apply insertIdx_not_nil in H1.
    + discriminate H2.
  - intros ->. reflexivity.
Qed.

Lemma put_not_nil {V : Type} k (v : V) l : put k v l <> [].
Proof. destruct l as [|[k0 v0] t]; cbn [put]; [|destruct (eqs k0 k)]; discriminate. Qed.

Lemma swallowed_not_footnote l : swallowed l = true -> recordedFootnote l = false.
Proof.
  intros S. unfold recordedFootnote.
  destruct (rmatch1 R_footnoteDef l) as [m|] eqn:E; [|reflexivity].
  destruct (footnoteDef_bracket _ _ E) as [t ->].
  rewrite bracket_not_swallowed in S. discriminate S.
Qed.

(** The table of footnotes is empty at the end of the pass exactly when
    it was empty before and no line defines a footnote. *)
Lemma extractLoop_footnotes :
  forall ls skip a,
    Forall (fun l => swallowed l = true) (firstn skip ls) ->
    (own (a_footnoteDefs (extractLoop ls skip a)) = []
     <-> own (a_footnoteDefs a) = [] /\ existsb recordedFootnote ls = false).
Proof.
  induction ls as [|line t IH]; intros skip a F; cbn [extractLoop existsb].
  - tauto.
  - destruct skip as [|n].
    + unfold recordedFootnote at 1.
      destruct (rmatch1 R_footnoteDef line) as [m|].
      { destruct (footnoteLines t (grp 2 m)) as [text n] eqn:E.
        rewrite (IH n _ (footnoteLines_swallowed _ _ _ _ E)).
        cbn [a_footnoteDefs]. unfold setPrim.
        destruct (eqs (grp 1 m) protoName); cbn [negb orb own]; [tauto|].
        split; [intros [H _]; now apply put_not_nil in H|intros [_ H]; discriminate H]. }
      cbn [orb].
      destruct (rmatch1 R_abbrDef line) as [m|];
        [rewrite (IH O _ (Forall_nil _)); cbn [a_footnoteDefs]; tauto|].
      destruct (rmatch1 R_linkDef line) as [m|];
        rewrite (IH O _ (Forall_nil _)); cbn [a_footnoteDefs]; tauto.
    + cbn [firstn] in F. inversion F as [|? ? S F']; subst.
      rewrite (swallowed_not_footnote _ S). cbn [orb]. exact (IH n a F').
Qed.

Lemma footnoteDefs_keys src :
  keys (footnoteDefs (extractDefinitions src)) = [] <-> hasFootnoteDefinition src = false.
Proof.
  rewrite keys_nil. unfold extractDefinitions, hasFootnoteDefinition. cbn [footnoteDefs].
  rewrite (extractLoop_footnotes _ O _ (Forall_nil _)). cbn [a_footnoteDefs empty own].
  tauto.
Qed.

(** * Further properties of the module *)

Lemma replaceCh_app c rep a b :
  replaceCh c rep (a ++ b) = replaceCh c rep a ++ replaceCh c rep b.
Proof. unfold replaceCh. apply flat_map_app. Qed.

Lemma escapeHtml_entity s : escapeHtml s = flat_map entity s.
Proof.
  induction s as [|x t IH]; [reflexivity|].
  cbn [flat_map]. rewrite <- IH. unfold escapeHtml.
  change (replaceCh (ch "&") (str "&amp;") (x :: t))
    with ((if x =? ch "&" then str "&amp;" else [x]) ++ replaceCh (ch "&") (str "&amp;") t).
  rewrite !replaceCh_app. f_equal. unfold entity.
  destruct (x =? ch "&") eqn:A; [reflexivity|].
  unfold replaceCh at 2. cbn [flat_map app].
  destruct (x =? ch "<") eqn:B; [reflexivity|].
  unfold replaceCh. cbn [flat_map app].
  destruct (x =? ch ">") eqn:C; reflexivity.
Qed.

Lemma escapeHtmlAttr_entity s : escapeHtmlAttr s = flat_map entityAttr s.
Proof.
  unfold escapeHtmlAttr. rewrite escapeHtml_entity.
  induction s as [|x t IH]; [reflexivity|].
  cbn [flat_map]. rewrite replaceCh_app, IH. f_equal.
  unfold entityAttr, entity.
  destruct (x =? dq) eqn:D.
  - apply N.eqb_eq in D. subst x. reflexivity.
  - destruct (x =? ch "&"); [reflexivity|].
    destruct (x =? ch "<"); [reflexivity|].
    destruct (x =? ch ">"); [reflexivity|].
    unfold replaceCh. cbn [flat_map app]. now rewrite D.
Qed.

Lemma entity_In c x : In x (entity c) -> x <> ch "<" /\ x <> ch ">".
Proof.
  unfold entity.
  destruct (c =? ch "&") eqn:A;
    [intros H; split; intros ->; vm_compute in H; intuition discriminate|].
  destruct (c =? ch "<") eqn:B;
    [intros H; split; intros ->; vm_compute in H; intuition discriminate|].
  destruct (c =? ch ">") eqn:C;
    [intros H; split; intros ->; vm_compute in H; intuition discriminate|].
  intros [<-|[]]. split; intros ->; [discriminate B|discriminate C].
Qed.

Lemma entityAttr_In c x : In x (entityAttr c) -> x <> ch "<" /\ x <> ch ">" /\ x <> dq.
Proof.
  unfold entityAttr. destruct (c =? dq) eqn:D.
  - intros H. repeat split; intros ->; vm_compute in H; intuition discriminate.
  - intros H. destruct (entity_In _ _ H) as [A B]. repeat split; auto.
    intros ->. unfold entity in H.
    destruct (c =? ch "&"); [vm_compute in H; intuition discriminate|].
    destruct (c =? ch "<"); [vm_compute in H; intuition discriminate|].
    destruct (c =? ch ">"); [vm_compute in H; intuition discriminate|].
    destruct H as [->|[]]. discriminate D.
Qed.

(** X1.  The output of [escapeHtml] holds no
    [<] and no [>], and the output of [escapeHtmlAttr] holds in addition
    no double quote, whatever the input. *)
Theorem escapeHtml_leaves_no_markup (s : jsstring) :
  ~ In (ch "<") (escapeHtml s) /\ ~ In (ch ">") (escapeHtml s)
  /\ ~ In (ch "<") (escapeHtmlAttr s) /\ ~ In (ch ">") (escapeHtmlAttr s)
  /\ ~ In dq (escapeHtmlAttr s).
Proof.
  rewrite escapeHtml_entity, escapeHtmlAttr_entity.
  repeat split; intros H; apply in_flat_map in H as (c & _ & H).
  - now apply entity_In in H.
  - now apply entity_In in H.
  - now apply entityAttr_In in H.
  - now apply entityAttr_In in H.
  - now apply entityAttr_In in H.
Qed.

(** X2.  [escapeHtml] and [escapeHtmlAttr] work
    code unit by code unit: the replacements in a row are one pass that
    writes the entity of each code unit (an ampersand that an earlier
    replacement wrote is not escaped again), so the escape of a
    concatenation is the concatenation of the escapes. *)
Theorem escapeHtml_per_code_unit (a b : jsstring) :
  escapeHtml a = flat_map entity a
  /\ escapeHtmlAttr a = flat_map entityAttr a
  /\ escapeHtml (a ++ b) = escapeHtml a ++ escapeHtml b
  /\ escapeHtmlAttr (a ++ b) = escapeHtmlAttr a ++ escapeHtmlAttr b.
Proof.
  repeat split.
  - apply escapeHtml_entity.
  - apply escapeHtmlAttr_entity.
  - rewrite !escapeHtml_entity. apply flat_map_app.
  - rewrite !escapeHtmlAttr_entity. apply flat_map_app.
Qed.

Ltac entity_cases H :=
  repeat match type of H with
         | context [if ?c then _ else _] =>
             let E := fresh "E" in destruct c eqn:E
         end.

Lemma entityAttr_not_nil c : entityAttr c <> [].
Proof.
  unfold entityAttr, entity.
  repeat match goal with |- context [if ?c then _ else _] => destruct c end; discriminate.
Qed.

Lemma entityAttr_injective :
  forall a b, flat_map entityAttr a = flat_map entityAttr b -> a = b.
Proof.
  induction a as [|x a IH]; intros [|y b] H; cbn [flat_map] in H.
  - reflexivity.
  - symmetry in H. apply app_eq_nil in H as [H _]. now apply entityAttr_not_nil in H.
  - apply app_eq_nil in H as [H _]. now apply entityAttr_not_nil in H.
  - assert (G : forall A B, entityAttr x ++ A = entityAttr y ++ B -> x = y /\ A = B).
    { clear. intros A B H. unfold entityAttr, entity in H.
      entity_cases H;
        repeat match goal with
               | E : (_ =? _) = true |- _ => apply N.eqb_eq in E
               | E : (_ =? _) = false |- _ => apply N.eqb_neq in E
               end;
        subst; cbn in H; try discriminate H;
        try (injection H as H; subst; now split);
        try (injection H as -> H; now split);
        try (injection H; intros; subst; exfalso; congruence). }
    apply G in H as [-> H]. f_equal. now apply IH.
Qed.

(** X3.  Escaping loses nothing: two texts with the
    same escape, by [escapeHtml] or by [escapeHtmlAttr], are the same
    text. *)
Theorem escapeHtml_injective (a b : jsstring) :
  escapeHtml a = escapeHtml b \/ escapeHtmlAttr a = escapeHtmlAttr b -> a = b.
Proof.
  intros [H|H].
  - apply entityAttr_injective. rewrite <- !escapeHtmlAttr_entity.
    unfold escapeHtmlAttr. now rewrite H.
  - apply entityAttr_injective. now rewrite <- !escapeHtmlAttr_entity.
Qed.

Lemma escapeHtml_injective_witness :
  escapeHtml (str "a<b") = str "a&lt;b" /\ str "a<b" = str "a<b".
Proof.
  split; [reflexivity|].
  apply (escapeHtml_injective (str "a<b") (str "a<b")). left. reflexivity.
Defined.

(* ---- a class replaced code unit by code unit ---- *)

Lemma segmentsGo_Chr p :
  forall s prev,
    segmentsGo (Chr p) prev s O
    = match s with
      | [] => []
      | x :: t =>
          (if p x then Hit {| m0 := [x]; mcaps := []; mrest := t |} else Lit x)
          :: segmentsGo (Chr p) (Some x) t O
      end.
Proof.
  intros [|x t] prev; cbn [segmentsGo].
  - reflexivity.
  - rewrite execAt_Chr. destruct (p x); reflexivity.
Qed.

Lemma replaceAll_Chr p (g : jsstring -> jsstring) s :
  replaceAll (Chr p) (fun f => g (m0 f)) s
  = flat_map (fun c => if p c then g [c] else [c]) s.
Proof.
  unfold replaceAll, segments. generalize (@None N).
  induction s as [|x t IH]; intros prev; rewrite segmentsGo_Chr; [reflexivity|].
  cbn [flat_map]. rewrite IH. now destruct (p x).
Qed.

Lemma escapeRegex_flat s :
  escapeRegex s = flat_map (fun c => if regexSyntax c then [ch "\"; c] else [c]) s.
Proof. unfold escapeRegex, R_regexSyntax, re, set. apply (replaceAll_Chr _ (cons (ch "\"))). Qed.

(** X4.  [escapeRegex] puts a backslash
    before each code unit of the syntax of patterns and changes nothing
    else; it distributes over concatenation, and the result, read as a
    pattern of literals, stands for the text itself. *)
Theorem escapeRegex_escapes_syntax (a b : jsstring) :
  escapeRegex a = flat_map (fun c => if regexSyntax c then [ch "\"; c] else [c]) a
  /\ escapeRegex (a ++ b) = escapeRegex a ++ escapeRegex b
  /\ literalOf (escapeRegex a) = a.
Proof.
  split; [apply escapeRegex_flat|]. split.
  - rewrite !escapeRegex_flat. apply flat_map_app.
  - rewrite escapeRegex_flat. induction a as [|x t IH]; [reflexivity|].
    cbn [flat_map]. destruct (regexSyntax x) eqn:E.
    + cbn [app literalOf]. change (ch "\" =? ch "\") with true. cbv iota. now rewrite IH.
    + cbn [app literalOf]. destruct (x =? ch "\") eqn:B.
      * apply N.eqb_eq in B. subst x. discriminate E.
      * now rewrite IH.
Qed.

(* ---- unescapeMdUrl ---- *)

Lemma execAt_mdUrl prev x t :
  execAt R_mdUrl prev (x :: t)
  = if x =? ch "\" then
      match t with
      | d :: t' =>
          if isParen d
          then Some {| m0 := [x; d]; mcaps := [(1%nat, [d])]; mrest := t' |}
          else None
      | [] => None
      end
    else None.
Proof.
  unfold execAt, R_mdUrl, re, c1, set. cbn [rmatch].
  rewrite (N.eqb_sym (ch "\") x). destruct (x =? ch "\"); [|reflexivity].
  destruct t as [|d t']; [reflexivity|]. unfold isParen.
  destruct (oneOf "()" d); [|reflexivity].
  cbn [List.length setcap filter].
  replace (S (List.length t') - List.length t')%nat with 1%nat by lia.
  replace (S (S (List.length t')) - List.length t')%nat with 2%nat by lia.
  reflexivity.
Qed.

Lemma list_two_step {A : Type} (P : list A -> Prop) :
  P [] -> (forall x, P [x]) -> (forall x y t, P t -> P (y :: t) -> P (x :: y :: t)) ->
  forall s, P s.
Proof.
  intros H0 H1 H2 s.
  assert (G : P s /\ forall x, P (x :: s)).
  { induction s as [|y t [IH1 IH2]]; [split; auto|].
    split; [apply IH2|]. intros x. apply H2; auto. }
  apply G.
Qed.

Lemma unescapeMdUrl_unescapeParens s : unescapeMdUrl s = unescapeParens s.
Proof.
  unfold unescapeMdUrl, replaceAll, segments. generalize (@None N). revert s.
  apply (list_two_step
           (fun s => forall prev,
              flat_map (fun g => match g with Lit c => [c] | Hit f => grp 1 f end)
                (segmentsGo R_mdUrl prev s O) = unescapeParens s)).
  - intros prev. reflexivity.
  - intros x prev. cbn [segmentsGo]. rewrite execAt_mdUrl.
    cbn [unescapeParens]. destruct (x =? ch "\"); reflexivity.
  - intros x y t IHt IHyt prev.
    change (segmentsGo R_mdUrl prev (x :: y :: t) O)
      with (match execAt R_mdUrl prev (x :: y :: t) with
            | Some f =>
                match m0 f with
                | [] => Hit f :: Lit x :: segmentsGo R_mdUrl (Some x) (y :: t) O
                | _ :: w => Hit f :: segmentsGo R_mdUrl (Some x) (y :: t) (List.length w)
                end
            | None => Lit x :: segmentsGo R_mdUrl (Some x) (y :: t) O
            end).
    rewrite execAt_mdUrl.
    change (unescapeParens (x :: y :: t))
      with (if x =? ch "\"
            then if isParen y then y :: unescapeParens t else x :: unescapeParens (y :: t)
            else x :: unescapeParens (y :: t)).
    destruct (x =? ch "\").
    + destruct (isParen y).
      * cbn [m0 List.length flat_map].
        change (segmentsGo R_mdUrl (Some x) (y :: t) 1) with (segmentsGo R_mdUrl (Some y) t O).
        rewrite IHt. reflexivity.
      * cbn [flat_map]. rewrite IHyt. reflexivity.
    + cbn [flat_map]. rewrite IHyt. reflexivity.
Qed.

Lemma unescapeParens_plain s : ~ In (ch "\") s -> unescapeParens s = s.
Proof.
  induction s as [|c t IH]; [reflexivity|]. intros H. cbn [unescapeParens].
  destruct (c =? ch "\") eqn:E.
  - apply N.eqb_eq in E. exfalso. apply H. now left.
  - rewrite IH; [reflexivity|]. intros Hin. apply H. now right.
Qed.

Lemma unescapeParens_escapeParens s :
  ~ In (ch "\") s -> unescapeParens (escapeParens s) = s.
Proof.
  unfold escapeParens. induction s as [|c t IH]; [reflexivity|]. intros H.
  assert (Ht : ~ In (ch "\") t) by (intros Hin; apply H; now right).
  cbn [flat_map]. destruct (isParen c) eqn:P.
  - cbn [app unescapeParens]. change (ch "\" =? ch "\") with true. cbv iota.
    rewrite P. now rewrite IH.
  - cbn [app unescapeParens]. destruct (c =? ch "\") eqn:E.
    + apply N.eqb_eq in E. exfalso. apply H. now left.
    + now rewrite IH.
Qed.

(** X5.  [unescapeMdUrl] takes the
    backslash off an escaped parenthesis: an address without a backslash
    is left as it is, and the address whose parentheses are escaped is
    read back as it was. *)
Theorem unescapeMdUrl_reads_escaped_parens (url : jsstring) :
  ~ In (ch "\") url ->
  unescapeMdUrl url = url /\ unescapeMdUrl (escapeParens url) = url.
Proof.
  intros H. rewrite !unescapeMdUrl_unescapeParens. split.
  - now apply unescapeParens_plain.
  - now apply unescapeParens_escapeParens.
Qed.

Lemma unescapeMdUrl_reads_escaped_parens_witness :
  escapeParens (str "a(b)") = str "a\(b\)"
  /\ unescapeMdUrl (str "a(b)") = str "a(b)"
  /\ unescapeMdUrl (escapeParens (str "a(b)")) = str "a(b)".
Proof.
  split; [reflexivity|].
  apply (unescapeMdUrl_reads_escaped_parens (str "a(b)")).
  vm_compute. intuition discriminate.
Defined.

Lemma countP_app p a b : countP p (a ++ b) = (countP p a + countP p b)%nat.
Proof. unfold countP. now rewrite filter_app, length_app. Qed.

Lemma countP_cons_le p x t : (countP p t <= countP p (x :: t))%nat.
Proof. unfold countP. cbn [filter]. destruct (p x); cbn [List.length]; lia. Qed.

Section Taking.

Variable p : N -> bool.

Lemma repLoop_taking body inner n :
  taking p body n ->
  forall fuel mn mx g prev s c k res,
    repLoop body inner fuel mn mx g prev s c k = Some res ->
    exists p1 w s1 c1,
      s = w ++ s1 /\ k p1 s1 c1 = Some res
      /\ (withinMax mn mx = true -> (mn * n <= countP p w)%nat).
Proof.
  intros Hb.
  assert (Stop : forall mn mx (prev : option N) (s : jsstring) (c : caps) (k : cont) res,
            (mn = O \/ mx = Some O) -> k prev s c = Some res ->
            exists p1 w s1 c1,
              s = w ++ s1 /\ k p1 s1 c1 = Some res
              /\ (withinMax mn mx = true -> (mn * n <= countP p w)%nat)).
  { intros mn mx prev s c k res Hm Hk. exists prev, [], s, c.
    repeat split; auto. intros W. cbn [countP filter List.length].
    destruct Hm as [->| ->]; [lia|]. cbn [withinMax] in W.
    apply Nat.leb_le in W. assert (mn = O) by lia. subst. lia. }
  induction fuel as [|fuel IH]; intros mn mx g prev s c k res.
  - cbn [repLoop]. destruct mx as [[|m]|].
    + intros Hk. apply (Stop mn (Some O) prev s c k res); auto.
    + destruct (Nat.eqb mn 0) eqn:E; [|discriminate].
      apply Nat.eqb_eq in E. intros Hk. apply (Stop mn (Some (S m)) prev s c k res); auto.
    + destruct (Nat.eqb mn 0) eqn:E; [|discriminate].
      apply Nat.eqb_eq in E. intros Hk. apply (Stop mn None prev s c k res); auto.
  - assert (Iter : forall mx',
              (withinMax mn mx = true -> withinMax (pred mn) mx' = true) ->
              body prev s (clearcaps inner c)
                (fun p' s' c' =>
                   if Nat.eqb mn 0 && Nat.eqb (List.length s') (List.length s)
                   then None
                   else repLoop body inner fuel (pred mn) mx' g p' s' c' k) = Some res ->
              exists p1 w s1 c1,
                s = w ++ s1 /\ k p1 s1 c1 = Some res
                /\ (withinMax mn mx = true -> (mn * n <= countP p w)%nat)).
    { intros mx' Hmx H.
      apply Hb in H as (p' & w1 & s' & c' & -> & K' & L').
      destruct (Nat.eqb mn 0 && Nat.eqb (List.length s') (List.length (w1 ++ s')));
        [discriminate|].
      apply IH in K' as (p1 & w2 & s1 & c1 & -> & K1 & L1).
      exists p1, (w1 ++ w2), s1, c1. repeat split; auto.
      - now rewrite app_assoc.
      - intros W. specialize (L1 (Hmx W)). rewrite countP_app.
        destruct mn as [|mn']; cbn [pred Nat.mul] in *; lia. }
    assert (Go : forall mx',
              (withinMax mn mx = true -> withinMax (pred mn) mx' = true) ->
              (if Nat.ltb 0 mn
               then body prev s (clearcaps inner c)
                      (fun p' s' c' =>
                         if Nat.eqb mn 0 && Nat.eqb (List.length s') (List.length s)
                         then None
                         else repLoop body inner fuel (pred mn) mx' g p' s' c' k)
               else if g
                    then orElse
                           (body prev s (clearcaps inner c)
                              (fun p' s' c' =>
                                 if Nat.eqb mn 0
                                    && Nat.eqb (List.length s') (List.length s)
                                 then None
                                 else repLoop body inner fuel (pred mn) mx' g p' s' c' k))
                           (fun _ => k prev s c)
                    else orElse (k prev s c)
                           (fun _ =>
                              body prev s (clearcaps inner c)
                                (fun p' s' c' =>
                                   if Nat.eqb mn 0
                                      && Nat.eqb (List.length s') (List.length s)
                                   then None
                                   else repLoop body inner fuel (pred mn) mx' g p' s' c' k)))
              = Some res ->
              exists p1 w s1 c1,
                s = w ++ s1 /\ k p1 s1 c1 = Some res
                /\ (withinMax mn mx = true -> (mn * n <= countP p w)%nat)).
    { intros mx' Hmx. destruct (Nat.ltb 0 mn) eqn:P; [now apply Iter|].
      apply Nat.ltb_ge in P.
      destruct g; unfold orElse.
      - destruct (body prev s (clearcaps inner c) _) as [r|] eqn:E.
        + intros [= <-]. now apply (Iter mx').
        + intros Hk. apply (Stop mn mx prev s c k res); auto. left. lia.
      - destruct (k prev s c) as [r|] eqn:E.
        + intros [= <-]. apply (Stop mn mx prev s c k r); auto. left. lia.
        + now apply Iter. }
    cbn [repLoop]. destruct mx as [[|m]|].
    + intros Hk. apply (Stop mn (Some O) prev s c k res); auto.
    + apply Go. cbn [withinMax option_map pred]. intros W. apply Nat.leb_le in W.
      apply Nat.leb_le. lia.
    + apply Go. reflexivity.
Qed.

Lemma taking_le (m : matcher) n n' : (n' <= n)%nat -> taking p m n -> taking p m n'.
Proof.
  intros L H prev s c k res E. apply H in E as (p1 & w & s1 & c1 & A & B & C).
  exists p1, w, s1, c1. repeat split; auto. lia.
Qed.

Lemma rmatch_calls r : taking p (rmatch r) 0.
Proof.
  induction r as [|q|a IHa b IHb|a IHa b IHb|mn mx g a IHa|i a IHa|i| | |];
    intros prev s c k res; cbn [rmatch].
  - intros H. exists prev, [], s, c. repeat split; auto; try lia.
  - destruct s as [|x t]; [discriminate|]. destruct (q x); [|discriminate].
    intros H. exists (Some x), [x], t, c. repeat split; auto; try lia.
  - intros H. apply IHa in H as (p1 & w1 & s1 & c1 & -> & H & _).
    apply IHb in H as (p2 & w2 & s2 & c2 & -> & H & _).
    exists p2, (w1 ++ w2), s2, c2. repeat split; auto; [now rewrite app_assoc|try lia].
  - unfold orElse. destruct (rmatch a prev s c k) as [r|] eqn:E.
    + intros [= <-]. now apply IHa in E.
    + apply IHb.
  - intros H. apply (repLoop_taking _ _ _ IHa) in H as (p1 & w & s1 & c1 & A & B & _).
    exists p1, w, s1, c1. repeat split; auto; try lia.
  - intros H. apply IHa in H as (p1 & w & s1 & c1 & -> & H & _).
    eexists p1, w, s1, _. repeat split; [exact H|try lia].
  - destruct (cap i c) as [w|].
    + destruct (startsWith s w); [|discriminate]. intros H.
      exists (last (map Some w) prev), (firstn (List.length w) s), (skipn (List.length w) s), c.
      repeat split; auto; [now rewrite firstn_skipn|try lia].
    + intros H. exists prev, [], s, c. repeat split; auto; try lia.
  - destruct prev; [discriminate|]. intros H.
    exists None, [], s, c. repeat split; auto; try lia.
  - destruct s; [|discriminate]. intros H.
    exists prev, [], [], c. repeat split; auto; try lia.
  - destruct (xorb _ _); [|discriminate]. intros H.
    exists prev, [], s, c. repeat split; auto; try lia.
Qed.

Lemma rmatch_taking r n : Takes p r n -> taking p (rmatch r) n.
Proof.
  induction 1 as [r|q Hq|a b i j _ IHa _ IHb|a b n _ IHa _ IHb
                  |mn mx g a i W _ IHa|k0 a n _ IHa|r n m L _ IH].
  - apply rmatch_calls.
  - intros prev s c k res. cbn [rmatch].
    destruct s as [|x t]; [discriminate|]. destruct (q x) eqn:Q; [|discriminate].
    intros H. exists (Some x), [x], t, c. repeat split; auto.
    unfold countP. cbn [filter]. rewrite (Hq x Q). cbn. lia.
  - intros prev s c k res. cbn [rmatch]. intros H.
    apply IHa in H as (p1 & w1 & s1 & c1 & -> & H & L1).
    apply IHb in H as (p2 & w2 & s2 & c2 & -> & H & L2).
    exists p2, (w1 ++ w2), s2, c2. repeat split; auto; [now rewrite app_assoc|].
    rewrite countP_app. lia.
  - intros prev s c k res. cbn [rmatch]. unfold orElse.
    destruct (rmatch a prev s c k) as [r|] eqn:E.
    + intros [= <-]. now apply IHa in E.
    + apply IHb.
  - intros prev s c k res. cbn [rmatch]. intros H.
    apply (repLoop_taking _ _ _ IHa) in H as (p1 & w & s1 & c1 & A & B & C).
    exists p1, w, s1, c1. repeat split; auto.
  - intros prev s c k res. cbn [rmatch]. intros H.
    apply IHa in H as (p1 & w & s1 & c1 & -> & H & L).
    eexists p1, w, s1, _. repeat split; [exact H|exact L].
  - now apply (taking_le _ n).
Qed.

(** A match holds the code units its regex takes. *)
Lemma execAt_taking r n prev s f :
  Takes p r n -> execAt r prev s = Some f -> (n <= countP p s)%nat.
Proof.
  intros T. unfold execAt.
  destruct (rmatch r prev s [] _) as [[s' c']|] eqn:E; [|discriminate]. intros _.
  apply (rmatch_taking _ _ T) in E as (p1 & w & s1 & c1 & -> & _ & L).
  rewrite countP_app. lia.
Qed.

Lemma execAt_short r n prev s :
  Takes p r n -> (countP p s < n)%nat -> execAt r prev s = None.
Proof.
  intros T L. destruct (execAt r prev s) as [f|] eqn:E; [|reflexivity].
  apply (execAt_taking _ _ _ _ _ T) in E. lia.
Qed.

Lemma searchFrom_short r n :
  Takes p r n ->
  forall s prev acc, (countP p s < n)%nat -> searchFrom r prev s acc = None.
Proof.
  intros T. induction s as [|x t IH]; intros prev acc L; cbn [searchFrom];
    rewrite (execAt_short _ _ _ _ T L); [reflexivity|].
  apply IH. pose proof (countP_cons_le p x t). lia.
Qed.

Lemma segmentsGo_short r n :
  Takes p r n ->
  forall s prev, (countP p s < n)%nat -> segmentsGo r prev s O = map Lit s.
Proof.
  intros T. induction s as [|x t IH]; intros prev L; cbn [segmentsGo];
    rewrite (execAt_short _ _ _ _ T L); [reflexivity|].
  cbn [map]. f_equal. apply IH. pose proof (countP_cons_le p x t). lia.
Qed.

Section Short.

Variables (r : regex) (n : nat) (s : jsstring).
Hypothesis takes : Takes p r n.
Hypothesis short : (countP p s < n)%nat.

Lemma search_short : search r s = None.
Proof. unfold search. now apply (searchFrom_short r n). Qed.

Lemma rmatch1_short : rmatch1 r s = None.
Proof. unfold rmatch1. now rewrite search_short. Qed.

Lemma test_short : test r s = false.
Proof. unfold test. now rewrite search_short. Qed.

Lemma replaceFirst_short rep : replaceFirst r rep s = s.
Proof. unfold replaceFirst. now rewrite search_short. Qed.

Lemma splitHead_short : splitHead r s = s.
Proof. unfold splitHead. now rewrite search_short. Qed.

Lemma segments_short : segments r s = map Lit s.
Proof. unfold segments. now apply (segmentsGo_short r n). Qed.

Lemma replaceAll_short cb : replaceAll r cb s = s.
Proof.
  unfold replaceAll. rewrite segments_short. clear.
  induction s as [|x t IH]; [reflexivity|]. cbn [map flat_map app]. now rewrite IH.
Qed.

Lemma replaceAllM_short cb : replaceAllM r cb s = ret s.
Proof.
  unfold replaceAllM. rewrite segments_short. clear.
  induction s as [|x t IH]; [reflexivity|]. cbn [map replaceSegs]. now rewrite IH.
Qed.

End Short.

End Taking.

Lemma Takes_seq_l p a b n : Takes p a n -> Takes p (Seq a b) n.
Proof.
  intros H. apply (Takes_le p _ (n + 0)); [lia|].
  apply Takes_seq; [exact H|apply Takes_none].
Qed.

Lemma Takes_seq_r p a b n : Takes p b n -> Takes p (Seq a b) n.
Proof. intros H. apply (Takes_seq p a b 0 n); [apply Takes_none|exact H]. Qed.

Lemma Takes_rep1 p mn mx g a :
  withinMax mn mx = true -> (1 <= mn)%nat -> Takes p a 1 -> Takes p (Rep mn mx g a) 1.
Proof.
  intros W L H. apply (Takes_le p _ (mn * 1)); [lia|]. now apply Takes_rep.
Qed.

Lemma countP_none p s : (forall c, In c s -> p c = false) -> countP p s = O.
Proof.
  unfold countP. induction s as [|x t IH]; intros H; [reflexivity|].
  cbn [filter]. rewrite (H x (or_introl eq_refl)). apply IH. intros c Hc. apply H. now right.
Qed.

Lemma digit_notPlain x : isDigit x = true -> notPlain x = true.
Proof. intros H. unfold notPlain, plainCh. rewrite H. now rewrite andb_false_r. Qed.

(** The side condition of [Takes_chr] for a literal, a small class or
    the digits. *)
Ltac chr_one :=
  let x := fresh "x" in
  let H := fresh "H" in
  intros x H;
  first
    [ apply N.eqb_eq in H; subst x; reflexivity
    | exact (digit_notPlain _ H)
    | exact H
    | unfold oneOf in H; cbn [str list_ascii_of_string map existsb] in H;
      repeat (apply orb_prop in H; destruct H as [H|H]);
      try discriminate H;
      apply N.eqb_eq in H; subst x; reflexivity ].

Ltac takes_one :=
  first
    [ apply Takes_chr; solve [chr_one]
    | apply Takes_grp; takes_one
    | apply Takes_alt; [takes_one|takes_one]
    | apply Takes_seq_l; takes_one
    | apply Takes_seq_r; takes_one
    | apply Takes_rep1; [reflexivity|lia|takes_one] ].

Ltac open_regex :=
  cbv [re seq lit lits c1 set nset star plus opt starL plusL atLeast between exactly
       ws nws digit dot any str list_ascii_of_string map
       R_scheme R_emailBody R_titlePart R_pre R_headingStart R_marker].

Ltac takes_plain R := unfold R; open_regex; takes_one.

Lemma takes_newline : Takes notPlain R_newline 1.
Proof. takes_plain R_newline. Qed.
Lemma takes_lf : Takes notPlain R_lf 1.
Proof. takes_plain R_lf. Qed.
Lemma takes_escape : Takes notPlain R_escape 1.
Proof. takes_plain R_escape. Qed.
Lemma takes_codeSpan : Takes notPlain R_codeSpan 1.
Proof. takes_plain R_codeSpan. Qed.
Lemma takes_angleUrl : Takes notPlain R_angleUrl 1.
Proof. takes_plain R_angleUrl. Qed.
Lemma takes_angleEmail : Takes notPlain R_angleEmail 1.
Proof. takes_plain R_angleEmail. Qed.
Lemma takes_comment : Takes notPlain R_comment 1.
Proof. takes_plain R_comment. Qed.
Lemma takes_tag : Takes notPlain R_tag 1.
Proof. takes_plain R_tag. Qed.
Lemma takes_refImage : Takes notPlain R_refImage 1.
Proof. takes_plain R_refImage. Qed.
Lemma takes_inlineImage : Takes notPlain R_inlineImage 1.
Proof. takes_plain R_inlineImage. Qed.
Lemma takes_refLink : Takes notPlain R_refLink 1.
Proof. takes_plain R_refLink. Qed.
Lemma takes_inlineLink : Takes notPlain R_inlineLink 1.
Proof. takes_plain R_inlineLink. Qed.
Lemma takes_footnoteRef : Takes notPlain R_footnoteRef 1.
Proof. takes_plain R_footnoteRef. Qed.
Lemma takes_highlight : Takes notPlain R_highlight 1.
Proof. takes_plain R_highlight. Qed.
Lemma takes_boldItalic : Takes notPlain R_boldItalic 1.
Proof. takes_plain R_boldItalic. Qed.
Lemma takes_bold : Takes notPlain R_bold 1.
Proof. takes_plain R_bold. Qed.
Lemma takes_italic : Takes notPlain R_italic 1.
Proof. takes_plain R_italic. Qed.
Lemma takes_strike : Takes notPlain R_strike 1.
Proof. takes_plain R_strike. Qed.
Lemma takes_color : Takes notPlain R_color 1.
Proof. takes_plain R_color. Qed.
Lemma takes_emoji : Takes notPlain R_emoji 1.
Proof. takes_plain R_emoji. Qed.
Lemma takes_bareUrl : Takes notPlain R_bareUrl 1.
Proof. takes_plain R_bareUrl. Qed.
Lemma takes_bareEmail : Takes notPlain R_bareEmail 1.
Proof. takes_plain R_bareEmail. Qed.
Lemma takes_issue : Takes notPlain R_issue 1.
Proof. takes_plain R_issue. Qed.
Lemma takes_mention : Takes notPlain R_mention 1.
Proof. takes_plain R_mention. Qed.
Lemma takes_commit : Takes isHex R_commit 7.
Proof.
  unfold R_commit. open_regex. apply Takes_seq_r, Takes_seq_l, Takes_grp.
  apply (Takes_rep isHex 7 (Some 40%nat) true (Chr isHex) 1); [reflexivity|].
  apply Takes_chr. auto.
Qed.

Lemma takes_fence : Takes notPlain R_fence 1.
Proof. takes_plain R_fence. Qed.
Lemma takes_headingStart : Takes notPlain R_headingStart 1.
Proof. takes_plain R_headingStart. Qed.
Lemma takes_heading : Takes notPlain R_heading 1.
Proof. takes_plain R_heading. Qed.
Lemma takes_hr : Takes notPlain R_hr 1.
Proof. takes_plain R_hr. Qed.
Lemma takes_quote : Takes notPlain R_quote 1.
Proof. takes_plain R_quote. Qed.
Lemma takes_toc : Takes notPlain R_toc 1.
Proof. takes_plain R_toc. Qed.
Lemma takes_listStart : Takes notPlain R_listStart 1.
Proof. takes_plain R_listStart. Qed.
Lemma takes_commentStart : Takes notPlain R_commentStart 1.
Proof. takes_plain R_commentStart. Qed.
Lemma takes_htmlStart : Takes notPlain R_htmlStart 1.
Proof. takes_plain R_htmlStart. Qed.
Lemma takes_defList : Takes notPlain R_defList 1.
Proof. takes_plain R_defList. Qed.
Lemma takes_footnoteDef : Takes notPlain R_footnoteDef 1.
Proof. takes_plain R_footnoteDef. Qed.
Lemma takes_abbrDef : Takes notPlain R_abbrDef 1.
Proof. takes_plain R_abbrDef. Qed.
Lemma takes_linkDef : Takes notPlain R_linkDef 1.
Proof. takes_plain R_linkDef. Qed.

Lemma bind_ret {A B : Type} (a : A) (f : A -> M B) : bind (ret a) f = f a.
Proof. reflexivity. Qed.

Lemma plain_countP s : forallb plainCh s = true -> countP notPlain s = O.
Proof.
  intros H. apply countP_none. intros c Hc.
  rewrite forallb_forall in H. unfold notPlain. now rewrite (H c Hc).
Qed.

Lemma normalizeNewlines_plain s : forallb plainCh s = true -> normalizeNewlines s = s.
Proof.
  intros H. apply (replaceAll_short notPlain R_newline 1 s takes_newline).
  rewrite (plain_countP _ H). lia.
Qed.

(** One rule of [renderInline] that finds nothing to replace. *)
Ltac step T short :=
  match goal with
  | |- context [replaceAllM _ _ ?s] =>
      rewrite (replaceAllM_short notPlain _ 1%nat s T short), bind_ret; cbv beta
  end.

Lemma renderInline_plain defs fuel text :
  forallb plainCh text = true -> (countP isHex text < 7)%nat ->
  keys (abbrDefs defs) = [] ->
  renderInline defs (S fuel) text = ret text.
Proof.
  intros plain fewHex noAbbr.
  assert (short : (countP notPlain text < 1)%nat)
    by (rewrite (plain_countP _ plain); lia).
  destruct text as [|x t]; [reflexivity|].
  cbn [renderInline]. set (text := x :: t) in *.
  rewrite (normalizeNewlines_plain _ plain).
  step takes_lf short. step takes_escape short. step takes_codeSpan short.
  step takes_angleUrl short. step takes_angleEmail short. step takes_comment short.
  step takes_tag short. step takes_refImage short. step takes_inlineImage short.
  step takes_refLink short. step takes_inlineLink short. step takes_footnoteRef short.
  step takes_highlight short. step takes_boldItalic short. step takes_bold short.
  step takes_italic short. step takes_strike short. step takes_color short.
  step takes_emoji short. step takes_bareUrl short. step takes_bareEmail short.
  step takes_issue short. step takes_mention short.
  rewrite (replaceAllM_short isHex _ 7%nat text takes_commit fewHex), bind_ret.
  cbv beta. rewrite noAbbr. reflexivity.
Qed.

Lemma startsWith_incl (s p : jsstring) :
  startsWith s p = true -> forall c, In c p -> In c s.
Proof.
  revert s. induction p as [|y p IH]; intros s H c; [intros []|].
  destruct s as [|x t]; [discriminate H|]. cbn [startsWith] in H.
  apply andb_prop in H as [E H]. apply N.eqb_eq in E. subst.
  intros [<-|Hc]; [now left|right; now apply (IH t)].
Qed.

Lemma includes_incl (s p : jsstring) :
  includes s p = true -> forall c, In c p -> In c s.
Proof.
  induction s as [|x t IH]; cbn [includes]; intros H c Hc.
  - rewrite orb_false_r in H. exact (startsWith_incl _ _ H c Hc).
  - apply orb_prop in H as [H|H]; [exact (startsWith_incl _ _ H c Hc)|].
    right. now apply IH.
Qed.

Lemma trimStart_ws x t : isWs x = true -> trimStart (x :: t) = trimStart t.
Proof. intros H. cbn [trimStart]. now rewrite H. Qed.

Lemma trimEnd_length s : (List.length (trimEnd s) <= List.length s)%nat.
Proof.
  unfold trimEnd. rewrite length_rev.
  etransitivity; [apply trimStart_length|]. now rewrite length_rev.
Qed.

(** A text that [trim] leaves as it is does not begin with white space. *)
Lemma trim_fixed_head x t : trim (x :: t) = x :: t -> isWs x = false.
Proof.
  intros H. destruct (isWs x) eqn:E; [|reflexivity]. exfalso.
  apply (f_equal (@List.length N)) in H. unfold trim in H.
  rewrite (trimStart_ws _ _ E) in H.
  pose proof (trimEnd_length (trimStart t)). pose proof (trimStart_length t).
  cbn [List.length] in H. lia.
Qed.

Lemma test_indented_head x t : isWs x = false -> test R_indented (x :: t) = false.
Proof.
  intros H.
  assert (A : (N_of_ascii " " =? x) = false).
  { destruct (N_of_ascii " " =? x) eqn:E; [|reflexivity].
    apply N.eqb_eq in E. subst x. discriminate H. }
  assert (B : (9 =? x) = false).
  { destruct (9 =? x) eqn:E; [|reflexivity].
    apply N.eqb_eq in E. subst x. discriminate H. }
  unfold R_indented, re. cbn [seq]. rewrite test_anchored.
  unfold execAt, atLeast, c1, ch. cbn [rmatch List.length Nat.add repLoop].
  change (Nat.ltb 0 4) with true. cbv iota. cbn [rmatch]. rewrite A, B. reflexivity.
Qed.

Lemma split_plain s : forallb plainCh s = true -> split s nl = [s].
Proof.
  intros H. unfold split, nl. rewrite splitGo_head_absent; [reflexivity|].
  intros Hin. rewrite forallb_forall in H. specialize (H _ Hin). discriminate H.
Qed.

Lemma extractDefinitions_plain s :
  forallb plainCh s = true ->
  extractDefinitions s
  = {| cleaned := s; linkDefs := empty; footnoteDefs := empty; abbrDefs := empty |}.
Proof.
  intros H.
  assert (short : (countP notPlain s < 1)%nat) by (rewrite (plain_countP _ H); lia).
  unfold extractDefinitions. rewrite (normalizeNewlines_plain _ H), (split_plain _ H).
  cbn [extractLoop].
  rewrite (rmatch1_short notPlain _ 1 s takes_footnoteDef short).
  rewrite (rmatch1_short notPlain _ 1 s takes_abbrDef short).
  rewrite (rmatch1_short notPlain _ 1 s takes_linkDef short).
  reflexivity.
Qed.

(** A line without markup, before a blank line or the end, is a
    paragraph of its own. *)
Lemma blocksLoop_plain defs quoted fuel text rest out :
  forallb plainCh text = true -> trim text = text -> text <> [] ->
  (countP isHex text < 7)%nat -> keys (abbrDefs defs) = [] ->
  paragraphLines rest = [] -> tableAhead text rest = false ->
  blocksLoop defs quoted (S fuel) (text :: rest) O out
  = blocksLoop defs quoted (S fuel) rest O (out ++ [pOpen ++ text ++ str "</p>"]).
Proof.
  intros plain trimmed nonempty fewHex noAbbr alone noTable.
  assert (short : (countP notPlain text < 1)%nat)
    by (rewrite (plain_countP _ plain); lia).
  cbn [blocksLoop]. unfold blank. rewrite trimmed.
  destruct text as [|x t] eqn:E; [contradiction|]. rewrite <- E in *.
  assert (T : truthy text = true) by now rewrite E.
  rewrite T. cbn [negb].
  rewrite (rmatch1_short notPlain _ 1 text takes_fence short).
  assert (I : test R_indented text = false).
  { rewrite E. apply test_indented_head. apply (trim_fixed_head x t).
    rewrite <- E. exact trimmed. }
  rewrite I.
  rewrite (rmatch1_short notPlain _ 1 text takes_heading short).
  rewrite (test_short notPlain _ 1 text takes_hr short).
  rewrite (test_short notPlain _ 1 text takes_quote short).
  rewrite (test_short notPlain _ 1 text takes_toc short).
  rewrite noTable.
  rewrite (test_short notPlain _ 1 text takes_listStart short).
  rewrite (test_short notPlain _ 1 text takes_commentStart short).
  rewrite (test_short notPlain _ 1 text takes_htmlStart short).
  rewrite (test_short notPlain _ 1 text takes_defList short).
  rewrite alone. cbn [join]. rewrite trimmed, T.
  rewrite (renderInline_plain defs fuel text plain fewHex noAbbr), bind_ret.
  reflexivity.
Qed.

Lemma parseBlocks_plain defs fuel text :
  forallb plainCh text = true -> trim text = text -> text <> [] ->
  (countP isHex text < 7)%nat -> keys (abbrDefs defs) = [] ->
  parseBlocks defs (S (S fuel)) text = ret (pOpen ++ text ++ str "</p>").
Proof.
  intros plain trimmed nonempty fewHex noAbbr.
  cbn [parseBlocks]. rewrite (normalizeNewlines_plain _ plain), (split_plain _ plain).
  rewrite (blocksLoop_plain defs _ fuel text [] [] plain trimmed nonempty fewHex noAbbr
             eq_refl (andb_false_r _)).
  reflexivity.
Qed.

(** X9.  A sentence without markup is one
    paragraph, as typed: a text of letters, spaces and punctuation that no
    rule reads (no digit, none of the marks [isMarkup] lists, fewer than
    seven letters a to f) is put in a [p] element and nothing in it is
    changed, the ampersand and the quotes included. *)
Theorem plain_sentence_is_a_paragraph (text : jsstring) :
  forallb plainCh text = true ->
  trim text = text ->
  text <> [] ->
  (countP isHex text < 7)%nat ->
  renderMarkdown text = Ok (pOpen ++ text ++ str "</p>").
Proof.
  intros plain trimmed nonempty fewHex.
  unfold renderMarkdown, renderMarkdownWith, fuelFor.
  rewrite (extractDefinitions_plain _ plain), (normalizeNewlines_plain _ plain).
  unfold renderBody. cbn [cleaned].
  replace (2 * List.length text + 4)%nat with (S (S (2 * List.length text + 2))) by lia.
  set (defs := {| cleaned := text; linkDefs := empty; footnoteDefs := empty;
                  abbrDefs := empty |}).
  rewrite (parseBlocks_plain defs _ text plain trimmed nonempty fewHex eq_refl), bind_ret.
  assert (Toc : includes (pOpen ++ text ++ str "</p>") TOC_PLACEHOLDER = false).
  { destruct (includes _ TOC_PLACEHOLDER) eqn:I; [|reflexivity]. exfalso.
    assert (U : In (ch "_") (pOpen ++ text ++ str "</p>")).
    { apply (includes_incl _ _ I). vm_compute. tauto. }
    apply in_app_or in U as [U|U]; [vm_compute in U; intuition discriminate|].
    apply in_app_or in U as [U|U]; [|vm_compute in U; intuition discriminate].
    rewrite forallb_forall in plain. specialize (plain _ U). discriminate plain. }
  unfold resolveToc. rewrite Toc, bind_ret.
  reflexivity.
Qed.

Lemma plain_sentence_is_a_paragraph_witness :
  renderMarkdown (quo "Tom & Li said 'hello', (twice).")
  = Ok (pOpen ++ quo "Tom & Li said 'hello', (twice)." ++ str "</p>").
Proof.
  apply plain_sentence_is_a_paragraph.
  - reflexivity.
  - reflexivity.
  - discriminate.
  - vm_compute. lia.
Defined.

(* ---- split and join on the line feed ---- *)

Lemma splitGo_not_nil sep s : forall skip cur, splitGo sep s skip cur <> [].
Proof.
  induction s as [|c t IH]; intros skip cur; cbn [splitGo]; [discriminate|].
  destruct skip; [|apply IH]. destruct (startsWith (c :: t) sep); [discriminate|apply IH].
Qed.

Lemma join_cons sep (x : jsstring) l :
  l <> [] -> join sep (x :: l) = x ++ sep ++ join sep l.
Proof. destruct l; [contradiction|reflexivity]. Qed.

Lemma splitGo_nl_join s : forall cur, join nl (splitGo nl s O cur) = rev cur ++ s.
Proof.
  induction s as [|c t IH]; intros cur; cbn [splitGo].
  - cbn [join]. now rewrite app_nil_r.
  - unfold nl at 2. cbn [startsWith]. rewrite startsWith_nil, andb_true_r.
    destruct (10 =? c) eqn:E.
    + apply N.eqb_eq in E. subst c. change (pred (List.length nl)) with O.
      rewrite join_cons by apply splitGo_not_nil. rewrite IH. reflexivity.
    + rewrite IH. cbn [rev]. now rewrite <- app_assoc.
Qed.

(** The lines of a text, joined, are the text. *)
Lemma join_split_nl s : join nl (split s nl) = s.
Proof. unfold split. now rewrite splitGo_nl_join. Qed.

Lemma splitGo_incl sep :
  forall s skip cur x c,
    In x (splitGo sep s skip cur) -> In c x -> In c cur \/ In c s.
Proof.
  induction s as [|d t IH]; intros skip cur x c; cbn [splitGo].
  - intros [<-|[]] H. left. now apply in_rev.
  - destruct skip as [|n].
    + destruct (startsWith (d :: t) sep).
      * intros [<-|H] Hc; [left; now apply in_rev|].
        destruct (IH _ _ _ _ H Hc) as [[]|G]. right. now right.
      * intros H Hc. destruct (IH _ _ _ _ H Hc) as [[<-|G]|G];
          [right; now left|now left|right; now right].
    + intros H Hc. destruct (IH _ _ _ _ H Hc) as [G|G]; [now left|right; now right].
Qed.

(** A line holds code units of the text only. *)
Lemma split_incl s sep x c : In x (split s sep) -> In c x -> In c s.
Proof. intros H Hc. destruct (splitGo_incl _ _ _ _ _ _ H Hc) as [[]|G]. exact G. Qed.

Lemma normalizeNewlines_incl s c : In c (normalizeNewlines s) -> In c s \/ c = 10.
Proof.
  intros H. apply replaceAll_In in H as [H|[f [<-|[]]]]; [now left|now right].
Qed.

(* ---- the definition pass on a text without definitions ---- *)

Lemma extractLoop_keeps :
  forall ls a,
    (forall l, In l ls -> definition l = false) ->
    extractLoop ls O a
    = {| a_remaining := a_remaining a ++ ls;
         a_linkDefs := a_linkDefs a;
         a_footnoteDefs := a_footnoteDefs a;
         a_abbrDefs := a_abbrDefs a |}.
Proof.
  induction ls as [|line t IH]; intros a H; cbn [extractLoop].
  - rewrite app_nil_r. now destruct a.
  - pose proof (H line (or_introl eq_refl)) as D. unfold definition in D.
    destruct (rmatch1 R_footnoteDef line); [discriminate D|].
    destruct (rmatch1 R_abbrDef line); [discriminate D|].
    destruct (rmatch1 R_linkDef line); [discriminate D|].
    rewrite IH by (intros l Hl; apply H; now right).
    cbn [a_remaining a_linkDefs a_footnoteDefs a_abbrDefs].
    now rewrite <- app_assoc.
Qed.

Lemma extractDefinitions_none src :
  (forall l, In l (split (normalizeNewlines src) nl) -> definition l = false) ->
  extractDefinitions src
  = {| cleaned := normalizeNewlines src; linkDefs := empty;
       footnoteDefs := empty; abbrDefs := empty |}.
Proof.
  intros H. unfold extractDefinitions. rewrite (extractLoop_keeps _ _ H).
  cbn [a_remaining a_linkDefs a_footnoteDefs a_abbrDefs app].
  now rewrite join_split_nl.
Qed.

Lemma bracket_footnoteDef : Takes isBracket R_footnoteDef 1.
Proof. unfold R_footnoteDef. open_regex. takes_one. Qed.
Lemma bracket_abbrDef : Takes isBracket R_abbrDef 1.
Proof. unfold R_abbrDef. open_regex. takes_one. Qed.
Lemma bracket_linkDef : Takes isBracket R_linkDef 1.
Proof. unfold R_linkDef. open_regex. takes_one. Qed.

Lemma definition_takes p l :
  Takes p R_footnoteDef 1 -> Takes p R_abbrDef 1 -> Takes p R_linkDef 1 ->
  (forall c, In c l -> p c = false) -> definition l = false.
Proof.
  intros A B C H. unfold definition.
  assert (short : (countP p l < 1)%nat) by (rewrite (countP_none _ _ H); lia).
  rewrite (rmatch1_short p _ 1 l A short), (rmatch1_short p _ 1 l B short),
    (rmatch1_short p _ 1 l C short). reflexivity.
Qed.

Lemma no_bracket_no_definition src :
  ~ In (ch "[") src ->
  extractDefinitions src
  = {| cleaned := normalizeNewlines src; linkDefs := empty;
       footnoteDefs := empty; abbrDefs := empty |}.
Proof.
  intros H. apply extractDefinitions_none. intros l Hl.
  apply (definition_takes isBracket);
    [apply bracket_footnoteDef|apply bracket_abbrDef|apply bracket_linkDef|].
  intros c Hc. unfold isBracket. destruct (c =? ch "[") eqn:E; [|reflexivity].
  apply N.eqb_eq in E. subst c. exfalso.
  apply (split_incl _ _ _ _ Hl), normalizeNewlines_incl in Hc as [Hc|Hc];
    [now apply H|discriminate Hc].
Qed.

(** X7.  A text without an opening
    bracket holds no definition: [extractDefinitions] gives the text back,
    its line ends normalized, and three empty dictionaries. *)
Theorem extractDefinitions_without_brackets (src : jsstring) :
  ~ In (ch "[") src ->
  extractDefinitions src
  = {| cleaned := normalizeNewlines src; linkDefs := empty;
       footnoteDefs := empty; abbrDefs := empty |}.
Proof. exact (no_bracket_no_definition src). Qed.

Lemma extractDefinitions_without_brackets_witness :
  ~ In (ch "[") (str "a" ++ [13; 10] ++ str "*b*")
  /\ extractDefinitions (str "a" ++ [13; 10] ++ str "*b*")
     = {| cleaned := str "a" ++ nl ++ str "*b*"; linkDefs := empty;
          footnoteDefs := empty; abbrDefs := empty |}.
Proof.
  assert (H : ~ In (ch "[") (str "a" ++ [13; 10] ++ str "*b*"))
    by (vm_compute; intuition discriminate).
  split; [exact H|].
  exact (extractDefinitions_without_brackets (str "a" ++ [13; 10] ++ str "*b*") H).
Defined.

(* ---- a blank document ---- *)

Lemma ws_footnoteDef : Takes notWs R_footnoteDef 1.
Proof. unfold R_footnoteDef. open_regex. takes_one. Qed.
Lemma ws_abbrDef : Takes notWs R_abbrDef 1.
Proof. unfold R_abbrDef. open_regex. takes_one. Qed.
Lemma ws_linkDef : Takes notWs R_linkDef 1.
Proof. unfold R_linkDef. open_regex. takes_one. Qed.

Lemma trimStart_blank l : forallb isWs l = true -> trimStart l = [].
Proof.
  induction l as [|c t IH]; [reflexivity|]. cbn [forallb trimStart].
  intros H. apply andb_prop in H as [A B]. rewrite A. now apply IH.
Qed.

Lemma blank_ws l : forallb isWs l = true -> blank l = true.
Proof. intros H. unfold blank, trim. now rewrite (trimStart_blank _ H). Qed.

Lemma blocksLoop_blank defs quoted fuel :
  forall ls out,
    (forall l, In l ls -> blank l = true) ->
    blocksLoop defs quoted fuel ls O out = ret out.
Proof.
  induction ls as [|line t IH]; intros out H; cbn [blocksLoop]; [reflexivity|].
  rewrite (H line (or_introl eq_refl)). apply IH. intros l Hl. apply H. now right.
Qed.

Lemma normalizeNewlines_idempotent s :
  normalizeNewlines (normalizeNewlines s) = normalizeNewlines s.
Proof. rewrite !normalizeNewlines_toLF. apply toLF_idempotent. Qed.

(** X8.  A document of white space only (spaces,
    tabs, line ends) compiles to the empty string. *)
Theorem blank_document_is_empty (src : jsstring) :
  forallb isWs src = true -> renderMarkdown src = Ok [].
Proof.
  intros H. rewrite forallb_forall in H.
  assert (W : forall l, In l (split (normalizeNewlines src) nl) -> forallb isWs l = true).
  { intros l Hl. apply forallb_forall. intros c Hc.
    apply (split_incl _ _ _ _ Hl), normalizeNewlines_incl in Hc as [Hc| ->];
      [now apply H|reflexivity]. }
  assert (D : extractDefinitions src
              = {| cleaned := normalizeNewlines src; linkDefs := empty;
                   footnoteDefs := empty; abbrDefs := empty |}).
  { apply extractDefinitions_none. intros l Hl.
    apply (definition_takes notWs);
      [apply ws_footnoteDef|apply ws_abbrDef|apply ws_linkDef|].
    intros c Hc. unfold notWs. specialize (W l Hl). rewrite forallb_forall in W.
    now rewrite (W c Hc). }
  unfold renderMarkdown, renderMarkdownWith, fuelFor. rewrite D.
  unfold renderBody. cbn [cleaned].
  replace (2 * List.length (normalizeNewlines src) + 4)%nat
    with (S (2 * List.length (normalizeNewlines src) + 3)) by lia.
  cbn [parseBlocks]. rewrite normalizeNewlines_idempotent.
  rewrite blocksLoop_blank by (intros l Hl; apply blank_ws, W, Hl).
  reflexivity.
Qed.

Lemma blank_document_is_empty_witness :
  forallb isWs ([32; 9; 13; 10; 160; 10; 32]) = true
  /\ renderMarkdown [32; 9; 13; 10; 160; 10; 32] = Ok [].
Proof.
  split; [reflexivity|]. apply blank_document_is_empty. reflexivity.
Defined.

(** ** The keys of the vault *)

Lemma digitsGo_value fuel :
  forall n acc,
    n < 10 ^ N.of_nat fuel ->
    fold_left (fun a c => 10 * a + (c - 48)) (digitsGo fuel n acc) 0
    = fold_left (fun a c => 10 * a + (c - 48)) acc n.
Proof.
  induction fuel as [|fuel IH]; intros n acc H.
  - cbn [digitsGo]. change (10 ^ N.of_nat 0) with 1 in H.
    assert (n = 0) by lia. now subst.
  - cbn [digitsGo]. destruct (n <? 10) eqn:E.
    + apply N.ltb_lt in E. cbn [fold_left].
      rewrite (N.mod_small n 10 E). f_equal. clear H IH. lia.
    + apply N.ltb_ge in E. rewrite IH.
      * cbn [fold_left]. f_equal.
        pose proof (N.div_mod n 10 ltac:(clear; lia)) as D. clear H IH E.
        revert D. generalize (n / 10), (n mod 10). intros q r D. lia.
      * rewrite Nat2N.inj_succ, N.pow_succ_r' in H.
        apply N.Div0.div_lt_upper_bound. exact H.
Qed.

(** The decimal image of a number reads back as the number. *)
Lemma parseDec_numToString n : parseDec (numToString n) = n.
Proof.
  unfold parseDec, numToString. rewrite digitsGo_value; [reflexivity|].
  rewrite Nat2N.inj_succ, N2Nat.id.
  destruct (N.eq_dec n 0) as [->|Hn]; [reflexivity|].
  destruct (N.log2_spec n ltac:(lia)) as [_ H].
  eapply N.lt_le_trans; [exact H|].
  apply N.pow_le_mono_l. lia.
Qed.

Lemma numToString_injective n m : numToString n = numToString m -> n = m.
Proof.
  intros H. rewrite <- (parseDec_numToString n), <- (parseDec_numToString m).
  now rewrite H.
Qed.

Lemma placeholderKey_injective n m : placeholderKey n = placeholderKey m -> n = m.
Proof.
  unfold placeholderKey. intros [= H]. apply app_inv_tail in H.
  now apply numToString_injective.
Qed.

Lemma digitsGo_digits fuel :
  forall n acc c,
    (forall d, In d acc -> d < 58) -> In c (digitsGo fuel n acc) -> c < 58.
Proof.
  induction fuel as [|fuel IH]; intros n acc c H; cbn [digitsGo]; [apply H|].
  assert (D : forall d, In d ((48 + n mod 10) :: acc) -> d < 58).
  { intros d [<-|Hd]; [|now apply H].
    pose proof (N.mod_upper_bound n 10 ltac:(lia)). lia. }
  destruct (n <? 10); [apply D|now apply IH].
Qed.

Lemma numToString_digits n c : In c (numToString n) -> c < 58.
Proof. unfold numToString. apply digitsGo_digits. intros d []. Qed.

(** ** One fragment for each value of the counter *)

Lemma put_fresh {V : Type} k (v : V) l :
  (forall k' v', In (k', v') l -> eqs k' k = false) -> put k v l = l ++ [(k, v)].
Proof.
  induction l as [|[k0 v0] t IH]; intros H; cbn [put app]; [reflexivity|].
  rewrite (H k0 v0 (or_introl eq_refl)). f_equal. apply IH.
  intros k' v' Hin. apply (H k' v'). now right.
Qed.

Lemma keysUpTo_In n k : In k (keysUpTo n) -> exists i, (i < n)%nat /\ k = placeholderKey (N.of_nat i).
Proof.
  unfold keysUpTo. intros H. apply in_map_iff in H as (i & <- & H).
  apply in_seq in H. exists i. split; [lia|reflexivity].
Qed.

Lemma keysUpTo_S n : keysUpTo (S n) = keysUpTo n ++ [placeholderKey (N.of_nat n)].
Proof. unfold keysUpTo. now rewrite seq_S, map_app. Qed.

Lemma counted_fresh st n k v :
  placeholderId st = N.of_nat n -> map fst (placeholderMap st) = keysUpTo n ->
  In (k, v) (placeholderMap st) ->
  exists i, (i < n)%nat /\ k = placeholderKey (N.of_nat i).
Proof.
  intros _ Hk Hin. apply keysUpTo_In. rewrite <- Hk.
  change k with (fst (k, v)). now apply in_map.
Qed.

Lemma makePlaceholder_appends st n html :
  placeholderId st = N.of_nat n -> map fst (placeholderMap st) = keysUpTo n ->
  makePlaceholder html st
  = Ok (placeholderKey (N.of_nat n),
        {| placeholderMap := placeholderMap st ++ [(placeholderKey (N.of_nat n), html)];
           placeholderId := N.of_nat (S n);
           headings := headings st |}).
Proof.
  intros Hid Hk. unfold makePlaceholder. rewrite Hid.
  rewrite put_fresh.
  - do 3 f_equal. lia.
  - intros k' v' Hin. destruct (counted_fresh st n k' v' Hid Hk Hin) as (i & Hi & ->).
    apply eqs_neq. intros E. apply placeholderKey_injective in E. lia.
Qed.

Lemma counted_makePlaceholder html : preserves counted (makePlaceholder html).
Proof.
  intros st a st' (n & Hid & Hk) H. rewrite (makePlaceholder_appends st n html Hid Hk) in H.
  injection H as _ <-. exists (S n). cbn [placeholderId placeholderMap]. split; [reflexivity|].
  now rewrite map_app, Hk, keysUpTo_S.
Qed.

Lemma counted_pushHeading h : id h = slugify (text h) -> preserves counted (pushHeading h).
Proof. intros _ st a st' H [= _ <-]. exact H. Qed.

Lemma counted_initial : counted initial.
Proof. exists O. split; reflexivity. Qed.

Lemma keysUpTo_NoDup n : NoDup (keysUpTo n).
Proof.
  induction n as [|n IH]; [constructor|].
  rewrite keysUpTo_S. apply NoDup_app; [exact IH|repeat constructor; intros []|].
  intros k Hk [<-|[]]. apply keysUpTo_In in Hk as (i & Hi & E).
  apply placeholderKey_injective in E. lia.
Qed.

(** X20.  Every call of [makePlaceholder]
    adds an entry to the vault under a key no earlier call has used: at
    the end of a compile the vault holds as many fragments as the
    counter says, under the keys of 0, 1, 2, ... in this order, and no
    two of its keys are the same. *)
Theorem vault_one_fragment_per_counter defs fuel out st :
  renderBody defs fuel initial = Ok (out, st) ->
  placeholderId st = N.of_nat (List.length (placeholderMap st))
  /\ map fst (placeholderMap st) = keysUpTo (List.length (placeholderMap st))
  /\ NoDup (map fst (placeholderMap st)).
Proof.
  intros H.
  destruct (keeps_renderBody counted counted_makePlaceholder counted_pushHeading
              defs fuel initial out st counted_initial H) as (n & Hid & Hk).
  assert (L : List.length (placeholderMap st) = n).
  { rewrite <- (length_map fst), Hk. unfold keysUpTo. now rewrite length_map, length_seq. }
  rewrite L. repeat split; auto. rewrite Hk. apply keysUpTo_NoDup.
Qed.

Lemma vault_one_fragment_per_counter_witness :
  exists out st,
    renderBody (extractDefinitions (str "*a* `b`")) 4 initial = Ok (out, st)
    /\ placeholderId st = 2
    /\ map fst (placeholderMap st) = [placeholderKey 0; placeholderKey 1].
Proof.
  destruct (renderBody (extractDefinitions (str "*a* `b`")) 4 initial)
    as [[out st]| |] eqn:E; [|vm_compute in E; discriminate E|vm_compute in E; discriminate E].
  exists out, st. split; [reflexivity|].
  destruct (vault_one_fragment_per_counter _ _ _ _ E) as (A & B & _).
  assert (L : List.length (placeholderMap st) = 2%nat)
    by (vm_compute in E; injection E as _ <-; reflexivity).
  rewrite L in A, B. split; [exact A|exact B].
Defined.

(** ** A fragment comes back in the place of its key *)

Lemma startsWith_app (s rest : jsstring) : startsWith (s ++ rest) s = true.
Proof.
  induction s as [|c t IH]; [apply startsWith_nil|].
  cbn [app startsWith]. now rewrite N.eqb_refl, IH.
Qed.

Lemma splitGo_skip sep :
  forall w rest cur, splitGo sep (w ++ rest) (List.length w) cur = splitGo sep rest O cur.
Proof. induction w as [|c t IH]; intros rest cur; [reflexivity|]. cbn. apply IH. Qed.

Lemma splitGo_at_sep c p rest cur :
  splitGo (c :: p) ((c :: p) ++ rest) O cur = rev cur :: splitGo (c :: p) rest O [].
Proof.
  change ((c :: p) ++ rest) with (c :: (p ++ rest)). cbn [splitGo].
  change (c :: (p ++ rest)) with ((c :: p) ++ rest). rewrite startsWith_app.
  cbn [List.length pred]. now rewrite splitGo_skip.
Qed.

(** No occurrence of the separator begins in [pre]. *)
Lemma splitGo_pre c p :
  forall pre rest cur,
    ~ In c pre ->
    splitGo (c :: p) (pre ++ rest) O cur = splitGo (c :: p) rest O (rev pre ++ cur).
Proof.
  induction pre as [|x t IH]; intros rest cur H; [reflexivity|].
  cbn [app splitGo startsWith].
  destruct (c =? x) eqn:E.
  - apply N.eqb_eq in E. exfalso. apply H. now left.
  - cbn [andb]. rewrite IH by (intros Hin; apply H; now right).
    cbn [rev]. now rewrite <- app_assoc.
Qed.

Lemma startsWith_terminated c :
  forall (b a x : jsstring),
    ~ In c a -> ~ In c b -> startsWith (a ++ c :: x) (b ++ [c]) = true -> a = b.
Proof.
  induction b as [|z b IH]; intros [|y a] x Ha Hb; cbn [app startsWith]; intros H.
  - reflexivity.
  - apply andb_prop in H as [E _]. apply N.eqb_eq in E. exfalso. apply Ha. now left.
  - apply andb_prop in H as [E _]. apply N.eqb_eq in E. exfalso. apply Hb. now left.
  - apply andb_prop in H as [E H]. apply N.eqb_eq in E. subst. f_equal.
    apply (IH a x); auto; intros Hin; [apply Ha|apply Hb]; now right.
Qed.

Lemma numToString_free n : ~ In keyClose (numToString n) /\ ~ In keyOpen (numToString n).
Proof.
  split; intros H; apply numToString_digits in H; vm_compute in H; discriminate H.
Qed.

(** Where a key stands, no other key begins. *)
Lemma key_prefix i n post :
  startsWith (placeholderKey n ++ post) (placeholderKey i) = true -> i = n.
Proof.
  unfold placeholderKey. cbn [app startsWith]. rewrite N.eqb_refl. cbn [andb].
  rewrite <- app_assoc. cbn [app]. intros H.
  apply startsWith_terminated in H; try apply numToString_free.
  symmetry. now apply numToString_injective.
Qed.

(** A text that holds one key and no other U+E000 is cut by that key
    only. *)
Lemma split_other_key i n pre post :
  i <> n -> ~ In keyOpen pre -> ~ In keyOpen post ->
  split (pre ++ placeholderKey n ++ post) (placeholderKey i)
  = [pre ++ placeholderKey n ++ post].
Proof.
  intros Hi Hpre Hpost. unfold split.
  change (placeholderKey i) with (keyOpen :: numToString i ++ [keyClose]).
  rewrite splitGo_pre by exact Hpre. rewrite app_nil_r.
  change (keyOpen :: numToString i ++ [keyClose]) with (placeholderKey i).
  destruct (startsWith (placeholderKey n ++ post) (placeholderKey i)) eqn:S.
  { apply key_prefix in S. contradiction. }
  change (placeholderKey n ++ post)
    with (keyOpen :: ((numToString n ++ [keyClose]) ++ post)) in *.
  cbn [splitGo]. rewrite S.
  change (placeholderKey i) with (keyOpen :: numToString i ++ [keyClose]).
  rewrite splitGo_head_absent.
  - cbn [rev]. rewrite rev_involutive, <- !app_assoc. reflexivity.
  - intros Hin. apply in_app_or in Hin as [Hin|Hin]; [|now apply Hpost].
    apply in_app_or in Hin as [Hin|[Hin|[]]];
      [now apply numToString_free in Hin|discriminate Hin].
Qed.

Lemma split_own_key n pre post :
  ~ In keyOpen pre -> ~ In keyOpen post ->
  split (pre ++ placeholderKey n ++ post) (placeholderKey n) = [pre; post].
Proof.
  intros Hpre Hpost. unfold split.
  change (placeholderKey n) with (keyOpen :: numToString n ++ [keyClose]).
  rewrite splitGo_pre by exact Hpre. rewrite app_nil_r, splitGo_at_sep.
  rewrite rev_involutive, splitGo_head_absent by exact Hpost. reflexivity.
Qed.

Lemma restoreWith_other_keys n pre post :
  ~ In keyOpen pre -> ~ In keyOpen post ->
  forall m,
    (forall k v, In (k, v) m -> exists i, i <> n /\ k = placeholderKey i) ->
    restoreWith m (pre ++ placeholderKey n ++ post) = pre ++ placeholderKey n ++ post.
Proof.
  intros Hpre Hpost. unfold restoreWith.
  induction m as [|[k v] t IH]; intros H; [reflexivity|].
  cbn [fold_left fst snd].
  destruct (H k v (or_introl eq_refl)) as (i & Hi & ->).
  rewrite (split_other_key i n pre post Hi Hpre Hpost). cbn [join].
  apply IH. intros k' v' Hin. apply (H k' v'). now right.
Qed.

Lemma vaulted_restores st n html pre post :
  placeholderId st = N.of_nat n -> map fst (placeholderMap st) = keysUpTo n ->
  ~ In keyOpen pre -> ~ In keyOpen post ->
  vaulted html (fun key => pre ++ key ++ post) st
  = Ok (pre ++ html ++ post,
        {| placeholderMap := placeholderMap st ++ [(placeholderKey (N.of_nat n), html)];
           placeholderId := N.of_nat (S n);
           headings := headings st |}).
Proof.
  intros Hid Hk Hpre Hpost. unfold vaulted, bind.
  rewrite (makePlaceholder_appends st n html Hid Hk).
  unfold restorePlaceholders. cbn [placeholderMap]. f_equal. f_equal.
  unfold restoreWith. rewrite fold_left_app. cbn [fold_left fst snd].
  fold (restoreWith (placeholderMap st) (pre ++ placeholderKey (N.of_nat n) ++ post)).
  rewrite restoreWith_other_keys; auto.
  - rewrite split_own_key by assumption. reflexivity.
  - intros k v Hin. destruct (counted_fresh st n k v Hid Hk Hin) as (i & Hi & ->).
    exists (N.of_nat i). split; [lia|reflexivity].
Qed.

(** X21.  A fragment that [makePlaceholder] stores comes
    back, whatever it holds, in the place of its key: on a text that
    holds the key between two texts without U+E000,
    [restorePlaceholders] returns the fragment between the two texts. *)
Theorem vault_round_trip st html pre post :
  counted st -> ~ In keyOpen pre -> ~ In keyOpen post ->
  result (vaulted html (fun key => pre ++ key ++ post) st) = Ok (pre ++ html ++ post).
Proof.
  intros (n & Hid & Hk) Hpre Hpost.
  now rewrite (vaulted_restores st n html pre post Hid Hk Hpre Hpost).
Qed.

Lemma vault_round_trip_witness :
  counted initial
  /\ result (vaulted (str "<b>x</b>") (fun key => str "a " ++ key ++ str " c") initial)
     = Ok (str "a <b>x</b> c").
Proof.
  split; [apply counted_initial|].
  apply (vault_round_trip initial (str "<b>x</b>") (str "a ") (str " c")).
  - apply counted_initial.
  - vm_compute. intuition discriminate.
  - vm_compute. intuition discriminate.
Defined.

(** X22.  The vault is restored in the order of
    its entries, each key once: a fragment that holds the key of an
    earlier fragment comes back with that key still in it, and the
    earlier fragment is lost.  This is what a colored span does to the
    markup of its content. *)
Theorem vault_nested_key_is_left st inner pre post :
  counted st ->
  result ((key0 <- makePlaceholder inner ;;
           vaulted (pre ++ key0 ++ post) (fun key => key)) st)
  = Ok (pre ++ placeholderKey (placeholderId st) ++ post).
Proof.
  intros (n & Hid & Hk). unfold bind at 1.
  rewrite (makePlaceholder_appends st n inner Hid Hk). unfold vaulted, bind.
  match goal with
  | |- context [makePlaceholder ?h ?st1] =>
      rewrite (makePlaceholder_appends st1 (S n) h);
        [|reflexivity|cbn [placeholderMap]; now rewrite map_app, Hk, keysUpTo_S]
  end.
  unfold restorePlaceholders, result. cbn [placeholderMap]. f_equal.
  unfold restoreWith. rewrite fold_left_app. cbn [fold_left fst snd].
  match goal with
  | |- context [fold_left ?f ?m ?k] => fold (restoreWith m k)
  end.
  pose proof (restoreWith_other_keys (N.of_nat (S n)) [] []) as R.
  pose proof (split_own_key (N.of_nat (S n)) [] []) as S.
  assert (E : ~ In keyOpen []) by (intros []).
  specialize (R E E). specialize (S E E).
  cbn [app] in R, S. rewrite app_nil_r in R, S.
  rewrite R.
  - rewrite S. cbn [join app]. rewrite app_nil_r, Hid. reflexivity.
  - intros k v Hin. apply in_app_or in Hin as [Hin|[[= <- <-]|[]]].
    + destruct (counted_fresh st n k v Hid Hk Hin) as (i & Hi & ->).
      exists (N.of_nat i). split; [lia|reflexivity].
    + exists (N.of_nat n). split; [lia|reflexivity].
Qed.

Lemma vault_nested_key_is_left_witness :
  counted initial
  /\ result ((key0 <- makePlaceholder (str "<em>b</em>") ;;
              vaulted (str "<span>" ++ key0 ++ str "</span>") (fun key => key)) initial)
     = Ok (str "<span>" ++ placeholderKey 0 ++ str "</span>")
  /\ renderMarkdown (str "[color=red]**b**[/color]")
     = Ok (pOpen ++ quo "<span class='text-red-500'>" ++ placeholderKey 0
           ++ str "</span></p>").
Proof.
  split; [apply counted_initial|]. split; [|vm_compute; reflexivity].
  apply (vault_nested_key_is_left initial (str "<em>b</em>") (str "<span>") (str "</span>")).
  apply counted_initial.
Defined.

(** ** The parsers of lists and tables move forward *)

Lemma countP_pos p s : (1 <= countP p s)%nat -> exists c, In c s /\ p c = true.
Proof.
  unfold countP. induction s as [|x t IH]; cbn [filter List.length]; [lia|].
  destruct (p x) eqn:E.
  - intros _. exists x. split; [now left|exact E].
  - intros H. destruct (IH H) as (c & Hc & Pc). exists c. split; [now right|exact Pc].
Qed.

Lemma trimStart_keeps c l : In c l -> isWs c = false -> In c (trimStart l).
Proof.
  induction l as [|x t IH]; [intros []|]. cbn [trimStart]. intros [->|H] W.
  - rewrite W. now left.
  - destruct (isWs x); [now apply IH|now right].
Qed.

(** [trim] keeps what is not white space. *)
Lemma trim_keeps c l : In c l -> isWs c = false -> In c (trim l).
Proof.
  intros H W. unfold trim, trimEnd. apply -> in_rev.
  apply trimStart_keeps; [|exact W]. apply -> in_rev. now apply trimStart_keeps.
Qed.

Lemma item_takes : Takes notWs R_item 1.
Proof. unfold R_item. open_regex. takes_one. Qed.

(** A line that is a list item is not blank. *)
Lemma item_not_blank line m : rmatch1 R_item line = Some m -> blank line = false.
Proof.
  intros H. unfold rmatch1, search in H.
  assert (P : (1 <= countP notWs line)%nat).
  { destruct (countP notWs line) as [|k] eqn:E; [|lia]. exfalso.
    rewrite (searchFrom_short notWs R_item 1 item_takes line None []) in H by lia.
    discriminate H. }
  apply countP_pos in P as (c & Hc & Pc). unfold notWs in Pc.
  apply negb_true_iff in Pc. pose proof (trim_keeps c line Hc Pc) as T.
  unfold blank. destruct (trim line); [destruct T|reflexivity].
Qed.

Section Progress.

Variable defs : DefsResult.

Lemma listLoop_count nested fuel b :
  forall ls skip items cnt st items' cnt' st',
    listLoop defs nested fuel b ls skip items cnt st = Ok ((items', cnt'), st') ->
    (cnt <= cnt' <= cnt + List.length ls)%nat.
Proof.
  induction ls as [|line t IH]; intros skip items cnt st items' cnt' st';
    cbn [listLoop List.length].
  - intros [= _ <- _]. lia.
  - destruct skip as [|n].
    + destruct (blank line); [intros [= _ <- _]; lia|].
      destruct (rmatch1 R_item line) as [m|]; [|intros [= _ <- _]; lia].
      destruct (Nat.ltb (List.length (grp 1 m)) b); [intros [= _ <- _]; lia|].
      destruct (Nat.ltb b (List.length (grp 1 m))).
      * unfold bind. destruct (nested (line :: t) st) as [[r st1]| |]; try discriminate.
        intros H. apply IH in H. lia.
      * destruct (itemContinuation b t) as [more n].
        unfold bind. destruct (renderItem defs fuel _ st) as [[li st1]| |]; try discriminate.
        intros H. apply IH in H. lia.
    + intros H. apply IH in H. lia.
Qed.

(** The first line of a list is an item of the list. *)
Lemma listLoop_first nested fuel line t m st items cnt st' :
  rmatch1 R_item line = Some m ->
  listLoop defs nested fuel (List.length (grp 1 m)) (line :: t) O [] O st
  = Ok ((items, cnt), st') ->
  (1 <= cnt)%nat.
Proof.
  intros E. cbn [listLoop]. rewrite (item_not_blank _ _ E), E, Nat.ltb_irrefl.
  destruct (itemContinuation _ t) as [more n].
  unfold bind. destruct (renderItem defs fuel _ st) as [[li st1]| |]; try discriminate.
  intros H. apply listLoop_count in H. lia.
Qed.

Lemma parseListAt_count fuel ls st html n st' :
  parseListAt defs fuel ls st = Ok ((html, n), st') ->
  (1 <= n <= List.length ls)%nat.
Proof.
  destruct fuel as [|fuel]; [discriminate|]. cbn [parseListAt].
  destruct ls as [|first rest]; [discriminate|].
  destruct (rmatch1 R_item first) as [m|] eqn:E.
  - unfold bind.
    destruct (listLoop defs _ fuel _ (first :: rest) O [] O st) as [[[items cnt] st1]| |] eqn:L;
      try discriminate.
    cbn [ret snd]. intros [= _ <- _].
    pose proof (listLoop_first _ _ _ _ _ _ _ _ _ E L).
    apply listLoop_count in L. lia.
  - intros [= _ <- _]. cbn [List.length]. lia.
Qed.

Lemma takeWhile_length {A : Type} (q : jsstring -> bool) ls :
  (List.length (takeWhile q ls) <= List.length ls)%nat.
Proof.
  induction ls as [|l t IH]; cbn [takeWhile List.length]; [lia|].
  destruct (q l); cbn [List.length]; lia.
Qed.

Lemma parseTableAt_count fuel ls st html n st' :
  parseTableAt defs fuel ls st = Ok ((html, n), st') ->
  (2 <= n <= List.length ls)%nat.
Proof.
  unfold parseTableAt. destruct ls as [|h [|d rest]]; try discriminate.
  unfold bind. destruct (mapiM _ (splitRow h) O st) as [[ths st1]| |]; try discriminate.
  destruct (mapM _ _ st1) as [[trs st2]| |]; try discriminate.
  cbn [ret]. intros [= _ <- _]. cbn [List.length].
  match goal with |- context [takeWhile ?q rest] => pose proof (@takeWhile_length unit q rest) end.
  lia.
Qed.

End Progress.

(** X19.  A call of [parseListAt] or of
    [parseTableAt] that returns has taken at least one line and no more
    lines than there are from [start] on: the loop of [parseBlocks],
    which goes on from [next], always moves forward and stays within
    [lines]. *)
Theorem block_parsers_move_forward defs fuel ls st html n st' :
  parseListAt defs fuel ls st = Ok ((html, n), st')
  \/ parseTableAt defs fuel ls st = Ok ((html, n), st') ->
  (1 <= n <= List.length ls)%nat.
Proof.
  intros [H|H].
  - exact (parseListAt_count defs _ _ _ _ _ _ H).
  - apply parseTableAt_count in H. lia.
Qed.

Lemma block_parsers_move_forward_witness :
  exists html st',
    parseListAt (extractDefinitions []) 3 [str "- a"; str "  - b"; str ""; str "c"] initial
    = Ok ((html, 3%nat), st')
    /\ (1 <= 3 <= 4)%nat.
Proof.
  destruct (parseListAt (extractDefinitions []) 3
              [str "- a"; str "  - b"; str ""; str "c"] initial)
    as [[[html n] st']| |] eqn:E;
    [|vm_compute in E; discriminate E|vm_compute in E; discriminate E].
  assert (N : n = 3%nat) by (vm_compute in E; injection E as _ N _; now symmetry).
  subst n. exists html, st'. split; [reflexivity|].
  exact (block_parsers_move_forward _ _ _ _ _ _ _ (or_introl E)).
Defined.

(** ** Fenced code *)

Lemma splitGo_nl_app b :
  forall s cur,
    splitGo [10] (s ++ [10] ++ b) O cur = splitGo [10] s O cur ++ splitGo [10] b O [].
Proof.
  induction s as [|c t IH]; intros cur.
  - change ([] ++ [10] ++ b) with ([10] ++ b). now rewrite (splitGo_at_sep 10 [] b cur).
  - change ((c :: t) ++ [10] ++ b) with (c :: (t ++ [10] ++ b)).
    cbn [splitGo startsWith]. rewrite !startsWith_nil, !andb_true_r.
    destruct (10 =? c); [|apply IH].
    cbn [List.length pred app]. f_equal. apply IH.
Qed.

(** The lines of two texts put on two lines. *)
Lemma split_nl_app a b : split (a ++ nl ++ b) nl = split a nl ++ split b nl.
Proof. unfold split, nl. apply splitGo_nl_app. Qed.

Lemma takeWhile_until (q : jsstring -> bool) a x r :
  (forall l, In l a -> q l = true) -> q x = false -> takeWhile q (a ++ x :: r) = a.
Proof.
  intros Ha Hx. induction a as [|l t IH]; cbn [app takeWhile].
  - now rewrite Hx.
  - rewrite (Ha l (or_introl eq_refl)), IH; [reflexivity|].
    intros l' Hl. apply Ha. now right.
Qed.

Lemma blocksLoop_skip defs quoted fuel :
  forall ls skip out,
    (List.length ls <= skip)%nat -> blocksLoop defs quoted fuel ls skip out = ret out.
Proof.
  induction ls as [|l t IH]; intros skip out H; cbn [blocksLoop]; [reflexivity|].
  cbn [List.length] in H. destruct skip as [|n]; [lia|]. apply IH. lia.
Qed.

Lemma trim_incl l c : In c (trim l) -> In c l.
Proof.
  assert (S : forall s, In c (trimStart s) -> In c s).
  { induction s as [|x t IH]; [intros []|]. cbn [trimStart].
    destruct (isWs x); [intros H; right; now apply IH|auto]. }
  unfold trim, trimEnd. intros H. apply in_rev, S, in_rev in H. now apply S.
Qed.

Lemma entity_incl c x : In x (entity c) -> x = c \/ In x (str "&amp;lt;gt").
Proof.
  unfold entity.
  destruct (c =? ch "&"); [intros H; right; vm_compute in H |- *; tauto|].
  destruct (c =? ch "<"); [intros H; right; vm_compute in H |- *; tauto|].
  destruct (c =? ch ">"); [intros H; right; vm_compute in H |- *; tauto|].
  intros [<-|[]]. now left.
Qed.

Lemma escapeHtml_incl s x : In x (escapeHtml s) -> In x s \/ In x (str "&amp;lt;gt").
Proof.
  rewrite escapeHtml_entity. intros H. apply in_flat_map in H as (c & Hc & H).
  apply entity_incl in H as [->|H]; [now left|now right].
Qed.

Lemma cr_takes : Takes (N.eqb 13) R_newline 1.
Proof. unfold R_newline. open_regex. apply Takes_seq_l, Takes_chr. auto. Qed.

Lemma normalizeNewlines_without_cr s : ~ In 13 s -> normalizeNewlines s = s.
Proof.
  intros H. apply (replaceAll_short (N.eqb 13) R_newline 1 s cr_takes).
  rewrite countP_none; [lia|]. intros c Hc. apply N.eqb_neq. intros E. subst c. now apply H.
Qed.

(** X12.  The text between two fences of three
    backquotes is emitted in a [pre] and [code] element, escaped by
    [escapeHtml] and otherwise as typed, line feeds included: no inline
    rule and no block rule reads it.  (A line of the text that is a
    definition is taken by [extractDefinitions], a backquote may close
    the block, and the placeholder of the table of contents is replaced
    wherever it stands: the text holds no [[], no backquote, no carriage
    return and no section sign.) *)
Theorem fenced_code_is_escaped (code : jsstring) :
  ~ In (ch "[") code -> ~ In (ch "`") code -> ~ In 13 code -> ~ In sectionSign code ->
  renderMarkdown (fence3 ++ nl ++ code ++ nl ++ fence3)
  = Ok (preOpen ++ quo "<code class=''>" ++ escapeHtml code ++ str "</code></pre>").
Proof.
  intros Hbr Hbq Hcr Hss.
  set (doc := fence3 ++ nl ++ code ++ nl ++ fence3).
  assert (In_doc : forall c, In c doc -> In c code \/ In c (fence3 ++ nl)).
  { intros c H. unfold doc in H. rewrite !in_app_iff in *. tauto. }
  assert (N : normalizeNewlines doc = doc).
  { apply normalizeNewlines_without_cr. intros H. apply In_doc in H as [H|H]; [auto|].
    vm_compute in H. intuition discriminate. }
  assert (L : split doc nl = fence3 :: split code nl ++ [fence3]).
  { unfold doc. now rewrite !split_nl_app. }
  assert (D : extractDefinitions doc
              = {| cleaned := doc; linkDefs := empty; footnoteDefs := empty;
                   abbrDefs := empty |}).
  { rewrite no_bracket_no_definition; [now rewrite N|].
    intros H. apply In_doc in H as [H|H]; [auto|]. vm_compute in H. intuition discriminate. }
  unfold renderMarkdown, renderMarkdownWith, fuelFor. rewrite D, N.
  unfold renderBody. cbn [cleaned].
  replace (2 * List.length doc + 4)%nat with (S (2 * List.length doc + 3)) by lia.
  set (defs := {| cleaned := doc; linkDefs := empty; footnoteDefs := empty;
                  abbrDefs := empty |}).
  assert (P : parseBlocks defs (S (2 * List.length doc + 3)) doc
              = ret (preOpen ++ quo "<code class=''>" ++ escapeHtml code
                     ++ str "</code></pre>")).
  { cbn [parseBlocks]. rewrite N, L. cbn [blocksLoop].
    change (blank fence3) with false. cbv iota.
    destruct (rmatch1 R_fence fence3) as [m|] eqn:F; [|vm_compute in F; discriminate F].
    assert (G2 : grp 2 m = fence3) by (vm_compute in F; now injection F as <-).
    assert (G3 : grp 3 m = []) by (vm_compute in F; now injection F as <-).
    rewrite G2, G3.
    rewrite (takeWhile_until _ (split code nl) fence3 []).
    - rewrite length_app. cbn [List.length].
      replace (Nat.ltb (List.length (split code nl)) (List.length (split code nl) + 1))
        with true by (symmetry; apply Nat.ltb_lt; lia).
      rewrite blocksLoop_skip by (rewrite length_app; cbn [List.length]; lia).
      rewrite bind_ret, join_split_nl. reflexivity.
    - intros l Hl. apply negb_true_iff.
      apply (startsWith_head_absent (ch "`") (str "``")). intros H.
      apply trim_incl in H. now apply Hbq, (split_incl _ _ _ _ Hl).
    - reflexivity. }
  rewrite P, bind_ret.
  assert (Toc : includes (preOpen ++ quo "<code class=''>" ++ escapeHtml code
                          ++ str "</code></pre>") TOC_PLACEHOLDER = false).
  { apply (includes_head_absent sectionSign). intros H.
    rewrite !in_app_iff in H. destruct H as [H|[H|[H|H]]];
      try (vm_compute in H; intuition discriminate).
    apply escapeHtml_incl in H as [H|H]; [auto|vm_compute in H; intuition discriminate]. }
  unfold resolveToc. rewrite Toc, bind_ret. reflexivity.
Qed.

Lemma fenced_code_is_escaped_witness :
  renderMarkdown (fence3 ++ nl ++ str "if (a < b && c) **x**;" ++ nl ++ str "y" ++ nl ++ fence3)
  = Ok (preOpen ++ quo "<code class=''>" ++ str "if (a &lt; b &amp;&amp; c) **x**;" ++ nl
        ++ str "y</code></pre>").
Proof.
  rewrite (app_assoc (str "if (a < b && c) **x**;") nl), (app_assoc _ (str "y")).
  rewrite (fenced_code_is_escaped ((str "if (a < b && c) **x**;" ++ nl) ++ str "y")).
  - reflexivity.
  - vm_compute. intuition discriminate.
  - vm_compute. intuition discriminate.
  - vm_compute. intuition discriminate.
  - vm_compute. intuition discriminate.
Defined.

(** ** A greedy quantifier takes the whole run *)

Lemma clearcaps_nil c : clearcaps [] c = c.
Proof.
  unfold clearcaps. cbn [existsb negb].
  induction c as [|e t IH]; [reflexivity|]. cbn [filter]. now rewrite IH.
Qed.

Lemma last_cons_default {A : Type} (l : list A) :
  forall a d : A, last (a :: l) d = last l a.
Proof.
  induction l as [|b t IH]; intros a d; [reflexivity|].
  transitivity (last (b :: t) d); [reflexivity|]. now rewrite !IH.
Qed.

Lemma repLoop_span q (k : cont) res :
  forall w r fuel mn mx prev c,
    forallb q w = true -> stopsAt q r \/ mx = Some (List.length w) ->
    (mn <= List.length w)%nat -> allows mx (List.length w) ->
    (List.length w <= fuel)%nat ->
    k (last (map Some w) prev) r c = Some res ->
    repLoop (rmatch (Chr q)) [] fuel mn mx true prev (w ++ r) c k = Some res.
Proof.
  induction w as [|x w IH]; intros r fuel mn mx prev c Hw Hr Hmn Hmx Hf Hk.
  - cbn [List.length] in Hmn. assert (mn = O) by lia. subst mn.
    cbn [app map last] in *.
    destruct fuel as [|fuel]; cbn [repLoop].
    + destruct mx as [[|m]|]; exact Hk.
    + destruct mx as [[|m]|]; [exact Hk| |];
        (destruct Hr as [Hr|Hr]; [|discriminate Hr];
         change (Nat.ltb 0 0) with false; cbv iota; unfold orElse;
         cbn [rmatch]; destruct r as [|y r']; [exact Hk|];
         cbn [stopsAt] in Hr; rewrite Hr; exact Hk).
  - cbn [forallb] in Hw. apply andb_prop in Hw as [Hx Hw].
    cbn [List.length] in Hr, Hmn, Hmx, Hf.
    destruct fuel as [|fuel]; [lia|].
    assert (Step : forall mx',
              allows mx' (List.length w) ->
              stopsAt q r \/ mx' = Some (List.length w) ->
              rmatch (Chr q) prev (x :: w ++ r) (clearcaps [] c)
                (fun p' s' c' =>
                   if Nat.eqb mn 0
                      && Nat.eqb (List.length s') (List.length (x :: w ++ r))
                   then None
                   else repLoop (rmatch (Chr q)) [] fuel (pred mn) mx' true p' s' c' k)
              = Some res).
    { intros mx' Hmx' Hr'. cbn [rmatch]. rewrite Hx, clearcaps_nil.
      cbn [List.length]. rewrite length_neq_S, andb_false_r.
      apply IH; auto; try lia. now rewrite <- (last_cons_default (map Some w) (Some x) prev). }
    cbn [app repLoop]. destruct mx as [[|m]|].
    + cbn [allows] in Hmx. lia.
    + assert (A : allows (option_map pred (Some (S m))) (List.length w))
        by (cbn [allows option_map pred] in *; lia).
      assert (B : stopsAt q r \/ option_map pred (Some (S m)) = Some (List.length w)).
      { destruct Hr as [Hr|Hr]; [now left|right]. injection Hr as ->. reflexivity. }
      destruct (Nat.ltb 0 mn); [now apply Step|].
      unfold orElse. now rewrite (Step _ A B).
    + assert (B : stopsAt q r \/ option_map pred None = Some (List.length w)).
      { destruct Hr as [Hr|Hr]; [now left|discriminate Hr]. }
      destruct (Nat.ltb 0 mn); [now apply (Step (option_map pred None))|].
      unfold orElse. now rewrite (Step (option_map pred None) I B).
Qed.

(** A greedy quantifier on a class, where the continuation succeeds
    after the whole run of the class. *)
Lemma rmatch_span q mn mx w r prev s c (k : cont) res :
  s = w ++ r ->
  forallb q w = true -> stopsAt q r ->
  (mn <= List.length w)%nat -> allows mx (List.length w) ->
  k (last (map Some w) prev) r c = Some res ->
  rmatch (Rep mn mx true (Chr q)) prev s c k = Some res.
Proof.
  intros -> Hw Hr Hmn Hmx Hk. cbn [rmatch groupsOf].
  apply repLoop_span; auto. rewrite length_app. lia.
Qed.

(** A greedy quantifier on a class, where the continuation succeeds
    after as many code units of the class as the quantifier allows. *)
Lemma rmatch_full q mn w r prev s c (k : cont) res :
  s = w ++ r ->
  forallb q w = true -> (mn <= List.length w)%nat ->
  k (last (map Some w) prev) r c = Some res ->
  rmatch (Rep mn (Some (List.length w)) true (Chr q)) prev s c k = Some res.
Proof.
  intros -> Hw Hmn Hk. cbn [rmatch groupsOf].
  apply repLoop_span; auto; [cbn [allows]; lia|]. rewrite length_app. lia.
Qed.

Lemma rmatch_chr q prev x t c (k : cont) :
  q x = true -> rmatch (Chr q) prev (x :: t) c k = k (Some x) t c.
Proof. intros H. cbn [rmatch]. now rewrite H. Qed.

Lemma searchFrom_here r prev s pre f :
  execAt r prev s = Some f -> searchFrom r prev s pre = Some (rev pre, f).
Proof. intros H. destruct s; cbn [searchFrom]; now rewrite H. Qed.

(** A match at index 0 is the leftmost match. *)
Lemma rmatch1_here r s f : execAt r None s = Some f -> rmatch1 r s = Some f.
Proof.
  intros H. unfold rmatch1, search. now rewrite (searchFrom_here _ _ _ _ _ H).
Qed.

Lemma test_here r s f : execAt r None s = Some f -> test r s = true.
Proof.
  intros H. unfold test, search. now rewrite (searchFrom_here _ _ _ _ _ H).
Qed.

Lemma execAt_result r prev s s' c' :
  rmatch r prev s [] (fun _ s1 c1 => Some (s1, c1)) = Some (s', c') ->
  execAt r prev s
  = Some {| m0 := firstn (List.length s - List.length s') s; mcaps := c'; mrest := s' |}.
Proof. intros H. unfold execAt. now rewrite H. Qed.

(** The equations of [rmatch], as steps towards an outcome. *)
Lemma m_seq a b prev s c (k : cont) o :
  rmatch a prev s c (fun p' s' c' => rmatch b p' s' c' k) = o ->
  rmatch (Seq a b) prev s c k = o.
Proof. exact (fun H => H). Qed.

Lemma m_grp i a prev s c (k : cont) o :
  rmatch a prev s c (fun p' s' c' =>
    k p' s' (setcap i (firstn (List.length s - List.length s') s) c')) = o ->
  rmatch (Grp i a) prev s c k = o.
Proof. exact (fun H => H). Qed.

Lemma m_bol s c (k : cont) o : k None s c = o -> rmatch Bol None s c k = o.
Proof. exact (fun H => H). Qed.

Lemma m_eol prev c (k : cont) o : k prev [] c = o -> rmatch Eol prev [] c k = o.
Proof. exact (fun H => H). Qed.

Lemma m_eps prev s c (k : cont) o : k prev s c = o -> rmatch Eps prev s c k = o.
Proof. exact (fun H => H). Qed.

Lemma m_chr q prev x t c (k : cont) o :
  q x = true -> k (Some x) t c = o -> rmatch (Chr q) prev (x :: t) c k = o.
Proof. intros H K. cbn [rmatch]. now rewrite H. Qed.

Lemma m_alt_l a b prev s c (k : cont) res :
  rmatch a prev s c k = Some res -> rmatch (Alt a b) prev s c k = Some res.
Proof. intros H. cbn [rmatch]. unfold orElse. now rewrite H. Qed.

Lemma m_alt_r a b prev s c (k : cont) o :
  rmatch a prev s c k = None -> rmatch b prev s c k = o ->
  rmatch (Alt a b) prev s c k = o.
Proof. intros A H. cbn [rmatch]. unfold orElse. now rewrite A. Qed.

(** A quantifier on a class takes nothing where the class does not begin. *)
Lemma m_rep_stop q mx g prev x t c (k : cont) :
  q x = false ->
  rmatch (Rep 0 mx g (Chr q)) prev (x :: t) c k = k prev (x :: t) c.
Proof.
  intros Q. cbn [rmatch List.length Nat.add repLoop].
  destruct mx as [[|m]|]; [reflexivity| |];
    (change (Nat.ltb 0 0) with false; cbv iota; cbn [rmatch]; rewrite Q;
     unfold orElse; destruct g; [reflexivity|now destruct (k prev (x :: t) c)]).
Qed.

(** A greedy quantifier on a class finds nothing where what follows it
    finds nothing after any part of the run. *)
Lemma repLoop_none q (k : cont) c :
  forall fuel s mn mx prev,
    (forall p w r, s = w ++ r -> forallb q w = true -> k p r c = None) ->
    repLoop (rmatch (Chr q)) [] fuel mn mx true prev s c k = None.
Proof.
  induction fuel as [|fuel IH]; intros s mn mx prev H.
  - cbn [repLoop]. destruct mx as [[|m]|]; try destruct (Nat.eqb mn 0);
      try reflexivity; exact (H prev [] s eq_refl eq_refl).
  - assert (K : k prev s c = None) by exact (H prev [] s eq_refl eq_refl).
    assert (I : forall mx',
              rmatch (Chr q) prev s (clearcaps [] c)
                (fun p' s' c' =>
                   if Nat.eqb mn 0 && Nat.eqb (List.length s') (List.length s)
                   then None
                   else repLoop (rmatch (Chr q)) [] fuel (pred mn) mx' true p' s' c' k)
              = None).
    { intros mx'. cbn [rmatch]. destruct s as [|x t]; [reflexivity|].
      destruct (q x) eqn:Q; [|reflexivity]. rewrite clearcaps_nil.
      destruct (_ && _); [reflexivity|]. apply IH. intros p w r E W.
      apply (H p (x :: w) r); [now rewrite E|]. cbn [forallb]. now rewrite Q. }
    cbn [repLoop]. destruct mx as [[|m]|]; [exact K| |];
      (destruct (Nat.ltb 0 mn); [apply I|]; unfold orElse; now rewrite I).
Qed.

Lemma rmatch_rep_none q mn mx prev s c (k : cont) :
  (forall p w r, s = w ++ r -> forallb q w = true -> k p r c = None) ->
  rmatch (Rep mn mx true (Chr q)) prev s c k = None.
Proof. intros H. cbn [rmatch groupsOf]. now apply repLoop_none. Qed.

Ltac mstep :=
  first [apply m_seq | apply m_grp | apply m_bol | apply m_eol | apply m_eps]; cbv beta.

Lemma firstn_sub_app {A : Type} (w r : list A) :
  firstn (List.length (w ++ r) - List.length r) (w ++ r) = w.
Proof.
  rewrite length_app, Nat.add_sub, firstn_app, Nat.sub_diag, firstn_all.
  cbn [firstn]. apply app_nil_r.
Qed.

(** ** Headings *)

Lemma plain_dot c : plainCh c = true -> negb (isLineTerm c) = true.
Proof.
  intros H. destruct (isLineTerm c) eqn:E; [|reflexivity]. exfalso.
  unfold isLineTerm in E.
  repeat (apply orb_prop in E; destruct E as [E|E]);
    apply N.eqb_eq in E; subst c; discriminate H.
Qed.

Lemma plain_dots text :
  forallb plainCh text = true -> forallb (fun c => negb (isLineTerm c)) text = true.
Proof.
  intros Hp. apply forallb_forall. intros c Hc.
  rewrite forallb_forall in Hp. apply plain_dot, Hp, Hc.
Qed.

Lemma forallb_repeat (q : N -> bool) x n : q x = true -> forallb q (repeat x n) = true.
Proof. intros H. induction n as [|n IH]; [reflexivity|]. cbn [repeat forallb]. now rewrite H. Qed.

Lemma trim_fixed_stops text : trim text = text -> stopsAt isWs text.
Proof. destruct text as [|x t]; [exact (fun _ => I)|]. apply trim_fixed_head. Qed.

Lemma heading_match lvl text :
  (1 <= lvl <= 6)%nat -> forallb plainCh text = true -> stopsAt isWs text ->
  exists m,
    rmatch1 R_heading (hashes lvl ++ 32 :: text) = Some m
    /\ grp 2 m = hashes lvl /\ grp 3 m = text.
Proof.
  intros Hl Hp Hs. pose proof (plain_dots _ Hp) as Dot.
  set (line := hashes lvl ++ 32 :: text).
  set (c2 := setcap 2 (hashes lvl) (setcap 1 [] [])).
  assert (R : rmatch R_heading None line [] (fun _ s1 c1 => Some (s1, c1))
              = Some ([], setcap 3 text c2)).
  { unfold R_heading, R_headingStart. open_regex. do 4 mstep.
    (* \s{0,3} takes nothing *)
    apply (rmatch_span isWs 0 (Some 3%nat) [] line); cbn [List.length allows app];
      try reflexivity; try lia.
    { unfold line. destruct lvl; [lia|]. reflexivity. }
    cbn [map last]. rewrite Nat.sub_diag. cbn [firstn]. do 2 mstep.
    (* #{1,6} takes the number signs *)
    apply (rmatch_span _ 1 (Some 6%nat) (hashes lvl) (32 :: text));
      try reflexivity.
    { apply forallb_repeat. reflexivity. }
    { unfold hashes. rewrite repeat_length. lia. }
    { unfold hashes. cbn [allows]. rewrite repeat_length. lia. }
    unfold line at 1 2. rewrite firstn_sub_app. fold c2.
    (* \s+ takes the space *)
    apply (rmatch_span isWs 1 None [32] text); try reflexivity; try exact Hs;
      cbn [List.length allows]; try lia; auto.
    do 2 mstep.
    (* (.* ) takes the text *)
    apply (rmatch_span _ 0 None text []); cbn [allows stopsAt]; auto; try lia.
    { now rewrite app_nil_r. }
    mstep. cbn [List.length]. rewrite Nat.sub_0_r, firstn_all. reflexivity. }
  eexists. split; [apply rmatch1_here, (execAt_result _ _ _ _ _ R)|].
  unfold grp. cbn [mcaps]. split; reflexivity.
Qed.

(** ** What a replacement keeps *)

(** The run of a class at the head of a text. *)
Lemma run_of q (s : jsstring) :
  exists w r, s = w ++ r /\ forallb q w = true /\ stopsAt q r.
Proof.
  induction s as [|x t (w & r & E & W & R)].
  - exists [], []. repeat split.
  - destruct (q x) eqn:Q.
    + exists (x :: w), r. subst t. repeat split; [|exact R]. cbn [forallb]. now rewrite Q.
    + exists [], (x :: t). repeat split. exact Q.
Qed.

(** Where a code unit of the class stands, a run of the class matches. *)
Lemma execAt_plus q prev x t :
  q x = true ->
  exists f w, execAt (plus (Chr q)) prev (x :: t) = Some f /\ m0 f = x :: w.
Proof.
  intros Q. destruct (run_of q t) as (w & r & E & W & R).
  assert (M : rmatch (plus (Chr q)) prev (x :: t) [] (fun _ s1 c1 => Some (s1, c1))
              = Some (r, [])).
  { unfold plus. apply (rmatch_span q 1 None (x :: w) r); cbn [allows List.length]; auto.
    - now rewrite E.
    - cbn [forallb]. now rewrite Q.
    - lia. }
  rewrite (execAt_result _ _ _ _ _ M). eexists _, w. split; [reflexivity|].
  cbn [m0]. subst t. change (x :: w ++ r) with ((x :: w) ++ r). apply firstn_sub_app.
Qed.

(** No code unit of the class is left where its runs are replaced. *)
Lemma segmentsGo_plus q c :
  forall s prev skip, In (Lit c) (segmentsGo (plus (Chr q)) prev s skip) -> q c = false.
Proof.
  induction s as [|x t IH]; intros prev skip H; cbn [segmentsGo] in H.
  - destruct skip; [|destruct H]. destruct (execAt _ prev []); [|destruct H].
    destruct H as [H|[]]. discriminate H.
  - destruct skip as [|n]; [|exact (IH _ _ H)].
    destruct (q x) eqn:Q.
    + destruct (execAt_plus q prev x t Q) as (f & w & E & W). rewrite E, W in H.
      destruct H as [H|H]; [discriminate H|]. exact (IH _ _ H).
    + destruct (execAt _ prev (x :: t)) as [f|].
      * destruct (m0 f) as [|y w].
        -- destruct H as [H|[H|H]]; [discriminate H|injection H as <-; exact Q|].
           exact (IH _ _ H).
        -- destruct H as [H|H]; [discriminate H|]. exact (IH _ _ H).
      * destruct H as [H|H]; [injection H as <-; exact Q|]. exact (IH _ _ H).
Qed.

Lemma replaceAll_plus q cb s c :
  In c (replaceAll (plus (Chr q)) cb s) ->
  (In c s /\ q c = false) \/ exists f, In c (cb f).
Proof.
  unfold replaceAll. intros H. apply in_flat_map in H as (g & Hg & H).
  destruct g as [d|f].
  - destruct H as [<-|[]]. left. split.
    + exact (segmentsGo_Lit_In _ _ _ _ _ Hg).
    + exact (segmentsGo_plus _ _ _ _ _ Hg).
  - right. now exists f.
Qed.

(** ** slugify *)

Lemma slugify_slugCh s c : In c (slugify s) -> slugCh c = true.
Proof.
  unfold slugify, R_hyphens, R_spaces, R_slugDrop, re, ws. intros H.
  assert (Hy : slugCh (ch "-") = true) by reflexivity.
  apply replaceAll_In in H as [H|[_ [<-|[]]]]; [|exact Hy].
  apply replaceAll_plus in H as [[H W]|[_ [<-|[]]]]; [|exact Hy].
  rewrite (replaceAll_Chr slugDrop (fun _ => [])) in H.
  apply in_flat_map in H as (d & _ & H).
  destruct (slugDrop d) eqn:D; [destruct H|]. destruct H as [<-|[]].
  unfold slugDrop in D. apply negb_false_iff in D. unfold slugCh.
  rewrite W, orb_false_r in D. exact D.
Qed.

(** X6.  An anchor holds small letters, digits and
    hyphens only, whatever the heading: no white space, no capital and
    no other sign is left in it. *)
Theorem slugify_alphabet (s : jsstring) : forallb slugCh (slugify s) = true.
Proof. apply forallb_forall. intros c. apply slugify_slugCh. Qed.

(** ** A heading of plain text *)

Lemma fence_takes : Takes isFenceCh R_fence 1.
Proof. unfold R_fence. open_regex. takes_one. Qed.

Lemma takes_trailingHashes : Takes notPlain R_trailingHashes 1.
Proof. takes_plain R_trailingHashes. Qed.

Lemma plain_In text c : forallb plainCh text = true -> In c text -> plainCh c = true.
Proof. intros H. now apply forallb_forall. Qed.

Lemma not_blank c l : In c l -> isWs c = false -> blank l = false.
Proof.
  intros H W. pose proof (trim_keeps c l H W) as T.
  unfold blank. destruct (trim l); [destruct T|reflexivity].
Qed.

Lemma headingClass_plain lvl c : In c (headingClass lvl) -> c <> ch "_".
Proof.
  intros H ->. do 6 (destruct lvl as [|lvl]; [vm_compute in H; intuition discriminate|]).
  vm_compute in H; intuition discriminate.
Qed.

Lemma numToString_plain n c : In c (numToString n) -> c <> ch "_".
Proof.
  intros H ->. pose proof (numToString_digits n _ H) as D. vm_compute in D. discriminate D.
Qed.

(** X11.  A line of one to six number signs, a space
    and a text of Basic Latin without markup is a heading of that level:
    the element [h1] to [h6] with the class of the level, the text as
    typed, and the anchor [slugify] makes of the text. *)
Theorem heading_of_plain_text (lvl : nat) (title : jsstring) :
  (1 <= lvl <= 6)%nat ->
  basicLatin title = true ->
  forallb plainCh title = true ->
  trim title = title ->
  (countP isHex title < 7)%nat ->
  renderMarkdown (hashes lvl ++ 32 :: title)
  = Ok (headingElement lvl (slugify title) title).
Proof.
  intros Hl _ plain trimmed fewHex.
  assert (short : (countP notPlain title < 1)%nat)
    by (rewrite (plain_countP _ plain); lia).
  set (line := hashes lvl ++ 32 :: title).
  assert (In_line : forall c, In c line -> c = ch "#" \/ c = 32 \/ In c title).
  { intros c H. unfold line in H. apply in_app_or in H as [H|[H|H]]; auto.
    apply repeat_spec in H. auto. }
  assert (Not : forall c, plainCh c = false -> c <> ch "#" -> c <> 32 -> ~ In c line).
  { intros c P A B H. apply In_line in H as [H|[H|H]]; auto.
    rewrite (plain_In _ _ plain H) in P. discriminate P. }
  assert (Sharp : In (ch "#") line).
  { unfold line, hashes. destruct lvl; [lia|]. now left. }
  assert (N : normalizeNewlines line = line).
  { apply normalizeNewlines_without_cr, Not; [reflexivity|discriminate..]. }
  assert (L : split line nl = [line]).
  { unfold split, nl. rewrite splitGo_head_absent; [reflexivity|].
    apply Not; [reflexivity|discriminate..]. }
  assert (D : extractDefinitions line
              = {| cleaned := line; linkDefs := empty; footnoteDefs := empty;
                   abbrDefs := empty |}).
  { rewrite no_bracket_no_definition; [now rewrite N|].
    apply Not; [reflexivity|discriminate..]. }
  unfold renderMarkdown, renderMarkdownWith, fuelFor. rewrite D, N.
  unfold renderBody. cbn [cleaned].
  replace (2 * List.length line + 4)%nat with (S (S (2 * List.length line + 2))) by lia.
  set (fuel := (2 * List.length line + 2)%nat).
  set (defs := {| cleaned := line; linkDefs := empty; footnoteDefs := empty;
                  abbrDefs := empty |}).
  assert (P : forall st, parseBlocks defs (S (S fuel)) line st
              = Ok (headingElement lvl (slugify title) title,
                    {| placeholderMap := placeholderMap st;
                       placeholderId := placeholderId st;
                       headings := headings st
                         ++ [{| level := lvl; text := title; id := slugify title |}] |})).
  { intros st. cbn [parseBlocks]. rewrite N, L. cbn [blocksLoop].
    rewrite (not_blank (ch "#") line Sharp eq_refl).
    rewrite (rmatch1_short isFenceCh _ 1 line fence_takes).
    2:{ rewrite countP_none; [lia|]. intros c Hc.
        destruct (isFenceCh c) eqn:F; [|reflexivity]. exfalso.
        unfold isFenceCh, oneOf in F. cbn [str list_ascii_of_string map existsb] in F.
        repeat (apply orb_prop in F; destruct F as [F|F]); try discriminate F;
          apply N.eqb_eq in F; subst c; revert Hc;
          (apply Not; [reflexivity|intros E; vm_compute in E; discriminate E..]). }
    assert (I : test R_indented line = false).
    { unfold line, hashes. destruct lvl; [lia|]. now apply test_indented_head. }
    rewrite I.
    destruct (heading_match lvl title Hl plain (trim_fixed_stops _ trimmed))
      as (m & M & G2 & G3).
    fold line in M. rewrite M. unfold headingBlock. rewrite G2, G3, trimmed.
    assert (Len : List.length (hashes lvl) = lvl) by apply repeat_length.
    rewrite !Len.
    rewrite (replaceFirst_short notPlain _ 1 title takes_trailingHashes short).
    unfold bind at 1. unfold bind at 1.
    rewrite (renderInline_plain defs fuel title plain fewHex eq_refl).
    reflexivity. }
  unfold bind at 1. rewrite P.
  assert (Toc : includes (headingElement lvl (slugify title) title) TOC_PLACEHOLDER = false).
  { destruct (includes _ TOC_PLACEHOLDER) eqn:I; [|reflexivity]. exfalso.
    assert (U : In (ch "_") (headingElement lvl (slugify title) title)).
    { apply (includes_incl _ _ I). vm_compute. tauto. }
    unfold headingElement in U. rewrite !in_app_iff in U.
    destruct U as [U|[U|[U|[U|[U|[U|[U|[U|[U|[U|U]]]]]]]]]];
      try (vm_compute in U; intuition discriminate).
    - now apply numToString_plain in U.
    - apply slugify_slugCh in U. discriminate U.
    - now apply headingClass_plain in U.
    - apply (plain_In _ _ plain) in U. discriminate U.
    - now apply numToString_plain in U. }
  unfold resolveToc. rewrite Toc. reflexivity.
Qed.

Lemma heading_of_plain_text_witness :
  renderMarkdown (str "## Tom & Li")
  = Ok (quo "<h2 id='tom-li' class='" ++ headingClass 2 ++ quo "'>Tom & Li</h2>").
Proof.
  apply (heading_of_plain_text 2 (str "Tom & Li")).
  - lia.
  - reflexivity.
  - reflexivity.
  - reflexivity.
  - vm_compute. lia.
Defined.

(** ** What a rule refuses at its first code unit *)

Lemma refuses_idle r x : refuses r x -> idle r x.
Proof. intros H prev t c k _. apply H. Qed.

Lemma refuses_chr q x : q x = false -> refuses (Chr q) x.
Proof. intros H prev t c k. cbn [rmatch]. now rewrite H. Qed.

Lemma refuses_seq_l a b x : refuses a x -> refuses (Seq a b) x.
Proof. intros H prev t c k. cbn [rmatch]. apply H. Qed.

Lemma refuses_seq_r a b x : idle a x -> refuses b x -> refuses (Seq a b) x.
Proof. intros A B prev t c k. cbn [rmatch]. apply A. intros p c'. apply B. Qed.

Lemma refuses_alt a b x : refuses a x -> refuses b x -> refuses (Alt a b) x.
Proof. intros A B prev t c k. cbn [rmatch]. unfold orElse. now rewrite A, B. Qed.

Lemma refuses_grp i a x : refuses a x -> refuses (Grp i a) x.
Proof. intros A prev t c k. cbn [rmatch]. apply A. Qed.

Lemma refuses_rep mn mx g a x :
  refuses a x -> (1 <= mn)%nat -> mx <> Some O -> refuses (Rep mn mx g a) x.
Proof.
  intros A L X prev t c k. cbn [rmatch]. destruct mn as [|mn]; [lia|].
  cbn [Nat.add repLoop]. destruct mx as [[|m]|]; [now contradiction X| |];
    change (Nat.ltb 0 (S mn)) with true; cbv iota; apply A.
Qed.

Lemma idle_seq a b x : idle a x -> idle b x -> idle (Seq a b) x.
Proof.
  intros A B prev t c k K. cbn [rmatch]. apply A. intros p c'. now apply B.
Qed.

Lemma idle_grp i a x : idle a x -> idle (Grp i a) x.
Proof. intros A prev t c k K. cbn [rmatch]. apply A. intros p c'. apply K. Qed.

Lemma idle_bol x : idle Bol x.
Proof. intros prev t c k K. cbn [rmatch]. destruct prev; [reflexivity|apply K]. Qed.

Lemma idle_rep mn mx g a x : refuses a x -> idle (Rep mn mx g a) x.
Proof.
  intros A prev t c k K. cbn [rmatch List.length].
  rewrite Nat.add_succ_r. cbn [repLoop].
  destruct mx as [[|m]|]; [apply K| |];
    (destruct (Nat.ltb 0 mn); [apply A|];
     destruct g; unfold orElse; now rewrite A, K).
Qed.

Ltac class_off := vm_compute; reflexivity.

(** [r] refuses [x]: the rules of the blocks are anchored, and begin with
    white space and a mark. *)
Ltac refuse :=
  first
    [ apply refuses_chr; solve [class_off]
    | apply refuses_grp; refuse
    | apply refuses_alt; [refuse|refuse]
    | apply refuses_rep; [refuse|lia|discriminate]
    | apply refuses_seq_l; refuse
    | apply refuses_seq_r; [stay|refuse] ]
with stay :=
  first
    [ apply idle_bol
    | apply idle_grp; stay
    | apply idle_rep; refuse
    | apply idle_seq; [stay|stay]
    | apply refuses_idle; refuse ].

Lemma anchored_bol r : anchored (Seq Bol r).
Proof. intros x s c k. reflexivity. Qed.

Lemma anchored_seq a b : anchored a -> anchored (Seq a b).
Proof. intros A x s c k. cbn [rmatch]. apply A. Qed.

Lemma searchFrom_anchor r :
  anchored r -> forall s x pre, searchFrom r (Some x) s pre = None.
Proof.
  intros A. induction s as [|y t IH]; intros x pre; cbn [searchFrom]; unfold execAt;
    rewrite A; [reflexivity|apply IH].
Qed.

Lemma refused_search r x t : anchored r -> refuses r x -> search r (x :: t) = None.
Proof.
  intros A H. unfold search. cbn [searchFrom]. unfold execAt. rewrite H.
  now apply searchFrom_anchor.
Qed.

Lemma refused_rmatch1 r x t : anchored r -> refuses r x -> rmatch1 r (x :: t) = None.
Proof. intros A H. unfold rmatch1. now rewrite refused_search. Qed.

Lemma refused_test r x t : anchored r -> refuses r x -> test r (x :: t) = false.
Proof. intros A H. unfold test. now rewrite refused_search. Qed.

Ltac anchor := repeat first [apply anchored_bol | apply anchored_seq].

(** ** Quotes *)

Lemma quote_not_fence : refuses R_fence (ch ">").
Proof. unfold R_fence. open_regex. refuse. Qed.

Lemma quote_not_heading : refuses R_heading (ch ">").
Proof. unfold R_heading. open_regex. cbv [R_headingStart]. open_regex. refuse. Qed.

Lemma quote_not_hr : refuses R_hr (ch ">").
Proof. unfold R_hr. open_regex. refuse. Qed.

Lemma fence_anchored : anchored R_fence.
Proof. unfold R_fence. open_regex. anchor. Qed.

Lemma heading_anchored : anchored R_heading.
Proof. unfold R_heading. open_regex. cbv [R_headingStart]. open_regex. anchor. Qed.

Lemma hr_anchored : anchored R_hr.
Proof. unfold R_hr. open_regex. anchor. Qed.

Lemma m_opt q prev x t c (k : cont) res :
  q x = true -> k (Some x) t c = Some res ->
  rmatch (Rep 0 (Some 1%nat) true (Chr q)) prev (x :: t) c k = Some res.
Proof.
  intros Q K. cbn [rmatch List.length Nat.add repLoop].
  change (Nat.ltb 0 0) with false. cbv iota. cbn [rmatch]. rewrite Q, clearcaps_nil.
  cbn [List.length]. rewrite length_neq_S, andb_false_r. cbn [option_map pred repLoop].
  destruct (List.length t); cbn [repLoop]; unfold orElse; now rewrite K.
Qed.

Lemma quoteLine_is_quote l : test R_quote (quoteLine l) = true.
Proof.
  assert (M : rmatch R_quote None (quoteLine l) [] (fun _ s1 c1 => Some (s1, c1))
              = Some (32 :: l, [])).
  { unfold R_quote. open_regex. do 2 mstep.
    apply (rmatch_span isWs 0 None [] (quoteLine l)); cbn [allows List.length];
      auto; reflexivity. }
  exact (test_here _ _ _ (execAt_result _ _ _ _ _ M)).
Qed.

Lemma quoteLine_stripped l : replaceFirst R_quoteStrip [] (quoteLine l) = l.
Proof.
  assert (M : rmatch R_quoteStrip None (quoteLine l) [] (fun _ s1 c1 => Some (s1, c1))
              = Some (l, [])).
  { unfold R_quoteStrip. open_regex. do 2 mstep.
    apply (rmatch_span isWs 0 None [] (quoteLine l)); cbn [allows List.length];
      auto; try reflexivity.
    cbn [map last]. mstep. apply m_chr; [reflexivity|].
    apply m_opt; reflexivity. }
  unfold replaceFirst, search.
  rewrite (searchFrom_here _ _ _ _ _ (execAt_result _ _ _ _ _ M)). reflexivity.
Qed.

Lemma split_join_nl ls :
  ls <> [] -> (forall l, In l ls -> ~ In 10 l) -> split (join nl ls) nl = ls.
Proof.
  induction ls as [|x t IH]; intros N H; [contradiction|].
  assert (X : split x nl = [x]).
  { unfold split, nl. rewrite splitGo_head_absent; [reflexivity|]. apply H. now left. }
  destruct t as [|y t]; [exact X|].
  change (join nl (x :: y :: t)) with (x ++ nl ++ join nl (y :: t)).
  rewrite split_nl_app, X, IH; [reflexivity|discriminate|].
  intros l Hl. apply H. now right.
Qed.

Lemma In_join sep (ls : list jsstring) c :
  In c (join sep ls) -> In c sep \/ exists l, In l ls /\ In c l.
Proof.
  induction ls as [|x t IH]; [intros []|].
  destruct t as [|y t].
  - intros H. right. exists x. split; [now left|exact H].
  - change (join sep (x :: y :: t)) with (x ++ sep ++ join sep (y :: t)).
    intros H. apply in_app_or in H as [H|H].
    + right. exists x. split; [now left|exact H].
    + apply in_app_or in H as [H|H]; [now left|].
      destruct (IH H) as [S|(l & L & C)]; [now left|].
      right. exists l. split; [now right|exact C].
Qed.

Lemma takeWhile_all (q : jsstring -> bool) ls :
  (forall l, In l ls -> q l = true) -> takeWhile q ls = ls.
Proof.
  induction ls as [|x t IH]; intros H; [reflexivity|]. cbn [takeWhile].
  rewrite (H x (or_introl eq_refl)), IH; [reflexivity|]. intros l Hl. apply H. now right.
Qed.

Lemma quoted_lines ls :
  map (replaceFirst R_quoteStrip []) (takeWhile (test R_quote) (map quoteLine ls)) = ls.
Proof.
  rewrite takeWhile_all.
  - rewrite map_map. rewrite <- (map_id ls) at 2. apply map_ext, quoteLine_stripped.
  - intros l H. apply in_map_iff in H as (l' & <- & _). apply quoteLine_is_quote.
Qed.

Lemma quote_nested defs fuel ls st :
  ls <> [] -> (forall l, In l ls -> oneLine l) ->
  parseBlocks defs (S fuel) (join nl (map quoteLine ls)) st
  = (inner <- parseBlocks defs fuel (join nl ls) ;;
     ret (quoteOpen ++ inner ++ str "</blockquote>")) st.
Proof.
  intros Ne One.
  set (doc := join nl (map quoteLine ls)).
  assert (In_doc : forall c, In c doc -> c = 10 \/ c = ch ">" \/ c = 32
                                         \/ exists l, In l ls /\ In c l).
  { intros c H. apply In_join in H as [[<-|[]]|(q & Q & H)]; [now left|].
    apply in_map_iff in Q as (l & <- & L). destruct H as [<-|[<-|H]]; auto.
    do 3 right. now exists l. }
  assert (N : normalizeNewlines doc = doc).
  { apply normalizeNewlines_without_cr. intros H.
    apply In_doc in H as [H|[H|[H|(l & L & H)]]]; try discriminate H.
    exact (proj2 (One l L) H). }
  assert (L : split doc nl = map quoteLine ls).
  { apply split_join_nl.
    - destruct ls; [contradiction|discriminate].
    - intros q Q. apply in_map_iff in Q as (l & <- & L).
      intros [H|[H|H]]; try discriminate H. exact (proj1 (One l L) H). }
  cbn [parseBlocks]. rewrite N, L.
  destruct ls as [|l0 t]; [contradiction|].
  pose proof (quoted_lines (l0 :: t)) as Q.
  cbn [map] in *. cbn [blocksLoop].
  rewrite (not_blank (ch ">") (quoteLine l0) (or_introl eq_refl) eq_refl).
  assert (F : rmatch1 R_fence (quoteLine l0) = None)
    by exact (refused_rmatch1 _ _ (32 :: l0) fence_anchored quote_not_fence).
  assert (I : test R_indented (quoteLine l0) = false)
    by exact (test_indented_head (ch ">") (32 :: l0) eq_refl).
  assert (H : rmatch1 R_heading (quoteLine l0) = None)
    by exact (refused_rmatch1 _ _ (32 :: l0) heading_anchored quote_not_heading).
  assert (R : test R_hr (quoteLine l0) = false)
    by exact (refused_test _ _ (32 :: l0) hr_anchored quote_not_hr).
  rewrite F, I, H, R, (quoteLine_is_quote l0), Q.
  unfold bind. destruct (parseBlocks defs fuel (join nl (l0 :: t)) st) as [[a st']| |];
    [|reflexivity..].
  rewrite blocksLoop_skip by (cbn [List.length pred]; rewrite length_map; lia).
  reflexivity.
Qed.

(** X16.  A run of lines that begin with [> ]
    is one block quote: [parseBlocks] strips the marks, parses what is
    left as a document of its own, and puts the result in a
    [blockquote] element, whatever the lines hold. *)
Theorem quote_is_a_nested_document (defs : DefsResult) (fuel : nat)
    (ls : list jsstring) (st : rstate) :
  ls <> [] ->
  (forall l, In l ls -> oneLine l) ->
  parseBlocks defs (S fuel) (join nl (map quoteLine ls)) st
  = (inner <- parseBlocks defs fuel (join nl ls) ;;
     ret (quoteOpen ++ inner ++ str "</blockquote>")) st.
Proof. exact (quote_nested defs fuel ls st). Qed.

Lemma quote_is_a_nested_document_witness :
  parseBlocks {| cleaned := []; linkDefs := empty; footnoteDefs := empty; abbrDefs := empty |}
    4 (str "> # a" ++ nl ++ str "> > b") initial
  = (inner <- parseBlocks {| cleaned := []; linkDefs := empty; footnoteDefs := empty;
                             abbrDefs := empty |} 3 (str "# a" ++ nl ++ str "> b") ;;
     ret (quoteOpen ++ inner ++ str "</blockquote>")) initial.
Proof.
  apply (quote_is_a_nested_document _ 3 [str "# a"; str "> b"] initial).
  - discriminate.
  - intros l [<-|[<-|[]]]; split; vm_compute; intuition discriminate.
Defined.

(** X17.  A sentence without markup behind [> ] is a
    paragraph in a block quote. *)
Theorem quoted_sentence (sentence : jsstring) :
  forallb plainCh sentence = true ->
  trim sentence = sentence ->
  sentence <> [] ->
  (countP isHex sentence < 7)%nat ->
  renderMarkdown (quoteLine sentence)
  = Ok (quoteOpen ++ pOpen ++ sentence ++ str "</p>" ++ str "</blockquote>").
Proof.
  intros plain trimmed nonempty fewHex.
  set (doc := quoteLine sentence).
  assert (Not : forall c, plainCh c = false -> c <> ch ">" -> c <> 32 -> ~ In c doc).
  { intros c P A B [H|[H|H]]; [now apply A|now apply B|].
    rewrite (plain_In _ _ plain H) in P. discriminate P. }
  assert (N : normalizeNewlines doc = doc).
  { apply normalizeNewlines_without_cr, Not; [reflexivity|discriminate..]. }
  assert (D : extractDefinitions doc
              = {| cleaned := doc; linkDefs := empty; footnoteDefs := empty;
                   abbrDefs := empty |}).
  { rewrite no_bracket_no_definition; [now rewrite N|].
    apply Not; [reflexivity|intros E; vm_compute in E; discriminate E..]. }
  unfold renderMarkdown, renderMarkdownWith, fuelFor. rewrite D, N.
  unfold renderBody. cbn [cleaned].
  replace (2 * List.length doc + 4)%nat with (S (S (S (2 * List.length doc + 1)))) by lia.
  set (defs := {| cleaned := doc; linkDefs := empty; footnoteDefs := empty;
                  abbrDefs := empty |}).
  unfold bind at 1. unfold bind at 1. unfold bind at 1.
  change doc with (join nl (map quoteLine [sentence])) at 2.
  rewrite quote_nested.
  2:{ discriminate. }
  2:{ intros l [<-|[]]. split; intros H.
      - apply (plain_In _ _ plain) in H. discriminate H.
      - apply (plain_In _ _ plain) in H. discriminate H. }
  cbn [join]. unfold bind at 1.
  rewrite (parseBlocks_plain defs _ sentence plain trimmed nonempty fewHex eq_refl).
  cbn [ret].
  assert (Toc : includes (quoteOpen ++ (pOpen ++ sentence ++ str "</p>") ++ str "</blockquote>")
                  TOC_PLACEHOLDER = false).
  { destruct (includes _ TOC_PLACEHOLDER) eqn:I; [|reflexivity]. exfalso.
    assert (U : In (ch "_") (quoteOpen ++ (pOpen ++ sentence ++ str "</p>")
                             ++ str "</blockquote>")).
    { apply (includes_incl _ _ I). vm_compute. tauto. }
    rewrite !in_app_iff in U. destruct U as [U|[[U|[U|U]]|U]];
      try (vm_compute in U; intuition discriminate).
    apply (plain_In _ _ plain) in U. discriminate U. }
  unfold resolveToc. rewrite Toc. cbn [ret]. unfold appendFootnotes.
  rewrite <- !app_assoc. reflexivity.
Qed.

Lemma quoted_sentence_witness :
  renderMarkdown (quo "> Tom & Li said 'hello'.")
  = Ok (quoteOpen ++ pOpen ++ quo "Tom & Li said 'hello'." ++ str "</p>" ++ str "</blockquote>").
Proof.
  apply (quoted_sentence (quo "Tom & Li said 'hello'.")).
  - reflexivity.
  - reflexivity.
  - discriminate.
  - vm_compute. lia.
Defined.

(** ** A list of plain items *)

Lemma bullet_cases mk : isBullet mk = true -> mk = ch "*" \/ mk = ch "+" \/ mk = ch "-".
Proof.
  unfold isBullet, oneOf. cbn [str list_ascii_of_string map existsb]. intros H.
  repeat (apply orb_prop in H; destruct H as [H|H]); try discriminate H;
    apply N.eqb_eq in H; auto.
Qed.

Lemma m_grp_chr i q prev x t c (k : cont) o :
  q x = true -> k (Some x) t (setcap i [x] c) = o ->
  rmatch (Grp i (Chr q)) prev (x :: t) c k = o.
Proof.
  intros Q K. cbn [rmatch]. rewrite Q. cbn [List.length].
  replace (S (List.length t) - List.length t)%nat with 1%nat by lia. exact K.
Qed.

Lemma m_grp_stop i q mx g prev x t c (k : cont) o :
  q x = false -> k prev (x :: t) (setcap i [] c) = o ->
  rmatch (Grp i (Rep 0 mx g (Chr q))) prev (x :: t) c k = o.
Proof.
  intros Q K. apply m_grp. rewrite (m_rep_stop _ _ _ _ _ _ _ _ Q), Nat.sub_diag. exact K.
Qed.

Lemma n_chr q prev x t c (k : cont) : q x = false -> rmatch (Chr q) prev (x :: t) c k = None.
Proof. intros Q. cbn [rmatch]. now rewrite Q. Qed.

(** A quantifier that asks for a repetition finds nothing where its body
    finds nothing. *)
Lemma n_rep a mn mx g prev s c (k : cont) :
  (forall k', rmatch a prev s (clearcaps (groupsOf a) c) k' = None) ->
  (1 <= mn)%nat -> mx <> Some O ->
  rmatch (Rep mn mx g a) prev s c k = None.
Proof.
  intros A L X. cbn [rmatch]. destruct mn as [|mn]; [lia|].
  cbn [Nat.add repLoop]. destruct mx as [[|m]|]; [now contradiction X| |];
    change (Nat.ltb 0 (S mn)) with true; cbv iota; apply A.
Qed.

Lemma In_suffix {A : Type} (w r s : list A) x : s = w ++ r -> In x r -> In x s.
Proof. intros -> H. apply in_or_app. now right. Qed.

(** A line of a mark, a space and a text without the mark is no rule. *)
Lemma bullet_not_hr mk item :
  isBullet mk = true -> ~ In mk item -> test R_hr (bulletLine mk item) = false.
Proof.
  intros B H. unfold R_hr. open_regex. rewrite test_anchored. unfold execAt.
  match goal with
  | |- context [rmatch ?r ?p ?s ?c ?k] => replace (rmatch r p s c k) with (@None res)
  end; [reflexivity|symmetry].
  assert (Hr : ~ In mk (32 :: item)).
  { intros [E|E]; [|now apply H]. subst mk. discriminate B. }
  do 2 mstep. unfold bulletLine.
  apply bullet_cases in B as [ -> | [ -> | -> ] ].
  - apply m_grp_stop; [reflexivity|]. mstep. apply m_grp_chr; [reflexivity|]. mstep.
    apply n_rep; [|lia|discriminate]. intros k'. cbn [groupsOf app]. rewrite clearcaps_nil.
    mstep. apply rmatch_rep_none. intros p w r E W. cbn [rmatch cap setcap filter].
    change (Nat.eqb 2 2) with true. cbv iota.
    rewrite startsWith_head_absent; [reflexivity|].
    intros I. exact (Hr (In_suffix _ _ _ _ E I)).
  - apply m_grp_stop; [reflexivity|]. mstep. apply m_grp. now apply n_chr.
  - apply m_grp_stop; [reflexivity|]. mstep. apply m_grp_chr; [reflexivity|]. mstep.
    apply n_rep; [|lia|discriminate]. intros k'. cbn [groupsOf app]. rewrite clearcaps_nil.
    mstep. apply rmatch_rep_none. intros p w r E W. cbn [rmatch cap setcap filter].
    change (Nat.eqb 2 2) with true. cbv iota.
    rewrite startsWith_head_absent; [reflexivity|].
    intros I. exact (Hr (In_suffix _ _ _ _ E I)).
Qed.

Ltac each_bullet B := apply bullet_cases in B as [ -> | [ -> | -> ] ].

Lemma bullet_not_fence mk : isBullet mk = true -> refuses R_fence mk.
Proof. intros B. unfold R_fence. open_regex. each_bullet B; refuse. Qed.

Lemma bullet_not_heading mk : isBullet mk = true -> refuses R_heading mk.
Proof.
  intros B. unfold R_heading. open_regex. cbv [R_headingStart]. open_regex.
  each_bullet B; refuse.
Qed.

Lemma bullet_not_quote mk : isBullet mk = true -> refuses R_quote mk.
Proof. intros B. unfold R_quote. open_regex. each_bullet B; refuse. Qed.

Lemma bullet_not_toc mk : isBullet mk = true -> refuses R_toc mk.
Proof. intros B. unfold R_toc. open_regex. each_bullet B; refuse. Qed.

Lemma quote_anchored : anchored R_quote.
Proof. unfold R_quote. open_regex. anchor. Qed.

Lemma toc_anchored : anchored R_toc.
Proof. unfold R_toc. open_regex. anchor. Qed.

Lemma bullet_not_ws mk : isBullet mk = true -> isWs mk = false.
Proof. intros B. each_bullet B; reflexivity. Qed.

Lemma takes_task : Takes notPlain R_task 1.
Proof. takes_plain R_task. Qed.

Lemma takes_ordered : Takes isDigit R_ordered 1.
Proof. unfold R_ordered. open_regex. takes_one. Qed.

(** The match of [R_item] on an item of a plain text. *)
Lemma item_exec mk item :
  isBullet mk = true -> forallb plainCh item = true -> stopsAt isWs item ->
  execAt R_item None (bulletLine mk item)
  = Some {| m0 := bulletLine mk item;
            mcaps := setcap 3 item (setcap 2 [mk] (setcap 1 [] []));
            mrest := [] |}.
Proof.
  intros B P St. pose proof (plain_dots _ P) as Dot.
  assert (M : rmatch R_item None (bulletLine mk item) [] (fun _ s1 c1 => Some (s1, c1))
              = Some ([], setcap 3 item (setcap 2 [mk] (setcap 1 [] [])))).
  { unfold R_item, bulletLine. open_regex. do 2 mstep.
    apply m_grp_stop; [now apply bullet_not_ws|]. mstep.
    apply m_grp. apply m_alt_l. apply m_chr; [exact B|].
    cbn [List.length]. replace (S (S (List.length item)) - S (List.length item))%nat
      with 1%nat by lia. cbn [firstn]. mstep.
    apply (rmatch_span isWs 1 None [32] item); try reflexivity; try exact St;
      cbn [List.length allows]; auto.
    mstep. mstep.
    apply (rmatch_span _ 0 None item []); cbn [allows stopsAt]; auto; try lia.
    { now rewrite app_nil_r. }
    mstep. cbn [List.length]. rewrite Nat.sub_0_r, firstn_all. reflexivity. }
  rewrite (execAt_result _ _ _ _ _ M). cbn [List.length].
  rewrite Nat.sub_0_r, firstn_all. reflexivity.
Qed.

Lemma listStart_bullet mk item :
  isBullet mk = true -> stopsAt isWs item -> test R_listStart (bulletLine mk item) = true.
Proof.
  intros B St.
  assert (M : rmatch R_listStart None (bulletLine mk item) []
                (fun _ s1 c1 => Some (s1, c1))
              = Some (item, setcap 1 [mk] [])).
  { unfold R_listStart, bulletLine. open_regex. do 2 mstep.
    rewrite m_rep_stop by now apply bullet_not_ws. mstep.
    apply m_grp. apply m_alt_l. apply m_chr; [exact B|].
    cbn [List.length]. replace (S (S (List.length item)) - S (List.length item))%nat
      with 1%nat by lia. cbn [firstn].
    apply (rmatch_span isWs 1 None [32] item); try reflexivity; try exact St;
      cbn [List.length allows]; auto. }
  exact (test_here _ _ _ (execAt_result _ _ _ _ _ M)).
Qed.

Lemma plainItem_stops item : plainItem item -> stopsAt isWs item.
Proof. intros (_ & T & _). now apply trim_fixed_stops. Qed.

Lemma bullet_not_blank mk item : isBullet mk = true -> blank (bulletLine mk item) = false.
Proof.
  intros B. apply (not_blank mk); [now left|now apply bullet_not_ws].
Qed.

Lemma itemContinuation_bullets mk items :
  isBullet mk = true -> (forall i, In i items -> plainItem i) ->
  itemContinuation 0 (map (bulletLine mk) items) = ([], O).
Proof.
  intros B H. destruct items as [|i t]; [reflexivity|]. cbn [map itemContinuation].
  rewrite (bullet_not_blank _ _ B).
  destruct (H i (or_introl eq_refl)) as (P & Hi).
  rewrite (test_here _ _ _ (item_exec mk i B P (plainItem_stops _ (conj P Hi)))).
  reflexivity.
Qed.

Lemma renderItem_plain defs fuel item :
  keys (abbrDefs defs) = [] -> plainItem item ->
  renderItem defs (S fuel) [item] = ret (liOf item).
Proof.
  intros A (P & T & Ne & X & _).
  assert (short : (countP notPlain item < 1)%nat) by (rewrite (plain_countP _ P); lia).
  unfold renderItem. cbn [hd tl].
  rewrite (rmatch1_short notPlain _ 1 item takes_task short). cbn [join].
  rewrite T, (renderInline_plain defs fuel item P X A). reflexivity.
Qed.

Lemma listLoop_bullets defs nested fuel mk :
  isBullet mk = true -> keys (abbrDefs defs) = [] ->
  forall items acc cnt st,
    (forall i, In i items -> plainItem i) ->
    listLoop defs nested (S fuel) 0 (map (bulletLine mk) items) O acc cnt st
    = Ok ((acc ++ map liOf items, (cnt + List.length items)%nat), st).
Proof.
  intros B A. induction items as [|i t IH]; intros acc cnt st H.
  - cbn [map listLoop List.length]. now rewrite app_nil_r, Nat.add_0_r.
  - cbn [map listLoop]. rewrite (bullet_not_blank _ _ B).
    pose proof (H i (or_introl eq_refl)) as Hi. destruct Hi as (P & Hi).
    rewrite (rmatch1_here _ _ _ (item_exec mk i B P (plainItem_stops _ (conj P Hi)))).
    set (m := {| m0 := bulletLine mk i;
                 mcaps := setcap 3 i (setcap 2 [mk] (setcap 1 [] [])); mrest := [] |}).
    change (grp 1 m) with (@nil N). change (grp 3 m) with i. cbn [List.length].
    change (Nat.ltb 0 0) with false. cbv iota.
    rewrite (itemContinuation_bullets mk t B) by (intros j Hj; apply H; now right).
    unfold bind at 1. rewrite (renderItem_plain defs fuel i A (conj P Hi)). cbn [ret].
    rewrite IH by (intros j Hj; apply H; now right).
    cbn [List.length]. rewrite <- app_assoc, Nat.add_succ_r. reflexivity.
Qed.

Lemma join_nil_concat (l : list jsstring) : join [] l = List.concat l.
Proof.
  induction l as [|x t IH]; [reflexivity|]. destruct t as [|y t].
  - cbn [join List.concat]. now rewrite app_nil_r.
  - change (join [] (x :: y :: t)) with (x ++ [] ++ join [] (y :: t)).
    cbn [List.concat app]. now rewrite IH.
Qed.

Lemma parseListAt_cons defs fuel first t :
  parseListAt defs (S fuel) (first :: t)
  = match rmatch1 R_item first with
    | None => ret ([], 1%nat)
    | Some m =>
        let ordered := test R_ordered (grp 2 m) in
        let tag := if ordered then str "ol" else str "ul" in
        r <- listLoop defs (parseListAt defs fuel) fuel (List.length (grp 1 m))
               (first :: t) O [] O ;;
        let listClass :=
          if ordered then str "list-decimal list-inside ml-4 my-2 space-y-1"
          else str "list-disc list-inside ml-4 my-2 space-y-1" in
        ret (str "<" ++ tag ++ quo " class='" ++ listClass ++ quo "'>" ++ join [] (fst r)
             ++ str "</" ++ tag ++ str ">", snd r)
    end.
Proof. reflexivity. Qed.

Lemma parseListAt_bullets defs fuel mk items st :
  isBullet mk = true -> keys (abbrDefs defs) = [] -> items <> [] ->
  (forall i, In i items -> plainItem i) ->
  parseListAt defs (S (S fuel)) (map (bulletLine mk) items) st
  = Ok ((ulOpen ++ List.concat (map liOf items) ++ str "</ul>", List.length items), st).
Proof.
  intros B A Ne H. destruct items as [|i t]; [contradiction|].
  pose proof (listLoop_bullets defs (parseListAt defs (S fuel)) fuel mk B A (i :: t) [] O st H)
    as L.
  destruct (H i (or_introl eq_refl)) as (P & Hi).
  cbn [map] in *. rewrite parseListAt_cons.
  rewrite (rmatch1_here _ _ _ (item_exec mk i B P (plainItem_stops _ (conj P Hi)))).
  set (m := {| m0 := bulletLine mk i;
               mcaps := setcap 3 i (setcap 2 [mk] (setcap 1 [] [])); mrest := [] |}).
  change (grp 1 m) with (@nil N). change (grp 2 m) with [mk]. cbn [List.length] in *.
  assert (O : test R_ordered [mk] = false).
  { apply (test_short isDigit _ 1 [mk] takes_ordered).
    apply bullet_cases in B as [ -> | [ -> | -> ] ]; vm_compute; lia. }
  cbv zeta. rewrite O. unfold bind. rewrite L. cbn [ret fst snd app].
  now rewrite join_nil_concat.
Qed.

Lemma markup_not_plain text c :
  forallb plainCh text = true -> plainCh c = false -> ~ In c text.
Proof. intros P C H. rewrite (plain_In _ _ P H) in C. discriminate C. Qed.

(** X18.  Lines that begin with the same list
    mark, a space and a sentence without markup are one unordered list:
    one [li] element for each line, in the order of the lines, with the
    sentence as typed. *)
Theorem bullet_list_of_plain_items (mk : N) (items : list jsstring) :
  isBullet mk = true ->
  items <> [] ->
  (forall i, In i items -> plainItem i) ->
  renderMarkdown (join nl (map (bulletLine mk) items))
  = Ok (ulOpen ++ List.concat (map liOf items) ++ str "</ul>").
Proof.
  intros B Ne H.
  assert (Mk : plainCh mk = false /\ mk <> 10 /\ mk <> 13 /\ mk <> ch "[" /\ mk <> ch "|").
  { apply bullet_cases in B as [ -> | [ -> | -> ] ]; repeat split; discriminate. }
  destruct Mk as (Mp & M10 & M13 & Mb & Mbar).
  set (doc := join nl (map (bulletLine mk) items)).
  assert (In_doc : forall c, In c doc -> c = 10 \/ c = mk \/ c = 32
                                         \/ exists i, In i items /\ In c i).
  { intros c Hc. apply In_join in Hc as [[<-|[]]|(q & Q & Hc)]; [now left|].
    apply in_map_iff in Q as (i & <- & I). destruct Hc as [<-|[<-|Hc]]; auto.
    do 3 right. now exists i. }
  assert (Not : forall c, plainCh c = false -> c <> 10 -> c <> mk -> ~ In c doc).
  { intros c P A C Hc. apply In_doc in Hc as [E|[E|[E|(i & I & Hc)]]]; auto.
    - subst c. discriminate P.
    - destruct (H i I) as (Pi & _). exact (markup_not_plain _ _ Pi P Hc). }
  assert (N : normalizeNewlines doc = doc).
  { apply normalizeNewlines_without_cr, Not; [reflexivity|discriminate|auto]. }
  assert (L : split doc nl = map (bulletLine mk) items).
  { apply split_join_nl.
    - destruct items; [contradiction|discriminate].
    - intros q Q. apply in_map_iff in Q as (i & <- & I).
      destruct (H i I) as (Pi & _).
      intros [E|[E|E]]; [now apply M10|discriminate E|].
      exact (markup_not_plain i 10 Pi eq_refl E). }
  assert (D : extractDefinitions doc
              = {| cleaned := doc; linkDefs := empty; footnoteDefs := empty;
                   abbrDefs := empty |}).
  { rewrite no_bracket_no_definition; [now rewrite N|].
    apply Not; [reflexivity|intros E; vm_compute in E; discriminate E|auto]. }
  unfold renderMarkdown, renderMarkdownWith, fuelFor. rewrite D, N.
  unfold renderBody. cbn [cleaned].
  replace (2 * List.length doc + 4)%nat with (S (S (S (2 * List.length doc + 1)))) by lia.
  set (fuel := (2 * List.length doc + 1)%nat).
  set (defs := {| cleaned := doc; linkDefs := empty; footnoteDefs := empty;
                  abbrDefs := empty |}).
  set (html := ulOpen ++ List.concat (map liOf items) ++ str "</ul>").
  assert (P : forall st, parseBlocks defs (S (S (S fuel))) doc st = Ok (html, st)).
  { intros st. cbn [parseBlocks]. rewrite N, L.
    pose proof (parseListAt_bullets defs fuel mk items st B eq_refl Ne H) as PL.
    destruct items as [|i0 t]; [contradiction|].
    destruct (H i0 (or_introl eq_refl)) as (Pi & Hi).
    pose proof (plainItem_stops _ (conj Pi Hi)) as St.
    cbn [map] in *. cbn [blocksLoop].
    rewrite (bullet_not_blank _ _ B).
    assert (F : rmatch1 R_fence (bulletLine mk i0) = None)
      by exact (refused_rmatch1 _ _ (32 :: i0) fence_anchored (bullet_not_fence mk B)).
    assert (I : test R_indented (bulletLine mk i0) = false)
      by exact (test_indented_head mk (32 :: i0) (bullet_not_ws mk B)).
    assert (Hd : rmatch1 R_heading (bulletLine mk i0) = None)
      by exact (refused_rmatch1 _ _ (32 :: i0) heading_anchored (bullet_not_heading mk B)).
    assert (R : test R_hr (bulletLine mk i0) = false)
      by exact (bullet_not_hr mk i0 B (markup_not_plain _ _ Pi Mp)).
    assert (Q : test R_quote (bulletLine mk i0) = false)
      by exact (refused_test _ _ (32 :: i0) quote_anchored (bullet_not_quote mk B)).
    assert (T : test R_toc (bulletLine mk i0) = false)
      by exact (refused_test _ _ (32 :: i0) toc_anchored (bullet_not_toc mk B)).
    assert (Tb : tableAhead (bulletLine mk i0) (map (bulletLine mk) t) = false).
    { unfold tableAhead. rewrite (includes_head_absent (ch "|") []); [reflexivity|].
      intros [E|[E|E]]; [now apply Mbar|discriminate E|].
      now apply (proj2 (proj2 (proj2 Hi))). }
    rewrite F, I, Hd, R, Q, T, Tb, (listStart_bullet mk i0 B St).
    unfold bind. rewrite PL. cbn [fst snd List.length pred].
    rewrite blocksLoop_skip by (rewrite length_map; lia).
    reflexivity. }
  unfold bind at 1. unfold bind at 1. unfold bind at 1. rewrite P.
  assert (Toc : includes html TOC_PLACEHOLDER = false).
  { destruct (includes html TOC_PLACEHOLDER) eqn:I; [|reflexivity]. exfalso.
    assert (U : In (ch "_") html).
    { apply (includes_incl _ _ I). vm_compute. tauto. }
    unfold html in U. rewrite !in_app_iff in U. destruct U as [U|[U|U]];
      try (vm_compute in U; intuition discriminate).
    apply in_concat in U as (li & Li & U).
    apply in_map_iff in Li as (i & <- & Ii). destruct (H i Ii) as (Pi & _).
    unfold liOf in U. rewrite !in_app_iff in U. destruct U as [U|[U|U]];
      try (vm_compute in U; intuition discriminate).
    exact (markup_not_plain i (ch "_") Pi eq_refl U). }
  unfold resolveToc. rewrite Toc. reflexivity.
Qed.

Lemma bullet_list_of_plain_items_witness :
  renderMarkdown (str "- tea" ++ nl ++ str "- Tom & Li")
  = Ok (ulOpen ++ quo "<li class='ml-1'>tea</li>" ++ quo "<li class='ml-1'>Tom & Li</li>"
        ++ str "</ul>").
Proof.
  apply (bullet_list_of_plain_items (ch "-") [str "tea"; str "Tom & Li"]).
  - reflexivity.
  - discriminate.
  - intros i [<-|[<-|[]]]; repeat split; try discriminate;
      try (vm_compute; lia); vm_compute; intuition discriminate.
Defined.

(** ** Paragraphs *)

Lemma split_spaced ss :
  ss <> [] -> (forall s, In s ss -> ~ In 10 s) ->
  split (join (nl ++ nl) ss) nl = spaced ss.
Proof.
  induction ss as [|x t IH]; intros Ne H; [contradiction|].
  assert (X : split x nl = [x]).
  { unfold split, nl. rewrite splitGo_head_absent; [reflexivity|]. apply H. now left. }
  destruct t as [|y t]; [exact X|].
  change (join (nl ++ nl) (x :: y :: t))
    with (x ++ nl ++ ([] ++ nl ++ join (nl ++ nl) (y :: t))).
  rewrite !split_nl_app, X, IH; [reflexivity|discriminate|].
  intros s Hs. apply H. now right.
Qed.

Lemma blocksLoop_spaced defs quoted fuel :
  keys (abbrDefs defs) = [] ->
  forall ss out,
    (forall s, In s ss -> plainSentence s) ->
    blocksLoop defs quoted (S fuel) (spaced ss) O out = ret (out ++ map paragraphOf ss).
Proof.
  intros A. induction ss as [|s t IH]; intros out H.
  - cbn [spaced map blocksLoop]. now rewrite app_nil_r.
  - destruct (H s (or_introl eq_refl)) as (P & T & Ne & X).
    destruct t as [|y t].
    + exact (blocksLoop_plain defs quoted fuel s [] out P T Ne X A eq_refl
               (andb_false_r _)).
    + change (spaced (s :: y :: t)) with (s :: [] :: spaced (y :: t)).
      assert (Tb : tableAhead s ([] :: spaced (y :: t)) = false).
      { unfold tableAhead. change (isTableDivider []) with false. apply andb_false_r. }
      etransitivity;
        [exact (blocksLoop_plain defs quoted fuel s ([] :: spaced (y :: t)) out
                  P T Ne X A eq_refl Tb)|].
      etransitivity;
        [exact (IH (out ++ [pOpen ++ s ++ str "</p>"])
                  (fun z Hz => H z (or_intror Hz)))|].
      cbn [map]. now rewrite <- app_assoc.
Qed.

(** X10.  Sentences without markup that
    blank lines separate are one paragraph each, as typed, and the
    paragraphs are joined with a line feed. *)
Theorem paragraphs_between_blank_lines (ss : list jsstring) :
  ss <> [] ->
  (forall s, In s ss -> plainSentence s) ->
  renderMarkdown (join (nl ++ nl) ss) = Ok (join nl (map paragraphOf ss)).
Proof.
  intros Ne H.
  set (doc := join (nl ++ nl) ss).
  assert (Not : forall c, plainCh c = false -> c <> 10 -> ~ In c doc).
  { intros c P A Hc. apply In_join in Hc as [[E|[E|[]]]|(s & S & Hc)];
      [now apply A|now apply A|].
    destruct (H s S) as (Ps & _). exact (markup_not_plain _ _ Ps P Hc). }
  assert (N : normalizeNewlines doc = doc).
  { apply normalizeNewlines_without_cr, Not; [reflexivity|discriminate]. }
  assert (L : split doc nl = spaced ss).
  { apply split_spaced; [exact Ne|]. intros s S. destruct (H s S) as (Ps & _).
    exact (markup_not_plain s 10 Ps eq_refl). }
  assert (D : extractDefinitions doc
              = {| cleaned := doc; linkDefs := empty; footnoteDefs := empty;
                   abbrDefs := empty |}).
  { rewrite no_bracket_no_definition; [now rewrite N|].
    apply Not; [reflexivity|intros E; vm_compute in E; discriminate E]. }
  unfold renderMarkdown, renderMarkdownWith, fuelFor. rewrite D, N.
  unfold renderBody. cbn [cleaned].
  replace (2 * List.length doc + 4)%nat with (S (S (2 * List.length doc + 2))) by lia.
  set (defs := {| cleaned := doc; linkDefs := empty; footnoteDefs := empty;
                  abbrDefs := empty |}).
  cbn [parseBlocks]. rewrite N, L.
  rewrite (blocksLoop_spaced defs _ _ eq_refl ss [] H). rewrite !bind_ret. cbn [app].
  assert (Toc : includes (join nl (map paragraphOf ss)) TOC_PLACEHOLDER = false).
  { destruct (includes _ TOC_PLACEHOLDER) eqn:I; [|reflexivity]. exfalso.
    assert (U : In (ch "_") (join nl (map paragraphOf ss))).
    { apply (includes_incl _ _ I). vm_compute. tauto. }
    apply In_join in U as [U|(q & Q & U)]; [vm_compute in U; intuition discriminate|].
    apply in_map_iff in Q as (s & <- & S). destruct (H s S) as (Ps & _).
    unfold paragraphOf in U. rewrite !in_app_iff in U. destruct U as [U|[U|U]];
      try (vm_compute in U; intuition discriminate).
    exact (markup_not_plain s (ch "_") Ps eq_refl U). }
  unfold resolveToc. rewrite Toc, bind_ret. reflexivity.
Qed.

Lemma paragraphs_between_blank_lines_witness :
  renderMarkdown (str "Dear Tom," ++ nl ++ nl ++ quo "I said 'no'.")
  = Ok (paragraphOf (str "Dear Tom,") ++ nl ++ paragraphOf (quo "I said 'no'.")).
Proof.
  apply (paragraphs_between_blank_lines [str "Dear Tom,"; quo "I said 'no'."]).
  - discriminate.
  - intros s [<-|[<-|[]]]; repeat split; try discriminate; vm_compute; lia.
Defined.

(** ** Indented code *)

Lemma not_blank_holds l : blank l = false -> exists c, In c l /\ isWs c = false.
Proof.
  intros H. destruct (forallb isWs l) eqn:F.
  - rewrite (blank_ws _ F) in H. discriminate H.
  - clear H. induction l as [|x t IH]; [discriminate F|]. cbn [forallb] in F.
    destruct (isWs x) eqn:W.
    + destruct (IH F) as (c & Hc & Wc). exists c. split; [now right|exact Wc].
    + exists x. split; [now left|exact W].
Qed.

Lemma indentLine_is_indented code : test R_indented (indentLine code) = true.
Proof.
  destruct (run_of (N.eqb 32) code) as (w & r & E & W & R).
  assert (M : rmatch R_indented None (indentLine code) [] (fun _ s1 c1 => Some (s1, c1))
              = Some (r, setcap 1 (str "    " ++ w) [])).
  { unfold R_indented. open_regex. do 2 mstep. apply m_alt_l.
    apply (rmatch_span (N.eqb 32) 4 None (str "    " ++ w) r); cbn [allows]; auto.
    - unfold indentLine. now rewrite E, app_assoc.
    - rewrite length_app. change (List.length (str "    ")) with 4%nat. lia.
    - unfold indentLine. rewrite E, app_assoc, firstn_sub_app. reflexivity. }
  exact (test_here _ _ _ (execAt_result _ _ _ _ _ M)).
Qed.

Lemma indentLine_stripped code : replaceFirst R_indent4 [] (indentLine code) = code.
Proof.
  assert (M : rmatch R_indent4 None (indentLine code) [] (fun _ s1 c1 => Some (s1, c1))
              = Some (code, setcap 1 (str "    ") [])).
  { unfold R_indent4. open_regex. do 2 mstep. apply m_alt_l.
    apply (rmatch_full (N.eqb 32) 4 (str "    ") code); auto.
    unfold indentLine. now rewrite firstn_sub_app. }
  unfold replaceFirst, search.
  rewrite (searchFrom_here _ _ _ _ _ (execAt_result _ _ _ _ _ M)). reflexivity.
Qed.

Lemma indented_lines codes :
  map (replaceFirst R_indent4 []) (takeWhile (test R_indented) (map indentLine codes))
  = codes.
Proof.
  rewrite takeWhile_all.
  - rewrite map_map. rewrite <- (map_id codes) at 2. apply map_ext, indentLine_stripped.
  - intros l H. apply in_map_iff in H as (l' & <- & _). apply indentLine_is_indented.
Qed.

(** X13.  Lines behind four spaces are one block
    of code: the spaces are taken off, and the lines are emitted in a
    [pre] and [code] element, escaped by [escapeHtml] and otherwise as
    typed.  (The first line is not blank and holds no mark of a fence;
    as for fenced code, the lines hold no [[] and no section sign.) *)
Theorem indented_code_is_escaped (first : jsstring) (more : list jsstring) :
  blank first = false ->
  ~ In (ch "`") first -> ~ In (ch "~") first ->
  (forall c, In c (first :: more) ->
     oneLine c /\ ~ In (ch "[") c /\ ~ In sectionSign c) ->
  renderMarkdown (join nl (map indentLine (first :: more)))
  = Ok (preOpen ++ str "<code>" ++ escapeHtml (join nl (first :: more))
        ++ str "</code></pre>").
Proof.
  intros Nb Hbq Htl H.
  set (codes := first :: more) in *.
  set (doc := join nl (map indentLine codes)).
  assert (In_doc : forall c, In c doc ->
            c = 10 \/ c = 32 \/ exists code, In code codes /\ In c code).
  { intros c Hc. apply In_join in Hc as [[<-|[]]|(q & Q & Hc)]; [now left|].
    apply in_map_iff in Q as (code & <- & I). unfold indentLine in Hc.
    apply in_app_or in Hc as [Hc|Hc].
    - right. left. vm_compute in Hc. intuition congruence.
    - do 2 right. now exists code. }
  assert (N : normalizeNewlines doc = doc).
  { apply normalizeNewlines_without_cr. intros Hc.
    apply In_doc in Hc as [E|[E|(code & I & Hc)]]; try discriminate E.
    exact (proj2 (proj1 (H code I)) Hc). }
  assert (L : split doc nl = map indentLine codes).
  { apply split_join_nl; [discriminate|].
    intros q Q. apply in_map_iff in Q as (code & <- & I). unfold indentLine. intros Hc.
    apply in_app_or in Hc as [Hc|Hc]; [vm_compute in Hc; intuition discriminate|].
    exact (proj1 (proj1 (H code I)) Hc). }
  assert (D : extractDefinitions doc
              = {| cleaned := doc; linkDefs := empty; footnoteDefs := empty;
                   abbrDefs := empty |}).
  { rewrite no_bracket_no_definition; [now rewrite N|]. intros Hc.
    apply In_doc in Hc as [E|[E|(code & I & Hc)]]; try discriminate E.
    exact (proj1 (proj2 (H code I)) Hc). }
  unfold renderMarkdown, renderMarkdownWith, fuelFor. rewrite D, N.
  unfold renderBody. cbn [cleaned].
  replace (2 * List.length doc + 4)%nat with (S (2 * List.length doc + 3)) by lia.
  set (defs := {| cleaned := doc; linkDefs := empty; footnoteDefs := empty;
                  abbrDefs := empty |}).
  set (html := preOpen ++ str "<code>" ++ escapeHtml (join nl codes) ++ str "</code></pre>").
  assert (P : parseBlocks defs (S (2 * List.length doc + 3)) doc = ret html).
  { cbn [parseBlocks]. rewrite N, L.
    pose proof (indented_lines codes) as IL.
    unfold codes in *. cbn [map] in *. cbn [blocksLoop].
    destruct (not_blank_holds _ Nb) as (x & Hx & Wx).
    rewrite (not_blank x (indentLine first) (in_or_app _ _ _ (or_intror Hx)) Wx).
    rewrite (rmatch1_short isFenceCh _ 1 (indentLine first) fence_takes).
    2:{ rewrite countP_none; [lia|]. intros c Hc. unfold indentLine in Hc.
        apply in_app_or in Hc as [Hc|Hc].
        - vm_compute in Hc. destruct Hc as [<-|[<-|[<-|[<-|[]]]]]; reflexivity.
        - destruct (isFenceCh c) eqn:F; [|reflexivity]. exfalso.
          unfold isFenceCh, oneOf in F.
          cbn [str list_ascii_of_string map existsb] in F.
          repeat (apply orb_prop in F; destruct F as [F|F]); try discriminate F;
            apply N.eqb_eq in F; subst c; auto. }
    rewrite (indentLine_is_indented first), IL.
    cbn [List.length pred].
    rewrite blocksLoop_skip by (rewrite length_map; lia).
    rewrite bind_ret. reflexivity. }
  rewrite P, bind_ret.
  assert (Toc : includes html TOC_PLACEHOLDER = false).
  { apply (includes_head_absent sectionSign). unfold html. intros Hc.
    rewrite !in_app_iff in Hc. destruct Hc as [Hc|[Hc|[Hc|Hc]]];
      try (vm_compute in Hc; intuition discriminate).
    apply escapeHtml_incl in Hc as [Hc|Hc]; [|vm_compute in Hc; intuition discriminate].
    apply In_join in Hc as [Hc|(code & I & Hc)]; [vm_compute in Hc; intuition discriminate|].
    exact (proj2 (proj2 (H code I)) Hc). }
  unfold resolveToc. rewrite Toc, bind_ret. reflexivity.
Qed.

Lemma indented_code_is_escaped_witness :
  renderMarkdown (str "    if (a < b)" ++ nl ++ str "      **x**;")
  = Ok (preOpen ++ str "<code>if (a &lt; b)" ++ nl ++ str "  **x**;</code></pre>").
Proof.
  apply (indented_code_is_escaped (str "if (a < b)") [str "  **x**;"]).
  - reflexivity.
  - vm_compute. intuition discriminate.
  - vm_compute. intuition discriminate.
  - intros c [<-|[<-|[]]]; repeat split; vm_compute; intuition discriminate.
Defined.

(** ** Blocks of markup *)

(** A literal finds nothing where the text does not begin with it. *)
Lemma lits_none w :
  w <> [] ->
  forall prev s c (k : cont), startsWith s w = false -> rmatch (lits w) prev s c k = None.
Proof.
  induction w as [|x t IH]; intros Ne prev s c k H; [contradiction|].
  destruct t as [|x' t].
  - cbn [lits rmatch]. destruct s as [|y s']; [reflexivity|].
    cbn [startsWith] in H. rewrite startsWith_nil, andb_true_r in H. now rewrite H.
  - change (lits (x :: x' :: t)) with (Seq (Chr (N.eqb x)) (lits (x' :: t))).
    cbn [rmatch]. destruct s as [|y s']; [reflexivity|].
    cbn [startsWith] in H. destruct (x =? y); [|reflexivity].
    apply IH; [discriminate|exact H].
Qed.

Lemma markup_not_fence : refuses R_fence (ch "<").
Proof. unfold R_fence. open_regex. refuse. Qed.

Lemma markup_not_heading : refuses R_heading (ch "<").
Proof. unfold R_heading. open_regex. cbv [R_headingStart]. open_regex. refuse. Qed.

Lemma markup_not_hr : refuses R_hr (ch "<").
Proof. unfold R_hr. open_regex. refuse. Qed.

Lemma markup_not_quote : refuses R_quote (ch "<").
Proof. unfold R_quote. open_regex. refuse. Qed.

Lemma markup_not_toc : refuses R_toc (ch "<").
Proof. unfold R_toc. open_regex. refuse. Qed.

Lemma markup_not_listStart : refuses R_listStart (ch "<").
Proof. unfold R_listStart. open_regex. refuse. Qed.

Lemma listStart_anchored : anchored R_listStart.
Proof. unfold R_listStart. open_regex. anchor. Qed.

Lemma markup_not_comment rest :
  startsWith rest (str "!--") = false -> test R_commentStart (ch "<" :: rest) = false.
Proof.
  intros H. unfold R_commentStart, re. cbn [seq]. rewrite test_anchored. unfold execAt.
  match goal with
  | |- context [rmatch ?r ?p ?s ?c ?k] => replace (rmatch r p s c k) with (@None res)
  end; [reflexivity|symmetry].
  do 2 mstep. unfold star, ws. rewrite m_rep_stop by reflexivity.
  apply lits_none; [discriminate|].
  change (str "<!--") with (ch "<" :: str "!--"). cbn [startsWith].
  now rewrite H, andb_false_r.
Qed.

Lemma markup_is_html rest : test R_htmlStart (ch "<" :: rest) = true.
Proof.
  assert (M : rmatch R_htmlStart None (ch "<" :: rest) [] (fun _ s1 c1 => Some (s1, c1))
              = Some (rest, [])).
  { unfold R_htmlStart. open_regex. do 2 mstep.
    rewrite m_rep_stop by reflexivity. now apply m_chr. }
  exact (test_here _ _ _ (execAt_result _ _ _ _ _ M)).
Qed.

(** X15.  A block of lines whose first line
    begins with [<] is emitted as it is: nothing in it is escaped and no
    rule reads it, up to the next blank line.  (The first line is no
    comment and holds no bar; the lines hold no [[] and no section
    sign.) *)
Theorem raw_markup_block_is_verbatim (rest : jsstring) (more : list jsstring) :
  startsWith rest (str "!--") = false ->
  ~ In (ch "|") rest ->
  (forall l, In l ((ch "<" :: rest) :: more) -> markupLine l) ->
  renderMarkdown (join nl ((ch "<" :: rest) :: more))
  = Ok (join nl ((ch "<" :: rest) :: more)).
Proof.
  intros NoComment NoBar H.
  set (first := ch "<" :: rest) in *.
  set (ls := first :: more) in *.
  set (doc := join nl ls).
  assert (In_doc : forall c, In c doc -> c = 10 \/ exists l, In l ls /\ In c l).
  { intros c Hc. apply In_join in Hc as [[<-|[]]|Hc]; auto. }
  assert (N : normalizeNewlines doc = doc).
  { apply normalizeNewlines_without_cr. intros Hc.
    apply In_doc in Hc as [E|(l & I & Hc)]; [discriminate E|].
    destruct (H l I) as (_ & (_ & Cr) & _). now apply Cr. }
  assert (L : split doc nl = ls).
  { apply split_join_nl; [discriminate|]. intros l I.
    destruct (H l I) as (_ & (Lf & _) & _). exact Lf. }
  assert (D : extractDefinitions doc
              = {| cleaned := doc; linkDefs := empty; footnoteDefs := empty;
                   abbrDefs := empty |}).
  { rewrite no_bracket_no_definition; [now rewrite N|]. intros Hc.
    apply In_doc in Hc as [E|(l & I & Hc)]; [discriminate E|].
    destruct (H l I) as (_ & _ & Br & _). now apply Br. }
  unfold renderMarkdown, renderMarkdownWith, fuelFor. rewrite D, N.
  unfold renderBody. cbn [cleaned].
  replace (2 * List.length doc + 4)%nat with (S (2 * List.length doc + 3)) by lia.
  set (defs := {| cleaned := doc; linkDefs := empty; footnoteDefs := empty;
                  abbrDefs := empty |}).
  assert (P : parseBlocks defs (S (2 * List.length doc + 3)) doc = ret doc).
  { cbn [parseBlocks]. rewrite N, L.
    assert (All : takeWhile (fun l => truthy (trim l)) ls = ls).
    { apply takeWhile_all. intros l I. destruct (H l I) as (B & _).
      unfold blank in B. now apply negb_false_iff in B. }
    unfold ls in *. cbn [blocksLoop].
    destruct (H first (or_introl eq_refl)) as (B & _). rewrite B.
    assert (F : rmatch1 R_fence first = None)
      by exact (refused_rmatch1 _ _ rest fence_anchored markup_not_fence).
    assert (I : test R_indented first = false)
      by exact (test_indented_head (ch "<") rest eq_refl).
    assert (Hd : rmatch1 R_heading first = None)
      by exact (refused_rmatch1 _ _ rest heading_anchored markup_not_heading).
    assert (R : test R_hr first = false)
      by exact (refused_test _ _ rest hr_anchored markup_not_hr).
    assert (Q : test R_quote first = false)
      by exact (refused_test _ _ rest quote_anchored markup_not_quote).
    assert (T : test R_toc first = false)
      by exact (refused_test _ _ rest toc_anchored markup_not_toc).
    assert (Tb : tableAhead first more = false).
    { unfold tableAhead. rewrite (includes_head_absent (ch "|") []); [reflexivity|].
      intros [E|E]; [discriminate E|now apply NoBar]. }
    assert (Ls : test R_listStart first = false)
      by exact (refused_test _ _ rest listStart_anchored markup_not_listStart).
    assert (Cm : test R_commentStart first = false)
      by exact (markup_not_comment rest NoComment).
    assert (Ht : test R_htmlStart first = true) by exact (markup_is_html rest).
    rewrite F, I, Hd, R, Q, T, Tb, Ls, Cm, Ht, All.
    cbn [List.length pred]. rewrite blocksLoop_skip by lia.
    rewrite bind_ret. reflexivity. }
  rewrite P, bind_ret.
  assert (Toc : includes doc TOC_PLACEHOLDER = false).
  { apply (includes_head_absent sectionSign). intros Hc.
    apply In_doc in Hc as [E|(l & I & Hc)]; [discriminate E|].
    destruct (H l I) as (_ & _ & _ & Ss). now apply Ss. }
  unfold resolveToc. rewrite Toc, bind_ret. reflexivity.
Qed.

Lemma raw_markup_block_is_verbatim_witness :
  renderMarkdown (quo "<img src=x onerror='alert(1)'>" ++ nl ++ str "**a** & <b>")
  = Ok (quo "<img src=x onerror='alert(1)'>" ++ nl ++ str "**a** & <b>").
Proof.
  apply (raw_markup_block_is_verbatim (quo "img src=x onerror='alert(1)'>")
           [str "**a** & <b>"]).
  - reflexivity.
  - vm_compute. intuition discriminate.
  - intros l [<-|[<-|[]]]; repeat split; try reflexivity; vm_compute; intuition discriminate.
Defined.

(** ** Horizontal rules *)

Lemma rule_cases mk : isRuleMark mk = true -> mk = ch "-" \/ mk = ch "*" \/ mk = ch "_".
Proof.
  unfold isRuleMark, oneOf. cbn [str list_ascii_of_string map existsb]. intros H.
  repeat (apply orb_prop in H; destruct H as [H|H]); try discriminate H;
    apply N.eqb_eq in H; auto.
Qed.

Lemma rule_not_ws mk : isRuleMark mk = true -> isWs mk = false.
Proof. intros B. apply rule_cases in B as [ -> | [ -> | -> ] ]; reflexivity. Qed.

(** One more mark of the rule: [\s*\2] where the text goes on with the
    mark that group 2 holds. *)
Lemma again_step mk prev t c (k : cont) :
  isWs mk = false -> cap 2 c = Some [mk] ->
  rmatch (Seq (Rep 0 None true (Chr isWs)) (Bref 2)) prev (mk :: t) c k
  = k (Some mk) t c.
Proof.
  intros W C. apply m_seq. rewrite (m_rep_stop _ _ _ _ _ _ _ _ W).
  cbn [rmatch]. rewrite C. cbn [startsWith]. rewrite N.eqb_refl, startsWith_nil.
  reflexivity.
Qed.

Lemma again_end mk prev c (k : cont) :
  cap 2 c = Some [mk] ->
  rmatch (Seq (Rep 0 None true (Chr isWs)) (Bref 2)) prev [] c k = None.
Proof. intros C. cbn [rmatch List.length Nat.add repLoop Nat.eqb]. now rewrite C. Qed.

Lemma repLoop_marks mk c (k : cont) res :
  isWs mk = false -> cap 2 c = Some [mk] ->
  (forall p, k p [] c = Some res) ->
  forall j fuel mn prev,
    (mn <= j)%nat -> (j <= fuel)%nat ->
    repLoop (rmatch (Seq (Rep 0 None true (Chr isWs)) (Bref 2))) [] fuel mn None true
      prev (repeat mk j) c k = Some res.
Proof.
  intros W C K. induction j as [|j IH]; intros fuel mn prev Hmn Hf.
  - assert (mn = O) by lia. subst mn. cbn [repeat].
    destruct fuel as [|fuel]; cbn [repLoop]; [apply K|].
    change (Nat.ltb 0 0) with false. cbv iota. unfold orElse.
    rewrite clearcaps_nil, (again_end mk _ _ _ C). apply K.
  - destruct fuel as [|fuel]; [lia|]. cbn [repeat repLoop].
    rewrite clearcaps_nil, (again_step mk _ _ _ _ W C).
    cbn [List.length]. rewrite length_neq_S, andb_false_r.
    cbn [option_map]. rewrite (IH fuel (pred mn) (Some mk)) by lia.
    now destruct (Nat.ltb 0 mn).
Qed.

Lemma rule_is_hr mk n :
  isRuleMark mk = true -> (3 <= n)%nat -> test R_hr (repeat mk n) = true.
Proof.
  intros B Hn. pose proof (rule_not_ws mk B) as W.
  destruct n as [|j]; [lia|]. cbn [repeat].
  set (c2 := setcap 2 [mk] (setcap 1 [] [])).
  assert (M : rmatch R_hr None (mk :: repeat mk j) [] (fun _ s1 c1 => Some (s1, c1))
              = Some ([], c2)).
  { unfold R_hr. open_regex. do 2 mstep.
    apply m_grp_stop; [exact W|]. mstep. apply m_grp_chr; [exact B|]. mstep.
    fold c2. cbn [rmatch groupsOf app].
    apply (repLoop_marks mk c2 _ _ W eq_refl).
    - intros p. cbn [rmatch List.length Nat.add repLoop Nat.eqb]. reflexivity.
    - lia.
    - rewrite repeat_length. lia. }
  exact (test_here _ _ _ (execAt_result _ _ _ _ _ M)).
Qed.

Lemma rule_not_fence mk : isRuleMark mk = true -> refuses R_fence mk.
Proof.
  intros B. unfold R_fence. open_regex.
  apply rule_cases in B as [ -> | [ -> | -> ] ]; refuse.
Qed.

Lemma rule_not_heading mk : isRuleMark mk = true -> refuses R_heading mk.
Proof.
  intros B. unfold R_heading. open_regex. cbv [R_headingStart]. open_regex.
  apply rule_cases in B as [ -> | [ -> | -> ] ]; refuse.
Qed.

(** X14.  A line of three or more of the same mark [-],
    [*] or [_] is a horizontal rule, whatever the number of marks. *)
Theorem horizontal_rule (mk : N) (n : nat) :
  isRuleMark mk = true ->
  (3 <= n)%nat ->
  renderMarkdown (repeat mk n) = Ok hrElement.
Proof.
  intros B Hn. pose proof (rule_not_ws mk B) as W.
  set (line := repeat mk n).
  assert (Not : forall c, c <> mk -> ~ In c line).
  { intros c A Hc. apply repeat_spec in Hc. now apply A. }
  assert (Mk : mk <> 13 /\ mk <> 10 /\ mk <> ch "[").
  { apply rule_cases in B as [ -> | [ -> | -> ] ]; repeat split; discriminate. }
  destruct Mk as (M13 & M10 & Mb).
  assert (Shape : exists t, line = mk :: t).
  { unfold line. destruct n; [lia|]. now exists (repeat mk n). }
  destruct Shape as (t & Shape).
  assert (N : normalizeNewlines line = line).
  { apply normalizeNewlines_without_cr, Not. auto. }
  assert (L : split line nl = [line]).
  { unfold split, nl. rewrite splitGo_head_absent; [reflexivity|]. apply Not. auto. }
  assert (D : extractDefinitions line
              = {| cleaned := line; linkDefs := empty; footnoteDefs := empty;
                   abbrDefs := empty |}).
  { rewrite no_bracket_no_definition; [now rewrite N|]. apply Not. auto. }
  unfold renderMarkdown, renderMarkdownWith, fuelFor. rewrite D, N.
  unfold renderBody. cbn [cleaned].
  replace (2 * List.length line + 4)%nat with (S (2 * List.length line + 3)) by lia.
  set (defs := {| cleaned := line; linkDefs := empty; footnoteDefs := empty;
                  abbrDefs := empty |}).
  assert (P : parseBlocks defs (S (2 * List.length line + 3)) line = ret hrElement).
  { cbn [parseBlocks]. rewrite N, L. cbn [blocksLoop].
    assert (Bl : blank line = false).
    { apply (not_blank mk); [rewrite Shape; now left|exact W]. }
    assert (F : rmatch1 R_fence line = None).
    { rewrite Shape. exact (refused_rmatch1 _ _ t fence_anchored (rule_not_fence mk B)). }
    assert (I : test R_indented line = false).
    { rewrite Shape. exact (test_indented_head mk t W). }
    assert (Hd : rmatch1 R_heading line = None).
    { rewrite Shape. exact (refused_rmatch1 _ _ t heading_anchored (rule_not_heading mk B)). }
    assert (Hr : test R_hr line = true) by exact (rule_is_hr mk n B Hn).
    rewrite Bl, F, I, Hd, Hr. reflexivity. }
  rewrite P, bind_ret.
  unfold resolveToc. change (includes hrElement TOC_PLACEHOLDER) with false.
  cbv iota. rewrite bind_ret. reflexivity.
Qed.

Lemma horizontal_rule_witness :
  renderMarkdown (str "-----") = Ok hrElement.
Proof. apply (horizontal_rule (ch "-") 5); [reflexivity|lia]. Defined.

(** ** The depth of the recursion *)

Lemma nestedQuote_In d c : In c (nestedQuote d) -> c = ch ">" \/ c = 32 \/ c = ch "a".
Proof.
  induction d as [|d IH]; cbn [nestedQuote Nat.iter].
  - intros [<-|[]]. auto.
  - intros [<-|[<-|H]]; auto.
Qed.

Lemma nestedQuote_oneLine d : oneLine (nestedQuote d).
Proof.
  split; intros H; apply nestedQuote_In in H as [H|[H|H]]; discriminate H.
Qed.

(** A quote in a quote is a call of [parseBlocks] in a call of
    [parseBlocks]: [d] quote marks ask for more than [d] nested calls. *)
Lemma parseBlocks_nestedQuote defs :
  forall d st, parseBlocks defs d (nestedQuote d) st = RangeError.
Proof.
  induction d as [|d IH]; intros st; [reflexivity|].
  change (nestedQuote (S d)) with (join nl (map quoteLine [nestedQuote d])).
  rewrite quote_nested.
  - unfold bind. cbn [join]. now rewrite IH.
  - discriminate.
  - intros l [<-|[]]. apply nestedQuote_oneLine.
Qed.

(** X23.  The recursion of [renderMarkdown] (a quote in
    a quote, a list in a list, a colored span in a colored span, the
    body of a footnote) has no depth cap of its own, and its depth is
    bounded by the length of the text.  On a call stack that holds
    [fuelFor] nested calls, and on every deeper one, the compile of a
    text does not end on [RangeError], and its outcome is the same.  On
    a call stack that holds [d] nested calls, the compile of the text of
    [d] quote marks before a letter ends on [RangeError]. *)
Theorem nesting_is_bounded (src : jsstring) (d : nat) :
  (forall fuel, (fuelFor src <= fuel)%nat ->
     renderMarkdownWith fuel src <> RangeError
     /\ renderMarkdownWith fuel src = renderMarkdown src)
  /\ renderMarkdownWith d (nestedQuote d) = RangeError.
Proof.
  split.
  - intros fuel H.
    assert (E : renderMarkdownWith fuel src = renderMarkdown src).
    { apply renderMarkdownWith_agrees. now apply renderMarkdownWith_total. }
    split; [rewrite E; apply renderMarkdown_total|exact E].
  - unfold renderMarkdownWith, renderBody.
    rewrite no_bracket_no_definition.
    + cbn [cleaned]. rewrite normalizeNewlines_without_cr
        by exact (proj2 (nestedQuote_oneLine d)).
      unfold bind at 1. now rewrite parseBlocks_nestedQuote.
    + intros H. apply nestedQuote_In in H as [H|[H|H]]; discriminate H.
Qed.

(** * The tables of definitions *)

(** ** The pass reaches every definition line *)

(** A line that the inner loop of a footnote does not take is reached by
    the outer loop, whatever stands before it. *)
Lemma extractLoop_reach (Q : defsAcc -> Prop) (line : jsstring) (post : list jsstring) :
  swallowed line = false ->
  (forall a, Q (extractLoop (line :: post) O a)) ->
  forall pre skip a,
    Forall (fun l => swallowed l = true) (firstn skip (pre ++ line :: post)) ->
    Q (extractLoop (pre ++ line :: post) skip a).
Proof.
  intros Hs Hq. induction pre as [|p pre IH]; intros skip a F.
  - cbn [app] in *. destruct skip as [|n]; [apply Hq|].
    cbn [firstn] in F. inversion F as [|? ? S _]; subst.
    rewrite Hs in S. discriminate S.
  - cbn [app extractLoop]. destruct skip as [|n].
    + destruct (rmatch1 R_footnoteDef p) as [fm|].
      { destruct (footnoteLines (pre ++ line :: post) (grp 2 fm)) as [text n] eqn:E.
        apply IH. exact (footnoteLines_swallowed _ _ _ _ E). }
      destruct (rmatch1 R_abbrDef p) as [am|]; [apply IH; constructor|].
      destruct (rmatch1 R_linkDef p) as [lm|]; apply IH; constructor.
    + apply IH. cbn [app firstn] in F. now inversion F.
Qed.

Lemma getOwn_setPrim_same {V : Type} k (v : V) o :
  k <> protoName -> getOwn k (setPrim k v o) = Some v.
Proof.
  intros N. unfold setPrim, getOwn. rewrite (eqs_neq _ _ N). cbn [own].
  apply assoc_put_same.
Qed.

Lemma getOwn_setPrim_other {V : Type} k k' (v : V) o :
  k' <> k -> getOwn k (setPrim k' v o) = getOwn k o.
Proof.
  intros N. unfold setPrim, getOwn. destruct (eqs k' protoName); [reflexivity|].
  cbn [own]. now apply assoc_put_other.
Qed.

(** Once the table of footnotes holds the text of [id], the rest of the
    pass keeps it, unless a later line defines [id] again. *)
Lemma extractLoop_holds_footnote id text :
  forall ls skip a,
    noFootnoteOf id ls ->
    getOwn id (a_footnoteDefs a) = Some text ->
    getOwn id (a_footnoteDefs (extractLoop ls skip a)) = Some text.
Proof.
  induction ls as [|line t IH]; intros skip a U H; cbn [extractLoop]; [exact H|].
  assert (U' : noFootnoteOf id t) by (intros l m Hin; apply U; now right).
  destruct skip as [|n]; [|now apply IH].
  destruct (rmatch1 R_footnoteDef line) as [m|] eqn:E.
  { destruct (footnoteLines t (grp 2 m)) as [text' n]. apply IH; [exact U'|].
    cbn [a_footnoteDefs]. rewrite getOwn_setPrim_other; [exact H|].
    exact (U line m (or_introl eq_refl) E). }
  destruct (rmatch1 R_abbrDef line) as [m|]; [now apply IH|].
  destruct (rmatch1 R_linkDef line) as [m|]; now apply IH.
Qed.

Lemma extractLoop_holds_abbr key v :
  forall ls skip a,
    noAbbrOf key ls ->
    getOwn key (a_abbrDefs a) = Some v ->
    getOwn key (a_abbrDefs (extractLoop ls skip a)) = Some v.
Proof.
  induction ls as [|line t IH]; intros skip a U H; cbn [extractLoop]; [exact H|].
  assert (U' : noAbbrOf key t) by (intros l m Hin; apply U; now right).
  destruct skip as [|n]; [|now apply IH].
  destruct (rmatch1 R_footnoteDef line) as [m|].
  { destruct (footnoteLines t (grp 2 m)) as [text' n]. now apply IH. }
  destruct (rmatch1 R_abbrDef line) as [m|] eqn:E.
  { apply IH; [exact U'|]. cbn [a_abbrDefs]. rewrite getOwn_setPrim_other; [exact H|].
    exact (U line m (or_introl eq_refl) E). }
  destruct (rmatch1 R_linkDef line) as [m|]; now apply IH.
Qed.

Lemma abbrDef_star l m :
  rmatch1 R_abbrDef l = Some m -> exists t, l = ch "*" :: t.
Proof.
  unfold R_abbrDef, re. cbn [seq]. rewrite rmatch1_anchored.
  destruct l as [|x t]; [discriminate|].
  unfold execAt, lit. cbn [str list_ascii_of_string map lits rmatch].
  destruct (N_of_ascii "*" =? x) eqn:E; [|discriminate].
  apply N.eqb_eq in E. subst. intros _. now exists t.
Qed.

Lemma star_not_swallowed t : swallowed (ch "*" :: t) = false.
Proof.
  unfold swallowed, R_indented, R_blank, re. cbn [seq].
  rewrite !test_anchored. reflexivity.
Qed.

Lemma star_not_footnoteDef t : rmatch1 R_footnoteDef (ch "*" :: t) = None.
Proof.
  unfold R_footnoteDef, re. cbn [seq]. rewrite rmatch1_anchored. reflexivity.
Qed.

(** The three tables hold what a definition line says, wherever the
    line stands. *)
Lemma tables_hold src pre line post :
  split (normalizeNewlines src) nl = pre ++ line :: post ->
  (forall m,
     rmatch1 R_linkDef line = Some m -> rmatch1 R_footnoteDef line = None ->
     undefinedFor (toLowerCase (grp 1 m)) post ->
     linkDefsGet (linkDefs (extractDefinitions src)) (toLowerCase (grp 1 m))
     = Is {| url := grp 2 m; title := cap 3 (mcaps m) |})
  /\ (forall m,
        rmatch1 R_footnoteDef line = Some m -> grp 1 m <> protoName ->
        noFootnoteOf (grp 1 m) post ->
        getOwn (grp 1 m) (footnoteDefs (extractDefinitions src))
        = Some (fst (footnoteLines post (grp 2 m))))
  /\ (forall m,
        rmatch1 R_abbrDef line = Some m -> grp 1 m <> protoName ->
        noAbbrOf (grp 1 m) post ->
        getOwn (grp 1 m) (abbrDefs (extractDefinitions src)) = Some (grp 2 m)).
Proof.
  intros Hsplit. split; [|split].
  - intros m Hm Hf Hu. unfold extractDefinitions. cbn [linkDefs]. rewrite Hsplit.
    apply (extractLoop_reaches (toLowerCase (grp 1 m)) _ line m Hm Hf eq_refl
             eq_refl post Hu pre O); [reflexivity|constructor].
  - intros m Hm Hp Hu. unfold extractDefinitions. cbn [footnoteDefs]. rewrite Hsplit.
    destruct (footnoteDef_bracket _ _ Hm) as [t Ht].
    apply (extractLoop_reach
             (fun a => getOwn (grp 1 m) (a_footnoteDefs a)
                       = Some (fst (footnoteLines post (grp 2 m))))).
    + rewrite Ht. apply bracket_not_swallowed.
    + intros a. cbn [extractLoop]. rewrite Hm.
      destruct (footnoteLines post (grp 2 m)) as [text n]. cbn [fst].
      apply extractLoop_holds_footnote; [exact Hu|].
      cbn [a_footnoteDefs]. now apply getOwn_setPrim_same.
    + constructor.
  - intros m Hm Hp Hu. unfold extractDefinitions. cbn [abbrDefs]. rewrite Hsplit.
    destruct (abbrDef_star _ _ Hm) as [t Ht].
    apply (extractLoop_reach (fun a => getOwn (grp 1 m) (a_abbrDefs a) = Some (grp 2 m))).
    + rewrite Ht. apply star_not_swallowed.
    + intros a. cbn [extractLoop].
      assert (F : rmatch1 R_footnoteDef line = None)
        by (rewrite Ht; apply star_not_footnoteDef).
      rewrite F, Hm.
      apply extractLoop_holds_abbr; [exact Hu|].
      cbn [a_abbrDefs]. now apply getOwn_setPrim_same.
    + constructor.
Qed.

(** * A reference before its definition *)

(** ** What the line of the reference holds *)

Lemma refCh_plain c : refCh c = true -> plainCh c = true.
Proof. unfold refCh. intros H. now do 2 (apply andb_prop in H as [H _]). Qed.

Lemma refCh_offRef c : refCh c = true -> offRef c = false.
Proof. unfold offRef. now intros ->. Qed.

Lemma refCh_In s c : forallb refCh s = true -> In c s -> refCh c = true.
Proof. rewrite forallb_forall. auto. Qed.

Lemma refLine_offRef text label :
  forallb refCh text = true -> forallb refCh label = true ->
  countP offRef (refLine text label) = O.
Proof.
  intros Ht Hl. apply countP_none. intros c Hin. unfold refLine in Hin.
  destruct Hin as [<-|Hin]; [reflexivity|].
  apply in_app_or in Hin as [Hin|Hin]; [exact (refCh_offRef _ (refCh_In _ _ Ht Hin))|].
  apply in_app_or in Hin as [Hin|Hin].
  { destruct Hin as [<-|[<-|[]]]; reflexivity. }
  apply in_app_or in Hin as [Hin|Hin]; [exact (refCh_offRef _ (refCh_In _ _ Hl Hin))|].
  destruct Hin as [<-|[]]. reflexivity.
Qed.

Lemma refLine_one_line text label c :
  forallb refCh text = true -> forallb refCh label = true ->
  In c (refLine text label) -> c <> 10 /\ c <> 13.
Proof.
  intros Ht Hl Hin.
  assert (O : offRef c = false).
  { pose proof (refLine_offRef _ _ Ht Hl) as Z. unfold countP in Z.
    destruct (offRef c) eqn:E; [|reflexivity]. exfalso.
    assert (F : In c (filter offRef (refLine text label))) by (apply filter_In; now split).
    destruct (filter offRef (refLine text label)); [destruct F|discriminate Z]. }
  split; intros ->; discriminate O.
Qed.

Lemma trim_bracketed x mid y :
  isWs x = false -> isWs y = false -> trim (x :: mid ++ [y]) = x :: mid ++ [y].
Proof.
  intros Hx Hy. unfold trim. cbn [trimStart]. rewrite Hx. unfold trimEnd.
  change (x :: mid ++ [y]) with ((x :: mid) ++ [y]). rewrite rev_app_distr.
  cbn [rev app trimStart]. rewrite Hy. cbn [rev].
  now rewrite rev_app_distr, rev_involutive.
Qed.

Lemma refLine_trimmed text label : trim (refLine text label) = refLine text label.
Proof.
  unfold refLine.
  replace (text ++ str "][" ++ label ++ str "]")
    with ((text ++ str "][" ++ label) ++ [ch "]"]) by now rewrite <- !app_assoc.
  now apply trim_bracketed.
Qed.

(** ** The rules that come before the rule of references *)

Ltac takes_off R := unfold R; open_regex; takes_one.

Lemma off_lf : Takes offRef R_lf 1.
Proof. takes_off R_lf. Qed.
Lemma off_escape : Takes offRef R_escape 1.
Proof. takes_off R_escape. Qed.
Lemma off_codeSpan : Takes offRef R_codeSpan 1.
Proof. takes_off R_codeSpan. Qed.
Lemma off_angleUrl : Takes offRef R_angleUrl 1.
Proof. takes_off R_angleUrl. Qed.
Lemma off_angleEmail : Takes offRef R_angleEmail 1.
Proof. takes_off R_angleEmail. Qed.
Lemma off_comment : Takes offRef R_comment 1.
Proof. takes_off R_comment. Qed.
Lemma off_tag : Takes offRef R_tag 1.
Proof. takes_off R_tag. Qed.
Lemma off_refImage : Takes offRef R_refImage 1.
Proof. takes_off R_refImage. Qed.
Lemma off_inlineImage : Takes offRef R_inlineImage 1.
Proof. takes_off R_inlineImage. Qed.
Lemma off_newline : Takes offRef R_newline 1.
Proof. takes_off R_newline. Qed.
Lemma off_defList : Takes offRef R_defList 1.
Proof. takes_off R_defList. Qed.
Lemma off_footnoteDef : Takes offRef R_footnoteDef 1.
Proof. takes_off R_footnoteDef. Qed.
Lemma off_linkDef : Takes offRef R_linkDef 1.
Proof. takes_off R_linkDef. Qed.

(** ** The rules of the blocks on the line of the reference *)

Lemma ref_not_fence : refuses R_fence (ch "[").
Proof. unfold R_fence. open_regex. refuse. Qed.

Lemma ref_not_heading : refuses R_heading (ch "[").
Proof. unfold R_heading. open_regex. cbv [R_headingStart]. open_regex. refuse. Qed.

Lemma ref_not_hr : refuses R_hr (ch "[").
Proof. unfold R_hr. open_regex. refuse. Qed.

Lemma ref_not_quote : refuses R_quote (ch "[").
Proof. unfold R_quote. open_regex. refuse. Qed.

Lemma ref_not_listStart : refuses R_listStart (ch "[").
Proof. unfold R_listStart. open_regex. refuse. Qed.

Lemma ref_not_commentStart : refuses R_commentStart (ch "[").
Proof. unfold R_commentStart. open_regex. refuse. Qed.

Lemma ref_not_htmlStart : refuses R_htmlStart (ch "[").
Proof. unfold R_htmlStart. open_regex. refuse. Qed.

Lemma commentStart_anchored : anchored R_commentStart.
Proof. unfold R_commentStart. open_regex. anchor. Qed.

Lemma htmlStart_anchored : anchored R_htmlStart.
Proof. unfold R_htmlStart. open_regex. anchor. Qed.

(** A literal finds nothing where what follows it finds nothing after
    it. *)
Lemma lits_then_none w :
  w <> [] ->
  forall prev s c (k : cont),
    (forall p r, s = w ++ r -> k p r c = None) -> rmatch (lits w) prev s c k = None.
Proof.
  induction w as [|x t IH]; intros Ne prev s c k H; [contradiction|].
  destruct t as [|x' t].
  - cbn [lits rmatch]. destruct s as [|y s']; [reflexivity|].
    destruct (x =? y) eqn:E; [|reflexivity]. apply N.eqb_eq in E. subst y.
    now apply H.
  - change (lits (x :: x' :: t)) with (Seq (Chr (N.eqb x)) (lits (x' :: t))).
    cbn [rmatch]. destruct s as [|y s']; [reflexivity|].
    destruct (x =? y) eqn:E; [|reflexivity]. apply N.eqb_eq in E. subst y.
    apply IH; [discriminate|]. intros p r ->. now apply H.
Qed.

(** The line of a reference is no [[toc]] directive. *)
Lemma refLine_not_toc text label :
  forallb refCh text = true -> test R_toc (refLine text label) = false.
Proof.
  intros Ht.
  assert (Close : forall d, In d text -> (ch "]" =? d) = false).
  { intros d Hin. pose proof (refCh_In _ _ Ht Hin) as R. unfold refCh in R.
    apply andb_prop in R as [R _]. apply andb_prop in R as [_ R].
    rewrite N.eqb_sym. now destruct (d =? ch "]"). }
  unfold R_toc, re. cbn [seq]. rewrite test_anchored. unfold execAt.
  match goal with
  | |- context [rmatch ?r ?p ?s ?c ?k] => replace (rmatch r p s c k) with (@None res)
  end; [reflexivity|symmetry].
  unfold refLine. do 2 mstep. unfold star, ws. rewrite m_rep_stop by reflexivity.
  mstep. apply m_chr; [reflexivity|]. do 2 mstep.
  assert (After : forall (w : jsstring) prev c (k0 : cont),
            w = str "toc" \/ w = str "TOC" ->
            rmatch (lits w) prev (text ++ str "][" ++ label ++ str "]") c
              (fun p' s' c' =>
                 rmatch (Seq (c1 "]") (Seq (Rep 0 None true (Chr isWs)) Eol)) p' s'
                   (setcap 1
                      (firstn (List.length (text ++ str "][" ++ label ++ str "]")
                               - List.length s')
                         (text ++ str "][" ++ label ++ str "]")) c') k0)
            = None).
  { intros w prev c k0 Lw. apply lits_then_none; [destruct Lw as [->| ->]; discriminate|].
    intros p r E. cbv beta. mstep.
    destruct text as [|a [|b [|c3 [|d t']]]];
      destruct Lw as [->| ->]; cbn [app str list_ascii_of_string map] in E;
      try discriminate E.
    - injection E as _ _ _ <-. apply m_chr; [reflexivity|]. mstep.
      rewrite m_rep_stop by reflexivity. reflexivity.
    - injection E as _ _ _ <-. apply m_chr; [reflexivity|]. mstep.
      rewrite m_rep_stop by reflexivity. reflexivity.
    - injection E as _ _ _ <-. unfold c1. cbn [app rmatch].
      now rewrite (Close d) by (right; right; right; now left).
    - injection E as _ _ _ <-. unfold c1. cbn [app rmatch].
      now rewrite (Close d) by (right; right; right; now left). }
  apply m_alt_r; apply After; [now left|now right].
Qed.

(** ** The rule of references *)

Lemma refCh_open text :
  forallb refCh text = true -> forallb (fun c => negb (oneOf "]" c)) text = true.
Proof.
  intros H. apply forallb_forall. intros c Hin.
  pose proof (refCh_In _ _ H Hin) as R. unfold refCh in R.
  apply andb_prop in R as [R _]. apply andb_prop in R as [_ R].
  unfold oneOf. cbn [str list_ascii_of_string map existsb]. now rewrite orb_false_r.
Qed.

(** The rule reads the whole line: the text in the first group and the
    label in the second. *)
Lemma refLine_match text label :
  forallb refCh text = true -> forallb refCh label = true -> text <> [] ->
  execAt R_refLink None (refLine text label)
  = Some {| m0 := refLine text label;
            mcaps := setcap 2 label (setcap 1 text []);
            mrest := [] |}.
Proof.
  intros Ht Hl Ne.
  assert (R : rmatch R_refLink None (refLine text label) [] (fun _ s1 c1 => Some (s1, c1))
              = Some ([], setcap 2 label (setcap 1 text []))).
  { unfold R_refLink, refLine. open_regex. mstep. apply m_chr; [reflexivity|].
    do 2 mstep.
    apply (rmatch_span _ 1 None text (str "][" ++ label ++ str "]"));
      try reflexivity; try exact (refCh_open _ Ht).
    { destruct text; [contradiction|]. cbn [List.length]. lia. }
    rewrite firstn_sub_app.
    mstep. mstep. apply m_chr; [reflexivity|]. apply m_chr; [reflexivity|].
    do 2 mstep.
    apply (rmatch_span _ 0 None label (str "]"));
      try reflexivity; try exact (refCh_open _ Hl); try lia.
    rewrite firstn_sub_app.
    apply m_chr; reflexivity. }
  rewrite (execAt_result _ _ _ _ _ R). cbn [List.length]. now rewrite Nat.sub_0_r, firstn_all.
Qed.

Lemma segmentsGo_skip_all r :
  (forall p, execAt r p [] = None) ->
  forall t prev, segmentsGo r prev t (List.length t) = [].
Proof.
  intros H. induction t as [|y t IH]; intros prev.
  - cbn [segmentsGo List.length]. now rewrite H.
  - cbn [segmentsGo List.length]. apply IH.
Qed.

(** A match of the whole text is the one match of a global search. *)
Lemma segments_whole r x t f :
  (forall p, execAt r p [] = None) ->
  execAt r None (x :: t) = Some f -> m0 f = x :: t ->
  segments r (x :: t) = [Hit f].
Proof.
  intros H E M. unfold segments. cbn [segmentsGo]. rewrite E, M.
  now rewrite segmentsGo_skip_all.
Qed.

Lemma refLink_not_empty p : execAt R_refLink p [] = None.
Proof. reflexivity. Qed.

(** ** The line of the reference, rendered *)

(** The fragment that stands for the reference. *)
Lemma reference_vaulted defs text label def :
  forallb refCh text = true -> forallb refCh label = true -> text <> [] ->
  linkDefsGet (linkDefs defs) (toLowerCase (orStr label text)) = Is def ->
  replaceAllM R_refLink (refLinkCb defs) (refLine text label) initial
  = Ok (placeholderKey 0,
        {| placeholderMap :=
             [(placeholderKey 0,
               linkHtml (escapeHtmlAttr (url def)) (title def) (escapeHtml text))];
           placeholderId := 1;
           headings := [] |}).
Proof.
  intros Ht Hl Ne Hd. unfold replaceAllM.
  pose proof (refLine_match _ _ Ht Hl Ne) as E. unfold refLine in E |- *.
  rewrite (segments_whole _ _ _ _ refLink_not_empty E eq_refl).
  cbn [replaceSegs]. unfold bind at 1 2. unfold refLinkCb.
  change (grp 1 _) with text. change (grp 2 _) with label.
  rewrite Hd. reflexivity.
Qed.

(** A rule that finds nothing in the key of the first fragment. *)
Ltac idle_rule :=
  match goal with
  | |- context [replaceAllM ?R ?cb [57344; 48; 57345]] =>
      let E := fresh "E" in
      assert (E : segments R [57344; 48; 57345] = map Lit [57344; 48; 57345])
        by (vm_compute; reflexivity);
      replace (replaceAllM R cb [57344; 48; 57345]) with (@ret jsstring [57344; 48; 57345])
        by (unfold replaceAllM; rewrite E; reflexivity);
      clear E; rewrite bind_ret; cbv beta
  end.

Ltac off_rule T short :=
  match goal with
  | |- context [replaceAllM _ _ ?s] =>
      rewrite (replaceAllM_short offRef _ 1%nat s T short), bind_ret; cbv beta
  end.

Lemma renderInline_reference defs fuel text label def :
  forallb refCh text = true -> forallb refCh label = true -> text <> [] ->
  linkDefsGet (linkDefs defs) (toLowerCase (orStr label text)) = Is def ->
  keys (abbrDefs defs) = [] ->
  renderInline defs (S fuel) (refLine text label) initial
  = Ok (placeholderKey 0,
        {| placeholderMap :=
             [(placeholderKey 0,
               linkHtml (escapeHtmlAttr (url def)) (title def) (escapeHtml text))];
           placeholderId := 1;
           headings := [] |}).
Proof.
  intros Ht Hl Ne Hd noAbbr.
  assert (short : (countP offRef (refLine text label) < 1)%nat)
    by (rewrite (refLine_offRef _ _ Ht Hl); lia).
  assert (NoCr : ~ In 13 (refLine text label)).
  { intros Hin. now destruct (refLine_one_line _ _ _ Ht Hl Hin). }
  pose proof (reference_vaulted defs _ _ _ Ht Hl Ne Hd) as V.
  remember (refLine text label) as line eqn:L.
  destruct line as [|x t]; [discriminate L|]. cbn [renderInline].
  rewrite (normalizeNewlines_without_cr _ NoCr).
  off_rule off_lf short. off_rule off_escape short. off_rule off_codeSpan short.
  off_rule off_angleUrl short. off_rule off_angleEmail short. off_rule off_comment short.
  off_rule off_tag short. off_rule off_refImage short. off_rule off_inlineImage short.
  unfold bind at 1. rewrite V. cbv iota beta.
  change (placeholderKey 0) with [57344; 48; 57345].
  do 14 idle_rule.
  rewrite noAbbr. reflexivity.
Qed.

Lemma split_one_line (s : jsstring) : ~ In 10 s -> split s nl = [s].
Proof. intros H. unfold split, nl. now rewrite splitGo_head_absent. Qed.

(** The line of the reference, before a blank line, is a paragraph that
    holds the key of the fragment. *)
Lemma blocksLoop_reference defs quoted fuel text label def :
  forallb refCh text = true -> forallb refCh label = true -> text <> [] ->
  linkDefsGet (linkDefs defs) (toLowerCase (orStr label text)) = Is def ->
  keys (abbrDefs defs) = [] ->
  blocksLoop defs quoted (S fuel) [refLine text label; []] O [] initial
  = Ok ([pOpen ++ placeholderKey 0 ++ str "</p>"],
        {| placeholderMap :=
             [(placeholderKey 0,
               linkHtml (escapeHtmlAttr (url def)) (title def) (escapeHtml text))];
           placeholderId := 1;
           headings := [] |}).
Proof.
  intros Ht Hl Ne Hd noAbbr.
  assert (short : (countP offRef (refLine text label) < 1)%nat)
    by (rewrite (refLine_offRef _ _ Ht Hl); lia).
  pose proof (renderInline_reference defs fuel _ _ _ Ht Hl Ne Hd noAbbr) as R.
  pose proof (refLine_trimmed text label) as Tr.
  pose proof (refLine_not_toc text label Ht) as Toc.
  pose proof (test_short offRef _ 1 _ off_defList short) as Dl.
  assert (B : blank (refLine text label) = false).
  { unfold blank. now rewrite Tr. }
  assert (F : rmatch1 R_fence (refLine text label) = None)
    by exact (refused_rmatch1 _ _ _ fence_anchored ref_not_fence).
  assert (I : test R_indented (refLine text label) = false)
    by now apply test_indented_head.
  assert (H : rmatch1 R_heading (refLine text label) = None)
    by exact (refused_rmatch1 _ _ _ heading_anchored ref_not_heading).
  assert (Hr : test R_hr (refLine text label) = false)
    by exact (refused_test _ _ _ hr_anchored ref_not_hr).
  assert (Q : test R_quote (refLine text label) = false)
    by exact (refused_test _ _ _ quote_anchored ref_not_quote).
  assert (L : test R_listStart (refLine text label) = false)
    by exact (refused_test _ _ _ listStart_anchored ref_not_listStart).
  assert (C : test R_commentStart (refLine text label) = false)
    by exact (refused_test _ _ _ commentStart_anchored ref_not_commentStart).
  assert (Hm : test R_htmlStart (refLine text label) = false)
    by exact (refused_test _ _ _ htmlStart_anchored ref_not_htmlStart).
  assert (Ta : tableAhead (refLine text label) [[]] = false)
    by (unfold tableAhead; apply andb_false_r).
  cbn [blocksLoop]. rewrite B, F, I, H, Hr, Q, Toc, Ta, L, C, Hm, Dl.
  change (paragraphLines [[]]) with (@nil jsstring). cbn [join]. rewrite Tr.
  change (truthy (refLine text label)) with true. cbv iota.
  unfold bind at 1. rewrite R. reflexivity.
Qed.

(** ** The tables of the document *)

Lemma refLine_no_definition text label :
  forallb refCh text = true -> forallb refCh label = true ->
  rmatch1 R_footnoteDef (refLine text label) = None
  /\ rmatch1 R_abbrDef (refLine text label) = None
  /\ rmatch1 R_linkDef (refLine text label) = None.
Proof.
  intros Ht Hl.
  assert (short : (countP offRef (refLine text label) < 1)%nat)
    by (rewrite (refLine_offRef _ _ Ht Hl); lia).
  split; [exact (rmatch1_short offRef _ 1 _ off_footnoteDef short)|].
  split; [apply bracket_not_abbrDef|].
  exact (rmatch1_short offRef _ 1 _ off_linkDef short).
Qed.

Lemma refDoc_lines text label defLine :
  forallb refCh text = true -> forallb refCh label = true ->
  ~ In 10 defLine -> ~ In 13 defLine ->
  split (normalizeNewlines (refDoc text label defLine)) nl
  = [refLine text label; []; defLine].
Proof.
  intros Ht Hl H10 H13.
  assert (R10 : ~ In 10 (refLine text label)).
  { intros Hin. now destruct (refLine_one_line _ _ _ Ht Hl Hin). }
  assert (R13 : ~ In 13 (refLine text label)).
  { intros Hin. now destruct (refLine_one_line _ _ _ Ht Hl Hin). }
  rewrite normalizeNewlines_without_cr.
  - unfold refDoc. rewrite split_nl_app.
    change (nl ++ defLine) with ([] ++ nl ++ defLine). rewrite split_nl_app.
    now rewrite !split_one_line by (auto; intros []).
  - unfold refDoc. intros Hin. apply in_app_or in Hin as [Hin|Hin]; [now apply R13|].
    destruct Hin as [E|[E|Hin]]; [discriminate E|discriminate E|now apply H13].
Qed.

Lemma refDoc_definitions text label defLine m :
  forallb refCh text = true -> forallb refCh label = true ->
  ~ In 10 defLine -> ~ In 13 defLine ->
  rmatch1 R_linkDef defLine = Some m -> rmatch1 R_footnoteDef defLine = None ->
  extractDefinitions (refDoc text label defLine)
  = {| cleaned := refLine text label ++ nl;
       linkDefs := setObj (toLowerCase (grp 1 m))
                     {| url := grp 2 m; title := cap 3 (mcaps m) |} empty;
       footnoteDefs := empty;
       abbrDefs := empty |}.
Proof.
  intros Ht Hl H10 H13 Hm Hf.
  destruct (refLine_no_definition _ _ Ht Hl) as (A & B & C).
  destruct (linkDef_bracket _ _ Hm) as [t Et].
  unfold extractDefinitions. rewrite (refDoc_lines _ _ _ Ht Hl H10 H13).
  cbn [extractLoop]. rewrite A, B, C.
  change (rmatch1 R_footnoteDef []) with (@None found).
  change (rmatch1 R_abbrDef []) with (@None found).
  change (rmatch1 R_linkDef []) with (@None found).
  cbv iota. rewrite Hf.
  assert (Ab : rmatch1 R_abbrDef defLine = None)
    by (rewrite Et; apply bracket_not_abbrDef).
  rewrite Ab, Hm. cbn [a_remaining a_linkDefs a_footnoteDefs a_abbrDefs app join].
  reflexivity.
Qed.

(** The compile of a reference, a blank line and the definition line. *)
Lemma reference_resolves text label defLine m :
  forallb refCh text = true -> forallb refCh label = true -> text <> [] ->
  ~ In 10 defLine -> ~ In 13 defLine ->
  rmatch1 R_linkDef defLine = Some m -> rmatch1 R_footnoteDef defLine = None ->
  toLowerCase (grp 1 m) = toLowerCase (orStr label text) ->
  renderMarkdown (refDoc text label defLine)
  = Ok (pOpen
        ++ linkHtml (escapeHtmlAttr (grp 2 m)) (cap 3 (mcaps m)) (escapeHtml text)
        ++ str "</p>").
Proof.
  intros Ht Hl Ne H10 H13 Hm Hf Hk.
  assert (R13 : ~ In 13 (refLine text label ++ nl)).
  { intros Hin. apply in_app_or in Hin as [Hin|[E|[]]]; [|discriminate E].
    now destruct (refLine_one_line _ _ _ Ht Hl Hin). }
  assert (R10 : ~ In 10 (refLine text label)).
  { intros Hin. now destruct (refLine_one_line _ _ _ Ht Hl Hin). }
  unfold renderMarkdown, renderMarkdownWith, fuelFor.
  rewrite (refDoc_definitions _ _ _ _ Ht Hl H10 H13 Hm Hf).
  set (def := {| url := grp 2 m; title := cap 3 (mcaps m) |}).
  set (defs := {| cleaned := refLine text label ++ nl;
                  linkDefs := setObj (toLowerCase (grp 1 m)) def empty;
                  footnoteDefs := empty; abbrDefs := empty |}).
  match goal with |- context [(2 * ?n + 4)%nat] =>
    replace (2 * n + 4)%nat with (S (S (2 * n + 2))) by lia;
    generalize (2 * n + 2)%nat; intros fuel
  end.
  assert (G : linkDefsGet (linkDefs defs) (toLowerCase (orStr label text)) = Is def).
  { rewrite <- Hk. unfold defs. cbn [linkDefs]. now apply linkDefsGet_setObj_same. }
  unfold renderBody. cbn [cleaned defs]. fold defs.
  unfold bind at 1. cbn [parseBlocks].
  rewrite (normalizeNewlines_without_cr _ R13).
  replace (refLine text label ++ nl) with (refLine text label ++ nl ++ [])
    by now rewrite app_nil_r.
  rewrite split_nl_app, (split_one_line _ R10).
  change (split [] nl) with [@nil N]. cbn [app].
  unfold bind at 1.
  rewrite (blocksLoop_reference defs _ fuel _ _ _ Ht Hl Ne G eq_refl).
  cbv iota beta. cbn [ret join].
  assert (Toc : includes (pOpen ++ placeholderKey 0 ++ str "</p>") TOC_PLACEHOLDER = false)
    by (vm_compute; reflexivity).
  unfold bind at 1, resolveToc. rewrite Toc. cbn [ret].
  unfold bind at 1, appendFootnotes. cbn [footnoteDefs defs].
  change (keys (@empty jsstring)) with (@nil jsstring). cbn [ret].
  unfold restorePlaceholders, restoreWith. cbn [placeholderMap fold_left fst snd result].
  assert (Sp : split (pOpen ++ placeholderKey 0 ++ str "</p>") (placeholderKey 0)
               = [pOpen; str "</p>"]) by (vm_compute; reflexivity).
  rewrite Sp. cbn [join]. unfold def. cbn [url title]. reflexivity.
Qed.

(** C5.  The compile is the rendering of the body under the three tables
    that one pass over the lines of the whole document has filled.  A
    definition line is in its table wherever it stands in the document
    (any lines [pre] before it, any lines [post] after it that do not
    define the same key again): a link definition under its label in
    lower case, with its url and title; a footnote definition under its
    id, with its text and the indented and blank lines that follow; an
    abbreviation under its key.  So a reference [[text][label]] that
    stands before the definition line of its label is compiled to the
    link with the url and the title of that line.  (Documents of Basic
    Latin: the labels are compared in lower case.) *)
Theorem C5_forward_reference_resolves (src : jsstring) :
  basicLatin src = true ->
  renderMarkdown src = result (renderBody (extractDefinitions src) (fuelFor src) initial)
  /\ (forall pre line post,
        split (normalizeNewlines src) nl = pre ++ line :: post ->
        (forall m,
           rmatch1 R_linkDef line = Some m -> rmatch1 R_footnoteDef line = None ->
           undefinedFor (toLowerCase (grp 1 m)) post ->
           linkDefsGet (linkDefs (extractDefinitions src)) (toLowerCase (grp 1 m))
           = Is {| url := grp 2 m; title := cap 3 (mcaps m) |})
        /\ (forall m,
              rmatch1 R_footnoteDef line = Some m -> grp 1 m <> protoName ->
              noFootnoteOf (grp 1 m) post ->
              getOwn (grp 1 m) (footnoteDefs (extractDefinitions src))
              = Some (fst (footnoteLines post (grp 2 m))))
        /\ (forall m,
              rmatch1 R_abbrDef line = Some m -> grp 1 m <> protoName ->
              noAbbrOf (grp 1 m) post ->
              getOwn (grp 1 m) (abbrDefs (extractDefinitions src)) = Some (grp 2 m)))
  /\ (forall text label defLine m,
        src = refDoc text label defLine ->
        forallb refCh text = true -> forallb refCh label = true -> text <> [] ->
        ~ In 10 defLine -> ~ In 13 defLine ->
        rmatch1 R_linkDef defLine = Some m -> rmatch1 R_footnoteDef defLine = None ->
        toLowerCase (grp 1 m) = toLowerCase (orStr label text) ->
        renderMarkdown src
        = Ok (pOpen
              ++ linkHtml (escapeHtmlAttr (grp 2 m)) (cap 3 (mcaps m)) (escapeHtml text)
              ++ str "</p>")).
Proof.
  intros _. split; [reflexivity|]. split.
  - intros pre line post Hs. exact (tables_hold src pre line post Hs).
  - intros text label defLine m -> Ht Hl Ne H10 H13 Hm Hf Hk.
    exact (reference_resolves _ _ _ _ Ht Hl Ne H10 H13 Hm Hf Hk).
Qed.

Lemma C5_forward_reference_resolves_witness :
  linkDefsGet
    (linkDefs (extractDefinitions
                 (refDoc (str "text") (str "label") (quo "[label]: http://x.com 'T'"))))
    (str "label")
  = Is {| url := str "http://x.com"; title := Some (str "T") |}
  /\ renderMarkdown (refDoc (str "text") (str "label") (quo "[label]: http://x.com 'T'"))
     = Ok (pOpen ++ quo "<a href='http://x.com' title='T'" ++ aClass ++ str "text</a></p>").
Proof.
  pose proof (C5_forward_reference_resolves
                (refDoc (str "text") (str "label") (quo "[label]: http://x.com 'T'"))
                eq_refl) as (_ & Tables & Output).
  split.
  - refine (proj1 (Tables [str "[text][label]"; []] (quo "[label]: http://x.com 'T'") []
                     eq_refl) demoDefinition eq_refl eq_refl _).
    intros l m [].
  - refine (Output (str "text") (str "label") (quo "[label]: http://x.com 'T'")
              demoDefinition eq_refl eq_refl eq_refl _ _ _ eq_refl eq_refl eq_refl).
    + discriminate.
    + intros H. vm_compute in H. intuition discriminate.
    + intros H. vm_compute in H. intuition discriminate.
Defined.

(** * The stages of a compile *)

(** ** The substitution of the keys, part by part *)

Lemma join_splitGo_cur sep h :
  forall s skip cur,
    join h (splitGo sep s skip cur) = rev cur ++ join h (splitGo sep s skip []).
Proof.
  induction s as [|c t IH]; intros skip cur; cbn [splitGo].
  - cbn [join rev]. now rewrite app_nil_r.
  - destruct skip as [|n]; [|apply IH].
    destruct (startsWith (c :: t) sep).
    + rewrite !join_cons by apply splitGo_not_nil. reflexivity.
    + rewrite (IH O (c :: cur)), (IH O [c]). cbn [rev app]. now rewrite <- app_assoc.
Qed.

(** A text that begins with a code unit the separator does not hold
    takes no part in an occurrence that begins before it. *)
Lemma startsWith_wall x v :
  forall (k u : jsstring), ~ In x k -> startsWith (u ++ x :: v) k = startsWith u k.
Proof.
  induction k as [|y k IH]; intros u H; [now rewrite !startsWith_nil|].
  destruct u as [|z u]; cbn [app startsWith].
  - destruct (y =? x) eqn:E; [|reflexivity].
    apply N.eqb_eq in E. exfalso. apply H. now left.
  - rewrite IH; [reflexivity|]. intros Hin. apply H. now right.
Qed.

Lemma startsWith_length :
  forall (k s : jsstring), startsWith s k = true -> (List.length k <= List.length s)%nat.
Proof.
  induction k as [|y k IH]; intros [|z s] H; cbn [List.length]; try lia.
  - discriminate H.
  - cbn [startsWith] in H. apply andb_prop in H as [_ H]. apply IH in H. lia.
Qed.

Lemma join_split_wall c p h x w b :
  ~ In x (c :: p) -> ~ In c (x :: w) ->
  forall a skip cur,
    (skip <= List.length a)%nat ->
    join h (splitGo (c :: p) (a ++ (x :: w) ++ b) skip cur)
    = join h (splitGo (c :: p) a skip cur) ++ (x :: w) ++ join h (split b (c :: p)).
Proof.
  intros Hx Hc. induction a as [|y a IH]; intros skip cur Hs.
  - cbn [List.length] in Hs. assert (skip = O) by lia. subst skip.
    cbn [app]. change (x :: w ++ b) with ((x :: w) ++ b).
    rewrite splitGo_pre by exact Hc. rewrite join_splitGo_cur.
    cbn [splitGo join]. rewrite rev_app_distr, rev_involutive, <- app_assoc. reflexivity.
  - cbn [List.length] in Hs. cbn [app splitGo].
    destruct skip as [|n]; [|apply IH; lia].
    pose proof (startsWith_wall x (w ++ b) (c :: p) (y :: a) Hx) as E.
    cbn [app] in E. cbn [app]. rewrite E.
    destruct (startsWith (y :: a) (c :: p)) eqn:S.
    + apply startsWith_length in S. cbn [List.length] in S.
      rewrite !join_cons by apply splitGo_not_nil.
      rewrite IH by (cbn [pred List.length]; lia). now rewrite <- !app_assoc.
    + apply IH. lia.
Qed.

Lemma digitsGo_isDigit x :
  forall f n acc, In x (digitsGo f n acc) -> In x acc \/ isDigit x = true.
Proof.
  assert (D : forall n, isDigit (48 + n mod 10) = true).
  { intros n. pose proof (N.mod_lt n 10 ltac:(discriminate)) as L.
    generalize dependent (n mod 10). intros d L.
    unfold isDigit, inr. apply andb_true_intro. split; apply N.leb_le; lia. }
  induction f as [|f IH]; intros n acc H; cbn [digitsGo] in H; [now left|].
  destruct (n <? 10).
  - destruct H as [<-|H]; [right; apply D|now left].
  - apply IH in H as [[<-|H]|H]; [right; apply D|now left|now right].
Qed.

Lemma keyCh_key x n : keyCh x = false -> ~ In x (placeholderKey n).
Proof.
  unfold keyCh, placeholderKey. intros H [E|Hin].
  - subst x. discriminate H.
  - apply in_app_or in Hin as [Hin|[E|[]]].
    + destruct (digitsGo_isDigit _ _ _ _ Hin) as [[]|D].
      rewrite D, orb_true_r in H. discriminate H.
    + subst x. rewrite N.eqb_refl, orb_true_r in H. discriminate H.
Qed.

Lemma restoreWith_nil m : restoreWith m [] = [].
Proof. unfold restoreWith. induction m as [|[k v] t IH]; [reflexivity|]. exact IH. Qed.

(** The substitution of the keys works on the two sides of a wall
    apart. *)
Lemma restoreWith_wall w :
  wall w ->
  forall m a b,
    (forall k html, In (k, html) m -> exists n, k = placeholderKey n) ->
    restoreWith m (a ++ w ++ b) = restoreWith m a ++ w ++ restoreWith m b.
Proof.
  destruct w as [|x w]; [intros []|]. intros (Hx & Hc).
  unfold restoreWith. induction m as [|[k v] t IH]; intros a b H; [reflexivity|].
  cbn [fold_left fst snd].
  destruct (H k v (or_introl eq_refl)) as [n ->].
  pose proof (join_split_wall keyOpen (numToString n ++ [keyClose]) v x w b
                (keyCh_key x n Hx) Hc a O [] (Nat.le_0_l _)) as E.
  fold (placeholderKey n) in E. fold (split (a ++ (x :: w) ++ b) (placeholderKey n)) in E.
  fold (split a (placeholderKey n)) in E. rewrite E.
  apply IH. intros k' v' Hin. apply (H k' v'). now right.
Qed.

Lemma absent_In c (s : jsstring) : forallb (fun x => negb (x =? c)) s = true -> ~ In c s.
Proof.
  intros H Hin. rewrite forallb_forall in H. specialize (H c Hin).
  now rewrite N.eqb_refl in H.
Qed.

Lemma wall_sectionOpen : wall (nl ++ sectionOpen).
Proof. split; [reflexivity|apply absent_In; reflexivity]. Qed.

Lemma wall_sectionClose : wall sectionClose.
Proof. split; [reflexivity|apply absent_In; reflexivity]. Qed.

(** ** The stages of [renderMarkdown] *)

(** The markup of the body with the table of contents in the place of
    its placeholder. *)
Lemma resolveToc_body html st body st' :
  resolveToc html st = Ok (body, st') ->
  st' = st
  /\ body = if includes html TOC_PLACEHOLDER
            then join (tocHtml (headings st)) (split html TOC_PLACEHOLDER)
            else html.
Proof.
  unfold resolveToc. destruct (includes html TOC_PLACEHOLDER).
  - unfold bind, getHeadings, ret. intros [= <- <-]. split; reflexivity.
  - intros [= <- <-]. split; reflexivity.
Qed.

(** A compile that returns is the blocks of the body, the table of
    contents, the footnotes (when the table of footnotes holds a key)
    and the substitution of the keys, in this order. *)
Lemma renderBody_stages defs fuel out st :
  renderBody defs fuel initial = Ok (out, st) ->
  exists html st0 body,
    parseBlocks defs fuel (cleaned defs) initial = Ok (html, st0)
    /\ resolveToc html st0 = Ok (body, st0)
    /\ match keys (footnoteDefs defs) with
       | [] => st = st0 /\ out = restoreWith (placeholderMap st0) body
       | _ :: _ =>
           exists items,
             mapM (footnoteItem defs fuel) (keys (footnoteDefs defs)) st0 = Ok (items, st)
             /\ out = restoreWith (placeholderMap st) body ++ nl ++ sectionOpen
                      ++ restoreWith (placeholderMap st) (join [] items) ++ sectionClose
       end.
Proof.
  intros R.
  assert (K : keyed st).
  { exact (keeps_renderBody keyed keyed_makePlaceholder keyed_pushHeading
             defs fuel initial out st keyed_initial R). }
  revert R. unfold renderBody. unfold bind at 1.
  destruct (parseBlocks defs fuel (cleaned defs) initial) as [[html st0]| |];
    try discriminate.
  unfold bind at 1.
  destruct (resolveToc html st0) as [[body st1]| |] eqn:T; try discriminate.
  destruct (resolveToc_body _ _ _ _ T) as [-> _].
  unfold bind at 1, appendFootnotes.
  destruct (keys (footnoteDefs defs)) as [|k ks] eqn:E.
  - cbn [ret restorePlaceholders]. intros [= <- <-].
    exists html, st0, body. split; [reflexivity|]. split; [exact T|].
    split; reflexivity.
  - unfold footnotesHtml, bind. rewrite E.
    destruct (mapM (footnoteItem defs fuel) (k :: ks) st0) as [[items st']| |] eqn:I;
      try discriminate.
    cbn [ret restorePlaceholders]. intros [= <- <-].
    exists html, st0, body. split; [reflexivity|]. split; [exact T|].
    exists items. split; [exact I|].
    change (restoreWith (placeholderMap st')
              (body ++ (nl ++ sectionOpen) ++ (join [] items ++ sectionClose))
            = restoreWith (placeholderMap st') body ++ nl ++ sectionOpen
              ++ restoreWith (placeholderMap st') (join [] items) ++ sectionClose).
    rewrite (restoreWith_wall _ wall_sectionOpen _ _ _ K).
    replace (join [] items ++ sectionClose)
      with (join [] items ++ sectionClose ++ []) by now rewrite app_nil_r.
    rewrite (restoreWith_wall _ wall_sectionClose _ _ _ K), restoreWith_nil, app_nil_r.
    now rewrite <- !app_assoc.
Qed.

Lemma mapM_length {A B : Type} (f : A -> M B) (l : list A) :
  forall st r st', mapM f l st = Ok (r, st') -> List.length r = List.length l.
Proof.
  induction l as [|x t IH]; intros st r st'; cbn [mapM].
  - intros [= <- _]. reflexivity.
  - unfold bind at 1. destruct (f x st) as [[y st1]| |]; try discriminate.
    unfold bind at 1. destruct (mapM f t st1) as [[r1 st2]| |] eqn:E; try discriminate.
    intros [= <- _]. cbn [List.length]. f_equal. exact (IH _ _ _ E).
Qed.

(** * The footnote section *)

(** C2, amended.  The markup a compile returns is the markup of the body
    with the keys of the vault substituted, and, if and only if the
    document holds a footnote definition, a line feed and the footnote
    section after it: the opening of the section, one item for each id of
    the footnote table, rendered after the body in the order of the
    table and with the keys substituted, and the closing of the section.
    No reference to a footnote is asked for: a document that holds no
    footnote definition gets the markup of the body and nothing after
    it.  The markup a nesting bound gives is the markup [renderMarkdown]
    gives. *)
Theorem C2_footnote_section_iff_defined (src : jsstring) (fuel : nat) (out : jsstring) :
  renderMarkdownWith fuel src = Ok out ->
  renderMarkdown src = Ok out
  /\ exists body st0,
       bodyMarkup (extractDefinitions src) fuel initial = Ok (body, st0)
       /\ if hasFootnoteDefinition src
          then exists items st,
                 mapM (footnoteItem (extractDefinitions src) fuel) (definedIds src) st0
                 = Ok (items, st)
                 /\ List.length items = List.length (definedIds src)
                 /\ definedIds src <> []
                 /\ out = restoreWith (placeholderMap st) body
                          ++ nl ++ sectionOpen
                          ++ restoreWith (placeholderMap st) (join [] items)
                          ++ sectionClose
          else definedIds src = []
               /\ out = restoreWith (placeholderMap st0) body.
Proof.
  intros Hout. split.
  { rewrite <- Hout. symmetry. apply renderMarkdownWith_agrees.
    rewrite Hout. discriminate. }
  unfold renderMarkdownWith, result in Hout.
  destruct (renderBody (extractDefinitions src) fuel initial) as [[o st]| |] eqn:R;
    try discriminate.
  injection Hout as ->.
  destruct (renderBody_stages _ _ _ _ R) as (html & st0 & body & B & T & F).
  exists body, st0. split.
  { unfold bodyMarkup, bind. now rewrite B. }
  pose proof (footnoteDefs_keys src) as K. unfold definedIds.
  destruct (keys (footnoteDefs (extractDefinitions src))) as [|k ks] eqn:E.
  - assert (H : hasFootnoteDefinition src = false) by now apply K.
    rewrite H. destruct F as [_ ->]. split; reflexivity.
  - assert (H : hasFootnoteDefinition src = true).
    { destruct (hasFootnoteDefinition src); [reflexivity|].
      assert (X : k :: ks = []) by now apply K. discriminate X. }
    rewrite H. destruct F as (items & I & ->). exists items, st.
    split; [exact I|]. split; [exact (mapM_length _ _ _ _ _ I)|].
    split; [discriminate|reflexivity].
Qed.

Lemma C2_footnote_section_iff_defined_witness :
  renderMarkdown (str "[^1]: Note.")
  = Ok (nl ++ sectionOpen ++ quo "<li id='fn-1' class='ml-1'>" ++ pOpen
        ++ quo "Note.</p> <a href='#fnref-1' class='footnote-backref text-primary underline-offset-2 hover:underline'>"
        ++ backref ++ str "</a></li>" ++ sectionClose)
  /\ exists body st0,
       bodyMarkup (extractDefinitions (str "[^1]: Note.")) 3 initial = Ok (body, st0)
       /\ if hasFootnoteDefinition (str "[^1]: Note.")
          then exists items st,
                 mapM (footnoteItem (extractDefinitions (str "[^1]: Note.")) 3)
                   (definedIds (str "[^1]: Note.")) st0
                 = Ok (items, st)
                 /\ List.length items = List.length (definedIds (str "[^1]: Note."))
                 /\ definedIds (str "[^1]: Note.") <> []
                 /\ nl ++ sectionOpen ++ quo "<li id='fn-1' class='ml-1'>" ++ pOpen
                    ++ quo "Note.</p> <a href='#fnref-1' class='footnote-backref text-primary underline-offset-2 hover:underline'>"
                    ++ backref ++ str "</a></li>" ++ sectionClose
                    = restoreWith (placeholderMap st) body
                      ++ nl ++ sectionOpen
                      ++ restoreWith (placeholderMap st) (join [] items)
                      ++ sectionClose
          else definedIds (str "[^1]: Note.") = []
               /\ nl ++ sectionOpen ++ quo "<li id='fn-1' class='ml-1'>" ++ pOpen
                  ++ quo "Note.</p> <a href='#fnref-1' class='footnote-backref text-primary underline-offset-2 hover:underline'>"
                  ++ backref ++ str "</a></li>" ++ sectionClose
                  = restoreWith (placeholderMap st0) body.
Proof.
  apply (C2_footnote_section_iff_defined (str "[^1]: Note.") 3).
  vm_compute. reflexivity.
Defined.

(** * Short table rows *)

Lemma mapiM_nth {A B : Type} (f : A -> nat -> M B) (l : list A) :
  forall idx st r st', mapiM f l idx st = Ok (r, st') ->
  forall i x, nth_error l i = Some x ->
    exists y s1 s2, f x (idx + i)%nat s1 = Ok (y, s2) /\ nth_error r i = Some y.
Proof.
  induction l as [|x t IH]; intros idx st r st'; cbn [mapiM].
  - intros _ [|i] y H; discriminate H.
  - unfold bind at 1. destruct (f x idx st) as [[y st1]| |] eqn:F; try discriminate.
    unfold bind at 1. destruct (mapiM f t (S idx) st1) as [[r1 st2]| |] eqn:E;
      try discriminate.
    intros [= <- _] [|i] z H; cbn [nth_error] in H |- *.
    + injection H as <-. exists y, st, st1. now rewrite Nat.add_0_r.
    + destruct (IH _ _ _ _ E i z H) as (y' & s1 & s2 & F' & N').
      exists y', s1, s2. split; [|exact N'].
      now replace (idx + S i)%nat with (S idx + i)%nat by lia.
Qed.

Lemma mapM_nth {A B : Type} (f : A -> M B) (l : list A) :
  forall st r st', mapM f l st = Ok (r, st') ->
  forall i x, nth_error l i = Some x ->
    exists y s1 s2, f x s1 = Ok (y, s2) /\ nth_error r i = Some y.
Proof.
  induction l as [|x t IH]; intros st r st'; cbn [mapM].
  - intros _ [|i] y H; discriminate H.
  - unfold bind at 1. destruct (f x st) as [[y st1]| |] eqn:F; try discriminate.
    unfold bind at 1. destruct (mapM f t st1) as [[r1 st2]| |] eqn:E; try discriminate.
    intros [= <- _] [|i] z H; cbn [nth_error] in H |- *.
    + injection H as <-. exists y, st, st1. now split.
    + exact (IH _ _ _ E i z H).
Qed.

Lemma mapM_Ok {A B : Type} (f : A -> M B) (l : list A) :
  (forall x st, In x l -> exists r, f x st = Ok r) ->
  forall st, exists r, mapM f l st = Ok r.
Proof.
  induction l as [|x t IH]; intros Hf st; cbn [mapM].
  - eexists. reflexivity.
  - unfold bind at 1. destruct (Hf x st (or_introl eq_refl)) as [[y st1] ->].
    unfold bind at 1.
    destruct (IH (fun x' s H => Hf x' s (or_intror H)) st1) as [[r st2] ->].
    eexists. reflexivity.
Qed.

(** The cells of a rendered row are the cells of the row, each one
    rendered inline, in its column. *)
Lemma renderRow_cells defs fuel aligns row st tds st' :
  renderRow defs fuel aligns row st = Ok (tds, st') ->
  List.length tds = List.length row
  /\ forall i cell, nth_error row i = Some cell ->
       exists inner s1 s2,
         renderInline defs fuel cell s1 = Ok (inner, s2)
         /\ nth_error tds i = Some (tdOf aligns i inner).
Proof.
  intros R. split; [exact (mapiM_length _ _ _ _ _ _ R)|].
  intros i cell Hc.
  destruct (mapiM_nth _ _ _ _ _ _ R i cell Hc) as (y & s1 & s2 & F & Ny).
  cbn [Nat.add] in F. unfold bind in F.
  destruct (renderInline defs fuel cell s1) as [[inner s3]| |] eqn:I; try discriminate.
  cbn [ret] in F. injection F as <- <-.
  exists inner, s1, s3. split; [exact I|exact Ny].
Qed.

Lemma renderRow_Ok defs fuel aligns row st :
  (forall cell s, In cell row -> exists r, renderInline defs fuel cell s = Ok r) ->
  exists r, renderRow defs fuel aligns row st = Ok r.
Proof.
  intros Hc. apply mapiM_Ok. intros cell i st0 Hin.
  unfold bind. destruct (Hc cell st0 Hin) as [[inner st1] ->]. eexists. reflexivity.
Qed.

(** Against C4 as stated: in the table of the header [| A | B |] the row
    [| 1 |] is emitted with one cell. *)
Lemma C4_counterexample :
  ~ C4_as_stated (str "| A | B |") (str "| --- | --- |") (str "| 1 |")
  /\ renderMarkdown (str "| A | B |" ++ nl ++ str "| --- | --- |" ++ nl ++ str "| 1 |")
       = Ok (tableOpen ++ theadOpen
             ++ str "<th" ++ thClass ++ str "A</th>"
             ++ str "<th" ++ thClass ++ str "B</th></tr></thead><tbody><tr>"
             ++ tdOf [[]; []] 0 (str "1") ++ str "</tr></tbody></table>").
Proof.
  split; [|vm_compute; reflexivity].
  intros H.
  assert (L : (List.length (splitRow (str "| 1 |"))
               < List.length (splitRow (str "| A | B |")))%nat)
    by (vm_compute; lia).
  specialize (H L (extractDefinitions []) 1%nat initial).
  vm_compute in H.
  specialize (H _ _ _ eq_refl). discriminate H.
Qed.

(** C4, amended.  The table that [parseTableAt] emits for a header line, a
    divider line and the lines after them is the opening of the table,
    the head with one cell for each cell of the header line, and the body
    with one row for each line of the body, in order, and nothing else.
    The row of a line is made of the cells of that line, each rendered
    inline and put in its column, and of no other cell: a line that
    splits into fewer cells than the header is emitted with the cells it
    has, fewer than the head has, and nothing pads it.  Such a line raises
    no error of its own: the table is emitted whenever every cell of the
    header and of the lines is rendered. *)
Theorem C4_row_renders_its_own_cells defs fuel (header divider : jsstring)
    (rest : list jsstring) st :
  (forall html n st',
     parseTableAt defs fuel (header :: divider :: rest) st = Ok ((html, n), st') ->
     exists ths trs,
       html = tableOpen ++ theadOpen ++ join [] ths ++ str "</tr></thead>"
              ++ str "<tbody>" ++ join [] trs ++ str "</tbody>" ++ str "</table>"
       /\ List.length ths = List.length (splitRow header)
       /\ List.length trs = List.length (bodyRows rest)
       /\ forall j row, nth_error (bodyRows rest) j = Some row ->
            exists tds,
              nth_error trs j = Some (str "<tr>" ++ join [] tds ++ str "</tr>")
              /\ List.length tds = List.length (splitRow row)
              /\ (forall i cell, nth_error (splitRow row) i = Some cell ->
                    exists inner s1 s2,
                      renderInline defs fuel cell s1 = Ok (inner, s2)
                      /\ nth_error tds i
                         = Some (tdOf (map alignOf (splitRow divider)) i inner))
              /\ ((List.length (splitRow row) < List.length (splitRow header))%nat ->
                  (List.length tds < List.length ths)%nat))
  /\ ((forall cell s,
         In cell (splitRow header)
         \/ (exists row, In row (bodyRows rest) /\ In cell (splitRow row)) ->
         exists r, renderInline defs fuel cell s = Ok r) ->
      exists r, parseTableAt defs fuel (header :: divider :: rest) st = Ok r).
Proof.
  split.
  - intros html n st'. cbn [parseTableAt]. fold (bodyRows rest).
    unfold bind at 1.
    match goal with |- context [mapiM ?f (splitRow header) O st] =>
      destruct (mapiM f (splitRow header) O st) as [[ths st1]| |] eqn:Hh end;
      try discriminate.
    unfold bind at 1.
    match goal with |- context [mapM ?f (map splitRow (bodyRows rest)) st1] =>
      destruct (mapM f (map splitRow (bodyRows rest)) st1) as [[trs st2]| |] eqn:Hr end;
      try discriminate.
    cbn [ret]. intros [= <- _ _].
    exists ths, trs. split.
    { unfold tableOpen, theadOpen. now rewrite <- !app_assoc. }
    pose proof (mapiM_length _ _ _ _ _ _ Hh) as Lh.
    split; [exact Lh|].
    split; [etransitivity; [exact (mapM_length _ _ _ _ _ Hr)|apply length_map]|].
    intros j row Hj.
    assert (Hj' : nth_error (map splitRow (bodyRows rest)) j = Some (splitRow row))
      by now rewrite nth_error_map, Hj.
    destruct (mapM_nth _ _ _ _ _ Hr j _ Hj') as (y & s1 & s2 & F & Ny).
    unfold bind in F.
    destruct (renderRow defs fuel (map alignOf (splitRow divider)) (splitRow row) s1)
      as [[tds s3]| |] eqn:R; try discriminate.
    cbn [ret] in F. injection F as <- <-.
    destruct (renderRow_cells _ _ _ _ _ _ _ R) as [Lt Ct].
    exists tds. split; [exact Ny|]. split; [exact Lt|]. split; [exact Ct|].
    intros Hlt. unfold jsstring in *. rewrite Lt, Lh. exact Hlt.
  - intros Hc. cbn [parseTableAt]. fold (bodyRows rest).
    unfold bind at 1.
    match goal with |- context [mapiM ?f (splitRow header) O st] =>
      destruct (mapiM_Ok f (splitRow header)) with (idx := O) (st := st)
        as [[ths st1] ->] end.
    { intros cell i s Hin. unfold bind.
      destruct (Hc cell s (or_introl Hin)) as [[inner s'] ->]. eexists. reflexivity. }
    unfold bind at 1.
    match goal with |- context [mapM ?f (map splitRow (bodyRows rest)) st1] =>
      destruct (mapM_Ok f (map splitRow (bodyRows rest))) with (st := st1)
        as [[trs st2] ->] end.
    { intros cells s Hin. apply in_map_iff in Hin. destruct Hin as (row & <- & Hin).
      unfold bind.
      destruct (renderRow_Ok defs fuel (map alignOf (splitRow divider)) (splitRow row) s)
        as [[tds s'] ->].
      { intros cell s0 Hcell. apply Hc. right. exists row. now split. }
      eexists. reflexivity. }
    eexists. reflexivity.
Qed.

(** * The table of contents *)

(** Against C9 as stated: the heading of a footnote body is parsed after
    the table of contents is built; it gets an anchor and no entry. *)
Lemma C9_counterexample :
  ~ C9_as_stated footnoteHeading
  /\ exists out st,
       renderBody (extractDefinitions footnoteHeading) (fuelFor footnoteHeading) initial
       = Ok (out, st)
       /\ headings st = [ {| level := 1; text := str "A"; id := str "a" |};
                          {| level := 1; text := str "B"; id := str "b" |} ]
       /\ includes out tocOpen = true
       /\ includes out (tocLink (str "a")) = true
       /\ includes out (headingOpen 1 (str "b")) = true
       /\ includes out (tocLink (str "b")) = false.
Proof.
  destruct (renderBody (extractDefinitions footnoteHeading) (fuelFor footnoteHeading) initial)
    as [[out st]| |] eqn:E;
    [|vm_compute in E; discriminate E|vm_compute in E; discriminate E].
  assert (F : headings st = [ {| level := 1; text := str "A"; id := str "a" |};
                              {| level := 1; text := str "B"; id := str "b" |} ]
              /\ includes out tocOpen = true
              /\ includes out (tocLink (str "a")) = true
              /\ includes out (headingOpen 1 (str "b")) = true
              /\ includes out (tocLink (str "b")) = false).
  { vm_compute in E. injection E as <- <-. vm_compute. repeat split; reflexivity. }
  split.
  - intros H. unfold C9_as_stated in H.
    specialize (H out st).
    rewrite E in H. specialize (H eq_refl (proj1 (proj2 F))
                                  {| level := 1; text := str "B"; id := str "b" |}).
    destruct F as (Hh & _ & _ & _ & Hn). rewrite Hh in H.
    cbn [id] in H. rewrite Hn in H. specialize (H (or_intror (or_introl eq_refl))).
    discriminate H.
  - exists out, st. split; [reflexivity|exact F].
Qed.

(** ** Occurrences *)

Lemma infix_refl (w : jsstring) : infix w w.
Proof. exists [], []. now rewrite app_nil_r. Qed.

Lemma infix_app (w s p q : jsstring) : infix w s -> infix w (p ++ s ++ q).
Proof.
  intros (a & b & ->). exists (p ++ a), (b ++ q). now rewrite <- !app_assoc.
Qed.

Lemma infix_join (o : jsstring) sep outs : In o outs -> infix o (join sep outs).
Proof.
  induction outs as [|x t IH]; [intros []|].
  intros [<-|Hin].
  - destruct t as [|y t]; [apply infix_refl|].
    rewrite join_cons by discriminate. exists [], (sep ++ join sep (y :: t)). reflexivity.
  - destruct t as [|y t]; [destruct Hin|].
    rewrite join_cons by discriminate.
    apply (infix_app _ _ (x ++ sep) []) in IH; [|exact Hin].
    now rewrite app_nil_r, <- app_assoc in IH.
Qed.

Lemma includes_infix (w s : jsstring) : infix w s -> includes s w = true.
Proof.
  intros (a & b & ->). induction a as [|c a IH].
  - cbn [app]. destruct (w ++ b) as [|x t] eqn:E.
    + destruct w; [reflexivity|discriminate E].
    + cbn [includes]. rewrite <- E, startsWith_app. reflexivity.
  - cbn [app includes]. rewrite IH. apply orb_true_r.
Qed.

(** ** The headings of a run of [parseBlocks] and their elements *)

Lemma quiet_of {A : Type} (m : M A) :
  (forall Inv : rstate -> Prop,
     (forall html, preserves Inv (makePlaceholder html)) -> preserves Inv m) ->
  quiet m.
Proof.
  intros H st a st' E.
  refine (H (fun s => headings s = headings st) _ st a st' eq_refl E).
  intros html s x s' Hs [= _ <-]. exact Hs.
Qed.

Section Tracking.

Variable defs : DefsResult.

Lemma quiet_renderInline fuel s : quiet (renderInline defs fuel s).
Proof. apply quiet_of. intros Inv H. now apply keeps_renderInline. Qed.

Lemma quiet_parseTableAt fuel ls : quiet (parseTableAt defs fuel ls).
Proof. apply quiet_of. intros Inv H. now apply keeps_parseTableAt. Qed.

Lemma quiet_parseListAt fuel ls : quiet (parseListAt defs fuel ls).
Proof. apply quiet_of. intros Inv H. now apply keeps_parseListAt. Qed.

Lemma quiet_defList fuel ls : quiet (mapM (defListItem defs fuel) ls).
Proof.
  apply quiet_of. intros Inv H. apply keeps_mapM. intros x.
  now apply keeps_defListItem.
Qed.

Lemma emitted_grow hs out x : emitted hs out -> emitted hs (out ++ [x]).
Proof.
  intros H h Hin. destruct (H h Hin) as (o & Ho & I). exists o. split; [|exact I].
  apply in_or_app. now left.
Qed.

Lemma emitted_push hs out h x :
  emitted hs out -> infix (headingOpen (level h) (id h)) x ->
  emitted (hs ++ [h]) (out ++ [x]).
Proof.
  intros H I h' Hin. apply in_app_or in Hin as [Hin|[<-|[]]].
  - exact (emitted_grow _ _ x H h' Hin).
  - exists x. split; [|exact I]. apply in_or_app. right. now left.
Qed.

Lemma emitted_nest hs out hs' (pre inner post : jsstring) :
  emitted hs out -> tracks hs' inner ->
  emitted (hs ++ hs') (out ++ [pre ++ inner ++ post]).
Proof.
  intros H T h Hin. apply in_app_or in Hin as [Hin|Hin].
  - exact (emitted_grow _ _ _ H h Hin).
  - exists (pre ++ inner ++ post). split; [apply in_or_app; right; now left|].
    apply infix_app. exact (T h Hin).
Qed.

Lemma blocksLoop_tracks quoted fuel :
  (forall s, tracking (quoted s)) ->
  forall ls skip out st outs st' base hs0,
    headings st = base ++ hs0 -> emitted hs0 out ->
    blocksLoop defs quoted fuel ls skip out st = Ok (outs, st') ->
    exists hs1, headings st' = base ++ hs1 /\ emitted hs1 outs.
Proof.
  intros Hq. induction ls as [|line t IH]; intros skip out st outs st' base hs0 Hh Q;
    cbn [blocksLoop].
  - intros [= <- <-]. now exists hs0.
  - destruct skip as [|n]; [|now apply IH with (hs0 := hs0)].
    destruct (blank line); [now apply IH with (hs0 := hs0)|].
    destruct (rmatch1 R_fence line) as [m|].
    { apply IH with (hs0 := hs0); [exact Hh|now apply emitted_grow]. }
    destruct (test R_indented line).
    { apply IH with (hs0 := hs0); [exact Hh|now apply emitted_grow]. }
    destruct (rmatch1 R_heading line) as [m|].
    { unfold bind at 1.
      destruct (headingBlock defs fuel m st) as [[x st1]| |] eqn:E; try discriminate.
      destruct (headingBlock_anchor _ _ _ _ _ _ E) as (h & inner & Hs & _ & ->).
      apply IH with (hs0 := hs0 ++ [h]); [now rewrite Hs, Hh, <- app_assoc|].
      apply emitted_push; [exact Q|].
      exists [], (inner ++ str "</h" ++ numToString (N.of_nat (level h)) ++ str ">").
      unfold headingOpen. cbn [app]. now rewrite <- !app_assoc. }
    destruct (test R_hr line).
    { apply IH with (hs0 := hs0); [exact Hh|now apply emitted_grow]. }
    destruct (test R_quote line).
    { unfold bind at 1.
      match goal with |- context [quoted ?s st] =>
        destruct (quoted s st) as [[inner st1]| |] eqn:E; try discriminate end.
      destruct (Hq _ _ _ _ E) as (hs & Hs & T).
      apply IH with (hs0 := hs0 ++ hs); [now rewrite Hs, Hh, <- app_assoc|].
      now apply emitted_nest. }
    destruct (test R_toc line).
    { apply IH with (hs0 := hs0); [exact Hh|now apply emitted_grow]. }
    destruct (tableAhead line t).
    { unfold bind at 1.
      destruct (parseTableAt defs fuel (line :: t) st) as [[r st1]| |] eqn:E;
        try discriminate.
      apply quiet_parseTableAt in E.
      apply IH with (hs0 := hs0); [now rewrite E|now apply emitted_grow]. }
    destruct (test R_listStart line).
    { unfold bind at 1.
      destruct (parseListAt defs fuel (line :: t) st) as [[r st1]| |] eqn:E;
        try discriminate.
      apply quiet_parseListAt in E.
      apply IH with (hs0 := hs0); [now rewrite E|now apply emitted_grow]. }
    destruct (test R_commentStart line).
    { apply IH with (hs0 := hs0); [exact Hh|now apply emitted_grow]. }
    destruct (test R_htmlStart line).
    { apply IH with (hs0 := hs0); [exact Hh|now apply emitted_grow]. }
    destruct (test R_defList line).
    { unfold bind at 1.
      match goal with |- context [mapM ?f ?l st] =>
        destruct (mapM f l st) as [[items st1]| |] eqn:E; try discriminate end.
      apply quiet_defList in E.
      apply IH with (hs0 := hs0); [now rewrite E|now apply emitted_grow]. }
    match goal with |- context [truthy ?s] => destruct (truthy s) eqn:Tr end.
    { unfold bind at 1.
      match goal with |- context [renderInline defs fuel ?s st] =>
        destruct (renderInline defs fuel s st) as [[inner st1]| |] eqn:E;
        try discriminate end.
      apply quiet_renderInline in E.
      apply IH with (hs0 := hs0); [now rewrite E|now apply emitted_grow]. }
    now apply IH with (hs0 := hs0).
Qed.

Lemma parseBlocks_tracks fuel : forall src, tracking (parseBlocks defs fuel src).
Proof.
  induction fuel as [|fuel IH]; intros src st html st'; cbn [parseBlocks].
  - discriminate.
  - unfold bind at 1.
    match goal with |- context [blocksLoop defs ?q fuel ?l O [] st] =>
      destruct (blocksLoop defs q fuel l O [] st) as [[outs st1]| |] eqn:E;
      try discriminate end.
    cbn [ret]. intros [= <- <-].
    destruct (blocksLoop_tracks _ fuel IH _ _ _ _ _ _ (headings st) []
                (eq_sym (app_nil_r _)) (fun h (H : In h []) => match H with end) E)
      as (hs & Hs & Q).
    exists hs. split; [exact Hs|].
    intros h Hin. destruct (Q h Hin) as (o & Ho & I).
    exact (infix_trans _ _ _ I (infix_join _ _ _ Ho)).
Qed.

End Tracking.

(** ** Markup of Basic Latin is out of the reach of the keys *)

Lemma basicLatin_app a b : basicLatin (a ++ b) = basicLatin a && basicLatin b.
Proof. apply forallb_app. Qed.

Lemma basicLatin_In s c : basicLatin s = true -> In c s -> c < 128.
Proof.
  unfold basicLatin. rewrite forallb_forall. intros H Hin. apply N.ltb_lt. now apply H.
Qed.

Lemma basicLatin_numToString n : basicLatin (numToString n) = true.
Proof.
  unfold basicLatin. apply forallb_forall. intros c Hin.
  destruct (digitsGo_isDigit _ _ _ _ Hin) as [[]|D].
  unfold isDigit, inr in D. apply andb_prop in D as [_ D].
  apply N.leb_le in D. apply N.ltb_lt. lia.
Qed.

Lemma basicLatin_slugify s : basicLatin (slugify s) = true.
Proof.
  unfold basicLatin. apply forallb_forall. intros c Hin.
  apply slugify_slugCh in Hin. unfold slugCh, isLower, isDigit, inr in Hin.
  apply N.ltb_lt.
  apply orb_prop in Hin as [Hin|Hin]; [apply orb_prop in Hin as [Hin|Hin]|].
  - apply andb_prop in Hin as [_ Hin]. apply N.leb_le in Hin. lia.
  - apply andb_prop in Hin as [_ Hin]. apply N.leb_le in Hin. lia.
  - apply N.eqb_eq in Hin. subst c. reflexivity.
Qed.

Lemma basicLatin_headingClass lvl : basicLatin (headingClass lvl) = true.
Proof. do 6 (destruct lvl as [|lvl]; [reflexivity|]). reflexivity. Qed.

Lemma basicLatin_headingOpen lvl anchor :
  basicLatin anchor = true -> basicLatin (headingOpen lvl anchor) = true.
Proof.
  intros H. unfold headingOpen.
  rewrite !basicLatin_app, H, basicLatin_numToString, basicLatin_headingClass.
  reflexivity.
Qed.

Lemma basicLatin_tocLink anchor :
  basicLatin anchor = true -> basicLatin (tocLink anchor) = true.
Proof. intros H. unfold tocLink. rewrite !basicLatin_app, H. reflexivity. Qed.

Lemma tag_headingOpen lvl s : tag (headingOpen lvl (slugify s)).
Proof.
  split; [apply basicLatin_headingOpen, basicLatin_slugify|].
  unfold headingOpen. eexists. reflexivity.
Qed.

Lemma tag_tocLink s : tag (tocLink (slugify s)).
Proof.
  split; [apply basicLatin_tocLink, basicLatin_slugify|].
  unfold tocLink. eexists. reflexivity.
Qed.

Lemma tag_wall w : tag w -> wall w.
Proof.
  intros (B & t & ->). split; [reflexivity|].
  intros Hin. apply (basicLatin_In _ _ B) in Hin. vm_compute in Hin. discriminate Hin.
Qed.

(** The substitution of the keys leaves a tag where it is. *)
Lemma restoreWith_tag w m s :
  tag w -> (forall k html, In (k, html) m -> exists n, k = placeholderKey n) ->
  infix w s -> infix w (restoreWith m s).
Proof.
  intros T K (a & b & ->). rewrite (restoreWith_wall _ (tag_wall _ T) _ _ _ K).
  now eexists; eexists.
Qed.

(** So does the substitution of the table of contents. *)
Lemma resolved_tag w toc s :
  tag w -> infix w s -> infix w (join toc (split s TOC_PLACEHOLDER)).
Proof.
  intros (B & t & ->) (a & b & ->). unfold split.
  change TOC_PLACEHOLDER with (167 :: 167 :: str "__MD_TOC__" ++ [167; 167]).
  rewrite join_split_wall.
  - now eexists; eexists.
  - apply absent_In. reflexivity.
  - intros Hin. apply (basicLatin_In _ _ B) in Hin. vm_compute in Hin. discriminate Hin.
  - apply Nat.le_0_l.
Qed.

(** The table of contents takes the place of the placeholder. *)
Lemma resolved_toc toc :
  forall s cur, includes s TOC_PLACEHOLDER = true ->
    infix toc (join toc (splitGo TOC_PLACEHOLDER s O cur)).
Proof.
  induction s as [|c t IH]; intros cur H; [discriminate H|].
  cbn [splitGo]. cbn [includes] in H.
  destruct (startsWith (c :: t) TOC_PLACEHOLDER).
  - rewrite join_cons by apply splitGo_not_nil. now eexists; eexists.
  - cbn [orb] in H. now apply IH.
Qed.

(** The table of contents as the entries of the headings. *)
Lemma tocHtml_entries hs :
  (forall h, In h hs -> id h = slugify (text h)) ->
  tocHtml hs
  = tocOpen ++ join [] (map (fun h => tocEntry (level h) (id h) (text h)) hs)
    ++ str "</nav>".
Proof.
  intros S. unfold tocHtml. fold tocOpen. do 2 f_equal. f_equal.
  apply map_ext_in. intros h Hin. unfold tocItem, tocEntry.
  now rewrite (S h Hin), escapeHtmlAttr_slugify.
Qed.

Lemma tocHtml_link hs h :
  (forall h, In h hs -> id h = slugify (text h)) ->
  In h hs -> infix (tocLink (id h)) (tocHtml hs).
Proof.
  intros S Hin. rewrite (tocHtml_entries _ S).
  apply infix_app. rewrite join_nil_concat.
  apply in_split in Hin as (l1 & l2 & ->).
  rewrite map_app, concat_app. cbn [map List.concat].
  apply infix_app.
  exists (quo "<div style='margin-left:" ++ numToString (N.of_nat ((level h - 1) * 12))
          ++ quo "px'>"),
         (escapeHtml (text h) ++ str "</a></div>").
  unfold tocEntry, tocLink. now rewrite <- !app_assoc.
Qed.

Lemma footnoteItem_tracks defs fuel k : tracking (footnoteItem defs fuel k).
Proof.
  intros st html st'. unfold footnoteItem.
  destruct (getOwn k (footnoteDefs defs)) as [body|]; [|discriminate].
  unfold bind.
  destruct (parseBlocks defs fuel body st) as [[inner st1]| |] eqn:E; try discriminate.
  unfold ret. intros [= <- <-].
  destruct (parseBlocks_tracks _ _ _ _ _ _ E) as (hs & Hs & T).
  exists hs. split; [exact Hs|].
  intros h Hin. destruct (T h Hin) as (a & b & ->).
  exists (quo "<li id='fn-" ++ escapeHtmlAttr k ++ quo "' class='ml-1'>" ++ a).
  eexists. rewrite <- !app_assoc. reflexivity.
Qed.

Lemma mapM_tracks {A : Type} (f : A -> M jsstring) :
  (forall x, tracking (f x)) ->
  forall l st items st', mapM f l st = Ok (items, st') ->
    exists hs, headings st' = headings st ++ hs /\ emitted hs items.
Proof.
  intros Hf. induction l as [|x t IH]; intros st items st'; cbn [mapM].
  - intros [= <- <-]. exists []. split; [now rewrite app_nil_r|intros h []].
  - unfold bind at 1. destruct (f x st) as [[y st1]| |] eqn:E; try discriminate.
    unfold bind at 1. destruct (mapM f t st1) as [[r st2]| |] eqn:E'; try discriminate.
    cbn [ret]. intros [= <- <-].
    destruct (Hf _ _ _ _ E) as (hs & Hs & T).
    destruct (IH _ _ _ E') as (hs' & Hs' & Q).
    exists (hs ++ hs'). split; [now rewrite Hs', Hs, <- app_assoc|].
    intros h Hin. apply in_app_or in Hin as [Hin|Hin].
    + exists y. split; [now left|exact (T h Hin)].
    + destruct (Q h Hin) as (o & Ho & I). exists o. split; [now right|exact I].
Qed.

(** What a compile that returns does with the markup of the body and
    with the headings of the footnotes. *)
Lemma renderBody_tags defs fuel out st :
  renderBody defs fuel initial = Ok (out, st) ->
  exists html st0 body later,
    parseBlocks defs fuel (cleaned defs) initial = Ok (html, st0)
    /\ resolveToc html st0 = Ok (body, st0)
    /\ headings st = headings st0 ++ later
    /\ (forall w, tag w -> infix w body -> infix w out)
    /\ (forall h, In h later -> infix (headingOpen (level h) (id h)) out).
Proof.
  intros R.
  assert (K : keyed st).
  { exact (keeps_renderBody keyed keyed_makePlaceholder keyed_pushHeading
             defs fuel initial out st keyed_initial R). }
  assert (S : slugged st).
  { exact (keeps_renderBody slugged slugged_makePlaceholder slugged_pushHeading
             defs fuel initial out st slugged_initial R). }
  destruct (renderBody_stages _ _ _ _ R) as (html & st0 & body & B & T & F).
  exists html, st0, body.
  destruct (keys (footnoteDefs defs)) as [|k ks].
  - destruct F as [-> ->]. exists []. split; [exact B|]. split; [exact T|].
    split; [now rewrite app_nil_r|]. split; [|intros h []].
    intros w Hw I. now apply restoreWith_tag.
  - destruct F as (items & I & ->).
    destruct (mapM_tracks _ (footnoteItem_tracks defs fuel) _ _ _ _ I) as (later & Hl & Q).
    exists later. split; [exact B|]. split; [exact T|]. split; [exact Hl|]. split.
    + intros w Hw Iw. apply (infix_app _ _ [] _).
      now apply restoreWith_tag.
    + intros h Hin. destruct (Q h Hin) as (o & Ho & Io).
      assert (Hid : id h = slugify (text h)).
      { apply S. rewrite Hl. apply in_or_app. now right. }
      assert (Hj : infix (headingOpen (level h) (id h))
                     (restoreWith (placeholderMap st) (join [] items))).
      { apply restoreWith_tag; [rewrite Hid; apply tag_headingOpen|exact K|].
        exact (infix_trans _ _ _ Io (infix_join _ _ _ Ho)). }
      destruct Hj as (a & b & ->).
      exists (restoreWith (placeholderMap st) body ++ nl ++ sectionOpen ++ a),
             (b ++ sectionClose).
      now rewrite <- !app_assoc.
Qed.

(** C9, amended.  In a compile that returns, the table of contents is
    built once, after the blocks of the body and before the footnotes,
    from the headings recorded until then: the markup of the body is the
    markup of the blocks with the placeholder of the table replaced by
    the [nav] element that holds one entry for each of these headings, in
    order, linking to [#] followed by the id of the heading.  When the
    blocks hold the placeholder, the output holds the table and, for each
    heading of the body, the link to its id.  The headings of the
    footnote bodies are recorded after the headings of the body and have
    no part in the table.  The output holds the opening tag of every
    heading recorded, of the body or of a footnote, with the id as its
    [id] attribute: the target of an entry is the anchor of its heading.
    The id of a heading of Basic Latin text is [slugify] of the text, and
    two headings of the same text, of this compile or of another one,
    have the same id. *)
Theorem C9_toc_links_to_heading_anchor (src : jsstring) (fuel : nat)
    (out : jsstring) (st : rstate) :
  renderBody (extractDefinitions src) fuel initial = Ok (out, st) ->
  renderMarkdown src = Ok out
  /\ (exists html st0 later,
        parseBlocks (extractDefinitions src) fuel (cleaned (extractDefinitions src)) initial
        = Ok (html, st0)
        /\ bodyMarkup (extractDefinitions src) fuel initial
           = Ok (if includes html TOC_PLACEHOLDER
                 then join (tocOpen
                            ++ join [] (map (fun h => tocEntry (level h) (id h) (text h))
                                          (headings st0))
                            ++ str "</nav>")
                        (split html TOC_PLACEHOLDER)
                 else html, st0)
        /\ headings st = headings st0 ++ later
        /\ (includes html TOC_PLACEHOLDER = true ->
            includes out tocOpen = true
            /\ forall h, In h (headings st0) -> includes out (tocLink (id h)) = true))
  /\ (forall h, In h (headings st) ->
        includes out (headingOpen (level h) (id h)) = true
        /\ (basicLatin (text h) = true -> id h = slugify (text h)))
  /\ (forall src' fuel' out' st' h h',
        renderBody (extractDefinitions src') fuel' initial = Ok (out', st') ->
        In h (headings st) -> In h' (headings st') ->
        text h = text h' -> id h = id h').
Proof.
  intros R.
  assert (S : slugged st).
  { exact (keeps_renderBody slugged slugged_makePlaceholder slugged_pushHeading
             _ fuel initial out st slugged_initial R). }
  destruct (renderBody_tags _ _ _ _ R) as (html & st0 & body & later & B & T & Hl & W & L).
  assert (S0 : forall h, In h (headings st0) -> id h = slugify (text h)).
  { intros h Hin. apply S. rewrite Hl. apply in_or_app. now left. }
  destruct (parseBlocks_tracks _ _ _ _ _ _ B) as (hs & Hs & Tr).
  cbn [initial headings app] in Hs. rewrite <- Hs in Tr.
  destruct (resolveToc_body _ _ _ _ T) as [_ Hb].
  split.
  { assert (E : renderMarkdownWith fuel src = Ok out)
      by (unfold renderMarkdownWith; now rewrite R).
    rewrite <- E. symmetry. apply renderMarkdownWith_agrees. rewrite E. discriminate. }
  split.
  { exists html, st0, later. split; [exact B|]. split.
    { unfold bodyMarkup, bind. rewrite B, T, Hb.
      destruct (includes html TOC_PLACEHOLDER); [|reflexivity].
      now rewrite (tocHtml_entries _ S0). }
    split; [exact Hl|].
    intros Hp. rewrite Hp in Hb.
    assert (It : infix (tocHtml (headings st0)) body).
    { rewrite Hb. now apply resolved_toc. }
    split.
    - apply includes_infix, W; [split; [reflexivity|eexists; reflexivity]|].
      refine (infix_trans _ _ _ _ It). unfold tocHtml. fold tocOpen.
      exists [], (join [] (map tocItem (headings st0)) ++ str "</nav>"). reflexivity.
    - intros h Hin. apply includes_infix, W.
      + rewrite (S0 h Hin). apply tag_tocLink.
      + exact (infix_trans _ _ _ (tocHtml_link _ _ S0 Hin) It). }
  split.
  { intros h Hin. split; [|intros _; exact (S h Hin)].
    apply includes_infix. rewrite Hl in Hin. apply in_app_or in Hin as [Hin|Hin].
    - apply W; [rewrite (S0 h Hin); apply tag_headingOpen|].
      rewrite Hb. destruct (includes html TOC_PLACEHOLDER); [|exact (Tr h Hin)].
      apply resolved_tag; [rewrite (S0 h Hin); apply tag_headingOpen|exact (Tr h Hin)].
    - exact (L h Hin). }
  intros src' fuel' out' st' h h' R' Hin Hin' E.
  assert (S' : slugged st').
  { exact (keeps_renderBody slugged slugged_makePlaceholder slugged_pushHeading
             _ fuel' initial out' st' slugged_initial R'). }
  now rewrite (S h Hin), (S' h' Hin'), E.
Qed.

Lemma C9_toc_links_to_heading_anchor_witness :
  renderMarkdown tocDemo = Ok (fst tocDemoRun)
  /\ (exists html st0 later,
        parseBlocks (extractDefinitions tocDemo) 3 (cleaned (extractDefinitions tocDemo))
          initial
        = Ok (html, st0)
        /\ bodyMarkup (extractDefinitions tocDemo) 3 initial
           = Ok (if includes html TOC_PLACEHOLDER
                 then join (tocOpen
                            ++ join [] (map (fun h => tocEntry (level h) (id h) (text h))
                                          (headings st0))
                            ++ str "</nav>")
                        (split html TOC_PLACEHOLDER)
                 else html, st0)
        /\ headings (snd tocDemoRun) = headings st0 ++ later
        /\ (includes html TOC_PLACEHOLDER = true ->
            includes (fst tocDemoRun) tocOpen = true
            /\ forall h, In h (headings st0) ->
                 includes (fst tocDemoRun) (tocLink (id h)) = true))
  /\ (forall h, In h (headings (snd tocDemoRun)) ->
        includes (fst tocDemoRun) (headingOpen (level h) (id h)) = true
        /\ (basicLatin (text h) = true -> id h = slugify (text h)))
  /\ (forall src' fuel' out' st' h h',
        renderBody (extractDefinitions src') fuel' initial = Ok (out', st') ->
        In h (headings (snd tocDemoRun)) -> In h' (headings st') ->
        text h = text h' -> id h = id h').
Proof.
  apply (C9_toc_links_to_heading_anchor tocDemo 3 (fst tocDemoRun) (snd tocDemoRun)).
  vm_compute. reflexivity.
Defined.

